(* ===== verification/_CoqProject ===== *)
-Q . S2P
Prelude.v
LeastSquares.v
Enrichment.v
Interp.v
NodeVec.v
Prolong.v
NodeDeriv.v
Recon.v
Refine.v
Quad.v
KS.v
Estimators.v
QuadEst.v
Geometry.v
IndexWeight.v
TriQueue.v
EdgeHash.v
PSLG.v
QuadTree.v
Curvature.v
Delaunay.v
Strain.v
