(* ===== verification/Prelude.v ===== *)
(** * A verification development of TMR's solution reconstruction, error
      estimation and triangulation

    The repository (src/) holds three groups of code.  [TMRGeometry.c]
    reconstructs a higher-order solution field from a finite-element
    solution (nodal weights, nodal derivatives, a least-squares patch
    reconstruction with enrichment functions, the refined field) and uses
    it in two error estimators and a KS stress aggregate; it also has a
    curvature functional on a design field and the base behaviour of the
    curve and surface classes.  [TMRTriangularize.c]
    builds planar triangulations with a triangle list, a hash table of
    directed edges, a queue of triangles and a sorted list of constraint
    segments.  [src/unnamed] holds [TMRIndexWeight::uniqueSort], the
    surface derivative and the (commented-out) topology creators.

    Files, in dependency order, and what they model:
    - [Prelude] (this file): scalars as a ring interface [RingOps] at [Q]
      and at dual numbers (for exact derivatives), lists of rationals up
      to [Qeq] with [Proper] instances, the [tmr_scope] notations, and the
      shared list and sum lemmas.
    - [LeastSquares]: the contract of LAPACK [dgelss] (outside src/) as a
      relation: normal equations and minimum norm.
    - [Enrichment]: [getNum2dEnrich], [getNum3dEnrich] and the enrichment
      functions with their derivative overloads (lines 733-1128).
    - [Interp]: the forest's knots and Lagrange basis (from the spec) and
      [computeJacobianTrans3D].
    - [NodeVec]: the [TACSBVec] collaborator on one process (from the
      spec) and [computeLocalWeights].
    - [Prolong]: both overloads of [TMR_ComputeInterpSolution].
    - [NodeDeriv]: [computeNodeDeriv3D].
    - [Recon]: [computeElemRecon3D].
    - [Refine]: [addRefinedSolution3D] and [TMR_ComputeReconSolution] for
      octrees, with the allocation of [uref].
    - [Quad]: the quadtree path: [computeJacobianTrans2D],
      [computeNodeDeriv2D], [computeElemRecon2D], [addRefinedSolution2D]
      and [TMR_ComputeReconSolution] for quadtrees.
    - [KS]: the two sweeps of [TMRStressConstraint::evalConstraint] over
      the reals.
    - [Estimators]: [TMR_StrainEnergyErrorEst] and [TMR_AdjointErrorEst]
      for octrees, and the quadtree corner loop.
    - [QuadEst]: both estimators for quadtrees.
    - [Geometry]: [TMRCurve]/[TMRSurface] derivatives, [integrateEdge],
      vertices and the projected curve.
    - [IndexWeight]: [TMRIndexWeight], [compare_weights],
      [compare_integers] (32-bit wrap) and [uniqueSort], [qsort] by its
      contract.
    - [TriQueue]: the [TriQueue] linked list over an explicit heap.
    - [EdgeHash]: the chained edge hash table and the triangle list of
      [TMRTriangularize] ([addTriangle], [deleteTriangle], [completeMe],
      [deleteTrianglesFromList]), over stdpp's [gmap].
    - [PSLG]: [compare_edges], [setUpPSLGEdges] and [edgeInPSLG], with
      [bsearch] as the C library's halving loop.
    - [QuadTree]: the point quadtree [TMRQuadNode] ([initialize],
      [addNode], [deleteNode], [findClosest]).
    - [Curvature]: [TMRCurvatureConstraint]: [evalPoly],
      [estimateHessian], both [evalCurvature] overloads, [evalCurvDeriv],
      [addCurvDeriv], the weights of [init], [computeNodeDeriv] (the
      projector of [NodeDeriv] with one value per node) and
      [evalConstraint]; the curvature routines are written over an
      interface [CurvOps] evaluated at [Q] and at dual numbers.
    - [Delaunay]: point insertion of [TMRTriangularize]: [enclosed],
      [inCircle] (with the exact [orient2d] and [incircle] of
      predicates.c), [addPoint], [digCavity], the breadth-first
      [findEnclosing] over the triangle queue, both [addPointToMesh]
      overloads, [setTriangleTags] and [removeDegenerateEdges], composed
      over the edge hash table, the PSLG array and the quadtree.
    - [Strain]: the strain kernels of [TMRStressConstraint]:
      [evalStrain] (displacement gradient, Jacobian of the elevated mesh,
      enrichment contribution, six engineering strains) and
      [addStrainDeriv] (its adjoint into [dfdu] and [dfdubar]).

    How the parts interact: the estimators call the weights, the nodal
    derivatives and the reconstruction, which calls the enrichment, the
    interpolation and the least-squares contract; the files are composed
    the same way ([From S2P Require Import]).  Collaborators outside src/
    ([TACSBVec], the forests, [dgelss], [sqrt], [qsort], [bsearch],
    [TMRIntegerPairHash], [FIXED_POINT_OFFSET], the element classes) are
    parameters or are modelled from the spec, and the theorems state what
    they assume of them.

    What the theorems show, by group: exactness of the derivative
    overloads and the patch test of the nodal derivatives; reproduction
    (spec property 1: the assembled right-hand side is the assembled
    matrix times the enrichment block) and constant-field behaviour of
    the reconstruction (2D and 3D); the
    refined field of a constant solution; the heap overflow of
    [addRefinedSolution3D]; conservation and liveness of the adjoint
    estimators and the solution-independence of the 3D strain-energy
    estimator; bounds of the KS aggregate; the curve and surface
    derivative error paths and the arc-length integration; refinement
    theorems for [uniqueSort] (against a sparse-vector specification),
    the triangle queue (against a FIFO list), the edge hash table
    (against a finite map of directed edges) and [edgeInPSLG] (against
    segment membership); the Morton order computed by [compare_edges];
    the point quadtree: [addNode] keeps it well formed but drops the
    point that makes a leaf split, adding and deleting a point is a round
    trip, and [findClosest] returns the brute-force nearest point; the
    curvature constraint: the reverse sweep of [evalCurvDeriv] and the
    element sweep of [addCurvDeriv] are the transposes of the forward
    derivatives, the polynomial fit recovers the coefficients but halves
    the diagonal of the Hessian, the principal curvatures the code
    computes (and where they differ from the spec), the sphere of the
    spec, the bound of the aggregate by the maximum, and the node stride
    of [evalConstraint]; Delaunay insertion: [digCavity], the search of
    [findEnclosing] and a whole [addPointToMesh] terminate on a consistent
    mesh and keep it consistent, digging never loses a PSLG edge, the
    triangle found encloses the point, [addPoint] keeps its arrays in
    shape, and the renumbering of [removeDegenerateEdges] merges only
    the longest prefix of the sorted degenerate edges whose larger numbers
    increase, which the order of [compare_degen_edges] does not ensure;
    the strain kernel: [addStrainDeriv] is the adjoint
    of the strain map of [evalStrain] and a rigid translation has zero
    strain; and the overflow behaviours of the subtraction
    comparators, characterised over the whole range of their inputs.

    Arithmetic: real-valued code is modelled in exact rationals [Q] (the
    KS aggregate in [R]); floating-point rounding is not modelled, and
    [sqrt], [exp] and [log] are parameters constrained only where a
    theorem says so.  Integer
    widths are kept where they matter: [int] results of subtractions are
    wrapped to 32 bits.

    Fuel: [integrateEdge] runs with fuel and 21 levels suffice (its depth
    test stops at [ncalls > 20]); the quadtree corner loop needs three
    iterations for refined orders of at least two; [bsearch] runs with the
    array length plus one, which bounds the halvings of [[l, u)];
    [addNode] recurses into the node it has just split and runs with the
    height of the tree plus three; [digCavity] runs with the number of
    edges in the map plus one, which bounds its depth because every
    deletion removes an edge of a triangle without the new point and no
    addition adds one; the loop of [findEnclosing] runs with twice the
    number of stored triangles plus two, as each pass pops one queue
    entry and appends one per triangle it tags.

    Not modelled: MPI and the parallel begin/end calls (identities on one
    process); output routines ([TMR_PrintErrorBins], [writeReconToTec],
    the VTK and Tecplot writers); [TMR_CreateTACSMg], which only calls
    library constructors; the rest of the stress-constraint
    sensitivities ([evalConDeriv], [addEnrichDeriv]
    and the vector assembly), which need TACS element classes and
    vectors outside the repository; the
    vector set-up of the curvature constraint's [init] and
    [writeCurvatureToFile]; the triangulation's [initialize] and
    [frontal] (the advancing-front generator), [tagTriangles], [getMesh]
    and the size and intersection helpers, and floating-point rounding
    in the predicates (modelled as the exact determinants); the
    topology creators, whose bodies are commented out; and TMROctree.h,
    declarations only. *)

From Stdlib Require Import PeanoNat ZArith QArith Qring Qfield List Lia Lqa.
From Stdlib Require Import Setoid Morphisms RelationClasses.
Import ListNotations.

Open Scope Q_scope.

(** ** Scalars as a ring interface

    The C kernels compute in [double].  The development computes in exact
    rationals [Q]; floating-point rounding is not modelled.  The enrichment
    and Lagrange bases are written once over the small interface
    [RingOps], so that the same definition is evaluated at [Q] (the code's
    values) and at dual numbers [dual] (forward-mode differentiation, used to
    state that the analytic derivatives the code returns are the
    derivatives of the values it returns). *)

Class RingOps (K : Type) := {
  r0 : K;
  r1 : K;
  radd : K -> K -> K;
  rsub : K -> K -> K;
  rmul : K -> K -> K;
  rconst : Q -> K
}.

#[export] Instance Q_RingOps : RingOps Q := {
  r0 := 0; r1 := 1; radd := Qplus; rsub := Qminus; rmul := Qmult;
  rconst := fun q => q
}.

(** Dual numbers [re + du * eps] with [eps * eps = 0]. *)
Record dual := mkDual { re : Q; du : Q }.

#[export] Instance Dual_RingOps : RingOps dual := {
  r0 := mkDual 0 0;
  r1 := mkDual 1 0;
  radd := fun a b => mkDual (re a + re b) (du a + du b);
  rsub := fun a b => mkDual (re a - re b) (du a - du b);
  rmul := fun a b => mkDual (re a * re b) (re a * du b + du a * re b);
  rconst := fun q => mkDual q 0
}.

Declare Scope tmr_scope.
Delimit Scope tmr_scope with tmr.
Notation "a +: b" := (radd a b) (at level 50, left associativity) : tmr_scope.
Notation "a -: b" := (rsub a b) (at level 50, left associativity) : tmr_scope.
Notation "a *: b" := (rmul a b) (at level 40, left associativity) : tmr_scope.
Notation "'1:'" := r1 : tmr_scope.
Notation "'0:'" := r0 : tmr_scope.

(** ** Lists of rationals compared pointwise with [Qeq] *)

Definition eqlistQ : list Q -> list Q -> Prop := Forall2 Qeq.

Infix "==l" := eqlistQ (at level 70) : tmr_scope.
Open Scope tmr_scope.

#[export] Instance eqlistQ_Equivalence : Equivalence eqlistQ.
Proof.
  unfold eqlistQ; split.
  - intros l; induction l; constructor; auto; reflexivity.
  - intros l1 l2 H; induction H; constructor; auto; symmetry; auto.
  - intros l1 l2 l3 H; revert l3; induction H; intros l3 H3;
      inversion H3; subst; [constructor|].
    constructor; [etransitivity; eauto | auto].
Qed.

#[export] Instance cons_eqlistQ_Proper : Proper (Qeq ==> eqlistQ ==> eqlistQ) (@cons Q).
Proof. intros x y Hxy l1 l2 Hl; constructor; assumption. Qed.

(** Sums, written as the code's accumulation loops [s += ...]. *)
Definition sumQ (l : list Q) : Q := fold_right Qplus 0 l.

Definition dotQ (a b : list Q) : Q := sumQ (map (fun p => fst p * snd p) (combine a b)).

#[export] Instance sumQ_Proper : Proper (eqlistQ ==> Qeq) sumQ.
Proof.
  intros l1 l2 H; induction H; simpl; [reflexivity|].
  rewrite H, IHForall2; reflexivity.
Qed.

Lemma sumQ_app (l1 l2 : list Q) : sumQ (l1 ++ l2) == sumQ l1 + sumQ l2.
Proof. induction l1; simpl; [ring|]. rewrite IHl1; ring. Qed.

Lemma sumQ_map_add {A} (f g : A -> Q) (l : list A) :
  sumQ (map (fun x => f x + g x) l) == sumQ (map f l) + sumQ (map g l).
Proof. induction l; simpl; [ring|]. rewrite IHl; ring. Qed.

Lemma sumQ_map_sub {A} (f g : A -> Q) (l : list A) :
  sumQ (map f l) - sumQ (map g l) == sumQ (map (fun x => f x - g x) l).
Proof. induction l; simpl; [ring|]. rewrite <- IHl; ring. Qed.

Lemma sumQ_map_scale {A} (c : Q) (f : A -> Q) (l : list A) :
  sumQ (map (fun x => c * f x) l) == c * sumQ (map f l).
Proof. induction l; simpl; [ring|]. rewrite IHl; ring. Qed.

Lemma sumQ_map_ext {A} (f g : A -> Q) (l : list A) :
  (forall x, In x l -> f x == g x) -> sumQ (map f l) == sumQ (map g l).
Proof.
  induction l; intros H; simpl; [reflexivity|].
  rewrite (H a (or_introl eq_refl)), IHl; [reflexivity|].
  intros; apply H; right; auto.
Qed.

Lemma sumQ_map_zero {A} (f : A -> Q) (l : list A) :
  (forall x, In x l -> f x == 0) -> sumQ (map f l) == 0.
Proof.
  intros H; rewrite (sumQ_map_ext f (fun _ => 0)) by auto.
  induction l; simpl; [reflexivity|]. rewrite IHl; [ring|]. intros; apply H; right; auto.
Qed.

Lemma sumQ_nonneg (l : list Q) : Forall (Qle 0) l -> 0 <= sumQ l.
Proof.
  induction 1; simpl; [apply Qle_refl|].
  apply (Qplus_le_compat 0 x 0 (sumQ l)) in IHForall; [|assumption]. lra.
Qed.

Lemma sumQ_flat_map {A} (f : A -> list Q) (l : list A) :
  sumQ (flat_map f l) == sumQ (map (fun x => sumQ (f x)) l).
Proof. induction l; simpl; [reflexivity|]. rewrite sumQ_app, IHl; reflexivity. Qed.

Lemma sumQ_map_scale_r {A} (c : Q) (f : A -> Q) (l : list A) :
  sumQ (map (fun x => f x * c) l) == sumQ (map f l) * c.
Proof. induction l; simpl; [ring|]. rewrite IHl; ring. Qed.

Lemma map_flat_map {A B C} (g : B -> C) (f : A -> list B) (l : list A) :
  map g (flat_map f l) = flat_map (fun x => map g (f x)) l.
Proof. induction l; simpl; [reflexivity|]. rewrite map_app, IHl; reflexivity. Qed.

(** Reading entry [c] of block [k] of a list built block by block, as the
    code reads [out[bs*k + c]] after a pointer has advanced by [bs] per
    block. *)
Lemma nth_flat_map_block {A} (f : A -> list Q) (l : list A) (bs k c : nat) (d : A) :
  (forall x, In x l -> length (f x) = bs) -> (k < length l)%nat -> (c < bs)%nat ->
  nth (bs * k + c) (flat_map f l) 0 = nth c (f (nth k l d)) 0.
Proof.
  revert k; induction l as [|x l IH]; intros k Hlen Hk Hc; simpl in *; [lia|].
  rewrite <- (Hlen x (or_introl eq_refl)) in *.
  destruct k as [|k].
  - rewrite Nat.mul_0_r, Nat.add_0_l, app_nth1 by lia; reflexivity.
  - rewrite app_nth2 by lia.
    replace (length (f x) * S k + c - length (f x))%nat
      with (length (f x) * k + c)%nat by lia.
    rewrite (Hlen x (or_introl eq_refl)) in *.
    apply IH; auto; lia.
Qed.

(** The same, for a list of any type and any default. *)
Lemma nth_flat_map_block_gen {A B} (f : A -> list B) (l : list A) (bs k c : nat) (d : A) (e : B) :
  (forall x, In x l -> length (f x) = bs) -> (k < length l)%nat -> (c < bs)%nat ->
  nth (bs * k + c) (flat_map f l) e = nth c (f (nth k l d)) e.
Proof.
  revert k; induction l as [|x l IH]; intros k Hlen Hk Hc; simpl in *; [lia|].
  rewrite <- (Hlen x (or_introl eq_refl)) in *.
  destruct k as [|k].
  - rewrite Nat.mul_0_r, Nat.add_0_l, app_nth1 by lia; reflexivity.
  - rewrite app_nth2 by lia.
    replace (length (f x) * S k + c - length (f x))%nat
      with (length (f x) * k + c)%nat by lia.
    rewrite (Hlen x (or_introl eq_refl)) in *.
    apply IH; auto; lia.
Qed.

Lemma length_flat_map_const {A B} (f : A -> list B) (l : list A) (bs : nat) :
  (forall x, In x l -> length (f x) = bs) -> length (flat_map f l) = (bs * length l)%nat.
Proof.
  induction l as [|x l IH]; intros H; simpl; [lia|].
  rewrite length_app, (H x (or_introl eq_refl)), IH; [lia|].
  intros y Hy; apply H; right; exact Hy.
Qed.

Lemma map_nth_seq_full {A B} (f : A -> B) (l : list A) (d : A) :
  map (fun k => f (nth k l d)) (seq 0 (length l)) = map f l.
Proof.
  induction l as [|x l IH]; simpl; [reflexivity|]; f_equal.
  rewrite <- seq_shift, map_map; exact IH.
Qed.

Lemma nth_map_lt {A B} (f : A -> B) (l : list A) (k : nat) (d : A) (e : B) :
  (k < length l)%nat -> nth k (map f l) e = f (nth k l d).
Proof.
  intros Hk; rewrite nth_indep with (d' := f d) by (rewrite length_map; exact Hk).
  apply map_nth.
Qed.

Lemma app_eqlistQ (a b c d : list Q) : a ==l b -> c ==l d -> a ++ c ==l b ++ d.
Proof. apply Forall2_app. Qed.

Lemma flat_map_eqlistQ {A} (f g : A -> list Q) (l : list A) :
  (forall x, In x l -> f x ==l g x) -> flat_map f l ==l flat_map g l.
Proof.
  induction l as [|x l IH]; intros H; simpl; [constructor|].
  apply app_eqlistQ; [apply H; left; reflexivity|apply IH; intros; apply H; right; auto].
Qed.

Lemma map_eqlistQ {A} (f g : A -> Q) (l : list A) :
  (forall x, In x l -> f x == g x) -> map f l ==l map g l.
Proof.
  induction l as [|x l IH]; intros H; simpl; constructor;
    [apply H; left; reflexivity|apply IH; intros; apply H; right; auto].
Qed.

(** Lists whose entries all vanish. *)
Lemma Forall_zero_nth (l : list Q) (r : nat) :
  Forall (fun q => q == 0) l -> nth r l 0 == 0.
Proof.
  intros H; revert r; induction H as [|x l Hx _ IH]; intros [|r]; simpl;
    [reflexivity|reflexivity|exact Hx|apply IH].
Qed.

Lemma Forall_zero_repeat (l : list Q) :
  Forall (fun q => q == 0) l -> l ==l repeat 0 (length l).
Proof. induction 1; simpl; constructor; auto. Qed.

(** A list of length [n*b] is the concatenation of its [n] blocks. *)
Lemma flat_map_blocks_id {A} (l : list A) (n b : nat) (d : A) :
  length l = (n * b)%nat ->
  flat_map (fun i => map (fun j => nth (b * i + j) l d) (seq 0 b)) (seq 0 n) = l.
Proof.
  revert l; induction n as [|n IH]; intros l Hl; simpl in *.
  - destruct l; [reflexivity|discriminate].
  - transitivity (firstn b l ++ skipn b l); [|apply firstn_skipn].
    rewrite <- seq_shift, flat_map_concat_map, map_map, <- flat_map_concat_map.
    rewrite <- (IH (skipn b l)) by (rewrite length_skipn; lia).
    f_equal.
    + apply nth_ext with (d := d) (d' := d);
        [rewrite length_map, length_seq, length_firstn; lia|].
      intros k Hk; rewrite length_map, length_seq in Hk.
      rewrite (nth_map_lt _ _ _ 0%nat) by (rewrite length_seq; lia).
      rewrite seq_nth, nth_firstn by lia.
      destruct (Nat.ltb_spec k b); [f_equal; lia|lia].
    + apply flat_map_ext; intros i; apply map_ext; intros j.
      rewrite nth_skipn; f_equal; lia.
Qed.

(** Reflecting a bounded boolean check. *)
Lemma forallb_seq_spec (f : nat -> bool) (n : nat) :
  forallb f (seq 0 n) = true -> forall r, (r < n)%nat -> f r = true.
Proof. rewrite forallb_forall; intros H r Hr; apply H, in_seq; lia. Qed.

Lemma nth_eqlistQ (l1 l2 : list Q) (c : nat) : l1 ==l l2 -> nth c l1 0 == nth c l2 0.
Proof.
  intros H; revert c; induction H as [|x y l1 l2 Hxy _ IH]; intros [|c]; simpl;
    [reflexivity|reflexivity|exact Hxy|apply IH].
Qed.

Lemma sumQ_nth_seq (l : list Q) :
  sumQ (map (fun i => nth i l 0) (seq 0 (length l))) == sumQ l.
Proof. rewrite (map_nth_seq_full (fun x => x) l 0), map_id; reflexivity. Qed.

(** Peeling the last term off a sum over [seq 0 (S n)], and regrouping a
    sum over [seq 0 (3 n)] by blocks of three. *)
Lemma sumQ_seq_S (f : nat -> Q) (n : nat) :
  sumQ (map f (seq 0 (S n))) == sumQ (map f (seq 0 n)) + f n.
Proof. rewrite seq_S, map_app, sumQ_app; cbn; ring. Qed.
Lemma sumQ_seq_3 (f : nat -> Q) (n : nat) :
  sumQ (map f (seq 0 (3 * n))) ==
  sumQ (map (fun j => f (3 * j)%nat + f (3 * j + 1)%nat + f (3 * j + 2)%nat) (seq 0 n)).
Proof.
  induction n as [|n IH]; [reflexivity|].
  replace (3 * S n)%nat with (3 * n + 3)%nat by lia.
  rewrite seq_app, map_app, sumQ_app, IH, sumQ_seq_S.
  change (seq (0 + 3 * n) 3) with [0 + 3 * n; S (0 + 3 * n); S (S (0 + 3 * n))]%nat.
  replace (0 + 3 * n)%nat with (3 * n)%nat by lia.
  replace (S (S (3 * n))) with (3 * n + 2)%nat by lia; replace (S (3 * n)) with (3 * n + 1)%nat by lia.
  unfold sumQ at 2; cbn [map fold_right]; ring.
Qed.
Lemma nth_map_seq0 {B} (F : nat -> B) (n j : nat) (d : B) :
  (j < n)%nat -> nth j (map F (seq 0 n)) d = F j.
Proof.
  intros Hj; rewrite (nth_map_lt F (seq 0 n) j 0%nat d) by (rewrite length_seq; exact Hj).
  rewrite seq_nth by exact Hj; reflexivity.
Qed.

(** Exchanging the order of a double sum. *)
Lemma sumQ_swap {A B} (f : A -> B -> Q) (la : list A) (lb : list B) :
  sumQ (map (fun a => sumQ (map (fun b => f a b) lb)) la) ==
  sumQ (map (fun b => sumQ (map (fun a => f a b) la)) lb).
Proof.
  induction la as [|a la IH]; simpl.
  - symmetry; apply sumQ_map_zero; intros; reflexivity.
  - rewrite IH, <- sumQ_map_add; reflexivity.
Qed.

(** A Kronecker delta picks one term of a sum. *)
Lemma sumQ_delta (n i : nat) (y : nat -> Q) :
  (i < n)%nat ->
  sumQ (map (fun k => (if Nat.eqb i k then 1 else 0) * y k) (seq 0 n)) == y i.
Proof.
  intros Hi.
  assert (Hs : seq 0 n = seq 0 i ++ [i] ++ seq (S i) (n - S i)).
  { replace n with (i + S (n - S i))%nat at 1 by lia; rewrite seq_app; reflexivity. }
  rewrite Hs.
  rewrite !map_app, !sumQ_app.
  rewrite (sumQ_map_zero _ (seq 0 i)), (sumQ_map_zero _ (seq (S i) (n - S i))).
  - simpl; rewrite Nat.eqb_refl; ring.
  - intros k Hk; apply in_seq in Hk; destruct (Nat.eqb_spec i k); [lia|ring].
  - intros k Hk; apply in_seq in Hk; destruct (Nat.eqb_spec i k); [lia|ring].
Qed.


(** Counting with an indicator sum. *)
Lemma sumQ_indicator {A} (p : A -> bool) (l : list A) :
  sumQ (map (fun x => if p x then 1 else 0) l) ==
  inject_Z (Z.of_nat (length (filter p l))).
Proof.
  induction l as [|x l IH]; simpl; [reflexivity|].
  rewrite IH; destruct (p x); cbn [length filter]; [|ring].
  rewrite Nat2Z.inj_succ, <- Z.add_1_l, inject_Z_plus; ring.
Qed.

(** A sum of squares vanishes only when every term does: the fact behind
    the uniqueness of minimum-norm least-squares solutions. *)
Lemma sumQ_squares_zero (l : list Q) :
  sumQ (map (fun q => q * q) l) == 0 -> Forall (fun q => q == 0) l.
Proof.
  induction l as [|q l IH]; simpl; intros H; constructor.
  - assert (0 <= sumQ (map (fun q => q * q) l)).
    { apply sumQ_nonneg. rewrite Forall_map. apply Forall_forall; intros; nra. }
    nra.
  - apply IH.
    assert (0 <= sumQ (map (fun q => q * q) l)).
    { apply sumQ_nonneg. rewrite Forall_map. apply Forall_forall; intros; nra. }
    nra.
Qed.

(** Boolean test that every entry of a list is zero, for closed lists. *)
Definition all_zerob (l : list Q) : bool := forallb (fun q => Qeq_bool q 0) l.

Lemma all_zerob_spec (l : list Q) :
  all_zerob l = true -> Forall (fun q => q == 0) l.
Proof.
  unfold all_zerob; rewrite forallb_forall; intros H.
  apply Forall_forall; intros q Hq; apply Qeq_bool_eq, H, Hq.
Qed.

(** ** Tactics and hints shared by the component files *)

Create HintDb tmr.
Create Rewrite HintDb tmr_sums.

(** Split a hypothesis [In x [a; b; ...]], or its unfolded form
    [a = x \/ b = x \/ ... \/ False], into one goal per element. *)
Ltac destruct_in :=
  repeat match goal with
         | H : In _ [] |- _ => destruct H
         | H : In _ (_ :: _) |- _ => destruct H as [<-|H]
         | H : False |- _ => destruct H
         | H : _ = _ \/ _ |- _ => destruct H as [<-|H]
         end.

(** Close a [Forall2 Qeq] goal between two explicit lists entry by entry. *)
Ltac eqlist_ring :=
  unfold eqlistQ;
  repeat (apply Forall2_cons; [simpl; ring|]);
  apply Forall2_nil.

#[export] Hint Resolve sumQ_map_zero sumQ_nonneg : tmr.
#[export] Hint Rewrite sumQ_app @sumQ_map_add @sumQ_map_scale @sumQ_map_scale_r
  @sumQ_flat_map : tmr_sums.
