(* ===== verification/LeastSquares.v ===== *)
(** * The least-squares collaborator (LAPACK [dgelss])

    [computeElemRecon2D]/[computeElemRecon3D] (src/src/TMRGeometry.c)
    solve their overdetermined systems with [LAPACKdgelss], an SVD-based
    least-squares driver outside src/.  With [rcond = -1] it returns, for
    every right-hand side, the minimum-norm minimiser of [|A x - b|]; in
    exact arithmetic that is the unique vector that satisfies the normal
    equations [A^T (A x - b) = 0] and has the least Euclidean norm among
    all such vectors.  [Lapack] states this contract as a relation between
    the input arrays (column-major, leading dimension [m]) and the array
    [b'] the driver leaves behind, whose first [n] rows of column [j] hold
    the solution of the [j]-th right-hand side.

    [LapackFacts] derives what the reconstruction relies on: a zero
    right-hand side gives a zero solution, a right-hand side in the range
    of a full-column-rank matrix is solved exactly, and a left inverse
    (checked by evaluation) certifies full column rank. *)

From Stdlib Require Import PeanoNat ZArith QArith Qring List Lia Lqa.
From S2P Require Import Prelude.
Import ListNotations.
Open Scope Q_scope.
Open Scope tmr_scope.

Module Lapack.

(** Row [r] of [A x] for the [m x n] column-major array [A]. *)
Definition matvec (m n : nat) (A : list Q) (x : nat -> Q) (r : nat) : Q :=
  sumQ (map (fun i => nth (m * i + r) A 0 * x i) (seq 0 n)).

(** The normal equations [A^T (A x - b) = 0]. *)
Definition normal_eq (m n : nat) (A : list Q) (b x : nat -> Q) : Prop :=
  forall i, (i < n)%nat ->
    sumQ (map (fun r => nth (m * i + r) A 0 * (matvec m n A x r - b r)) (seq 0 m)) == 0.

Definition sqnorm (n : nat) (x : nat -> Q) : Q :=
  sumQ (map (fun i => x i * x i) (seq 0 n)).

(** [x] is the minimum-norm least-squares solution of [A x = b]. *)
Definition min_norm_lstsq (m n : nat) (A : list Q) (b x : nat -> Q) : Prop :=
  normal_eq m n A b x /\ forall y, normal_eq m n A b y -> sqnorm n x <= sqnorm n y.

(** [LAPACKdgelss(&m, &n, &nrhs, A, &m, b, &m, s, &rcond, &rank, work,
    &lwork, &info)] with [rcond = -1]: [b'] is the array [b] on return. *)
Definition LAPACKdgelss (m n nrhs : nat) (A b b' : list Q) : Prop :=
  forall j, (j < nrhs)%nat ->
    min_norm_lstsq m n A (fun r => nth (m * j + r) b 0) (fun i => nth (m * j + i) b' 0).

End Lapack.

Module LapackFacts.
Import Lapack.

Lemma sqnorm_nonneg (n : nat) (x : nat -> Q) : 0 <= sqnorm n x.
Proof.
  unfold sqnorm; apply sumQ_nonneg; rewrite Forall_map.
  apply Forall_forall; intros; nra.
Qed.

Lemma sqnorm_zero (n : nat) (x : nat -> Q) :
  sqnorm n x <= 0 -> forall i, (i < n)%nat -> x i == 0.
Proof.
  intros H i Hi.
  assert (Hz : sumQ (map (fun q => q * q) (map x (seq 0 n))) == 0).
  { rewrite map_map; pose proof (sqnorm_nonneg n x); unfold sqnorm in *; lra. }
  apply sumQ_squares_zero in Hz; rewrite Forall_map, Forall_forall in Hz.
  apply Hz, in_seq; lia.
Qed.

Lemma matvec_sub (m n : nat) (A : list Q) (x y : nat -> Q) (r : nat) :
  matvec m n A x r - matvec m n A y r == matvec m n A (fun i => x i - y i) r.
Proof.
  unfold matvec; rewrite sumQ_map_sub; apply sumQ_map_ext; intros; ring.
Qed.

(** A zero right-hand side makes the zero vector a solution of the
    normal equations. *)
Lemma normal_eq_zero (m n : nat) (A : list Q) (b : nat -> Q) :
  (forall r, (r < m)%nat -> b r == 0) -> normal_eq m n A b (fun _ => 0).
Proof.
  intros Hb i Hi; apply sumQ_map_zero; intros r Hr; apply in_seq in Hr.
  rewrite Hb by lia; unfold matvec.
  rewrite (sumQ_map_zero (fun i0 => nth (m * i0 + r) A 0 * 0)) by (intros; ring); ring.
Qed.

(** The minimum-norm solution of a zero right-hand side is zero. *)
Lemma lstsq_zero_rhs (m n : nat) (A : list Q) (b x : nat -> Q) :
  (forall r, (r < m)%nat -> b r == 0) -> min_norm_lstsq m n A b x ->
  forall i, (i < n)%nat -> x i == 0.
Proof.
  intros Hb [_ Hmin]; apply sqnorm_zero.
  specialize (Hmin _ (normal_eq_zero m n A b Hb)).
  unfold sqnorm at 2 in Hmin.
  rewrite (sumQ_map_zero (fun i => 0 * 0)) in Hmin by (intros; ring); exact Hmin.
Qed.

(** [d^T A^T v = (A d)^T v]: the two orders of the double sum. *)
Lemma dot_transpose (m n : nat) (A : list Q) (d v : nat -> Q) :
  sumQ (map (fun i => d i * sumQ (map (fun r => nth (m * i + r) A 0 * v r) (seq 0 m)))
            (seq 0 n)) ==
  sumQ (map (fun r => matvec m n A d r * v r) (seq 0 m)).
Proof.
  rewrite (sumQ_map_ext _ (fun i => sumQ (map (fun r => d i * (nth (m * i + r) A 0 * v r))
                                               (seq 0 m))))
    by (intros; rewrite sumQ_map_scale; reflexivity).
  rewrite sumQ_swap; apply sumQ_map_ext; intros r _.
  unfold matvec; rewrite <- sumQ_map_scale_r; apply sumQ_map_ext; intros; ring.
Qed.

(** When [b = A x0], a solution [x] of the normal equations has
    [A (x - x0) = 0]. *)
Lemma normal_eq_range (m n : nat) (A : list Q) (b x x0 : nat -> Q) :
  (forall r, (r < m)%nat -> b r == matvec m n A x0 r) -> normal_eq m n A b x ->
  forall r, (r < m)%nat -> matvec m n A (fun i => x i - x0 i) r == 0.
Proof.
  intros Hb Hx.
  set (d := fun i => x i - x0 i).
  assert (H0 : sumQ (map (fun r => matvec m n A d r * matvec m n A d r) (seq 0 m)) == 0).
  { rewrite <- (sumQ_map_ext (fun r => matvec m n A d r * (matvec m n A x r - b r)))
      by (intros r Hr; apply in_seq in Hr; rewrite Hb, matvec_sub by lia; reflexivity).
    rewrite <- dot_transpose; apply sumQ_map_zero; intros i Hi; apply in_seq in Hi.
    cbv beta; rewrite (Hx i ltac:(lia)); ring. }
  rewrite <- map_map with (f := matvec m n A d) (g := fun q => q * q) in H0.
  apply sumQ_squares_zero in H0; rewrite Forall_map, Forall_forall in H0.
  intros r Hr; apply H0, in_seq; lia.
Qed.

(** Full column rank: only the zero vector is mapped to zero. *)
Definition full_column_rank (m n : nat) (A : list Q) : Prop :=
  forall y, (forall r, (r < m)%nat -> matvec m n A y r == 0) ->
            forall i, (i < n)%nat -> y i == 0.

Lemma matvec_ext (m n : nat) (A : list Q) (x y : nat -> Q) (r : nat) :
  (forall i, (i < n)%nat -> x i == y i) -> matvec m n A x r == matvec m n A y r.
Proof.
  intros H; unfold matvec; apply sumQ_map_ext; intros i Hi; apply in_seq in Hi.
  rewrite H by lia; reflexivity.
Qed.

(** A right-hand side in the range of a full-column-rank matrix is
    solved exactly by any solution of the normal equations. *)
Lemma lstsq_exact (m n : nat) (A : list Q) (b x x0 : nat -> Q) :
  full_column_rank m n A ->
  (forall r, (r < m)%nat -> b r == matvec m n A x0 r) -> normal_eq m n A b x ->
  forall i, (i < n)%nat -> x i == x0 i.
Proof.
  intros Hrank Hb Hx i Hi.
  pose proof (Hrank _ (normal_eq_range m n A b x x0 Hb Hx) i Hi); simpl in *; lra.
Qed.

(** [L] (an [n x m] column-major array) is a left inverse of [A]. *)
Definition left_inverseb (m n : nat) (A L : list Q) : bool :=
  forallb (fun i => forallb (fun k =>
    Qeq_bool (sumQ (map (fun r => nth (n * r + i) L 0 * nth (m * k + r) A 0) (seq 0 m)))
             (if Nat.eqb i k then 1 else 0)) (seq 0 n)) (seq 0 n).

(** A left inverse certifies full column rank. *)
Lemma left_inverse_rank (m n : nat) (A L : list Q) :
  left_inverseb m n A L = true -> full_column_rank m n A.
Proof.
  unfold left_inverseb; intros HL y Hy i Hi.
  rewrite forallb_forall in HL.
  assert (HLi := HL i ltac:(apply in_seq; lia)); rewrite forallb_forall in HLi.
  rewrite <- (sumQ_delta n i y Hi).
  rewrite (sumQ_map_ext _ (fun k => sumQ (map (fun r => nth (n * r + i) L 0
                                                      * nth (m * k + r) A 0) (seq 0 m)) * y k)).
  2:{ intros k Hk; specialize (HLi k Hk); apply Qeq_bool_eq in HLi; rewrite HLi; reflexivity. }
  rewrite (sumQ_map_ext _ (fun k => sumQ (map (fun r => nth (n * r + i) L 0
                                                      * (nth (m * k + r) A 0 * y k)) (seq 0 m))))
    by (intros; rewrite <- sumQ_map_scale_r; apply sumQ_map_ext; intros; ring).
  rewrite sumQ_swap; apply sumQ_map_zero; intros r Hr; apply in_seq in Hr.
  rewrite sumQ_map_scale; fold (matvec m n A y r); rewrite Hy by lia; ring.
Qed.

Lemma normal_eq_ext (m n : nat) (A : list Q) (b x y : nat -> Q) :
  (forall i, (i < n)%nat -> x i == y i) -> normal_eq m n A b x -> normal_eq m n A b y.
Proof.
  intros Hxy Hx i Hi; rewrite <- (Hx i Hi).
  apply sumQ_map_ext; intros r _; rewrite (matvec_ext m n A x y r Hxy); reflexivity.
Qed.

Lemma sqnorm_ext (n : nat) (x y : nat -> Q) :
  (forall i, (i < n)%nat -> x i == y i) -> sqnorm n x == sqnorm n y.
Proof.
  intros H; unfold sqnorm; apply sumQ_map_ext; intros i Hi; apply in_seq in Hi.
  rewrite H by lia; reflexivity.
Qed.

(** ** The driver's contract, column by column *)

(** A zero right-hand side: every solution column vanishes ... *)
Lemma dgelss_zero_rhs (m n nrhs : nat) (A b b' : list Q) :
  Forall (fun q => q == 0) b -> LAPACKdgelss m n nrhs A b b' ->
  forall j i, (j < nrhs)%nat -> (i < n)%nat -> nth (m * j + i) b' 0 == 0.
Proof.
  intros Hb H j i Hj Hi.
  apply (lstsq_zero_rhs m n A (fun r => nth (m * j + r) b 0) (fun i => nth (m * j + i) b' 0));
    [intros; apply Forall_zero_nth, Hb | apply H, Hj | exact Hi].
Qed.

(** ... and a zero array is a valid output, so the contract is met. *)
Lemma dgelss_zero_sol (m n nrhs : nat) (A b b' : list Q) :
  Forall (fun q => q == 0) b -> Forall (fun q => q == 0) b' -> LAPACKdgelss m n nrhs A b b'.
Proof.
  intros Hb Hb' j Hj.
  assert (Hx : forall i, (i < n)%nat -> 0 == nth (m * j + i) b' 0)
    by (intros; symmetry; apply Forall_zero_nth, Hb').
  split.
  - apply (normal_eq_ext m n A _ (fun _ => 0)); [exact Hx|].
    apply normal_eq_zero; intros; apply Forall_zero_nth, Hb.
  - intros y _; rewrite <- (sqnorm_ext n _ _ Hx).
    unfold sqnorm at 1; rewrite (sumQ_map_zero (fun _ => 0 * 0)) by (intros; ring).
    apply sqnorm_nonneg.
Qed.

(** A right-hand side [b_j = A x0_j] of a full-column-rank system: every
    solution column is [x0_j] ... *)
Lemma dgelss_exact (m n nrhs : nat) (A b b' : list Q) (x0 : nat -> nat -> Q) :
  full_column_rank m n A ->
  (forall j r, (j < nrhs)%nat -> (r < m)%nat -> nth (m * j + r) b 0 == matvec m n A (x0 j) r) ->
  LAPACKdgelss m n nrhs A b b' ->
  forall j i, (j < nrhs)%nat -> (i < n)%nat -> nth (m * j + i) b' 0 == x0 j i.
Proof.
  intros Hr Hb H j i Hj Hi; destruct (H j Hj) as [Hn _].
  apply (lstsq_exact m n A (fun r => nth (m * j + r) b 0) (fun i => nth (m * j + i) b' 0)
           (x0 j) Hr); [intros; apply Hb; auto | exact Hn | exact Hi].
Qed.

(** ... and an array holding [x0_j] in its columns is a valid output. *)
Lemma dgelss_exact_sol (m n nrhs : nat) (A b b' : list Q) (x0 : nat -> nat -> Q) :
  full_column_rank m n A ->
  (forall j r, (j < nrhs)%nat -> (r < m)%nat -> nth (m * j + r) b 0 == matvec m n A (x0 j) r) ->
  (forall j i, (j < nrhs)%nat -> (i < n)%nat -> nth (m * j + i) b' 0 == x0 j i) ->
  LAPACKdgelss m n nrhs A b b'.
Proof.
  intros Hr Hb Hb' j Hj.
  assert (Hn : normal_eq m n A (fun r => nth (m * j + r) b 0) (fun i => nth (m * j + i) b' 0)).
  { intros i Hi; apply sumQ_map_zero; intros r Hr'; apply in_seq in Hr'.
    rewrite (matvec_ext m n A _ (x0 j) r) by (intros; apply Hb'; auto).
    rewrite Hb by (auto; lia); ring. }
  split; [exact Hn|].
  intros y Hy; apply Qle_lteq; right; apply sqnorm_ext; intros i Hi.
  rewrite (Hb' j i Hj Hi); symmetry.
  apply (lstsq_exact m n A (fun r => nth (m * j + r) b 0) y (x0 j) Hr); [intros; apply Hb; auto | exact Hy | exact Hi].
Qed.

(** ** Computing a left inverse

    [pinv m n A] is [(A^T A)^-1 A^T] (column-major, [n x m]), by
    Gauss-Jordan elimination on [A^T A].  It is only evaluated: a result
    is trusted once [left_inverseb] accepts it. *)

Definition qsub_row (r p : list Q) (a : Q) : list Q :=
  map (fun xy => Qred (fst xy - a * snd xy)) (combine r p).

(** The first row with a nonzero entry in column [c], and the others. *)
Fixpoint take_pivot (c : nat) (rows : list (list Q)) : option (list Q * list (list Q)) :=
  match rows with
  | [] => None
  | r :: rs => if Qeq_bool (nth c r 0) 0
               then option_map (fun pr => (fst pr, r :: snd pr)) (take_pivot c rs)
               else Some (r, rs)
  end.

Fixpoint gauss_jordan (n c : nat) (done rows : list (list Q)) : list (list Q) :=
  match n with
  | O => done
  | S n' =>
      match take_pivot c rows with
      | None => done
      | Some (p, rest) =>
          let p' := map (fun x => Qred (x / nth c p 0)) p in
          let elim r := qsub_row r p' (nth c r 0) in
          gauss_jordan n' (S c) (map elim done ++ [p']) (map elim rest)
      end
  end.

Definition pinv (m n : nat) (A : list Q) : list Q :=
  let col i := map (fun r => nth (m * i + r) A 0) (seq 0 m) in
  let aug := map (fun i => map (fun j => Qred (dotQ (col i) (col j))) (seq 0 n) ++
                           map (fun j => if Nat.eqb i j then 1 else 0) (seq 0 n)) (seq 0 n) in
  let inv := map (skipn n) (gauss_jordan n 0 [] aug) in
  flat_map (fun r => map (fun i => Qred (sumQ (map (fun k => nth k (nth i inv []) 0 * nth (m * k + r) A 0)
                                                   (seq 0 n)))) (seq 0 n)) (seq 0 m).

End LapackFacts.
