(* ===== verification/Enrichment.v ===== *)
(** * C1: the enrichment basis (src/src/TMRGeometry.c, lines 733-1128)

    The enrichment functions augment the Lagrange interpolation of a coarse
    element so that a least-squares fit can match prescribed nodal
    gradients.  Each C routine comes in two overloads: one writes the values
    [N], the other writes [N] with the analytic derivatives [Na], [Nb]
    (and [Nc] in 3D).  The value overloads are written over [RingOps] so
    that they can be evaluated at dual numbers; the derivative overloads are
    written over [Q] exactly as the code writes them.  The theorems state
    that the derivative overloads return the values of the value overloads
    and their exact partial derivatives, and that the enrichment vanishes at
    the element's interpolation knots. *)

From Stdlib Require Import QArith Qring List Lia Lqa.
From S2P Require Import Prelude.
Import ListNotations.
Open Scope Q_scope.
Open Scope tmr_scope.

Module Enrich.

(** ** Sizes (getNum2dEnrich, getNum3dEnrich) *)

Definition MAX_2D_ENRICH : nat := 9%nat.
Definition MAX_3D_ENRICH : nat := 15%nat.

Definition getNum2dEnrich (order : nat) : nat :=
  match order with
  | 2%nat => 5%nat
  | 3%nat => 7%nat
  | _ => 9%nat
  end.

Definition getNum3dEnrich (order : nat) : nat :=
  match order with
  | 2%nat => 9%nat
  | _ => 15%nat
  end.

(** ** Value overloads, over any [RingOps] *)

Section Values.
Context {K : Type} `{RingOps K}.

(** [evalEnrichmentFuncs2D(order, pt, knots, N)].  For an order other than
    2, 3 or 4 the routine writes nothing; the model returns no entry. *)
Definition evalEnrichmentFuncs2D (order : nat) (pt : K * K) (knots : list Q)
  : list K :=
  let '(x, y) := pt in
  match order with
  | 2%nat =>
      let ca := (1: +: x) *: (1: -: x) in
      let cb := (1: +: y) *: (1: -: y) in
      [ca; y *: ca; cb; x *: cb; ca *: cb]
  | 3%nat =>
      let ca := (1: +: x) *: x *: (1: -: x) in
      let cb := (1: +: y) *: y *: (1: -: y) in
      [ca; y *: ca; y *: y *: ca; cb; x *: cb; x *: x *: cb; ca *: cb]
  | 4%nat =>
      let k1 := rconst (nth 1 knots 0) in
      let k2 := rconst (nth 2 knots 0) in
      let ca := (1: +: x) *: (1: -: x) in
      let ca := ca *: ((x -: k1) *: (x -: k2)) in
      let cb := (1: +: y) *: (1: -: y) in
      let cb := cb *: ((y -: k1) *: (y -: k2)) in
      [ca; y *: ca; y *: y *: ca; y *: y *: y *: ca;
       cb; x *: cb; x *: x *: cb; x *: x *: x *: cb; ca *: cb]
  | _ => []
  end.

(** [eval2ndEnrichmentFuncs3D(pt, N)] *)
Definition eval2ndEnrichmentFuncs3D (pt : K * K * K) : list K :=
  let '(x, y, z) := pt in
  let ca := (1: +: x) *: (1: -: x) in
  let cb := (1: +: y) *: (1: -: y) in
  let cc := (1: +: z) *: (1: -: z) in
  [ca; y *: ca; z *: ca; cb; x *: cb; z *: cb; cc; x *: cc; y *: cc].

(** [eval3rdEnrichmentFuncs3D(pt, N)] *)
Definition eval3rdEnrichmentFuncs3D (pt : K * K * K) : list K :=
  let '(x, y, z) := pt in
  let ca := (1: +: x) *: x *: (1: -: x) in
  let cb := (1: +: y) *: y *: (1: -: y) in
  let cc := (1: +: z) *: z *: (1: -: z) in
  [ca; y *: ca; y *: y *: ca; z *: ca; z *: z *: ca;
   cb; x *: cb; x *: x *: cb; z *: cb; z *: z *: cb;
   cc; x *: cc; x *: x *: cc; y *: cc; y *: y *: cc].

End Values.

(** ** Derivative overloads, over [Q] *)

Record enr2 := { eN2 : list Q; eNa2 : list Q; eNb2 : list Q }.
Record enr3 := { eN3 : list Q; eNa3 : list Q; eNb3 : list Q; eNc3 : list Q }.

(** [evalEnrichmentFuncs2D(order, pt, knots, N, Na, Nb)]: the last branch
    is an [else], taken for every order other than 2 and 3. *)
Definition evalEnrichmentFuncs2D_deriv (order : nat) (pt : Q * Q) (knots : list Q)
  : enr2 :=
  let '(x, y) := pt in
  match order with
  | 2%nat =>
      let ca := (1 + x) * (1 - x) in
      let cb := (1 + y) * (1 - y) in
      let da := -2 * x in
      let db := -2 * y in
      {| eN2 := [ca; y * ca; cb; x * cb; ca * cb];
         eNa2 := [da; y * da; 0; cb; da * cb];
         eNb2 := [0; ca; db; x * db; ca * db] |}
  | 3%nat =>
      let ca := (1 + x) * x * (1 - x) in
      let cb := (1 + y) * y * (1 - y) in
      let da := 1 - 3 * x * x in
      let db := 1 - 3 * y * y in
      {| eN2 := [ca; y * ca; y * y * ca; cb; x * cb; x * x * cb; ca * cb];
         eNa2 := [da; y * da; y * y * da; 0; cb; 2 * x * cb; da * cb];
         eNb2 := [0; ca; 2 * y * ca; db; x * db; x * x * db; ca * db] |}
  | _ =>
      let k1 := nth 1 knots 0 in
      let k2 := nth 2 knots 0 in
      let ca := (1 + x) * (1 - x) * ((x - k1) * (x - k2)) in
      let da := -2 * x * (x - k1) * (x - k2) +
                (1 + x) * (1 - x) * (2 * x - k1 - k2) in
      let cb := (1 + y) * (1 - y) * ((y - k1) * (y - k2)) in
      let db := -2 * y * (y - k1) * (y - k2) +
                (1 + y) * (1 - y) * (2 * y - k1 - k2) in
      {| eN2 := [ca; y * ca; y * y * ca; y * y * y * ca;
                 cb; x * cb; x * x * cb; x * x * x * cb; ca * cb];
         eNa2 := [da; y * da; y * y * da; y * y * y * da;
                  0; cb; 2 * x * cb; 3 * x * x * cb; da * cb];
         eNb2 := [0; ca; 2 * y * ca; 3 * y * y * ca;
                  db; x * db; x * x * db; x * x * x * db; ca * db] |}
  end.

(** [eval2ndEnrichmentFuncs3D(pt, N, Na, Nb, Nc)] *)
Definition eval2ndEnrichmentFuncs3D_deriv (pt : Q * Q * Q) : enr3 :=
  let '(x, y, z) := pt in
  let ca := (1 + x) * (1 - x) in
  let cb := (1 + y) * (1 - y) in
  let cc := (1 + z) * (1 - z) in
  let da := -2 * x in
  let db := -2 * y in
  let dc := -2 * z in
  {| eN3 := [ca; y * ca; z * ca; cb; x * cb; z * cb; cc; x * cc; y * cc];
     eNa3 := [da; y * da; z * da; 0; cb; 0; 0; cc; 0];
     eNb3 := [0; ca; 0; db; x * db; z * db; 0; 0; cc];
     eNc3 := [0; 0; ca; 0; 0; cb; dc; x * dc; y * dc] |}.

(** [eval3rdEnrichmentFuncs3D(pt, N, Na, Nb, Nc)] *)
Definition eval3rdEnrichmentFuncs3D_deriv (pt : Q * Q * Q) : enr3 :=
  let '(x, y, z) := pt in
  let ca := (1 + x) * x * (1 - x) in
  let cb := (1 + y) * y * (1 - y) in
  let cc := (1 + z) * z * (1 - z) in
  let da := 1 - 3 * x * x in
  let db := 1 - 3 * y * y in
  let dc := 1 - 3 * z * z in
  {| eN3 := [ca; y * ca; y * y * ca; z * ca; z * z * ca;
             cb; x * cb; x * x * cb; z * cb; z * z * cb;
             cc; x * cc; x * x * cc; y * cc; y * y * cc];
     eNa3 := [da; y * da; y * y * da; z * da; z * z * da;
              0; cb; 2 * x * cb; 0; 0;
              0; cc; 2 * x * cc; 0; 0];
     eNb3 := [0; ca; 2 * y * ca; 0; 0;
              db; x * db; x * x * db; z * db; z * z * db;
              0; 0; 0; cc; 2 * y * cc];
     eNc3 := [0; 0; 0; ca; 2 * z * ca;
              0; 0; 0; cb; 2 * z * cb;
              dc; x * dc; x * x * dc; y * dc; y * y * dc] |}.

(** ** Directional derivatives

    [combo2 dx dy Na Nb] is the list [dx * Na[i] + dy * Nb[i]]: the
    derivative of each function along the direction [(dx, dy)]. *)
Definition combo2 (dx dy : Q) (Na Nb : list Q) : list Q :=
  map (fun p => dx * fst p + dy * snd p) (combine Na Nb).

Definition combo3 (dx dy dz : Q) (Na Nb Nc : list Q) : list Q :=
  map (fun p => dx * fst (fst p) + dy * snd (fst p) + dz * snd p)
      (combine (combine Na Nb) Nc).

End Enrich.

(** ** Theorems *)

Module EnrichFacts.
Import Enrich.

(** The dual-number evaluation of a 3D basis at [(x + dx eps, y + dy eps,
    z + dz eps)]: its [du] parts are the derivatives along [(dx,dy,dz)]. *)
Definition jet3 (f : dual * dual * dual -> list dual) (x y z dx dy dz : Q) : list Q :=
  map du (f (mkDual x dx, mkDual y dy, mkDual z dz)).

Definition jet2 (f : dual * dual -> list dual) (x y dx dy : Q) : list Q :=
  map du (f (mkDual x dx, mkDual y dy)).

(** The derivative overload of [eval2ndEnrichmentFuncs3D] returns the
    values of the value overload, and [Na], [Nb], [Nc] are the exact
    partial derivatives of those values: along every direction
    [(dx,dy,dz)] the derivative of each function is
    [dx*Na[i] + dy*Nb[i] + dz*Nc[i]]. *)
Theorem eval2ndEnrichmentFuncs3D_deriv_exact (x y z : Q) :
  let e := eval2ndEnrichmentFuncs3D_deriv (x, y, z) in
  eN3 e ==l eval2ndEnrichmentFuncs3D (x, y, z) /\
  forall dx dy dz,
    jet3 eval2ndEnrichmentFuncs3D x y z dx dy dz ==l
    combo3 dx dy dz (eNa3 e) (eNb3 e) (eNc3 e).
Proof. split; [|intros]; simpl; eqlist_ring. Qed.

(** The derivative overload of [eval3rdEnrichmentFuncs3D] returns the
    values of the value overload together with their exact partial
    derivatives. *)
Theorem eval3rdEnrichmentFuncs3D_deriv_exact (x y z : Q) :
  let e := eval3rdEnrichmentFuncs3D_deriv (x, y, z) in
  eN3 e ==l eval3rdEnrichmentFuncs3D (x, y, z) /\
  forall dx dy dz,
    jet3 eval3rdEnrichmentFuncs3D x y z dx dy dz ==l
    combo3 dx dy dz (eNa3 e) (eNb3 e) (eNc3 e).
Proof. split; [|intros]; simpl; eqlist_ring. Qed.

(** For the orders 2, 3 and 4 the derivative overload of
    [evalEnrichmentFuncs2D] returns the values of the value overload (with
    the same knots) together with their exact partial derivatives. *)
Theorem evalEnrichmentFuncs2D_deriv_exact (order : nat) (knots : list Q) (x y : Q) :
  (2 <= order <= 4)%nat ->
  let e := evalEnrichmentFuncs2D_deriv order (x, y) knots in
  eN2 e ==l evalEnrichmentFuncs2D order (x, y) knots /\
  forall dx dy,
    jet2 (fun pt => evalEnrichmentFuncs2D order pt knots) x y dx dy ==l
    combo2 dx dy (eNa2 e) (eNb2 e).
Proof.
  intros Ho.
  destruct order as [|[|[|[|[|order]]]]]; try lia;
    (split; [|intros]; simpl; eqlist_ring).
Qed.

Lemma evalEnrichmentFuncs2D_deriv_exact_witness :
  let e := evalEnrichmentFuncs2D_deriv 4 (1#2, 1#3) [-1; -1#3; 1#3; 1] in
  eN2 e ==l evalEnrichmentFuncs2D 4 (1#2, 1#3) [-1; -1#3; 1#3; 1] /\
  forall dx dy,
    jet2 (fun pt => evalEnrichmentFuncs2D 4 pt [-1; -1#3; 1#3; 1]) (1#2) (1#3) dx dy ==l
    combo2 dx dy (eNa2 e) (eNb2 e).
Proof. apply (evalEnrichmentFuncs2D_deriv_exact 4); lia. Defined.

(** Closed the goal [Forall (fun v => v == 0) l] once the point is a
    concrete knot: enumerate the knots and evaluate. *)
Ltac knots_zero := destruct_in; apply all_zerob_spec; vm_compute; reflexivity.

(** The 3D enrichment functions vanish at every interpolation knot of
    the element they enrich: the second-order functions at every point of
    [{-1,1}^3], the third-order functions at every point of [{-1,0,1}^3].
    Adding an enrichment therefore never changes the field at the nodes. *)
Theorem eval3DEnrichment_vanish_at_knots (x y z : Q) :
  (In x [-1; 1] -> In y [-1; 1] -> In z [-1; 1] ->
   Forall (fun v => v == 0) (eval2ndEnrichmentFuncs3D (x, y, z))) /\
  (In x [-1; 0; 1] -> In y [-1; 0; 1] -> In z [-1; 0; 1] ->
   Forall (fun v => v == 0) (eval3rdEnrichmentFuncs3D (x, y, z))).
Proof. split; intros Hx Hy Hz; knots_zero. Qed.

Lemma eval3DEnrichment_vanish_at_knots_witness :
  Forall (fun v => v == 0) (eval2ndEnrichmentFuncs3D (-1, 1, -1)) /\
  Forall (fun v => v == 0) (eval3rdEnrichmentFuncs3D (0, 1, -1)).
Proof.
  split; [apply (proj1 (eval3DEnrichment_vanish_at_knots (-1) 1 (-1)))
         |apply (proj2 (eval3DEnrichment_vanish_at_knots 0 1 (-1)))];
    simpl; tauto.
Defined.

(** The 2D enrichment functions of order 4 vanish at every point
    whose two coordinates lie in [{-1, knots[1], knots[2], 1}], for the
    [knots] array they are given: the bubble factor is
    [(1 - x^2)(x - knots[1])(x - knots[2])]. *)
Theorem evalEnrichmentFuncs2D_order4_vanish (knots : list Q) (x y : Q) :
  In x [-1; nth 1 knots 0; nth 2 knots 0; 1] ->
  In y [-1; nth 1 knots 0; nth 2 knots 0; 1] ->
  Forall (fun v => v == 0) (evalEnrichmentFuncs2D 4 (x, y) knots).
Proof.
  intros Hx Hy; destruct_in; simpl; repeat constructor; simpl; ring.
Qed.

Lemma evalEnrichmentFuncs2D_order4_vanish_witness :
  Forall (fun v => v == 0) (evalEnrichmentFuncs2D 4 (-1#3, 1#3) [-1; -1#3; 1#3; 1]).
Proof.
  apply (evalEnrichmentFuncs2D_order4_vanish [-1; -1#3; 1#3; 1]); simpl; tauto.
Defined.

End EnrichFacts.
