(* ===== verification/Interp.v ===== *)
(** * The forest's Lagrange interpolation and the Jacobian kernel (C2)

    [Forest] models the two services the reconstruction asks of the
    TMROctForest / TMRQuadForest collaborator (spec section 6): the knot
    vector of a mesh order ([getInterpKnots]) and the tensor-product
    Lagrange basis with its derivatives ([evalInterp]).  Those classes are
    not part of src/, so this part is modelled from the spec: the knots are
    the uniformly spaced ones, the basis is the Lagrange basis over them,
    and its derivatives are obtained by evaluating the basis at dual
    numbers.  [Jac] models [computeJacobianTrans3D] (src/src/TMRGeometry.c,
    lines 701-731) and the TACS routine [FElibrary::jacobian3d] it calls
    (modelled from the spec: determinant and inverse of a 3x3 matrix). *)

From Stdlib Require Import PeanoNat QArith Qring Qfield List Lia Lqa.
From S2P Require Import Prelude.
Import ListNotations.
Open Scope Q_scope.
Open Scope tmr_scope.

Module Forest.

(** [getInterpKnots]: uniformly spaced knots on [-1, 1] for the orders the
    code supports ([MAX_ORDER = 6]). *)
Definition getInterpKnots (order : nat) : list Q :=
  match order with
  | 2%nat => [-1; 1]
  | 3%nat => [-1; 0; 1]
  | 4%nat => [-1; -1#3; 1#3; 1]
  | 5%nat => [-1; -1#2; 0; 1#2; 1]
  | 6%nat => [-1; -3#5; -1#5; 1#5; 3#5; 1]
  | _ => []
  end.

Section Basis.
Context {K : Type} `{RingOps K}.

(** One-dimensional Lagrange basis over [knots]:
    [N_i(x) = prod_{j <> i} (x - k_j) / (k_i - k_j)]. *)
Definition lagrange1D (knots : list Q) (x : K) : list K :=
  map (fun i =>
         fold_left (fun acc j =>
                      if Nat.eqb i j then acc
                      else acc *: ((x -: rconst (nth j knots 0)) *:
                                   rconst (/ (nth i knots 0 - nth j knots 0))))
                   (seq 0 (length knots)) 1:)
      (seq 0 (length knots)).

(** The tensor product in the code's node order: node [i + p*j + p*p*k]
    carries [Nx[i] * Ny[j] * Nz[k]], with [i] varying fastest. *)
Definition tensor3 (nx ny nz : list K) : list K :=
  flat_map (fun c => flat_map (fun b => map (fun a => a *: b *: c) nx) ny) nz.

Definition tensor2 (nx ny : list K) : list K :=
  flat_map (fun b => map (fun a => a *: b) nx) ny.

(** [evalInterp(pt, N)] *)
Definition evalInterp3D (knots : list Q) (pt : K * K * K) : list K :=
  let '(x, y, z) := pt in
  tensor3 (lagrange1D knots x) (lagrange1D knots y) (lagrange1D knots z).

Definition evalInterp2D (knots : list Q) (pt : K * K) : list K :=
  let '(x, y) := pt in tensor2 (lagrange1D knots x) (lagrange1D knots y).

End Basis.

(** [evalInterp(pt, N, Na, Nb, Nc)]: the values and the three partial
    derivatives, the latter read off the dual-number evaluation. *)
Record interp3 := { iN : list Q; iNa : list Q; iNb : list Q; iNc : list Q }.

Definition evalInterp3D_deriv (knots : list Q) (pt : Q * Q * Q) : interp3 :=
  let '(x, y, z) := pt in
  {| iN := evalInterp3D knots (x, y, z);
     iNa := map du (evalInterp3D knots (mkDual x 1, mkDual y 0, mkDual z 0));
     iNb := map du (evalInterp3D knots (mkDual x 0, mkDual y 1, mkDual z 0));
     iNc := map du (evalInterp3D knots (mkDual x 0, mkDual y 0, mkDual z 1)) |}.

(** The knot positions of an element in the order of the code's loops
    [for kk { for jj { for ii { ... } } }]. *)
Definition knot_positions3D (order : nat) : list (nat * nat * nat) :=
  flat_map (fun kk => flat_map (fun jj => map (fun ii => (ii, jj, kk))
                                              (seq 0 order))
                               (seq 0 order))
           (seq 0 order).

(** The flat index [ii + order*jj + order*order*kk] of a knot position. *)
Definition knot_index3D (order : nat) (p : nat * nat * nat) : nat :=
  let '(ii, jj, kk) := p in (ii + order * jj + order * order * kk)%nat.

End Forest.

Module Jac.

(** A 3x3 matrix stored row-major as the code's [TacsScalar X[9]]. *)
Record m9 := mk9 { e0 : Q; e1 : Q; e2 : Q; e3 : Q; e4 : Q;
                   e5 : Q; e6 : Q; e7 : Q; e8 : Q }.

Definition m9_zero : m9 := mk9 0 0 0 0 0 0 0 0 0.

(** [FElibrary::jacobian3d(Xd, J)]: returns the determinant of [Xd] and
    writes its inverse into [J].  (A zero determinant divides by zero in
    the C code; over [Q] the inverse of [0] is [0].) *)
Definition det3 (X : m9) : Q :=
  e0 X * (e4 X * e8 X - e5 X * e7 X)
  - e1 X * (e3 X * e8 X - e5 X * e6 X)
  + e2 X * (e3 X * e7 X - e4 X * e6 X).

Definition jacobian3d (X : m9) : m9 * Q :=
  let h := det3 X in
  let hinv := / h in
  (mk9 ((e4 X * e8 X - e5 X * e7 X) * hinv)
       ((e2 X * e7 X - e1 X * e8 X) * hinv)
       ((e1 X * e5 X - e2 X * e4 X) * hinv)
       ((e5 X * e6 X - e3 X * e8 X) * hinv)
       ((e0 X * e8 X - e2 X * e6 X) * hinv)
       ((e2 X * e3 X - e0 X * e5 X) * hinv)
       ((e3 X * e7 X - e4 X * e6 X) * hinv)
       ((e1 X * e6 X - e0 X * e7 X) * hinv)
       ((e0 X * e4 X - e1 X * e3 X) * hinv), h).

(** One pass of the accumulation loop of [computeJacobianTrans3D]:
    node [i] adds [X[3i+c] * na[i]] into [Xd[c]], [X[3i+c] * nb[i]] into
    [Xd[3+c]] and [X[3i+c] * nc[i]] into [Xd[6+c]]. *)
Definition jac_step (Xpts Na Nb Nc : list Q) (Xd : m9) (i : nat) : m9 :=
  let x0 := nth (3 * i) Xpts 0 in
  let x1 := nth (3 * i + 1) Xpts 0 in
  let x2 := nth (3 * i + 2) Xpts 0 in
  let na := nth i Na 0 in
  let nb := nth i Nb 0 in
  let nc := nth i Nc 0 in
  mk9 (e0 Xd + x0 * na) (e1 Xd + x1 * na) (e2 Xd + x2 * na)
      (e3 Xd + x0 * nb) (e4 Xd + x1 * nb) (e5 Xd + x2 * nb)
      (e6 Xd + x0 * nc) (e7 Xd + x1 * nc) (e8 Xd + x2 * nc).

(** [computeJacobianTrans3D(Xpts, Na, Nb, Nc, Xd, J, num_nodes)]: returns
    [(Xd, J, detJ)]. *)
Definition computeJacobianTrans3D (Xpts Na Nb Nc : list Q) (num_nodes : nat)
  : m9 * m9 * Q :=
  let Xd := fold_left (jac_step Xpts Na Nb Nc) (seq 0 num_nodes) m9_zero in
  let '(J, h) := jacobian3d Xd in
  (Xd, J, h).

(** Row-major product of two 3x3 matrices, and the identity. *)
Definition m9_mul (A B : m9) : m9 :=
  mk9 (e0 A * e0 B + e1 A * e3 B + e2 A * e6 B)
      (e0 A * e1 B + e1 A * e4 B + e2 A * e7 B)
      (e0 A * e2 B + e1 A * e5 B + e2 A * e8 B)
      (e3 A * e0 B + e4 A * e3 B + e5 A * e6 B)
      (e3 A * e1 B + e4 A * e4 B + e5 A * e7 B)
      (e3 A * e2 B + e4 A * e5 B + e5 A * e8 B)
      (e6 A * e0 B + e7 A * e3 B + e8 A * e6 B)
      (e6 A * e1 B + e7 A * e4 B + e8 A * e7 B)
      (e6 A * e2 B + e7 A * e5 B + e8 A * e8 B).

Definition m9_id : m9 := mk9 1 0 0 0 1 0 0 0 1.

Definition m9_eq (A B : m9) : Prop :=
  e0 A == e0 B /\ e1 A == e1 B /\ e2 A == e2 B /\
  e3 A == e3 B /\ e4 A == e4 B /\ e5 A == e5 B /\
  e6 A == e6 B /\ e7 A == e7 B /\ e8 A == e8 B.

End Jac.

(** ** Facts about the basis and the Jacobian kernel *)

Module InterpFacts.
Import Forest Jac.

(** Triple sums over a tensor-product node list. *)
Definition tsum3 {A B C} (nx : list A) (ny : list B) (nz : list C)
  (F : A -> B -> C -> Q) : Q :=
  sumQ (map (fun c => sumQ (map (fun b => sumQ (map (fun a => F a b c) nx)) ny)) nz).

Lemma tsum3_flat_map {A B C} (nx : list A) (ny : list B) (nz : list C) F :
  sumQ (flat_map (fun c => flat_map (fun b => map (fun a => F a b c) nx) ny) nz)
  == tsum3 nx ny nz F.
Proof.
  unfold tsum3; rewrite sumQ_flat_map; apply sumQ_map_ext; intros c _.
  rewrite sumQ_flat_map; reflexivity.
Qed.

Lemma tsum3_ext {A B C} (nx : list A) (ny : list B) (nz : list C) F G :
  (forall a b c, F a b c == G a b c) -> tsum3 nx ny nz F == tsum3 nx ny nz G.
Proof.
  intros H; unfold tsum3; apply sumQ_map_ext; intros c _; apply sumQ_map_ext;
    intros b _; apply sumQ_map_ext; intros a _; apply H.
Qed.

Lemma tsum3_add {A B C} (nx : list A) (ny : list B) (nz : list C) F G :
  tsum3 nx ny nz (fun a b c => F a b c + G a b c)
  == tsum3 nx ny nz F + tsum3 nx ny nz G.
Proof.
  unfold tsum3; rewrite <- sumQ_map_add; apply sumQ_map_ext; intros c _.
  rewrite <- sumQ_map_add; apply sumQ_map_ext; intros b _.
  rewrite <- sumQ_map_add; reflexivity.
Qed.

Lemma tsum3_prod {A B C} (nx : list A) (ny : list B) (nz : list C) f g h :
  tsum3 nx ny nz (fun a b c => f a * g b * h c)
  == sumQ (map f nx) * sumQ (map g ny) * sumQ (map h nz).
Proof.
  unfold tsum3.
  rewrite <- (sumQ_map_scale (sumQ (map f nx) * sumQ (map g ny))).
  apply sumQ_map_ext; intros c _.
  rewrite (sumQ_map_ext _ (fun b => sumQ (map f nx) * g b * h c)).
  - rewrite (sumQ_map_ext _ (fun b => (sumQ (map f nx) * h c) * g b))
      by (intros; ring).
    rewrite sumQ_map_scale; ring.
  - intros b _.
    rewrite (sumQ_map_ext _ (fun a => (g b * h c) * f a)) by (intros; ring).
    rewrite sumQ_map_scale; ring.
Qed.

Definition sR (l : list dual) : Q := sumQ (map re l).
Definition sD (l : list dual) : Q := sumQ (map du l).

Lemma sum_tensor3_Q (nx ny nz : list Q) :
  sumQ (tensor3 nx ny nz) == sumQ nx * sumQ ny * sumQ nz.
Proof.
  unfold tensor3.
  rewrite (tsum3_flat_map nx ny nz (fun a b c => a *: b *: c)).
  rewrite (tsum3_prod nx ny nz (fun a => a) (fun b => b) (fun c => c)).
  rewrite !map_id; reflexivity.
Qed.

Lemma map_tensor3 {K1 K2} `{RingOps K1} (g : K1 -> K2) (nx ny nz : list K1) :
  map g (tensor3 nx ny nz)
  = flat_map (fun c => flat_map (fun b => map (fun a => g (a *: b *: c)) nx) ny) nz.
Proof.
  unfold tensor3; rewrite map_flat_map; apply flat_map_ext; intros c.
  rewrite map_flat_map; apply flat_map_ext; intros b; apply map_map.
Qed.

(** Product rule, summed over the tensor product. *)
Lemma sum_tensor3_du (nx ny nz : list dual) :
  sD (tensor3 nx ny nz)
  == sD nx * sR ny * sR nz + sR nx * sD ny * sR nz + sR nx * sR ny * sD nz.
Proof.
  unfold sD, sR; rewrite map_tensor3, tsum3_flat_map.
  rewrite (tsum3_ext nx ny nz _
             (fun a b c => (du a * re b * re c + re a * du b * re c)
                           + re a * re b * du c)) by (intros; simpl; ring).
  rewrite !tsum3_add, !tsum3_prod; ring.
Qed.

Lemma sum_tensor3_re (nx ny nz : list dual) :
  sR (tensor3 nx ny nz) == sR nx * sR ny * sR nz.
Proof.
  unfold sR; rewrite map_tensor3, tsum3_flat_map.
  rewrite (tsum3_ext nx ny nz _ (fun a b c => re a * re b * re c))
    by (intros; simpl; ring).
  apply tsum3_prod.
Qed.

(** The 1D Lagrange basis over the knots of every supported order is a
    partition of unity, at rational and at dual points. *)
Lemma lagrange1D_unity (order : nat) (x dx : Q) :
  (2 <= order <= 6)%nat ->
  sumQ (lagrange1D (getInterpKnots order) x) == 1 /\
  sR (lagrange1D (getInterpKnots order) (mkDual x dx)) == 1 /\
  sD (lagrange1D (getInterpKnots order) (mkDual x dx)) == 0.
Proof.
  intros Ho; unfold sR, sD.
  destruct order as [|[|[|[|[|[|[|order]]]]]]]; try lia;
    repeat split; cbn; ring.
Qed.

(** The tensor-product basis of [evalInterp] sums to one and its three
    derivative arrays sum to zero, at every point. *)
Lemma evalInterp3D_unity (order : nat) (pt : Q * Q * Q) :
  (2 <= order <= 6)%nat ->
  let I := evalInterp3D_deriv (getInterpKnots order) pt in
  sumQ (iN I) == 1 /\ sumQ (iNa I) == 0 /\ sumQ (iNb I) == 0 /\ sumQ (iNc I) == 0.
Proof.
  intros Ho; destruct pt as [[x y] z]; simpl.
  destruct (lagrange1D_unity order x 1 Ho) as [Ux [Rx1 Dx1]].
  destruct (lagrange1D_unity order y 1 Ho) as [Uy [Ry1 Dy1]].
  destruct (lagrange1D_unity order z 1 Ho) as [Uz [Rz1 Dz1]].
  destruct (lagrange1D_unity order x 0 Ho) as [_ [Rx0 Dx0]].
  destruct (lagrange1D_unity order y 0 Ho) as [_ [Ry0 Dy0]].
  destruct (lagrange1D_unity order z 0 Ho) as [_ [Rz0 Dz0]].
  repeat split.
  - rewrite sum_tensor3_Q, Ux, Uy, Uz; ring.
  - change (sD (tensor3 (lagrange1D (getInterpKnots order) (mkDual x 1))
                  (lagrange1D (getInterpKnots order) (mkDual y 0))
                  (lagrange1D (getInterpKnots order) (mkDual z 0))) == 0).
    rewrite sum_tensor3_du, Rx1, Dx1, Ry0, Dy0, Rz0, Dz0; ring.
  - change (sD (tensor3 (lagrange1D (getInterpKnots order) (mkDual x 0))
                  (lagrange1D (getInterpKnots order) (mkDual y 1))
                  (lagrange1D (getInterpKnots order) (mkDual z 0))) == 0).
    rewrite sum_tensor3_du, Rx0, Dx0, Ry1, Dy1, Rz0, Dz0; ring.
  - change (sD (tensor3 (lagrange1D (getInterpKnots order) (mkDual x 0))
                  (lagrange1D (getInterpKnots order) (mkDual y 0))
                  (lagrange1D (getInterpKnots order) (mkDual z 1))) == 0).
    rewrite sum_tensor3_du, Rx0, Dx0, Ry0, Dy0, Rz1, Dz1; ring.
Qed.

(** ** Knot positions and node counts *)

Lemma map_add_seq (c p s : nat) :
  map (fun i => (i + c)%nat) (seq s p) = seq (s + c) p.
Proof.
  revert s; induction p as [|p IH]; intros s; simpl; [reflexivity|].
  rewrite IH; f_equal; f_equal; lia.
Qed.

Lemma seq_blocks (p m s : nat) :
  seq s (p * m) = flat_map (fun j => seq (s + p * j) p) (seq 0 m).
Proof.
  induction m as [|m IH]; [rewrite Nat.mul_0_r; reflexivity|].
  rewrite seq_S, flat_map_app, <- IH; simpl; rewrite app_nil_r.
  replace (p * S m)%nat with (p * m + p)%nat by lia.
  apply seq_app.
Qed.

(** The loop nest visits the knot indices [0, 1, ..., p^3 - 1] in order. *)
Lemma knot_positions3D_index (p : nat) :
  map (knot_index3D p) (knot_positions3D p) = seq 0 (p * p * p).
Proof.
  unfold knot_positions3D; rewrite map_flat_map.
  rewrite (seq_blocks (p * p) p 0).
  apply flat_map_ext; intros kk; rewrite map_flat_map.
  rewrite (seq_blocks p p); apply flat_map_ext; intros jj.
  rewrite map_map.
  replace (0 + p * p * kk + p * jj)%nat with (0 + (p * p * kk + p * jj))%nat by lia.
  rewrite <- (map_add_seq (p * p * kk + p * jj) p 0).
  apply map_ext; intros ii; simpl; lia.
Qed.

Lemma knot_positions3D_length (p : nat) : length (knot_positions3D p) = (p * p * p)%nat.
Proof.
  rewrite <- (length_map (knot_index3D p)), knot_positions3D_index, length_seq; reflexivity.
Qed.

Lemma knot_positions3D_nth (p k : nat) :
  (k < p * p * p)%nat -> knot_index3D p (nth k (knot_positions3D p) (0, 0, 0)%nat) = k.
Proof.
  intros Hk.
  rewrite <- (map_nth (knot_index3D p) (knot_positions3D p) (0, 0, 0)%nat k).
  change (knot_index3D p (0, 0, 0)%nat) with (0 + p * 0 + p * p * 0)%nat.
  rewrite knot_positions3D_index.
  rewrite nth_indep with (d' := 0%nat) by (rewrite length_seq; exact Hk).
  rewrite seq_nth by exact Hk; reflexivity.
Qed.

Lemma knot_positions3D_bound (p ii jj kk : nat) :
  In (ii, jj, kk) (knot_positions3D p) ->
  (ii < p)%nat /\ (jj < p)%nat /\ (kk < p)%nat /\ (knot_index3D p (ii, jj, kk) < p * p * p)%nat.
Proof.
  unfold knot_positions3D; intros H.
  apply in_flat_map in H as [k [Hk H]]; apply in_flat_map in H as [j [Hj H]].
  apply in_map_iff in H as [i [Heq Hi]]; inversion Heq; subst.
  apply in_seq in Hk, Hj, Hi; simpl; repeat split; try lia; nia.
Qed.

Lemma length_lagrange1D {K} `{RingOps K} (knots : list Q) (x : K) :
  length (lagrange1D knots x) = length knots.
Proof. unfold lagrange1D; rewrite length_map, length_seq; reflexivity. Qed.

Lemma length_tensor3 {K} `{RingOps K} (nx ny nz : list K) :
  length (tensor3 nx ny nz) = (length nx * length ny * length nz)%nat.
Proof.
  unfold tensor3.
  rewrite (length_flat_map_const _ _ (length nx * length ny)).
  - lia.
  - intros c _; rewrite (length_flat_map_const _ _ (length nx)); [lia|].
    intros b _; apply length_map.
Qed.

Lemma getInterpKnots_length (order : nat) :
  (2 <= order <= 6)%nat -> length (getInterpKnots order) = order.
Proof. intros Ho; destruct order as [|[|[|[|[|[|[|o]]]]]]]; try lia; reflexivity. Qed.

(** The value and derivative arrays of [evalInterp] have one entry per
    element node. *)
Lemma evalInterp3D_deriv_length (order : nat) (pt : Q * Q * Q) :
  (2 <= order <= 6)%nat ->
  let I := evalInterp3D_deriv (getInterpKnots order) pt in
  length (iN I) = (order * order * order)%nat /\
  length (iNa I) = (order * order * order)%nat /\
  length (iNb I) = (order * order * order)%nat /\
  length (iNc I) = (order * order * order)%nat.
Proof.
  intros Ho; destruct pt as [[x y] z]; simpl.
  rewrite !length_map, !length_tensor3, !length_lagrange1D, getInterpKnots_length by exact Ho.
  repeat split.
Qed.

(** The derivative arrays summed over the element nodes by index, as the
    loops of the source sum them. *)
Lemma evalInterp3D_deriv_sums (order : nat) (pt : Q * Q * Q) :
  (2 <= order <= 6)%nat ->
  let I := evalInterp3D_deriv (getInterpKnots order) pt in
  let n := (order * order * order)%nat in
  (sumQ (map (fun i => nth i (iNa I) 0) (seq 0 n)) == 0) /\
  (sumQ (map (fun i => nth i (iNb I) 0) (seq 0 n)) == 0) /\
  (sumQ (map (fun i => nth i (iNc I) 0) (seq 0 n)) == 0).
Proof.
  intros Ho I n.
  destruct (evalInterp3D_deriv_length order pt Ho) as (_ & La & Lb & Lc).
  destruct (evalInterp3D_unity order pt Ho) as (_ & Sa & Sb & Sc).
  fold I in La, Lb, Lc, Sa, Sb, Sc; unfold n.
  rewrite <- La at 1; rewrite sumQ_nth_seq; split; [exact Sa|].
  rewrite <- Lb at 1; rewrite sumQ_nth_seq; split; [exact Sb|].
  rewrite <- Lc at 1; rewrite sumQ_nth_seq; exact Sc.
Qed.

(** The entries of [Xd] are the sums the loop accumulates. *)
Definition xd_sum (Xpts N : list Q) (c n : nat) : Q :=
  sumQ (map (fun i => nth (3 * i + c) Xpts 0 * nth i N 0) (seq 0 n)).

Definition xd_matrix (Xpts Na Nb Nc : list Q) (n : nat) : m9 :=
  mk9 (xd_sum Xpts Na 0 n) (xd_sum Xpts Na 1 n) (xd_sum Xpts Na 2 n)
      (xd_sum Xpts Nb 0 n) (xd_sum Xpts Nb 1 n) (xd_sum Xpts Nb 2 n)
      (xd_sum Xpts Nc 0 n) (xd_sum Xpts Nc 1 n) (xd_sum Xpts Nc 2 n).

Lemma jac_fold (Xpts Na Nb Nc : list Q) (l : list nat) (M : m9) :
  let F := fold_left (jac_step Xpts Na Nb Nc) l M in
  let S N c := sumQ (map (fun i => nth (3 * i + c) Xpts 0 * nth i N 0) l) in
  m9_eq F (mk9 (e0 M + S Na 0%nat) (e1 M + S Na 1%nat) (e2 M + S Na 2%nat)
               (e3 M + S Nb 0%nat) (e4 M + S Nb 1%nat) (e5 M + S Nb 2%nat)
               (e6 M + S Nc 0%nat) (e7 M + S Nc 1%nat) (e8 M + S Nc 2%nat)).
Proof.
  revert M; induction l as [|i l IH]; intros M; simpl.
  - unfold m9_eq; simpl; repeat split; ring.
  - destruct (IH (jac_step Xpts Na Nb Nc M i)) as
      (H0 & H1 & H2 & H3 & H4 & H5 & H6 & H7 & H8).
    unfold m9_eq; simpl in *.
    rewrite H0, H1, H2, H3, H4, H5, H6, H7, H8.
    rewrite !Nat.add_0_r; repeat split; ring.
Qed.

Lemma jacobian3d_inverse (X : m9) :
  ~ det3 X == 0 ->
  m9_eq (m9_mul (fst (jacobian3d X)) X) m9_id /\
  m9_eq (m9_mul X (fst (jacobian3d X))) m9_id.
Proof.
  intros Hd; unfold m9_eq; simpl; unfold det3 in *; repeat split; field; exact Hd.
Qed.

(** (C8) [computeJacobianTrans3D] returns in [Xd] the matrix whose rows
    are the derivatives of the node positions along the three reference
    directions ([Xd[3a+c] = sum_i X[3i+c] * N_a[i]]), its determinant, and,
    when that determinant is non-zero, in [J] the two-sided inverse of
    [Xd]. *)
Theorem computeJacobianTrans3D_spec (Xpts Na Nb Nc : list Q) (n : nat) :
  let '(Xd, J, h) := computeJacobianTrans3D Xpts Na Nb Nc n in
  m9_eq Xd (xd_matrix Xpts Na Nb Nc n) /\ h == det3 Xd /\
  (~ h == 0 -> m9_eq (m9_mul J Xd) m9_id /\ m9_eq (m9_mul Xd J) m9_id).
Proof.
  unfold computeJacobianTrans3D; simpl.
  split; [|split; [reflexivity|]].
  - destruct (jac_fold Xpts Na Nb Nc (seq 0 n) m9_zero)
      as (H0 & H1 & H2 & H3 & H4 & H5 & H6 & H7 & H8).
    unfold m9_eq, xd_matrix, xd_sum; simpl in *.
    rewrite H0, H1, H2, H3, H4, H5, H6, H7, H8; repeat split; ring.
  - apply jacobian3d_inverse.
Qed.

End InterpFacts.
