(* ===== verification/NodeVec.v ===== *)
(** * The nodal vector collaborator (TACSBVec) and the nodal weights

    [BVec] models the distributed block vector of TACS on one process: a
    value per (node, component), the dependent-node table, and the three
    access modes the reconstruction uses (spec sections 3 and 6):
    [getValues] reads blocks (a dependent node reads the weighted sum of its
    independent contributors), [setValues] with [TACS_ADD_VALUES] adds blocks
    (a contribution aimed at a dependent node is routed through the table),
    and [TACS_INSERT_NONZERO_VALUES] overwrites the non-zero entries of
    independent nodes.  TACSBVec is not part of src/, so these are modelled
    from the spec; with one process the collective calls
    ([beginSetValues]/[endSetValues], [beginDistributeValues]/
    [endDistributeValues]) leave the values unchanged and are not modelled.

    [Weights] models [computeLocalWeights] (src/src/TMRGeometry.c, lines
    1460-1527): every element adds a unit weight to each of its
    non-dependent nodes, so the weight of a node is the number of element
    slots that reference it. *)

From Stdlib Require Import PeanoNat ZArith QArith Qring List Lia Lqa.
From S2P Require Import Prelude.
Import ListNotations.
Open Scope Q_scope.
Open Scope tmr_scope.

Module BVec.

Record bvec := mkBVec { bsize : nat; val : nat -> nat -> Q }.

(** Entry [d] of the table lists the (independent node, weight) pairs that
    define dependent node [-(d+1)]. *)
Definition dep_table := list (list (nat * Q)).

Definition dep_of (deps : dep_table) (n : Z) : list (nat * Q) :=
  nth (Z.to_nat (- n - 1)) deps [].

(** [zeroEntries] *)
Definition zeroEntries (v : bvec) : bvec := mkBVec (bsize v) (fun _ _ => 0).

Definition add_to_node (v : bvec) (m : nat) (blk : list Q) : bvec :=
  mkBVec (bsize v) (fun n c => val v n c + if Nat.eqb n m then nth c blk 0 else 0).

(** Block [k] of a node-major array with [bs] entries per node. *)
Definition block (bs k : nat) (data : list Q) : list Q :=
  firstn bs (skipn (bs * k) data).

Definition add_slot (deps : dep_table) (v : bvec) (n : Z) (blk : list Q) : bvec :=
  if (0 <=? n)%Z then add_to_node v (Z.to_nat n) blk
  else fold_left (fun acc mw => add_to_node acc (fst mw) (map (Qmult (snd mw)) blk))
                 (dep_of deps n) v.

(** [setValues(len, nodes, data, TACS_ADD_VALUES)] *)
Definition setValues_add (deps : dep_table) (v : bvec) (nodes : list Z)
  (data : list Q) : bvec :=
  fold_left (fun acc k => add_slot deps acc (nth k nodes 0%Z) (block (bsize v) k data))
            (seq 0 (length nodes)) v.

(** [getValues(len, nodes, out)] *)
Definition get_node (deps : dep_table) (v : bvec) (n : Z) : list Q :=
  if (0 <=? n)%Z then map (val v (Z.to_nat n)) (seq 0 (bsize v))
  else map (fun c => sumQ (map (fun mw => snd mw * val v (fst mw) c) (dep_of deps n)))
           (seq 0 (bsize v)).

Definition getValues (deps : dep_table) (v : bvec) (nodes : list Z) : list Q :=
  flat_map (get_node deps v) nodes.

(** [setValues(len, nodes, data, TACS_INSERT_NONZERO_VALUES)]: each
    non-zero entry aimed at an independent node overwrites it. *)
Definition insert_node (v : bvec) (m : nat) (blk : list Q) : bvec :=
  mkBVec (bsize v)
         (fun n c => if Nat.eqb n m && Nat.ltb c (bsize v)
                        && negb (Qeq_bool (nth c blk 0) 0)
                     then nth c blk 0 else val v n c).

Definition setValues_insert_nonzero (v : bvec) (nodes : list Z) (data : list Q)
  : bvec :=
  fold_left (fun acc k =>
               let n := nth k nodes 0%Z in
               if (0 <=? n)%Z then insert_node acc (Z.to_nat n) (block (bsize v) k data)
               else acc)
            (seq 0 (length nodes)) v.

(** How much a value written through slot [n] lands on independent node
    [m]: [1] for the node itself, the table weight for a dependent node. *)
Definition slot_weight (deps : dep_table) (n : Z) (m : nat) : Q :=
  if (0 <=? n)%Z then (if Nat.eqb (Z.to_nat n) m then 1 else 0)
  else sumQ (map (fun mw => if Nat.eqb (fst mw) m then snd mw else 0) (dep_of deps n)).

End BVec.

Module Weights.
Import BVec.

(** The unit weights of one element: [welem[j] = 1], or [0] when
    [nodes[j] < 0]. *)
Definition elem_unit_weights (nodes : list Z) : list Q :=
  map (fun n => if (n <? 0)%Z then 0 else 1) nodes.

(** [computeLocalWeights(tacs, weights, element_nums, num_elements)]:
    [None] stands for the default [num_elements = -1] (every element). *)
Definition computeLocalWeights (deps : dep_table) (conn : list (list Z))
  (element_nums : option (list nat)) (weights : bvec) : bvec :=
  let elems := match element_nums with
               | None => seq 0 (length conn)
               | Some l => l
               end in
  fold_left (fun acc e => let nodes := nth e conn [] in
                          setValues_add deps acc nodes (elem_unit_weights nodes))
            elems (zeroEntries weights).

(** The number of slots of the elements [elems] that reference node [m]. *)
Definition count_refs (conn : list (list Z)) (elems : list nat) (m : nat) : nat :=
  length (filter (fun n => Z.eqb n (Z.of_nat m)) (flat_map (fun e => nth e conn []) elems)).

End Weights.

(** ** The access modes as sums over slots *)

Module BVecFacts.
Import BVec.

Lemma nth_map_Qmult (w : Q) (l : list Q) (c : nat) :
  nth c (map (Qmult w) l) 0 == w * nth c l 0.
Proof.
  revert c; induction l as [|x l IH]; intros [|c]; simpl; try ring; apply IH.
Qed.

Lemma block_nth (bs k c : nat) (data : list Q) :
  (c < bs)%nat -> nth c (block bs k data) 0 = nth (bs * k + c) data 0.
Proof.
  intros Hc; unfold block; rewrite nth_firstn.
  destruct (Nat.ltb_spec c bs); [|lia].
  rewrite nth_skipn; f_equal; lia.
Qed.

Lemma add_slot_bsize deps v n blk : bsize (add_slot deps v n blk) = bsize v.
Proof.
  unfold add_slot; destruct (0 <=? n)%Z; [reflexivity|].
  generalize v; induction (dep_of deps n) as [|[m w] l IH]; intros v0; simpl;
    [reflexivity|]; rewrite IH; reflexivity.
Qed.

(** A block written through slot [n] adds [slot_weight n m] times the block
    to node [m]. *)
Lemma add_slot_val deps v n blk m c :
  val (add_slot deps v n blk) m c == val v m c + slot_weight deps n m * nth c blk 0.
Proof.
  unfold add_slot, slot_weight; destruct (0 <=? n)%Z; simpl.
  - destruct (Nat.eqb_spec m (Z.to_nat n)), (Nat.eqb_spec (Z.to_nat n) m);
      subst; try congruence; ring.
  - generalize v; induction (dep_of deps n) as [|[m' w] l IH]; intros v0;
      cbn [fold_left map fold_right sumQ]; [ring|].
    rewrite IH; cbn [val add_to_node fst snd]; unfold sumQ in *.
    destruct (Nat.eqb_spec m m'), (Nat.eqb_spec m' m); subst; try congruence;
      [rewrite nth_map_Qmult|]; ring.
Qed.

Lemma setValues_add_bsize deps v nodes data :
  bsize (setValues_add deps v nodes data) = bsize v.
Proof.
  unfold setValues_add; generalize v at 2 3.
  induction (seq 0 (length nodes)) as [|k l IH]; intros v0; simpl;
    [reflexivity|]; rewrite IH, add_slot_bsize; reflexivity.
Qed.

(** [setValues] with [TACS_ADD_VALUES]: entry [(m, c)] gains, from every
    slot [k], the slot's weight on [m] times [data[bs*k + c]]. *)
Lemma setValues_add_val deps v nodes data m c :
  (c < bsize v)%nat ->
  val (setValues_add deps v nodes data) m c ==
  val v m c + sumQ (map (fun k => slot_weight deps (nth k nodes 0%Z) m *
                                  nth (bsize v * k + c) data 0)
                        (seq 0 (length nodes))).
Proof.
  intros Hc; unfold setValues_add.
  generalize v at 2 3.
  induction (seq 0 (length nodes)) as [|k l IH]; intros v0; simpl; [ring|].
  rewrite IH, add_slot_val, block_nth by exact Hc; ring.
Qed.

(** [getValues]: block [k] of the result is the block of node [nodes[k]],
    resolved through the table when that node is dependent. *)
Lemma getValues_nth deps v nodes k c :
  (k < length nodes)%nat -> (c < bsize v)%nat ->
  nth (bsize v * k + c) (getValues deps v nodes) 0 =
  nth c (get_node deps v (nth k nodes 0%Z)) 0.
Proof.
  intros Hk Hc; unfold getValues.
  apply nth_flat_map_block; auto.
  intros n _; unfold get_node; destruct (0 <=? n)%Z; rewrite length_map, length_seq;
    reflexivity.
Qed.

Lemma get_node_indep deps v (n : Z) c :
  (0 <= n)%Z -> (c < bsize v)%nat -> nth c (get_node deps v n) 0 = val v (Z.to_nat n) c.
Proof.
  intros Hn Hc; unfold get_node.
  destruct (Z.leb_spec 0 n); [|lia].
  rewrite nth_indep with (d' := val v (Z.to_nat n) 0%nat)
    by (rewrite length_map, length_seq; exact Hc).
  rewrite map_nth, seq_nth by exact Hc; reflexivity.
Qed.

(** A sum over the slots of an element whose term is a constant [c] on
    the slots naming node [m] and zero elsewhere counts those slots. *)
Lemma sumQ_slots_count (nodes : list Z) (m : nat) (f : nat -> Q) (c : Q) :
  (forall k, (k < length nodes)%nat ->
     f k == (if Z.eqb (nth k nodes 0%Z) (Z.of_nat m) then 1 else 0) * c) ->
  sumQ (map f (seq 0 (length nodes))) ==
  inject_Z (Z.of_nat (length (filter (fun n => Z.eqb n (Z.of_nat m)) nodes))) * c.
Proof.
  intros H.
  rewrite (sumQ_map_ext _ (fun k => (fun n => if Z.eqb n (Z.of_nat m) then 1 else 0)
                                     (nth k nodes 0%Z) * c))
    by (intros k Hk; apply in_seq in Hk; apply H; lia).
  rewrite (sumQ_map_scale_r c (fun k => (fun n => if Z.eqb n (Z.of_nat m) then 1 else 0)
                                          (nth k nodes 0%Z))).
  rewrite (map_nth_seq_full (fun n => if Z.eqb n (Z.of_nat m) then 1 else 0) nodes 0%Z).
  rewrite sumQ_indicator; reflexivity.
Qed.

(** Adding an all-zero array leaves every entry unchanged. *)
Lemma setValues_add_zero deps v nodes data m c :
  (c < bsize v)%nat -> Forall (fun q => q == 0) data ->
  val (setValues_add deps v nodes data) m c == val v m c.
Proof.
  intros Hc Hd; rewrite setValues_add_val by exact Hc.
  rewrite sumQ_map_zero; [ring|].
  intros k _; rewrite (Forall_zero_nth _ _ Hd); ring.
Qed.

(** Reading a vector whose entries vanish gives zeros, dependent slots
    included. *)
Lemma getValues_zero deps (v : bvec) (nodes : list Z) :
  (forall n c, (c < bsize v)%nat -> val v n c == 0) ->
  Forall (fun q => q == 0) (getValues deps v nodes).
Proof.
  intros Hv; unfold getValues; apply Forall_flat_map, Forall_forall; intros n _.
  unfold get_node; destruct (0 <=? n)%Z; apply Forall_map, Forall_forall;
    intros c Hc; apply in_seq in Hc.
  - apply Hv; lia.
  - apply sumQ_map_zero; intros mw _; rewrite Hv by lia; ring.
Qed.

(** A fold of [setValues(ADD)] calls keeps the block size. *)
Lemma fold_setValues_add_bsize {A} deps (F : A -> list Z) (D : A -> list Q)
  (elems : list A) (v : bvec) :
  bsize (fold_left (fun acc e => setValues_add deps acc (F e) (D e)) elems v) = bsize v.
Proof.
  revert v; induction elems as [|e l IH]; intros v; cbn [fold_left]; [reflexivity|].
  rewrite IH; apply setValues_add_bsize.
Qed.

(** A fold of [setValues(ADD)] calls from a vanishing vector, each adding
    an all-zero array, leaves every entry zero. *)
Lemma fold_setValues_add_zero {A} deps (F : A -> list Z) (D : A -> list Q)
  (elems : list A) (v : bvec) :
  (forall n c, (c < bsize v)%nat -> val v n c == 0) ->
  (forall e, In e elems -> Forall (fun q => q == 0) (D e)) ->
  forall n c, (c < bsize v)%nat ->
    val (fold_left (fun acc e => setValues_add deps acc (F e) (D e)) elems v) n c == 0.
Proof.
  revert v; induction elems as [|e l IH]; intros v Hv He; cbn [fold_left]; [exact Hv|].
  intros n c Hc; rewrite <- (setValues_add_bsize deps v (F e) (D e)) in Hc.
  apply IH; [|intros e' He'; apply He; right; exact He'|exact Hc].
  intros n' c' Hc'; rewrite setValues_add_bsize in Hc'.
  rewrite setValues_add_zero by (auto; apply He; left; reflexivity); apply Hv, Hc'.
Qed.

(** ** Vectors equal up to [Qeq] in every entry *)

Definition vequiv (v w : bvec) : Prop :=
  bsize v = bsize w /\ forall m c, val v m c == val w m c.

#[export] Instance vequiv_Equivalence : Equivalence vequiv.
Proof.
  split.
  - intros v; split; [reflexivity|intros; reflexivity].
  - intros v w [Hb Hv]; split; [auto|intros; symmetry; apply Hv].
  - intros u v w [Hb1 H1] [Hb2 H2]; split; [congruence|intros; rewrite H1; apply H2].
Qed.

Lemma block_nth_eqlistQ (bs k c : nat) (d1 d2 : list Q) :
  d1 ==l d2 -> nth c (block bs k d1) 0 == nth c (block bs k d2) 0.
Proof.
  intros Hd; destruct (Nat.ltb_spec c bs) as [Hc|Hc].
  - rewrite !block_nth by exact Hc; apply nth_eqlistQ, Hd.
  - unfold block; rewrite !nth_overflow; [reflexivity| |];
      rewrite length_firstn; lia.
Qed.

(** [setValues(ADD)] respects [Qeq] in the vector and in the data. *)
#[export] Instance setValues_add_Proper (deps : dep_table) (nodes : list Z) :
  Proper (vequiv ==> eqlistQ ==> vequiv) (fun v d => setValues_add deps v nodes d).
Proof.
  intros v w [Hb Hv] d1 d2 Hd; cbv beta.
  split; [rewrite !setValues_add_bsize; exact Hb|].
  intros m c; unfold setValues_add; rewrite Hb.
  generalize (bsize w) as bs; intros bs; clear Hb.
  revert v w Hv; induction (seq 0 (length nodes)) as [|k l IH]; intros v w Hv;
    cbn [fold_left]; [apply Hv|].
  apply IH; intros m' c'.
  rewrite !add_slot_val, Hv, (block_nth_eqlistQ _ k c' d1 d2 Hd); reflexivity.
Qed.

(** Folds whose steps respect [vequiv] give equivalent results. *)
Lemma fold_left_vequiv {A} (F G : bvec -> A -> bvec) (l : list A) (v w : bvec) :
  (forall a v w, vequiv v w -> vequiv (F v a) (G w a)) -> vequiv v w ->
  vequiv (fold_left F l v) (fold_left G l w).
Proof.
  intros H; revert v w; induction l as [|a l IH]; intros v w Hvw; cbn [fold_left];
    [exact Hvw|apply IH, H, Hvw].
Qed.

End BVecFacts.

Module WeightsFacts.
Import BVec BVecFacts Weights.

Lemma slot_unit_weight deps (n : Z) (m : nat) :
  slot_weight deps n m * (if (n <? 0)%Z then 0 else 1) ==
  if Z.eqb n (Z.of_nat m) then 1 else 0.
Proof.
  unfold slot_weight.
  destruct (Z.leb_spec 0 n), (Z.ltb_spec n 0); try lia.
  - destruct (Nat.eqb_spec (Z.to_nat n) m), (Z.eqb_spec n (Z.of_nat m)); try lia; ring.
  - destruct (Z.eqb_spec n (Z.of_nat m)); [lia|ring].
Qed.

(** The unit weights of one element add, to node [m], the number of its
    slots that name [m]. *)
Lemma elem_weights_add deps (v : bvec) (nodes : list Z) (m : nat) :
  bsize v = 1%nat ->
  val (setValues_add deps v nodes (elem_unit_weights nodes)) m 0 ==
  val v m 0 + inject_Z (Z.of_nat (length (filter (fun n => Z.eqb n (Z.of_nat m)) nodes))).
Proof.
  intros Hbs; rewrite setValues_add_val by lia; rewrite Hbs.
  rewrite (sumQ_slots_count nodes m _ 1); [ring|].
  intros k Hk; rewrite Nat.mul_1_l, Nat.add_0_r; unfold elem_unit_weights.
  rewrite (nth_map_lt _ _ _ 0%Z) by lia; rewrite slot_unit_weight; ring.
Qed.

Lemma weights_fold deps (conn : list (list Z)) (elems : list nat) (v : bvec) (m : nat) :
  bsize v = 1%nat ->
  val (fold_left (fun acc e => let nodes := nth e conn [] in
                               setValues_add deps acc nodes (elem_unit_weights nodes))
                 elems v) m 0 ==
  val v m 0 + inject_Z (Z.of_nat (count_refs conn elems m)).
Proof.
  unfold count_refs; revert v.
  induction elems as [|e l IH]; intros v Hb; simpl; [ring|].
  rewrite IH by (rewrite setValues_add_bsize; exact Hb).
  rewrite elem_weights_add by exact Hb.
  rewrite filter_app, length_app, Nat2Z.inj_add, inject_Z_plus; ring.
Qed.

(** (C9) [computeLocalWeights] leaves at every independent node [m] the
    number of element slots (over the elements it iterates: all of them,
    or the given subset) that reference [m]; dependent slots contribute
    nothing. *)
Theorem computeLocalWeights_count deps (conn : list (list Z))
  (element_nums : option (list nat)) (w : bvec) (m : nat) :
  bsize w = 1%nat ->
  let elems := match element_nums with None => seq 0 (length conn) | Some l => l end in
  val (computeLocalWeights deps conn element_nums w) m 0 ==
  inject_Z (Z.of_nat (count_refs conn elems m)).
Proof.
  intros Hbs elems; unfold computeLocalWeights; fold elems.
  rewrite weights_fold by exact Hbs; simpl; ring.
Qed.

Lemma computeLocalWeights_count_witness :
  bsize (mkBVec 1 (fun _ _ => 7)) = 1%nat /\
  val (computeLocalWeights [] [[0; 1; -1]%Z; [1; 2; 1]%Z] None
                           (mkBVec 1 (fun _ _ => 7))) 1 0 == 3.
Proof.
  split; [reflexivity|].
  rewrite (computeLocalWeights_count [] [[0; 1; -1]%Z; [1; 2; 1]%Z] None
             (mkBVec 1 (fun _ _ => 7)) 1 eq_refl).
  reflexivity.
Defined.

End WeightsFacts.
