(* ===== verification/Prolong.v ===== *)
(** * C5(a): the interpolated solution on the refined mesh

    [Prolong] models the two overloads of [TMR_ComputeInterpSolution]
    (src/src/TMRGeometry.c, lines 2205-2316 for quadtree forests and
    2321-2434 for octree forests).  For every element the coarse values
    are read with [getValues], interpolated with the coarse Lagrange basis
    at every refined knot ([interp_elem2D], [interp_elem3D], the loops over
    [p], [m], [n]) and written with [TACS_INSERT_NONZERO_VALUES] into a
    refined vector that starts zeroed.

    [ProlongFacts] proves what the code relies on:
    - the insert-nonzero writes of all elements agree: when every element
      computes the same value at a shared refined node, the refined vector
      holds that value there, and zero at the nodes no element touches;
    - the interpolation reproduces every polynomial of degree below the
      coarse order in each variable (the coarse element space), so the
      refined field is the coarse field. *)

From Stdlib Require Import PeanoNat ZArith QArith Qring Bool List Lia Lqa.
From S2P Require Import Prelude Interp NodeVec.
Import ListNotations.
Open Scope Q_scope.
Open Scope tmr_scope.

Module Prolong.
Import Forest BVec.

(** [v[kk] += vars_elem[vars_per_node*k + kk]*N[k]] for [k] over the
    element nodes, [kk] over the variables. *)
Definition interp_at (num_nodes vpn : nat) (vars_elem N : list Q) : list Q :=
  map (fun kk => sumQ (map (fun k => nth (vpn * k + kk) vars_elem 0 * nth k N 0)
                           (seq 0 num_nodes)))
      (seq 0 vpn).

(** The quadtree knot loops [for m { for n { ... } }], [n] fastest. *)
Definition knot_positions2D (order : nat) : list (nat * nat) :=
  flat_map (fun jj => map (fun ii => (ii, jj)) (seq 0 order)) (seq 0 order).

(** [vars_interp] of one octree element, block [n + m*refined_order +
    p*refined_order^2] at the refined knot [(n, m, p)]. *)
Definition interp_elem3D (order rorder vpn : nat) (vars_elem : list Q) : list Q :=
  let knots := getInterpKnots order in
  let rknots := getInterpKnots rorder in
  flat_map (fun q => let '(n, m, p) := q in
              interp_at (order * order * order) vpn vars_elem
                (evalInterp3D knots (nth n rknots 0, nth m rknots 0, nth p rknots 0)))
           (knot_positions3D rorder).

(** [vars_interp] of one quadtree element. *)
Definition interp_elem2D (order rorder vpn : nat) (vars_elem : list Q) : list Q :=
  let knots := getInterpKnots order in
  let rknots := getInterpKnots rorder in
  flat_map (fun q => let '(n, m) := q in
              interp_at (order * order) vpn vars_elem
                (evalInterp2D knots (nth n rknots 0, nth m rknots 0)))
           (knot_positions2D rorder).

(** One element of the loop: read the coarse values, interpolate, and
    insert the non-zero values into the refined vector. *)
Definition interp_step (deps : dep_table) (interp_elem : list Q -> list Q)
  (conn rconn : list (list Z)) (uvec acc : bvec) (elem : nat) : bvec :=
  let vars_elem := getValues deps uvec (nth elem conn []) in
  setValues_insert_nonzero acc (nth elem rconn []) (interp_elem vars_elem).

(** [TMR_ComputeInterpSolution(forest, tacs, forest_refined, tacs_refined,
    uvec, uvec_refined)] for octree forests: [conn] and [rconn] are the
    element node lists of the two assemblers, [uvec] the coarse solution
    and [uvec_refined] the vector written. *)
Definition TMR_ComputeInterpSolution3D (deps : dep_table) (order rorder vpn : nat)
  (conn rconn : list (list Z)) (uvec uvec_refined : bvec) : bvec :=
  fold_left (interp_step deps (interp_elem3D order rorder vpn) conn rconn uvec)
            (seq 0 (length conn)) (zeroEntries uvec_refined).

(** The quadtree overload. *)
Definition TMR_ComputeInterpSolution2D (deps : dep_table) (order rorder vpn : nat)
  (conn rconn : list (list Z)) (uvec uvec_refined : bvec) : bvec :=
  fold_left (interp_step deps (interp_elem2D order rorder vpn) conn rconn uvec)
            (seq 0 (length conn)) (zeroEntries uvec_refined).

End Prolong.

Module ProlongFacts.
Import Forest BVec BVecFacts InterpFacts Prolong.

(** ** Insert-nonzero writes that agree *)

Section InsertNonzero.
Variable g : nat -> nat -> Q.
Variable bs : nat.

(** The vector has [bs] components and holds [g] at the nodes [R] marks
    and zero elsewhere. *)
Definition holds (R : nat -> bool) (v : bvec) : Prop :=
  bsize v = bs /\ forall m c, (c < bs)%nat -> val v m c == if R m then g m c else 0.

Lemma holds_ext (R R' : nat -> bool) (v : bvec) :
  (forall m, R m = R' m) -> holds R v -> holds R' v.
Proof. intros HR [Hb Hv]; split; [exact Hb|]; intros m c Hc; rewrite <- HR; auto. Qed.

Lemma insert_slot_holds (R : nat -> bool) (v : bvec) (n0 : Z) (blk : list Q) :
  holds R v ->
  ((0 <= n0)%Z -> forall c, (c < bs)%nat -> nth c blk 0 == g (Z.to_nat n0) c) ->
  holds (fun m => R m || Z.eqb n0 (Z.of_nat m))
        (if (0 <=? n0)%Z then insert_node v (Z.to_nat n0) blk else v).
Proof.
  intros [Hb Hv] Hblk; destruct (Z.leb_spec 0 n0) as [Hn|Hn].
  - split; [exact Hb|]; intros m c Hc; cbn [val insert_node]; rewrite Hb.
    destruct (Nat.eqb_spec m (Z.to_nat n0)) as [->|Hne]; cbn [andb].
    + rewrite Z2Nat.id, Z.eqb_refl, orb_true_r by lia.
      destruct (Nat.ltb_spec c bs) as [_|]; [|lia]; cbn [andb].
      specialize (Hblk Hn c Hc).
      destruct (Qeq_bool (nth c blk 0) 0) eqn:E; cbn [negb]; [|exact Hblk].
      apply Qeq_bool_iff in E; rewrite Hv by exact Hc.
      destruct (R (Z.to_nat n0)); rewrite <- Hblk, E; reflexivity.
    + rewrite (proj2 (Z.eqb_neq n0 (Z.of_nat m))), orb_false_r by lia; apply Hv, Hc.
  - apply (holds_ext R); [|split; assumption].
    intros m; rewrite (proj2 (Z.eqb_neq n0 (Z.of_nat m))), orb_false_r by lia; reflexivity.
Qed.

Lemma existsb_nth_seq (p : Z -> bool) (l : list Z) :
  existsb (fun k => p (nth k l 0%Z)) (seq 0 (length l)) = existsb p l.
Proof.
  assert (E : forall (f : nat -> Z) (ks : list nat),
             existsb p (map f ks) = existsb (fun k => p (f k)) ks)
    by (induction ks; simpl; congruence).
  rewrite <- (E (fun k => nth k l 0%Z)), (map_nth_seq_full (fun x => x) l 0%Z),
    map_id; reflexivity.
Qed.

(** [setValues(..., TACS_INSERT_NONZERO_VALUES)] of a block array whose
    entry for every independent slot is [g] at its node. *)
Lemma setValues_insert_nonzero_holds (R : nat -> bool) (v : bvec) (nodes : list Z)
  (data : list Q) :
  holds R v ->
  (forall k c, (k < length nodes)%nat -> (c < bs)%nat -> (0 <= nth k nodes 0)%Z ->
               nth (bs * k + c) data 0 == g (Z.to_nat (nth k nodes 0%Z)) c) ->
  holds (fun m => R m || existsb (fun n => Z.eqb n (Z.of_nat m)) nodes)
        (setValues_insert_nonzero v nodes data).
Proof.
  intros Hh Hd; unfold setValues_insert_nonzero.
  assert (Hbs : bsize v = bs) by apply Hh.
  apply (holds_ext (fun m => R m || existsb (fun k => Z.eqb (nth k nodes 0%Z) (Z.of_nat m))
                                            (seq 0 (length nodes))));
    [intros m; rewrite (existsb_nth_seq (fun n => Z.eqb n (Z.of_nat m))); reflexivity|].
  assert (Hks : forall k, In k (seq 0 (length nodes)) -> (k < length nodes)%nat)
    by (intros k Hk; apply in_seq in Hk; lia).
  rewrite Hbs; clear Hbs.
  revert Hks; generalize (seq 0 (length nodes)) as ks.
  intros ks; revert R Hh; generalize v as acc.
  induction ks as [|k ks IH]; intros acc R Hh Hks; cbn [fold_left existsb].
  - apply (holds_ext R); [intros; symmetry; apply orb_false_r|exact Hh].
  - apply (holds_ext (fun m => (R m || Z.eqb (nth k nodes 0%Z) (Z.of_nat m)) ||
                                 existsb (fun k => Z.eqb (nth k nodes 0%Z) (Z.of_nat m)) ks));
      [intros; symmetry; apply orb_assoc|].
    apply IH; [|intros; apply Hks; right; assumption].
    apply insert_slot_holds; [exact Hh|].
    intros Hn c Hc; rewrite block_nth by exact Hc.
    apply Hd; [apply Hks; left; reflexivity|exact Hc|exact Hn].
Qed.

End InsertNonzero.

(** The nodes that some element of [elems] lists in [rconn]. *)
Definition touched (rconn : list (list Z)) (elems : list nat) (m : nat) : bool :=
  existsb (fun e => existsb (fun n => Z.eqb n (Z.of_nat m)) (nth e rconn [])) elems.

(** The element values agree with [g] at every independent slot. *)
Definition agrees (deps : dep_table) (interp_elem : list Q -> list Q)
  (conn rconn : list (list Z)) (uvec : bvec) (g : nat -> nat -> Q) (bs e : nat) : Prop :=
  forall k c, (k < length (nth e rconn []))%nat -> (c < bs)%nat ->
    (0 <= nth k (nth e rconn []) 0)%Z ->
    nth (bs * k + c) (interp_elem (getValues deps uvec (nth e conn []))) 0 ==
    g (Z.to_nat (nth k (nth e rconn []) 0%Z)) c.

Lemma interp_fold_holds deps interp_elem conn rconn uvec g bs (elems : list nat) :
  (forall e, In e elems -> agrees deps interp_elem conn rconn uvec g bs e) ->
  forall (acc : bvec) (R : nat -> bool), holds g bs R acc ->
  holds g bs (fun m => R m || touched rconn elems m)
        (fold_left (interp_step deps interp_elem conn rconn uvec) elems acc).
Proof.
  intros Ha; induction elems as [|e l IH]; intros acc R Hh; cbn [fold_left].
  - apply (holds_ext g bs R); [intros; symmetry; apply orb_false_r|exact Hh].
  - apply (holds_ext g bs (fun m => (R m || existsb (fun n => Z.eqb n (Z.of_nat m)) (nth e rconn []))
                                   || touched rconn l m));
      [intros; unfold touched; cbn [existsb]; symmetry; apply orb_assoc|].
    apply IH; [intros; apply Ha; right; assumption|].
    apply setValues_insert_nonzero_holds; [exact Hh|].
    intros k c Hk Hc Hn; apply (Ha e (or_introl eq_refl)); assumption.
Qed.

(** The pass from a zeroed vector. *)
Lemma interp_pass_val deps interp_elem conn rconn uvec (uvec_refined : bvec) g m c :
  (forall e, (e < length conn)%nat ->
             agrees deps interp_elem conn rconn uvec g (bsize uvec_refined) e) ->
  (c < bsize uvec_refined)%nat ->
  val (fold_left (interp_step deps interp_elem conn rconn uvec) (seq 0 (length conn))
                 (zeroEntries uvec_refined)) m c ==
  if touched rconn (seq 0 (length conn)) m then g m c else 0.
Proof.
  intros Ha Hc.
  assert (H0 : holds g (bsize uvec_refined) (fun _ => false) (zeroEntries uvec_refined))
    by (split; [reflexivity|intros; reflexivity]).
  destruct (interp_fold_holds deps interp_elem conn rconn uvec g (bsize uvec_refined)
              (seq 0 (length conn)) (fun e He => Ha e (proj2 (proj1 (in_seq _ _ _) He)))
              _ _ H0) as [_ Hv].
  exact (Hv m c Hc).
Qed.

(** (C10) Insert-nonzero consistency of [TMR_ComputeInterpSolution] for
    octree forests: when the interpolated values every element computes
    at its independent refined nodes agree with one nodal field [g], the
    refined vector holds [g] at every refined node some element lists, and
    zero at every other node. *)
Theorem TMR_ComputeInterpSolution3D_agree deps order rorder vpn (conn rconn : list (list Z))
  (uvec uvec_refined : bvec) (g : nat -> nat -> Q) :
  bsize uvec_refined = vpn ->
  (forall e, (e < length conn)%nat ->
             agrees deps (interp_elem3D order rorder vpn) conn rconn uvec g vpn e) ->
  forall m c, (c < vpn)%nat ->
  val (TMR_ComputeInterpSolution3D deps order rorder vpn conn rconn uvec uvec_refined) m c ==
  if touched rconn (seq 0 (length conn)) m then g m c else 0.
Proof.
  intros Hb Ha m c Hc; subst vpn.
  apply interp_pass_val; assumption.
Qed.

(** ** Reproduction of the coarse polynomial space *)

Fixpoint qpow (x : Q) (a : nat) : Q :=
  match a with O => 1 | S a' => x * qpow x a' end.

(** A polynomial of degree below [o] in each variable, with coefficient
    [coef a b c] for [x^a y^b z^c]. *)
Definition poly3 (o : nat) (coef : nat -> nat -> nat -> Q) (x y z : Q) : Q :=
  sumQ (map (fun s => let '(a, b, c) := s in coef a b c * (qpow x a * qpow y b * qpow z c))
            (knot_positions3D o)).

(** The 1D Lagrange basis over the knots of every supported order
    reproduces the monomials of degree below the order. *)
Lemma lagrange1D_mono (o a : nat) (x : Q) :
  (2 <= o <= 6)%nat -> (a < o)%nat ->
  sumQ (map (fun i => qpow (nth i (getInterpKnots o) 0) a * nth i (lagrange1D (getInterpKnots o) x) 0)
            (seq 0 o)) == qpow x a.
Proof.
  intros Ho Ha.
  destruct o as [|[|[|[|[|[|[|o]]]]]]]; try lia;
    destruct a as [|[|[|[|[|[|a]]]]]]; try lia; cbn; ring.
Qed.

Lemma positions_tsum3 (o : nat) (f : nat * nat * nat -> Q) :
  sumQ (map f (knot_positions3D o)) ==
  tsum3 (seq 0 o) (seq 0 o) (seq 0 o) (fun i j l => f (i, j, l)).
Proof.
  rewrite <- tsum3_flat_map; unfold knot_positions3D.
  match goal with |- sumQ ?l1 == sumQ ?l2 => replace l1 with l2; [reflexivity|] end.
  rewrite map_flat_map; apply flat_map_ext; intros c.
  rewrite map_flat_map; apply flat_map_ext; intros b; rewrite map_map; reflexivity.
Qed.

Lemma knot_positions3D_at (p i j l : nat) (d : nat * nat * nat) :
  (i < p)%nat -> (j < p)%nat -> (l < p)%nat ->
  nth (knot_index3D p (i, j, l)) (knot_positions3D p) d = (i, j, l).
Proof.
  intros Hi Hj Hl; unfold knot_positions3D, knot_index3D.
  replace (i + p * j + p * p * l)%nat with (p * p * l + (p * j + i))%nat by lia.
  rewrite (nth_flat_map_block_gen _ _ (p * p) l (p * j + i) 0%nat d).
  - rewrite seq_nth by lia.
    rewrite (nth_flat_map_block_gen _ _ p j i 0%nat d).
    + rewrite seq_nth by lia.
      rewrite (nth_map_lt _ _ _ 0%nat) by (rewrite length_seq; lia).
      rewrite seq_nth by lia; reflexivity.
    + intros; rewrite length_map, length_seq; reflexivity.
    + rewrite length_seq; lia.
    + lia.
  - intros x _; rewrite (length_flat_map_const _ _ p), length_seq; [lia|].
    intros; rewrite length_map, length_seq; reflexivity.
  - rewrite length_seq; lia.
  - nia.
Qed.

Lemma nth_tensor3 (nx ny nz : list Q) (p i j l : nat) :
  length nx = p -> length ny = p -> length nz = p ->
  (i < p)%nat -> (j < p)%nat -> (l < p)%nat ->
  nth (knot_index3D p (i, j, l)) (tensor3 nx ny nz) 0 == nth i nx 0 * nth j ny 0 * nth l nz 0.
Proof.
  intros Lx Ly Lz Hi Hj Hl; unfold tensor3, knot_index3D.
  replace (i + p * j + p * p * l)%nat with (p * p * l + (p * j + i))%nat by lia.
  rewrite (nth_flat_map_block _ _ (p * p) l (p * j + i) 0).
  - rewrite (nth_flat_map_block _ _ p j i 0).
    + rewrite (nth_map_lt _ _ _ 0) by lia; reflexivity.
    + intros; rewrite length_map; exact Lx.
    + lia.
    + lia.
  - intros x _; rewrite (length_flat_map_const _ _ p); [lia|].
    intros; rewrite length_map; exact Lx.
  - lia.
  - nia.
Qed.

Lemma tsum3_ext_seq (o : nat) (F G : nat -> nat -> nat -> Q) :
  (forall i j l, (i < o)%nat -> (j < o)%nat -> (l < o)%nat -> F i j l == G i j l) ->
  tsum3 (seq 0 o) (seq 0 o) (seq 0 o) F == tsum3 (seq 0 o) (seq 0 o) (seq 0 o) G.
Proof.
  intros H; unfold tsum3; apply sumQ_map_ext; intros l Hl; apply sumQ_map_ext; intros j Hj;
    apply sumQ_map_ext; intros i Hi; apply in_seq in Hi, Hj, Hl; apply H; lia.
Qed.

(** A sum over a list exchanged with a triple sum. *)
Lemma tsum3_sumQ_swap {A B C D} (X : list A) (Y : list B) (Z : list C) (S : list D)
  (H : D -> A -> B -> C -> Q) :
  tsum3 X Y Z (fun i j l => sumQ (map (fun s => H s i j l) S)) ==
  sumQ (map (fun s => tsum3 X Y Z (H s)) S).
Proof.
  unfold tsum3.
  rewrite (sumQ_map_ext _ (fun l => sumQ (map (fun s => sumQ (map (fun j =>
                                     sumQ (map (fun i => H s i j l) X)) Y)) S))).
  - apply sumQ_swap.
  - intros l _.
    rewrite (sumQ_map_ext _ (fun j => sumQ (map (fun s => sumQ (map (fun i => H s i j l) X)) S)))
      by (intros; apply sumQ_swap).
    apply sumQ_swap.
Qed.

(** One monomial through the tensor-product basis. *)
Lemma interp_mono3D (o a b c : nat) (w x y z : Q) :
  (2 <= o <= 6)%nat -> (a < o)%nat -> (b < o)%nat -> (c < o)%nat ->
  let kn := getInterpKnots o in
  tsum3 (seq 0 o) (seq 0 o) (seq 0 o)
    (fun i j l => w * (qpow (nth i kn 0) a * qpow (nth j kn 0) b * qpow (nth l kn 0) c) *
                  (nth i (lagrange1D kn x) 0 * nth j (lagrange1D kn y) 0 * nth l (lagrange1D kn z) 0))
  == w * (qpow x a * qpow y b * qpow z c).
Proof.
  intros Ho Ha Hb Hc kn.
  rewrite (tsum3_ext _ _ _ _ (fun i j l => (w * (qpow (nth i kn 0) a * nth i (lagrange1D kn x) 0))
                                          * (qpow (nth j kn 0) b * nth j (lagrange1D kn y) 0)
                                          * (qpow (nth l kn 0) c * nth l (lagrange1D kn z) 0)))
    by (intros; ring).
  rewrite tsum3_prod, sumQ_map_scale; unfold kn; rewrite !lagrange1D_mono by lia; ring.
Qed.

(** The interpolated value of nodal values sampled from a coarse
    polynomial is the polynomial. *)
Lemma interp_sum3D (o : nat) (coef : nat -> nat -> nat -> Q) (F : nat -> Q) (x y z : Q) :
  (2 <= o <= 6)%nat ->
  (forall i j l, (i < o)%nat -> (j < o)%nat -> (l < o)%nat ->
     F (knot_index3D o (i, j, l)) ==
     poly3 o coef (nth i (getInterpKnots o) 0) (nth j (getInterpKnots o) 0)
       (nth l (getInterpKnots o) 0)) ->
  sumQ (map (fun k => F k * nth k (evalInterp3D (getInterpKnots o) (x, y, z)) 0)
            (seq 0 (o * o * o)))
  == poly3 o coef x y z.
Proof.
  intros Ho HF.
  pose proof (getInterpKnots_length o Ho) as Lk.
  set (kn := getInterpKnots o) in *.
  rewrite <- knot_positions3D_index, map_map, positions_tsum3; cbn [evalInterp3D].
  rewrite (tsum3_ext_seq o _ (fun i j l =>
             sumQ (map (fun s => (let '(a, b, c) := s in
                                  coef a b c * (qpow (nth i kn 0) a * qpow (nth j kn 0) b *
                                                qpow (nth l kn 0) c)) *
                                 (nth i (lagrange1D kn x) 0 * nth j (lagrange1D kn y) 0 *
                                  nth l (lagrange1D kn z) 0))
                       (knot_positions3D o)))).
  - rewrite tsum3_sumQ_swap; unfold poly3; apply sumQ_map_ext; intros [[a b] c] Hs.
    apply knot_positions3D_bound in Hs as (Ha & Hb & Hc & _).
    exact (interp_mono3D o a b c (coef a b c) x y z Ho Ha Hb Hc).
  - intros i j l Hi Hj Hl.
    rewrite HF, nth_tensor3 by (rewrite ?length_lagrange1D; lia).
    unfold poly3; rewrite sumQ_map_scale_r; reflexivity.
Qed.

(** Exactness of the octree interpolation: when the coarse values
    of an element sample, at its knots, a polynomial of degree below the
    coarse order in each variable (one per variable of the node), the
    interpolated values at every refined knot are that polynomial at the
    refined knot: the refined field is the coarse field. *)
Theorem interp_elem3D_poly (order rorder vpn : nat) (coef : nat -> nat -> nat -> nat -> Q)
  (vars_elem : list Q) :
  (2 <= order <= 6)%nat ->
  (forall i j l c, (i < order)%nat -> (j < order)%nat -> (l < order)%nat -> (c < vpn)%nat ->
     nth (vpn * knot_index3D order (i, j, l) + c) vars_elem 0 ==
     poly3 order (coef c) (nth i (getInterpKnots order) 0) (nth j (getInterpKnots order) 0)
       (nth l (getInterpKnots order) 0)) ->
  forall n m p c, (n < rorder)%nat -> (m < rorder)%nat -> (p < rorder)%nat -> (c < vpn)%nat ->
  nth (vpn * knot_index3D rorder (n, m, p) + c) (interp_elem3D order rorder vpn vars_elem) 0 ==
  poly3 order (coef c) (nth n (getInterpKnots rorder) 0) (nth m (getInterpKnots rorder) 0)
    (nth p (getInterpKnots rorder) 0).
Proof.
  intros Ho Hv n m p c Hn Hm Hp Hc; unfold interp_elem3D.
  rewrite (nth_flat_map_block _ _ vpn (knot_index3D rorder (n, m, p)) c (0, 0, 0)%nat).
  - rewrite knot_positions3D_at by assumption; unfold interp_at.
    rewrite (nth_map_lt _ _ _ 0%nat) by (rewrite length_seq; lia).
    rewrite seq_nth by lia.
    apply interp_sum3D; [exact Ho|].
    intros i j l Hi Hj Hl; apply Hv; assumption.
  - intros [[n' m'] p'] _; unfold interp_at; rewrite length_map, length_seq; reflexivity.
  - rewrite knot_positions3D_length; unfold knot_index3D; nia.
  - exact Hc.
Qed.

(** A boolean check of [agrees], for concrete meshes. *)
Definition agreesb (deps : dep_table) (interp_elem : list Q -> list Q)
  (conn rconn : list (list Z)) (uvec : bvec) (g : nat -> nat -> Q) (bs e : nat) : bool :=
  let vals := interp_elem (getValues deps uvec (nth e conn [])) in
  forallb (fun k => forallb (fun c => if (0 <=? nth k (nth e rconn []) 0)%Z
                                      then Qeq_bool (nth (bs * k + c) vals 0)
                                                    (g (Z.to_nat (nth k (nth e rconn []) 0%Z)) c)
                                      else true)
                            (seq 0 bs))
          (seq 0 (length (nth e rconn []))).

Lemma agreesb_spec deps interp_elem conn rconn uvec g bs e :
  agreesb deps interp_elem conn rconn uvec g bs e = true ->
  agrees deps interp_elem conn rconn uvec g bs e.
Proof.
  unfold agreesb, agrees; intros H k c Hk Hc Hn.
  pose proof (forallb_seq_spec _ _ H k Hk) as H1; cbv beta in H1.
  pose proof (forallb_seq_spec _ _ H1 c Hc) as H2; cbv beta in H2.
  destruct (Z.leb_spec 0 (nth k (nth e rconn []) 0%Z)); [|lia].
  apply Qeq_bool_iff, H2.
Qed.

(** Two octree elements of order 2 side by side along [x], refined to
    order 3 (45 refined nodes), with a coarse field equal to the [x]
    index of the node: both elements interpolate [1/2] per refined step,
    and agree on the shared face. *)
Definition pair_conn : list (list Z) :=
  [[0; 1; 3; 4; 6; 7; 9; 10]; [1; 2; 4; 5; 7; 8; 10; 11]]%Z.
Definition pair_rconn : list (list Z) :=
  map (fun e => map (fun t => let '(i, j, l) := t in Z.of_nat (2 * e + i + 5 * j + 15 * l))
                    (knot_positions3D 3)) [0%nat; 1%nat].
Definition pair_u : bvec := mkBVec 1 (fun n _ => inject_Z (Z.of_nat (Nat.modulo n 3))).
Definition pair_g (m c : nat) : Q := inject_Z (Z.of_nat (Nat.modulo m 5)) / 2.

Lemma TMR_ComputeInterpSolution3D_agree_witness :
  bsize (mkBVec 1 (fun _ _ => 5)) = 1%nat /\
  (forall e, (e < length pair_conn)%nat ->
             agrees [] (interp_elem3D 2 3 1) pair_conn pair_rconn pair_u pair_g 1 e) /\
  val (TMR_ComputeInterpSolution3D [] 2 3 1 pair_conn pair_rconn pair_u
         (mkBVec 1 (fun _ _ => 5))) 23 0 == 3 # 2.
Proof.
  assert (Ha : forall e, (e < length pair_conn)%nat ->
                         agrees [] (interp_elem3D 2 3 1) pair_conn pair_rconn pair_u pair_g 1 e).
  { intros e He; apply agreesb_spec; destruct e as [|[|e]]; cbn in He; try lia;
      vm_compute; reflexivity. }
  split; [reflexivity|split; [exact Ha|]].
  rewrite (TMR_ComputeInterpSolution3D_agree [] 2 3 1 pair_conn pair_rconn pair_u
             (mkBVec 1 (fun _ _ => 5)) pair_g eq_refl Ha 23 0 ltac:(lia)).
  vm_compute; reflexivity.
Defined.

(** The trilinear field [1 + 2x + 3yz - xyz] through an order-2 element
    refined to order 3: at the refined centre it is [1]. *)
Definition tri_coef (c a b d : nat) : Q :=
  match a, b, d with
  | O, O, O => 1 | S O, O, O => 2 | O, S O, S O => 3 | S O, S O, S O => -1 | _, _, _ => 0
  end.
Definition tri_vals : list Q :=
  map (fun t => let '(i, j, l) := t in
                poly3 2 (tri_coef 0) (nth i (getInterpKnots 2) 0) (nth j (getInterpKnots 2) 0)
                  (nth l (getInterpKnots 2) 0))
      (knot_positions3D 2).

Lemma interp_elem3D_poly_witness :
  (2 <= 2 <= 6)%nat /\
  (forall i j l c, (i < 2)%nat -> (j < 2)%nat -> (l < 2)%nat -> (c < 1)%nat ->
     nth (1 * knot_index3D 2 (i, j, l) + c) tri_vals 0 ==
     poly3 2 (tri_coef c) (nth i (getInterpKnots 2) 0) (nth j (getInterpKnots 2) 0)
       (nth l (getInterpKnots 2) 0)) /\
  nth (1 * knot_index3D 3 (1%nat, 1%nat, 1%nat) + 0) (interp_elem3D 2 3 1 tri_vals) 0 == 1.
Proof.
  assert (Hv : forall i j l c, (i < 2)%nat -> (j < 2)%nat -> (l < 2)%nat -> (c < 1)%nat ->
     nth (1 * knot_index3D 2 (i, j, l) + c) tri_vals 0 ==
     poly3 2 (tri_coef c) (nth i (getInterpKnots 2) 0) (nth j (getInterpKnots 2) 0)
       (nth l (getInterpKnots 2) 0)).
  { intros i j l c Hi Hj Hl Hc.
    destruct i as [|[|]], j as [|[|]], l as [|[|]], c as [|]; try lia; vm_compute; reflexivity. }
  split; [lia|split; [exact Hv|]].
  rewrite (interp_elem3D_poly 2 3 1 tri_coef tri_vals ltac:(lia) Hv 1 1 1 0
             ltac:(lia) ltac:(lia) ltac:(lia) ltac:(lia)).
  vm_compute; reflexivity.
Defined.

End ProlongFacts.
