(* ===== verification/NodeDeriv.v ===== *)
(** * C3: the nodal-derivative projector (computeNodeDeriv3D)

    [NodeDeriv] models [computeNodeDeriv3D] (src/src/TMRGeometry.c, lines
    1678-1810).  For each element it samples, at every knot of the element
    (loops [kk], [jj], [ii]), the physical gradient of the interpolated
    field, [d = J * (sum_i u_i * dN_i)], scales it by the inverse nodal
    weight, writes zeros for a dependent slot, and adds the element's array
    into the nodal vector.  [ElemSample] is one pass of the innermost loop,
    [computeNodeDerivElem3D] the element's array [delem].

    The theorems show that an isoparametric element samples the exact
    gradient of any field that is linear in the physical coordinates (the
    patch test), and that the projector therefore returns that gradient at
    every referenced node. The transpose pass at the end of
    [TMRStressConstraint::evalConDeriv] is not modelled. *)

From Stdlib Require Import PeanoNat ZArith QArith Qring Qfield List Lia Lqa.
From S2P Require Import Prelude Interp NodeVec.
Import ListNotations.
Open Scope Q_scope.
Open Scope tmr_scope.

Module NodeDeriv.
Import Forest Jac BVec.

(** [Ud[3k+a] = sum_i uelem[vpn*i + k] * N_a[i]] over the [n] element
    nodes. *)
Definition ud_sum (uelem : list Q) (vpn k : nat) (N : list Q) (n : nat) : Q :=
  sumQ (map (fun i => nth (vpn * i + k) uelem 0 * nth i N 0) (seq 0 n)).

(** The three physical derivatives [d[0..2]] of component [k], scaled by
    [winv]: [d[c] = winv * (Ud[3k]*J[3c] + Ud[3k+1]*J[3c+1] + Ud[3k+2]*J[3c+2])]. *)
Definition grad_block (J : m9) (ua ub uc winv : Q) : list Q :=
  [winv * (ua * e0 J + ub * e1 J + uc * e2 J);
   winv * (ua * e3 J + ub * e4 J + uc * e5 J);
   winv * (ua * e6 J + ub * e7 J + uc * e8 J)].

(** One knot position [(ii, jj, kk)] of the element loop: the
    [3*vars_per_node] entries the pointer [d] advances over. *)
Definition ElemSample (knots : list Q) (order vpn : nat) (nodes : list Z)
  (welem uelem Xpts : list Q) (p : nat * nat * nat) : list Q :=
  let '(ii, jj, kk) := p in
  let I := evalInterp3D_deriv knots (nth ii knots 0, nth jj knots 0, nth kk knots 0) in
  let '(_, J, _) :=
    computeJacobianTrans3D Xpts (iNa I) (iNb I) (iNc I) (order * order * order) in
  let idx := knot_index3D order p in
  let winv := / nth idx welem 0 in
  if (0 <=? nth idx nodes 0%Z)%Z then
    flat_map (fun k => grad_block J (ud_sum uelem vpn k (iNa I) (order * order * order))
                                    (ud_sum uelem vpn k (iNb I) (order * order * order))
                                    (ud_sum uelem vpn k (iNc I) (order * order * order))
                                    winv)
             (seq 0 vpn)
  else repeat 0 (3 * vpn).

(** The element array [delem]. *)
Definition computeNodeDerivElem3D (knots : list Q) (order vpn : nat) (nodes : list Z)
  (welem uelem Xpts : list Q) : list Q :=
  flat_map (ElemSample knots order vpn nodes welem uelem Xpts) (knot_positions3D order).

(** [computeNodeDeriv3D(forest, tacs, uvec, weights, uderiv, element_nums,
    num_elements)]: [conn] and [Xpts_of] are the element connectivity and
    node locations TACS returns; [None] is the default element list. *)
Definition computeNodeDeriv3D (deps : dep_table) (order vpn : nat)
  (conn : list (list Z)) (Xpts_of : list (list Q))
  (uvec weights uderiv : bvec) (element_nums : option (list nat)) : bvec :=
  let knots := getInterpKnots order in
  let elems := match element_nums with
               | None => seq 0 (length conn)
               | Some l => l
               end in
  fold_left (fun acc e =>
               let nodes := nth e conn [] in
               let welem := getValues deps weights nodes in
               let uelem := getValues deps uvec nodes in
               let Xpts := nth e Xpts_of [] in
               setValues_add deps acc nodes
                 (computeNodeDerivElem3D knots order vpn nodes welem uelem Xpts))
            elems (zeroEntries uderiv).

End NodeDeriv.

Module NodeDerivFacts.
Import Forest Jac BVec BVecFacts Weights InterpFacts NodeDeriv.

(** The determinant [detJ] that [computeJacobianTrans3D] returns at the
    knot position [p]. *)
Definition knot_detJ (knots : list Q) (order : nat) (Xpts : list Q)
  (p : nat * nat * nat) : Q :=
  let '(ii, jj, kk) := p in
  let I := evalInterp3D_deriv knots (nth ii knots 0, nth jj knots 0, nth kk knots 0) in
  let '(_, _, h) :=
    computeJacobianTrans3D Xpts (iNa I) (iNb I) (iNc I) (order * order * order) in h.

(** A field that is linear in the physical coordinates: component [k] of
    node [i] is [a k + g k . X_i]. *)
Definition linear_at (uelem Xpts : list Q) (vpn n : nat)
  (a gx gy gz : nat -> Q) : Prop :=
  forall i k, (i < n)%nat -> (k < vpn)%nat ->
    nth (vpn * i + k) uelem 0 ==
    a k + gx k * nth (3 * i + 0) Xpts 0 + gy k * nth (3 * i + 1) Xpts 0
        + gz k * nth (3 * i + 2) Xpts 0.

(** The block the exact gradient gives at slot [idx]. *)
Definition exact_sample (vpn : nat) (nodes : list Z) (welem : list Q)
  (gx gy gz : nat -> Q) (idx : nat) : list Q :=
  if (0 <=? nth idx nodes 0%Z)%Z then
    flat_map (fun k => [/ nth idx welem 0 * gx k; / nth idx welem 0 * gy k;
                        / nth idx welem 0 * gz k]) (seq 0 vpn)
  else repeat 0 (3 * vpn).

#[export] Instance grad_block_Proper (J : m9) :
  Proper (Qeq ==> Qeq ==> Qeq ==> Qeq ==> eqlistQ) (grad_block J).
Proof.
  intros a a' Ha b b' Hb c c' Hc w w' Hw; unfold grad_block.
  repeat constructor; rewrite Ha, Hb, Hc, Hw; reflexivity.
Qed.

Lemma ud_sum_linear (uelem Xpts N : list Q) (vpn k n : nat) (a gx gy gz : Q) :
  (forall i, (i < n)%nat ->
     nth (vpn * i + k) uelem 0 ==
     a + gx * nth (3 * i + 0) Xpts 0 + gy * nth (3 * i + 1) Xpts 0
       + gz * nth (3 * i + 2) Xpts 0) ->
  ud_sum uelem vpn k N n ==
  a * sumQ (map (fun i => nth i N 0) (seq 0 n)) + gx * xd_sum Xpts N 0 n
  + gy * xd_sum Xpts N 1 n + gz * xd_sum Xpts N 2 n.
Proof.
  intros H; unfold ud_sum, xd_sum.
  rewrite <- !sumQ_map_scale, <- !sumQ_map_add.
  apply sumQ_map_ext; intros i Hi; apply in_seq in Hi.
  rewrite H by lia; ring.
Qed.

(** With [J * Xd = I], mapping the reference gradient of a linear field
    back through [J] returns the field's physical gradient. *)
Lemma grad_block_exact (J X : m9) (gx gy gz winv : Q) :
  m9_eq (m9_mul J X) m9_id ->
  grad_block J (gx * e0 X + gy * e1 X + gz * e2 X)
               (gx * e3 X + gy * e4 X + gz * e5 X)
               (gx * e6 X + gy * e7 X + gz * e8 X) winv
  ==l [winv * gx; winv * gy; winv * gz].
Proof.
  intros (H0 & H1 & H2 & H3 & H4 & H5 & H6 & H7 & H8);
  cbn [m9_mul m9_id e0 e1 e2 e3 e4 e5 e6 e7 e8] in *.
  unfold grad_block; constructor; [|constructor; [|constructor; [|constructor]]].
  - setoid_replace (winv * ((gx * e0 X + gy * e1 X + gz * e2 X) * e0 J +
                           (gx * e3 X + gy * e4 X + gz * e5 X) * e1 J +
                           (gx * e6 X + gy * e7 X + gz * e8 X) * e2 J))
      with (winv * (gx * (e0 J * e0 X + e1 J * e3 X + e2 J * e6 X)
                    + gy * (e0 J * e1 X + e1 J * e4 X + e2 J * e7 X)
                    + gz * (e0 J * e2 X + e1 J * e5 X + e2 J * e8 X))) by ring.
    rewrite H0, H1, H2; ring.
  - setoid_replace (winv * ((gx * e0 X + gy * e1 X + gz * e2 X) * e3 J +
                           (gx * e3 X + gy * e4 X + gz * e5 X) * e4 J +
                           (gx * e6 X + gy * e7 X + gz * e8 X) * e5 J))
      with (winv * (gx * (e3 J * e0 X + e4 J * e3 X + e5 J * e6 X)
                    + gy * (e3 J * e1 X + e4 J * e4 X + e5 J * e7 X)
                    + gz * (e3 J * e2 X + e4 J * e5 X + e5 J * e8 X))) by ring.
    rewrite H3, H4, H5; ring.
  - setoid_replace (winv * ((gx * e0 X + gy * e1 X + gz * e2 X) * e6 J +
                           (gx * e3 X + gy * e4 X + gz * e5 X) * e7 J +
                           (gx * e6 X + gy * e7 X + gz * e8 X) * e8 J))
      with (winv * (gx * (e6 J * e0 X + e7 J * e3 X + e8 J * e6 X)
                    + gy * (e6 J * e1 X + e7 J * e4 X + e8 J * e7 X)
                    + gz * (e6 J * e2 X + e7 J * e5 X + e8 J * e8 X))) by ring.
    rewrite H6, H7, H8; ring.
Qed.

(** Patch test for the projector's element kernel: when the nodal
    values of an element sample a field that is linear in the physical
    coordinates ([u_k(X) = a_k + g_k . X]), every knot of the element at
    which [computeJacobianTrans3D] returns a non-zero determinant
    contributes exactly [g_k / w] for each component [k] (with [w] the
    nodal weight of the slot), and a dependent slot contributes zeros. *)
Theorem ElemSample_linear (order vpn : nat) (nodes : list Z) (welem uelem Xpts : list Q)
  (a gx gy gz : nat -> Q) (p : nat * nat * nat) :
  (2 <= order <= 6)%nat ->
  linear_at uelem Xpts vpn (order * order * order) a gx gy gz ->
  ~ knot_detJ (getInterpKnots order) order Xpts p == 0 ->
  ElemSample (getInterpKnots order) order vpn nodes welem uelem Xpts p ==l
  exact_sample vpn nodes welem gx gy gz (knot_index3D order p).
Proof.
  intros Ho Hlin Hdet; destruct p as [[ii jj] kk].
  unfold ElemSample, exact_sample, knot_detJ in *.
  destruct (evalInterp3D_deriv_sums order
              (nth ii (getInterpKnots order) 0, nth jj (getInterpKnots order) 0,
               nth kk (getInterpKnots order) 0) Ho) as (Za & Zb & Zc).
  cbv zeta in Za, Zb, Zc.
  set (knots := getInterpKnots order) in *.
  remember (evalInterp3D_deriv knots (nth ii knots 0, nth jj knots 0, nth kk knots 0))
    as I eqn:HI.
  set (n := (order * order * order)%nat) in *.
  pose proof (computeJacobianTrans3D_spec Xpts (iNa I) (iNb I) (iNc I) n) as HJ.
  destruct (computeJacobianTrans3D Xpts (iNa I) (iNb I) (iNc I) n) as [[Xd J] h].
  destruct HJ as [HXd [_ Hinv]]; destruct (Hinv Hdet) as [HJX _].
  destruct (0 <=? nth (knot_index3D order (ii, jj, kk)) nodes 0%Z)%Z; [|reflexivity].
  apply flat_map_eqlistQ; intros k Hk; apply in_seq in Hk.
  assert (Hl : forall i, (i < n)%nat ->
            nth (vpn * i + k) uelem 0 ==
            a k + gx k * nth (3 * i + 0) Xpts 0 + gy k * nth (3 * i + 1) Xpts 0
                + gz k * nth (3 * i + 2) Xpts 0) by (intros; apply Hlin; lia).
  rewrite !(ud_sum_linear uelem Xpts _ vpn k n (a k) (gx k) (gy k) (gz k) Hl).
  rewrite Za, Zb, Zc.
  destruct HXd as (X0 & X1 & X2 & X3 & X4 & X5 & X6 & X7 & X8);
    unfold xd_matrix in *; simpl in X0, X1, X2, X3, X4, X5, X6, X7, X8.
  rewrite <- X0, <- X1, <- X2, <- X3, <- X4, <- X5, <- X6, <- X7, <- X8.
  rewrite <- (grad_block_exact J Xd (gx k) (gy k) (gz k) _ HJX).
  apply grad_block_Proper; ring.
Qed.

Lemma ElemSample_length knots order vpn nodes welem uelem Xpts p :
  length (ElemSample knots order vpn nodes welem uelem Xpts p) = (3 * vpn)%nat.
Proof.
  unfold ElemSample; destruct p as [[ii jj] kk]; cbv zeta.
  destruct (computeJacobianTrans3D _ _ _ _ _) as [[Xd J] h].
  destruct (_ <=? _)%Z; [|apply repeat_length].
  rewrite (length_flat_map_const _ _ 3), length_seq; [lia|intros; reflexivity].
Qed.

(** Entry [c] of slot [idx] of the element array is entry [c] of the
    sample at the [idx]-th knot position. *)
Lemma computeNodeDerivElem3D_nth knots order vpn nodes welem uelem Xpts idx c :
  (idx < order * order * order)%nat -> (c < 3 * vpn)%nat ->
  nth (3 * vpn * idx + c) (computeNodeDerivElem3D knots order vpn nodes welem uelem Xpts) 0 =
  nth c (ElemSample knots order vpn nodes welem uelem Xpts
           (nth idx (knot_positions3D order) (0, 0, 0)%nat)) 0.
Proof.
  intros Hi Hc; apply nth_flat_map_block;
    [intros; apply ElemSample_length | rewrite knot_positions3D_length; lia | lia].
Qed.

Lemma exact_sample_entry vpn nodes welem gx gy gz idx k d :
  (k < vpn)%nat -> (d < 3)%nat ->
  nth (3 * k + d) (exact_sample vpn nodes welem gx gy gz idx) 0 ==
  if (0 <=? nth idx nodes 0%Z)%Z
  then / nth idx welem 0 * nth d [gx k; gy k; gz k] 0 else 0.
Proof.
  intros Hk Hd; unfold exact_sample; destruct (_ <=? _)%Z; [|rewrite nth_repeat; reflexivity].
  rewrite (nth_flat_map_block _ _ 3 k d 0%nat); [|reflexivity|rewrite length_seq; lia|lia].
  rewrite seq_nth by lia.
  destruct d as [|[|[|d]]]; [reflexivity|reflexivity|reflexivity|lia].
Qed.

(** With one weight per node, the weight an element reads at an
    independent slot is the node's entry. *)
Lemma getValues_weight deps (w : bvec) (nodes : list Z) (idx : nat) :
  bsize w = 1%nat -> (idx < length nodes)%nat -> (0 <= nth idx nodes 0%Z)%Z ->
  nth idx (getValues deps w nodes) 0 = val w (Z.to_nat (nth idx nodes 0%Z)) 0.
Proof.
  intros Hb Hi Hn.
  pose proof (getValues_nth deps w nodes idx 0 Hi) as H; rewrite Hb in H.
  rewrite Nat.mul_1_l, Nat.add_0_r in H; rewrite H by lia.
  apply get_node_indep; [exact Hn|rewrite Hb; lia].
Qed.

(** The hypotheses of the patch test on one element [e]: it has
    [order^3] nodes, the nodal field it reads is linear in its node
    locations, and its Jacobian is invertible at every knot. *)
Definition elem_patch (deps : dep_table) (order vpn : nat) (conn : list (list Z))
  (Xpts_of : list (list Q)) (uvec : bvec) (a gx gy gz : nat -> Q) (e : nat) : Prop :=
  let nodes := nth e conn [] in
  length nodes = (order * order * order)%nat /\
  linear_at (getValues deps uvec nodes) (nth e Xpts_of []) vpn (order * order * order)
            a gx gy gz /\
  forall p, In p (knot_positions3D order) ->
            ~ knot_detJ (getInterpKnots order) order (nth e Xpts_of []) p == 0.

Section PatchElement.
Context (deps : dep_table) (order vpn : nat) (nodes : list Z) (weights uvec : bvec)
        (Xpts : list Q) (a gx gy gz : nat -> Q).
Hypothesis Ho : (2 <= order <= 6)%nat.
Hypothesis Hlen : length nodes = (order * order * order)%nat.
Hypothesis Hlin : linear_at (getValues deps uvec nodes) Xpts vpn (order * order * order)
                            a gx gy gz.
Hypothesis Hdet : forall p, In p (knot_positions3D order) ->
                            ~ knot_detJ (getInterpKnots order) order Xpts p == 0.
Hypothesis Hw : bsize weights = 1%nat.

(** Each slot adds, to node [m], [g / w_m] when it names [m], else nothing. *)
Lemma slot_deriv (idx k d m : nat) :
  (idx < length nodes)%nat -> (k < vpn)%nat -> (d < 3)%nat ->
  slot_weight deps (nth idx nodes 0%Z) m * nth (3 * vpn * idx + (3 * k + d))
    (computeNodeDerivElem3D (getInterpKnots order) order vpn nodes
               (getValues deps weights nodes) (getValues deps uvec nodes) Xpts) 0 ==
  (if Z.eqb (nth idx nodes 0%Z) (Z.of_nat m) then 1 else 0)
  * (/ val weights m 0 * nth d [gx k; gy k; gz k] 0).
Proof.
  intros Hi Hk Hd.
  rewrite computeNodeDerivElem3D_nth by lia.
  assert (Hp : In (nth idx (knot_positions3D order) (0, 0, 0)%nat) (knot_positions3D order))
    by (apply nth_In; rewrite knot_positions3D_length; lia).
  rewrite (nth_eqlistQ _ _ _ (ElemSample_linear order vpn nodes _ _ Xpts a gx gy gz _
                                 Ho Hlin (Hdet _ Hp))).
  rewrite knot_positions3D_nth by lia.
  rewrite exact_sample_entry by lia.
  unfold slot_weight; destruct (Z.leb_spec 0 (nth idx nodes 0%Z)) as [Hn|Hn].
  - rewrite getValues_weight by lia.
    destruct (Nat.eqb_spec (Z.to_nat (nth idx nodes 0%Z)) m) as [<-|Hm],
      (Z.eqb_spec (nth idx nodes 0%Z) (Z.of_nat (Z.to_nat (nth idx nodes 0%Z))));
      try lia; [ring|].
    destruct (Z.eqb_spec (nth idx nodes 0%Z) (Z.of_nat m)); [lia|ring].
  - destruct (Z.eqb_spec (nth idx nodes 0%Z) (Z.of_nat m)); [lia|ring].
Qed.

(** One element's [setValues(..., TACS_ADD_VALUES)] adds [g / w_m] per slot
    naming [m]. *)
Lemma elem_deriv_add (v : bvec) (m k d : nat) :
  bsize v = (3 * vpn)%nat -> (k < vpn)%nat -> (d < 3)%nat ->
  val (setValues_add deps v nodes
         (computeNodeDerivElem3D (getInterpKnots order) order vpn nodes
               (getValues deps weights nodes) (getValues deps uvec nodes) Xpts)) m (3 * k + d) ==
  val v m (3 * k + d) +
  inject_Z (Z.of_nat (length (filter (fun n => Z.eqb n (Z.of_nat m)) nodes)))
  * (/ val weights m 0 * nth d [gx k; gy k; gz k] 0).
Proof.
  intros Hb Hk Hd; rewrite setValues_add_val by lia; rewrite Hb.
  rewrite sumQ_slots_count; [reflexivity|].
  intros idx Hi; apply slot_deriv; assumption.
Qed.

End PatchElement.

Lemma nodederiv_fold deps order vpn conn Xpts_of (uvec weights : bvec) a gx gy gz
  (elems : list nat) (v : bvec) (m k d : nat) :
  (2 <= order <= 6)%nat -> bsize v = (3 * vpn)%nat -> bsize weights = 1%nat ->
  (k < vpn)%nat -> (d < 3)%nat ->
  (forall e, In e elems -> elem_patch deps order vpn conn Xpts_of uvec a gx gy gz e) ->
  val (fold_left (fun acc e =>
                    setValues_add deps acc (nth e conn [])
                      (computeNodeDerivElem3D (getInterpKnots order) order vpn
                         (nth e conn []) (getValues deps weights (nth e conn []))
                         (getValues deps uvec (nth e conn [])) (nth e Xpts_of [])))
                 elems v) m (3 * k + d) ==
  val v m (3 * k + d) + inject_Z (Z.of_nat (count_refs conn elems m))
                        * (/ val weights m 0 * nth d [gx k; gy k; gz k] 0).
Proof.
  intros Ho Hb Hw Hk Hd; unfold count_refs; revert v Hb.
  induction elems as [|e l IH]; intros v Hb He; cbn [fold_left flat_map];
    [cbn [filter length Z.of_nat inject_Z]; ring|].
  destruct (He e (or_introl eq_refl)) as (Hlen & Hlin & Hdet).
  rewrite IH by (try rewrite setValues_add_bsize; auto; intros; apply He; right; auto).
  cbv zeta; rewrite (elem_deriv_add deps order vpn (nth e conn []) weights uvec
    (nth e Xpts_of []) a gx gy gz Ho Hlen Hlin Hdet Hw v m k d Hb Hk Hd).
  rewrite filter_app, length_app, Nat2Z.inj_add, inject_Z_plus; ring.
Qed.

Lemma computeLocalWeights_bsize deps conn en (w : bvec) :
  bsize (Weights.computeLocalWeights deps conn en w) = bsize w.
Proof.
  unfold Weights.computeLocalWeights.
  generalize (zeroEntries w) (eq_refl : bsize (zeroEntries w) = bsize w).
  induction (match en with None => seq 0 (length conn) | Some l => l end) as [|e l IH];
    intros v Hv; simpl; [exact Hv|].
  apply IH; rewrite setValues_add_bsize; exact Hv.
Qed.

(** (C1) Patch test of the nodal-derivative projector (spec S1): when the
    nodal weights are those of [computeLocalWeights] over the same
    elements, every element samples a field linear in the physical
    coordinates [u_k = a_k + g_k . X] at invertible knots, and node [m] is
    referenced by at least one element slot, [computeNodeDeriv3D] stores
    at node [m] exactly the gradient [g_k] of every component [k]. *)
Theorem computeNodeDeriv3D_patch deps order vpn (conn : list (list Z))
  (Xpts_of : list (list Q)) (uvec w uderiv : bvec) (en : option (list nat))
  (a gx gy gz : nat -> Q) (m k d : nat) :
  (2 <= order <= 6)%nat -> bsize uderiv = (3 * vpn)%nat -> bsize w = 1%nat ->
  (k < vpn)%nat -> (d < 3)%nat ->
  let elems := match en with None => seq 0 (length conn) | Some l => l end in
  (forall e, In e elems -> elem_patch deps order vpn conn Xpts_of uvec a gx gy gz e) ->
  (0 < count_refs conn elems m)%nat ->
  val (computeNodeDeriv3D deps order vpn conn Xpts_of uvec
         (Weights.computeLocalWeights deps conn en w) uderiv en) m (3 * k + d) ==
  nth d [gx k; gy k; gz k] 0.
Proof.
  intros Ho Hb Hw Hk Hd elems He Hc; unfold computeNodeDeriv3D; cbv zeta; fold elems.
  rewrite (nodederiv_fold deps order vpn conn Xpts_of uvec
             (computeLocalWeights deps conn en w) a gx gy gz elems (zeroEntries uderiv) m k d)
    by (try rewrite computeLocalWeights_bsize; assumption).
  unfold Weights.computeLocalWeights; fold elems.
  rewrite WeightsFacts.weights_fold by exact Hw; cbn [val zeroEntries].
  assert (Hz : ~ inject_Z (Z.of_nat (count_refs conn elems m)) == 0).
  { clearbody elems; intros Hq; apply (proj1 (inject_Z_injective _ 0%Z)) in Hq; lia. }
  rewrite !Qplus_0_l; field; exact Hz.
Qed.

(** One order-2 unit-cube element carrying [u = 1 + 2x + 3y + 5z]. *)
Definition cube_Xpts : list Q :=
  [0;0;0; 1;0;0; 0;1;0; 1;1;0; 0;0;1; 1;0;1; 0;1;1; 1;1;1].
Definition cube_u : bvec :=
  mkBVec 1 (fun n _ => 1 + 2 * inject_Z (Z.of_nat (n mod 2))
                      + 3 * inject_Z (Z.of_nat ((n / 2) mod 2))
                      + 5 * inject_Z (Z.of_nat (n / 4))).
Definition cube_conn : list (list Z) := [[0; 1; 2; 3; 4; 5; 6; 7]%Z].

Lemma computeNodeDeriv3D_patch_witness :
  (2 <= 2 <= 6)%nat /\ bsize (mkBVec 3 (fun _ _ => 0)) = (3 * 1)%nat /\
  bsize (mkBVec 1 (fun _ _ => 0)) = 1%nat /\ (0 < 1)%nat /\ (2 < 3)%nat /\
  (forall e, In e (seq 0 (length cube_conn)) ->
     elem_patch [] 2 1 cube_conn [cube_Xpts] cube_u
                (fun _ => 1) (fun _ => 2) (fun _ => 3) (fun _ => 5) e) /\
  (0 < count_refs cube_conn (seq 0 (length cube_conn)) 6)%nat /\
  val (computeNodeDeriv3D [] 2 1 cube_conn [cube_Xpts] cube_u
         (Weights.computeLocalWeights [] cube_conn None (mkBVec 1 (fun _ _ => 0)))
         (mkBVec 3 (fun _ _ => 0)) None) 6 (3 * 0 + 2) ==
  nth 2 [2; 3; 5] 0.
Proof.
  assert (He : forall e, In e (seq 0 (length cube_conn)) ->
     elem_patch [] 2 1 cube_conn [cube_Xpts] cube_u
                (fun _ => 1) (fun _ => 2) (fun _ => 3) (fun _ => 5) e).
  { intros e Hin; simpl in Hin; destruct Hin as [<-|[]].
    split; [reflexivity|split].
    - intros i c Hi Hc; destruct c as [|c]; [|lia].
      do 8 (destruct i as [|i]; [vm_compute; reflexivity|]); lia.
    - intros p Hp; vm_compute in Hp; destruct_in; vm_compute; discriminate. }
  assert (Hc : (0 < count_refs cube_conn (seq 0 (length cube_conn)) 6)%nat)
    by (vm_compute; lia).
  split; [lia|]; split; [reflexivity|]; split; [reflexivity|]; split; [lia|];
    split; [lia|]; split; [exact He|]; split; [exact Hc|].
  exact (computeNodeDeriv3D_patch [] 2 1 cube_conn [cube_Xpts] cube_u
           (mkBVec 1 (fun _ _ => 0)) (mkBVec 3 (fun _ _ => 0)) None
           (fun _ => 1) (fun _ => 2) (fun _ => 3) (fun _ => 5) 6 0 2
           ltac:(lia) eq_refl eq_refl ltac:(lia) ltac:(lia) He Hc).
Defined.

(** ** A field constant per component *)

Lemma ud_sum_const (u N : list Q) (vpn k n : nat) (c : Q) :
  (forall i, (i < n)%nat -> nth (vpn * i + k) u 0 == c) ->
  ud_sum u vpn k N n == c * sumQ (map (fun i => nth i N 0) (seq 0 n)).
Proof.
  intros H; unfold ud_sum; rewrite <- sumQ_map_scale.
  apply sumQ_map_ext; intros i Hi; apply in_seq in Hi; rewrite H by lia; reflexivity.
Qed.

(** Every knot of an element carrying a constant field samples zeros. *)
Lemma ElemSample_const (order vpn : nat) (nodes : list Z) (welem uelem Xpts : list Q)
  (a : nat -> Q) (p : nat * nat * nat) :
  (2 <= order <= 6)%nat ->
  (forall i k, (i < order * order * order)%nat -> (k < vpn)%nat ->
     nth (vpn * i + k) uelem 0 == a k) ->
  Forall (fun q => q == 0) (ElemSample (getInterpKnots order) order vpn nodes welem uelem Xpts p).
Proof.
  intros Ho Hu; destruct p as [[ii jj] kk].
  set (knots := getInterpKnots order).
  destruct (evalInterp3D_deriv_sums order (nth ii knots 0, nth jj knots 0, nth kk knots 0) Ho)
    as (Za & Zb & Zc); cbv zeta in Za, Zb, Zc; fold knots in Za, Zb, Zc.
  unfold ElemSample; fold knots; cbv zeta.
  destruct (computeJacobianTrans3D _ _ _ _ _) as [[Xd J] h].
  destruct (_ <=? _)%Z.
  - apply Forall_flat_map, Forall_forall; intros k Hk; apply in_seq in Hk.
    assert (Hu' : forall i, (i < order * order * order)%nat -> nth (vpn * i + k) uelem 0 == a k)
      by (intros; apply Hu; lia).
    unfold grad_block; repeat apply Forall_cons; try apply Forall_nil;
      rewrite (ud_sum_const uelem (iNa _) vpn k _ (a k) Hu'),
              (ud_sum_const uelem (iNb _) vpn k _ (a k) Hu'),
              (ud_sum_const uelem (iNc _) vpn k _ (a k) Hu'), Za, Zb, Zc; ring.
  - apply Forall_forall; intros q Hq; apply repeat_spec in Hq; rewrite Hq; reflexivity.
Qed.

(** The nodal derivatives of a field that every element reads as
    constant vanish at every node. *)
Lemma computeNodeDeriv3D_const deps order vpn (conn : list (list Z))
  (Xpts_of : list (list Q)) (uvec weights uderiv : bvec) (en : option (list nat))
  (a : nat -> Q) :
  (2 <= order <= 6)%nat ->
  (forall e, In e (match en with None => seq 0 (length conn) | Some l => l end) ->
     forall i k, (i < order * order * order)%nat -> (k < vpn)%nat ->
       nth (vpn * i + k) (getValues deps uvec (nth e conn [])) 0 == a k) ->
  forall n c, (c < bsize uderiv)%nat ->
    val (computeNodeDeriv3D deps order vpn conn Xpts_of uvec weights uderiv en) n c == 0.
Proof.
  intros Ho He n c Hc; change (bsize uderiv) with (bsize (zeroEntries uderiv)) in Hc.
  revert n c Hc; apply fold_setValues_add_zero; [reflexivity|].
  intros e Hin; apply Forall_flat_map, Forall_forall; intros p _.
  apply (ElemSample_const _ _ _ _ _ _ a p Ho (He e Hin)).
Qed.

End NodeDerivFacts.
