(* ===== verification/Recon.v ===== *)
(** * C4: the element patch reconstruction (computeElemRecon3D)

    [Recon] models [computeElemRecon3D] (src/src/TMRGeometry.c, lines
    1308-1458).  At every knot [(ii, jj, kk)] of the coarse element it
    evaluates the refined basis to build the Jacobian of the (refined)
    element geometry, the coarse basis to differentiate the nodal field,
    and the enrichment basis; it writes three rows of the column-major
    least-squares system: the right-hand side [b] is the weighted mismatch
    between the prescribed nodal derivative and the coarse field's
    derivative, the matrix [A] the weighted physical derivatives of the
    enrichment functions.  [LAPACKdgelss] then solves the system and the
    [nenrich x vars_per_node] block [ubar] is copied out of [b].

    The knot weights [wvals] are set for orders 2 and 3 only: for any
    other order the array is left uninitialised, which the model makes an
    explicit argument [uninit].  [getNum3dEnrich] returns 15 for every
    order but 2, and no enrichment routine fills [Nar], [Nbr], [Ncr] for
    orders above 3: the code then reads uninitialised derivatives, which
    the model reads as 0 (the [nth] default).

    The theorems show that the reconstruction of a constant field with
    zero prescribed derivatives is zero (spec, testable property 3); and
    the reproduction property 1: when the prescribed derivatives are those
    of the interpolated field plus an enrichment field with coefficients
    [ubar0], the right-hand side the loops assemble is [A ubar0] for the
    matrix they assemble, so that a full-rank system returns [ubar0].  A
    concrete unit-cube element realises both situations. *)

From Stdlib Require Import PeanoNat ZArith QArith Qring List Lia Lqa.
From S2P Require Import Prelude LeastSquares Enrichment Interp NodeDeriv.
Import ListNotations.
Open Scope Q_scope.
Open Scope tmr_scope.

Module Recon.
Import Lapack Enrich Forest Jac NodeDeriv.

(** [wvals[3]]: set for orders 2 and 3; otherwise the stack contents. *)
Definition wvals3D (order : nat) (uninit : list Q) : list Q :=
  if Nat.eqb order 2 then [1; 1]
  else if Nat.eqb order 3 then [1 # 2; 1; 1 # 2]
  else uninit.

(** The enrichment derivatives [Nar, Nbr, Ncr]: arrays left unset for
    orders other than 2 and 3 (read as 0). *)
Definition enrich3D_deriv (order : nat) (pt : Q * Q * Q) : enr3 :=
  if Nat.eqb order 2 then eval2ndEnrichmentFuncs3D_deriv pt
  else if Nat.eqb order 3 then eval3rdEnrichmentFuncs3D_deriv pt
  else {| eN3 := []; eNa3 := []; eNb3 := []; eNc3 := [] |}.

(** [d = (a*J[0] + b*J[1] + c*J[2], a*J[3] + ..., a*J[6] + ...)]. *)
Definition jmul (J : m9) (a b c : Q) : list Q :=
  [a * e0 J + b * e1 J + c * e2 J;
   a * e3 J + b * e4 J + c * e5 J;
   a * e6 J + b * e7 J + c * e8 J].

(** [wvals[ii]*wvals[jj]*wvals[kk]] *)
Definition knot_weight (wv : list Q) (p : nat * nat * nat) : Q :=
  let '(ii, jj, kk) := p in nth ii wv 0 * nth jj wv 0 * nth kk wv 0.

(** What the loop body computes at knot [p] before writing rows: the
    Jacobian [J] of the refined element at the coarse knot, the coarse
    basis derivatives, and the enrichment derivatives. *)
Definition recon_knot3D (order refined_order : nat) (Xpts : list Q)
  (p : nat * nat * nat) : m9 * interp3 * enr3 :=
  let knots := getInterpKnots order in
  let '(ii, jj, kk) := p in
  let pt := (nth ii knots 0, nth jj knots 0, nth kk knots 0) in
  let R := evalInterp3D_deriv (getInterpKnots refined_order) pt in
  let '(_, J, _) := computeJacobianTrans3D Xpts (iNa R) (iNb R) (iNc R)
                      (refined_order * refined_order * refined_order) in
  (J, evalInterp3D_deriv knots pt, enrich3D_deriv order pt).

(** Rows [c, c+1, c+2] of right-hand side [k]: [b = w*ud - w*d]. *)
Definition recon_b_rows (order refined_order vpn : nat) (Xpts uvals uderiv wv : list Q)
  (k : nat) (p : nat * nat * nat) : list Q :=
  let '(J, Co, _) := recon_knot3D order refined_order Xpts p in
  let w := knot_weight wv p in
  let ud := (3 * vpn * knot_index3D order p + 3 * k)%nat in
  let n := (order * order * order)%nat in
  let d := jmul J (ud_sum uvals vpn k (iNa Co) n) (ud_sum uvals vpn k (iNb Co) n)
                  (ud_sum uvals vpn k (iNc Co) n) in
  [w * nth ud uderiv 0 - w * nth 0 d 0;
   w * nth (ud + 1) uderiv 0 - w * nth 1 d 0;
   w * nth (ud + 2) uderiv 0 - w * nth 2 d 0].

(** Rows [c, c+1, c+2] of column [i] of [A]. *)
Definition recon_A_rows (order refined_order : nat) (Xpts wv : list Q) (i : nat)
  (p : nat * nat * nat) : list Q :=
  let '(J, _, E) := recon_knot3D order refined_order Xpts p in
  let w := knot_weight wv p in
  map (Qmult w) (jmul J (nth i (eNa3 E) 0) (nth i (eNb3 E) 0) (nth i (eNc3 E) 0)).

(** The column-major arrays [b] ([neq x vars_per_node]) and [A]
    ([neq x nenrich]), [neq = 3*order^3], row [c = 3*(ii + order*jj +
    order^2*kk)] for knot [(ii, jj, kk)]. *)
Definition recon_b3D (order refined_order vpn : nat) (Xpts uvals uderiv wv : list Q)
  : list Q :=
  flat_map (fun k => flat_map (recon_b_rows order refined_order vpn Xpts uvals uderiv wv k)
                              (knot_positions3D order)) (seq 0 vpn).

Definition recon_A3D (order refined_order : nat) (Xpts wv : list Q) : list Q :=
  flat_map (fun i => flat_map (recon_A_rows order refined_order Xpts wv i)
                              (knot_positions3D order)) (seq 0 (getNum3dEnrich order)).

(** [ubar[vars_per_node*i + j] = b[m*j + i]] *)
Definition copy_ubar (m nenrich vpn : nat) (b' : list Q) : list Q :=
  flat_map (fun i => map (fun j => nth (m * j + i) b' 0) (seq 0 vpn)) (seq 0 nenrich).

(** [computeElemRecon3D(vars_per_node, forest, refined_forest, Xpts,
    uvals, uderiv, ubar, tmp)]: [ubar] is a possible output, for the
    array [b'] the solver leaves behind. *)
Definition computeElemRecon3D (vpn order refined_order : nat)
  (Xpts uvals uderiv uninit ubar : list Q) : Prop :=
  let nenrich := getNum3dEnrich order in
  let neq := (3 * order * order * order)%nat in
  let wv := wvals3D order uninit in
  exists b', LAPACKdgelss neq nenrich vpn (recon_A3D order refined_order Xpts wv)
                          (recon_b3D order refined_order vpn Xpts uvals uderiv wv) b'
             /\ ubar = copy_ubar neq nenrich vpn b'.

End Recon.

Module ReconFacts.
Import Lapack LapackFacts Enrich Forest Jac NodeDeriv NodeDerivFacts InterpFacts Recon.

(** A field constant per component with zero prescribed derivatives
    leaves zero rows in [b] at every knot. *)
Lemma recon_b_rows_const order refined_order vpn Xpts uvals uderiv wv k p (c : nat -> Q) :
  (2 <= order <= 6)%nat -> In p (knot_positions3D order) -> (k < vpn)%nat ->
  (forall i k, (i < order * order * order)%nat -> (k < vpn)%nat ->
     nth (vpn * i + k) uvals 0 == c k) ->
  (forall r, (r < 3 * vpn * (order * order * order))%nat -> nth r uderiv 0 == 0) ->
  Forall (fun q => q == 0) (recon_b_rows order refined_order vpn Xpts uvals uderiv wv k p).
Proof.
  intros Ho Hp Hk Hu Hd; destruct p as [[ii jj] kk].
  destruct (knot_positions3D_bound _ _ _ _ Hp) as (_ & _ & _ & Hidx).
  set (knots := getInterpKnots order).
  destruct (evalInterp3D_deriv_sums order (nth ii knots 0, nth jj knots 0, nth kk knots 0) Ho)
    as (Za & Zb & Zc); cbv zeta in Za, Zb, Zc; fold knots in Za, Zb, Zc.
  assert (Hu' : forall i, (i < order * order * order)%nat -> nth (vpn * i + k) uvals 0 == c k)
    by (intros; apply Hu; lia).
  unfold recon_b_rows, recon_knot3D; fold knots; cbv zeta.
  destruct (computeJacobianTrans3D _ _ _ _ _) as [[Xd J] h].
  set (idx := knot_index3D order (ii, jj, kk)) in *.
  unfold jmul; cbn [nth]; repeat apply Forall_cons; try apply Forall_nil;
    rewrite (ud_sum_const uvals (iNa _) vpn k _ (c k) Hu'),
            (ud_sum_const uvals (iNb _) vpn k _ (c k) Hu'),
            (ud_sum_const uvals (iNc _) vpn k _ (c k) Hu'), Za, Zb, Zc, Hd by nia; ring.
Qed.

Lemma recon_b3D_const order refined_order vpn Xpts uvals uderiv wv (c : nat -> Q) :
  (2 <= order <= 6)%nat ->
  (forall i k, (i < order * order * order)%nat -> (k < vpn)%nat ->
     nth (vpn * i + k) uvals 0 == c k) ->
  (forall r, (r < 3 * vpn * (order * order * order))%nat -> nth r uderiv 0 == 0) ->
  Forall (fun q => q == 0) (recon_b3D order refined_order vpn Xpts uvals uderiv wv).
Proof.
  intros Ho Hu Hd; unfold recon_b3D.
  apply Forall_flat_map, Forall_forall; intros k Hk; apply in_seq in Hk.
  apply Forall_flat_map, Forall_forall; intros p Hp.
  apply (recon_b_rows_const order refined_order vpn Xpts uvals uderiv wv k p c Ho Hp
           ltac:(lia) Hu Hd).
Qed.

(** The copy loop reads column [j] of the solver output into the
    interleaved block [ubar[vars_per_node*i + j]]. *)
Lemma copy_ubar_ext (m nenrich vpn : nat) (b' x0 : list Q) :
  length x0 = (nenrich * vpn)%nat ->
  (forall j i, (j < vpn)%nat -> (i < nenrich)%nat -> nth (m * j + i) b' 0 == nth (vpn * i + j) x0 0) ->
  copy_ubar m nenrich vpn b' ==l x0.
Proof.
  intros Hl H; rewrite <- (flat_map_blocks_id x0 nenrich vpn 0 Hl).
  unfold copy_ubar; apply flat_map_eqlistQ; intros i Hi; apply in_seq in Hi.
  apply map_eqlistQ; intros j Hj; apply in_seq in Hj; apply H; lia.
Qed.

(** A zero right-hand side gives a zero enrichment block. *)
Lemma computeElemRecon3D_zero_rhs (vpn order refined_order : nat)
  (Xpts uvals uderiv uninit ubar : list Q) :
  Forall (fun q => q == 0)
    (recon_b3D order refined_order vpn Xpts uvals uderiv (wvals3D order uninit)) ->
  computeElemRecon3D vpn order refined_order Xpts uvals uderiv uninit ubar ->
  ubar ==l repeat 0 (getNum3dEnrich order * vpn).
Proof.
  intros Hb (b' & Hls & ->).
  apply copy_ubar_ext; [apply repeat_length|].
  intros j i Hj Hi; rewrite nth_repeat.
  apply (dgelss_zero_rhs _ _ _ _ _ _ Hb Hls j i Hj Hi).
Qed.

(** (C6) Null case of the reconstruction (spec, testable property 3): for
    a nodal field that is constant in each component and prescribed
    derivatives that all vanish, every output [ubar] that
    [computeElemRecon3D] can produce under the contract of the
    least-squares driver is zero. *)
Theorem computeElemRecon3D_constant (vpn order refined_order : nat)
  (Xpts uvals uderiv uninit ubar : list Q) (c : nat -> Q) :
  (2 <= order <= 6)%nat ->
  (forall i k, (i < order * order * order)%nat -> (k < vpn)%nat ->
     nth (vpn * i + k) uvals 0 == c k) ->
  (forall r, (r < 3 * vpn * (order * order * order))%nat -> nth r uderiv 0 == 0) ->
  computeElemRecon3D vpn order refined_order Xpts uvals uderiv uninit ubar ->
  ubar ==l repeat 0 (getNum3dEnrich order * vpn).
Proof.
  intros Ho Hu Hd; apply computeElemRecon3D_zero_rhs.
  exact (recon_b3D_const _ _ _ _ _ _ _ c Ho Hu Hd).
Qed.

Lemma computeElemRecon3D_constant_witness :
  (2 <= 2 <= 6)%nat /\
  (forall i k, (i < 2 * 2 * 2)%nat -> (k < 1)%nat ->
     nth (1 * i + k) (repeat 7 8) 0 == (fun _ => 7) k) /\
  (forall r, (r < 3 * 1 * (2 * 2 * 2))%nat -> nth r (repeat 0 24) 0 == 0) /\
  computeElemRecon3D 1 2 3 [] (repeat 7 8) (repeat 0 24) [] (repeat 0 9) /\
  repeat 0 9 ==l repeat 0 (getNum3dEnrich 2 * 1).
Proof.
  assert (Hu : forall i k, (i < 2 * 2 * 2)%nat -> (k < 1)%nat ->
             nth (1 * i + k) (repeat 7 8) 0 == (fun _ => 7) k)
    by (intros i k Hi Hk; rewrite nth_repeat_lt by lia; reflexivity).
  assert (Hd : forall r, (r < 3 * 1 * (2 * 2 * 2))%nat -> nth r (repeat 0 24) 0 == 0)
    by (intros; rewrite nth_repeat; reflexivity).
  assert (Hr : computeElemRecon3D 1 2 3 [] (repeat 7 8) (repeat 0 24) [] (repeat 0 9)).
  { exists (repeat 0 24); split; [|reflexivity].
    apply dgelss_zero_sol; [apply (recon_b3D_const _ _ _ _ _ _ _ (fun _ => 7)); auto; lia|].
    apply Forall_forall; intros q Hq; apply repeat_spec in Hq; rewrite Hq; reflexivity. }
  split; [lia|]; split; [exact Hu|]; split; [exact Hd|]; split; [exact Hr|].
  exact (computeElemRecon3D_constant 1 2 3 [] (repeat 7 8) (repeat 0 24) [] (repeat 0 9)
           (fun _ => 7) ltac:(lia) Hu Hd Hr).
Defined.

(** ** The assembly of [b] and [A] *)

Lemma nth_jmul (J : m9) (a b d : Q) (c : nat) :
  (c < 3)%nat ->
  nth c (jmul J a b d) 0 =
  a * nth c [e0 J; e3 J; e6 J] 0 + b * nth c [e1 J; e4 J; e7 J] 0 + d * nth c [e2 J; e5 J; e8 J] 0.
Proof. intros Hc; destruct c as [|[|[|c]]]; [reflexivity..|lia]. Qed.

(** The rows of the columns of [A] at one knot, summed against a
    coefficient vector, are the rows of the physical derivative of the
    enrichment field with those coefficients. *)
Lemma jmul_sum (J : m9) (w : Q) (f g h x : nat -> Q) (l : list nat) (c : nat) :
  (c < 3)%nat ->
  sumQ (map (fun i => nth c (map (Qmult w) (jmul J (f i) (g i) (h i))) 0 * x i) l) ==
  w * nth c (jmul J (sumQ (map (fun i => x i * f i) l)) (sumQ (map (fun i => x i * g i) l))
                    (sumQ (map (fun i => x i * h i) l))) 0.
Proof.
  intros Hc; rewrite nth_jmul by exact Hc.
  rewrite (sumQ_map_ext _ (fun i => w * nth c [e0 J; e3 J; e6 J] 0 * (x i * f i) +
                                     (w * nth c [e1 J; e4 J; e7 J] 0 * (x i * g i) +
                                      w * nth c [e2 J; e5 J; e8 J] 0 * (x i * h i)))).
  - rewrite !sumQ_map_add, !sumQ_map_scale; ring.
  - intros i _; rewrite (nth_map_lt _ _ _ 0) by (unfold jmul; cbn; lia).
    rewrite nth_jmul by exact Hc; ring.
Qed.

Lemma recon_b_rows_length order refined_order vpn Xpts uvals uderiv wv k p :
  length (recon_b_rows order refined_order vpn Xpts uvals uderiv wv k p) = 3%nat.
Proof. unfold recon_b_rows; destruct (recon_knot3D _ _ _ _) as [[? ?] ?]; reflexivity. Qed.

Lemma recon_A_rows_length order refined_order Xpts wv i p :
  length (recon_A_rows order refined_order Xpts wv i p) = 3%nat.
Proof. unfold recon_A_rows; destruct (recon_knot3D _ _ _ _) as [[? ?] ?]; reflexivity. Qed.

(** Row [r] of a column of [b] or [A]: row [r mod 3] of the knot [r / 3]. *)
Lemma nth_knot_rows (f : nat * nat * nat -> list Q) (order r : nat) :
  (forall p, length (f p) = 3%nat) -> (r < 3 * order * order * order)%nat ->
  nth r (flat_map f (knot_positions3D order)) 0 =
  nth (r mod 3) (f (nth (r / 3) (knot_positions3D order) (0, 0, 0)%nat)) 0.
Proof.
  intros Hf Hr; rewrite <- (nth_flat_map_block f _ 3 (r / 3) (r mod 3)).
  - f_equal; apply Nat.div_mod_eq.
  - intros; apply Hf.
  - rewrite knot_positions3D_length; apply Nat.Div0.div_lt_upper_bound; lia.
  - apply Nat.mod_upper_bound; lia.
Qed.

Lemma nth_column (f : nat -> list Q) (m n j r : nat) :
  (forall k, length (f k) = m) -> (j < n)%nat -> (r < m)%nat ->
  nth (m * j + r) (flat_map f (seq 0 n)) 0 = nth r (f j) 0.
Proof.
  intros Hf Hj Hr; rewrite (nth_flat_map_block f _ m j r 0%nat) by (auto; rewrite length_seq; lia).
  rewrite seq_nth by exact Hj; reflexivity.
Qed.

Lemma knot_block_length (f : nat * nat * nat -> list Q) (order : nat) :
  (forall p, length (f p) = 3%nat) ->
  length (flat_map f (knot_positions3D order)) = (3 * order * order * order)%nat.
Proof.
  intros Hf; rewrite (length_flat_map_const _ _ 3) by auto.
  rewrite knot_positions3D_length; lia.
Qed.

(** The reproduction hypothesis of the spec: at every knot, the
    prescribed derivatives of component [k] are the physical derivatives
    (through the Jacobian [J] the loop computes there) of the interpolated
    field plus the enrichment field with coefficients [ubar0] in the
    layout [ubar[vars_per_node*i + k]]. *)
Definition reproduces (vpn order refined_order : nat) (Xpts uvals uderiv ubar0 : list Q) : Prop :=
  forall k p c, (k < vpn)%nat -> In p (knot_positions3D order) -> (c < 3)%nat ->
    let '(J, Co, E) := recon_knot3D order refined_order Xpts p in
    let n := (order * order * order)%nat in
    let m := getNum3dEnrich order in
    nth (3 * vpn * knot_index3D order p + 3 * k + c) uderiv 0 ==
    nth c (jmul J (ud_sum uvals vpn k (iNa Co) n + ud_sum ubar0 vpn k (eNa3 E) m)
                  (ud_sum uvals vpn k (iNb Co) n + ud_sum ubar0 vpn k (eNb3 E) m)
                  (ud_sum uvals vpn k (iNc Co) n + ud_sum ubar0 vpn k (eNc3 E) m)) 0.

(** [reproduces] checked knot by knot, for a concrete element. *)
Definition reproducesb (vpn order refined_order : nat) (Xpts uvals uderiv ubar0 : list Q) : bool :=
  forallb (fun k => forallb (fun p => forallb (fun c =>
    let '(J, Co, E) := recon_knot3D order refined_order Xpts p in
    let n := (order * order * order)%nat in
    let m := getNum3dEnrich order in
    Qeq_bool (nth (3 * vpn * knot_index3D order p + 3 * k + c) uderiv 0)
      (nth c (jmul J (ud_sum uvals vpn k (iNa Co) n + ud_sum ubar0 vpn k (eNa3 E) m)
                     (ud_sum uvals vpn k (iNb Co) n + ud_sum ubar0 vpn k (eNb3 E) m)
                     (ud_sum uvals vpn k (iNc Co) n + ud_sum ubar0 vpn k (eNc3 E) m)) 0))
    (seq 0 3)) (knot_positions3D order)) (seq 0 vpn).

Lemma reproducesb_spec vpn order refined_order Xpts uvals uderiv ubar0 :
  reproducesb vpn order refined_order Xpts uvals uderiv ubar0 = true ->
  reproduces vpn order refined_order Xpts uvals uderiv ubar0.
Proof.
  unfold reproducesb; rewrite forallb_forall; intros H k p c Hk Hp Hc.
  assert (Hk' : In k (seq 0 vpn)) by (apply in_seq; lia).
  assert (Hc' : In c (seq 0 3)) by (apply in_seq; lia).
  specialize (H k Hk'); rewrite forallb_forall in H.
  specialize (H p Hp); rewrite forallb_forall in H.
  specialize (H c Hc').
  destruct (recon_knot3D order refined_order Xpts p) as [[J Co] E]; apply Qeq_bool_eq, H.
Qed.

(** Under that hypothesis the assembled right-hand side is [A] applied to
    the columns of [ubar0]: the rows of [b] and of [A] are written for the
    same knot, with the same weight and the same Jacobian. *)
Lemma recon_b3D_range (vpn order refined_order : nat) (Xpts uvals uderiv wv ubar0 : list Q) :
  reproduces vpn order refined_order Xpts uvals uderiv ubar0 ->
  forall j r, (j < vpn)%nat -> (r < 3 * order * order * order)%nat ->
    nth (3 * order * order * order * j + r) (recon_b3D order refined_order vpn Xpts uvals uderiv wv) 0 ==
    matvec (3 * order * order * order) (getNum3dEnrich order) (recon_A3D order refined_order Xpts wv)
           (fun i => nth (vpn * i + j) ubar0 0) r.
Proof.
  intros Hd j r Hj Hr; unfold matvec, recon_b3D, recon_A3D.
  rewrite nth_column, nth_knot_rows by
    (auto; intros; try apply knot_block_length; intros; apply recon_b_rows_length).
  rewrite (sumQ_map_ext _ (fun i => nth (r mod 3) (recon_A_rows order refined_order Xpts wv i
                                     (nth (r / 3) (knot_positions3D order) (0, 0, 0)%nat)) 0 *
                                   nth (vpn * i + j) ubar0 0)).
  2: { intros i Hi; apply in_seq in Hi.
       rewrite nth_column, nth_knot_rows by
         (auto; try lia; intros; try apply knot_block_length; intros; apply recon_A_rows_length).
       reflexivity. }
  assert (Hp : In (nth (r / 3) (knot_positions3D order) (0, 0, 0)%nat) (knot_positions3D order)).
  { apply nth_In; rewrite knot_positions3D_length; apply Nat.Div0.div_lt_upper_bound; lia. }
  assert (Hc : (r mod 3 < 3)%nat) by (apply Nat.mod_upper_bound; lia).
  specialize (Hd j _ (r mod 3) Hj Hp Hc); revert Hd.
  set (p := nth (r / 3) (knot_positions3D order) (0, 0, 0)%nat) in *; set (c := r mod 3) in *.
  clearbody p c.
  unfold recon_b_rows, recon_A_rows; destruct (recon_knot3D order refined_order Xpts p) as [[J Co] E].
  intros Hd; cbv zeta.
  rewrite (jmul_sum J (knot_weight wv p) (fun i => nth i (eNa3 E) 0) (fun i => nth i (eNb3 E) 0)
             (fun i => nth i (eNc3 E) 0) (fun i => nth (vpn * i + j) ubar0 0) _ c Hc).
  transitivity (knot_weight wv p * nth (3 * vpn * knot_index3D order p + 3 * j + c) uderiv 0 -
                knot_weight wv p * nth c (jmul J (ud_sum uvals vpn j (iNa Co) (order * order * order))
                                                 (ud_sum uvals vpn j (iNb Co) (order * order * order))
                                                 (ud_sum uvals vpn j (iNc Co) (order * order * order))) 0).
  - destruct c as [|[|[|c]]]; [rewrite Nat.add_0_r; reflexivity|reflexivity|reflexivity|lia].
  - rewrite Hd, !nth_jmul by exact Hc; unfold ud_sum; ring.
Qed.

(** (C5) Reproduction by the reconstruction (spec, testable property 1):
    when the prescribed nodal derivatives are those of a field in the
    enrichment-augmented space (the interpolated field plus the
    enrichment functions with coefficients [ubar0], differentiated through
    the Jacobian at every knot) and the assembled system has full column
    rank, every output [ubar] of [computeElemRecon3D] is [ubar0]: the
    right-hand side the loops assemble is [A ubar0] for the matrix they
    assemble, the solver returns [ubar0] in the columns of [b], and the
    copy loop hands it back in the layout [ubar[vars_per_node*i + j]]. *)
Theorem computeElemRecon3D_exact (vpn order refined_order : nat)
  (Xpts uvals uderiv uninit ubar ubar0 : list Q) :
  let nenrich := getNum3dEnrich order in
  let neq := (3 * order * order * order)%nat in
  full_column_rank neq nenrich (recon_A3D order refined_order Xpts (wvals3D order uninit)) ->
  length ubar0 = (nenrich * vpn)%nat ->
  reproduces vpn order refined_order Xpts uvals uderiv ubar0 ->
  computeElemRecon3D vpn order refined_order Xpts uvals uderiv uninit ubar ->
  ubar ==l ubar0.
Proof.
  intros nenrich neq Hr Hl Hd (b' & Hls & ->).
  apply copy_ubar_ext; [exact Hl|].
  exact (dgelss_exact neq nenrich vpn _ _ b' (fun j i => nth (vpn * i + j) ubar0 0) Hr
           (recon_b3D_range vpn order refined_order Xpts uvals uderiv _ ubar0 Hd) Hls).
Qed.

(** The order-2 unit cube [0,1]^3, its nodes given on the refined
    (order-3) element, with a zero nodal field and prescribed derivatives
    that the enrichment block [1..9] reproduces exactly. *)
Definition cube27 : list Q :=
  flat_map (fun p => let '(ii, jj, kk) := p in
                     [inject_Z (Z.of_nat ii) / 2; inject_Z (Z.of_nat jj) / 2;
                      inject_Z (Z.of_nat kk) / 2])
           (knot_positions3D 3).
Definition cube_A : list Q := recon_A3D 2 3 cube27 [1; 1].
Definition cube_ubar0 : list Q := [1; 2; 3; 4; 5; 6; 7; 8; 9].
Definition cube_uderiv : list Q :=
  map (fun r => matvec 24 9 cube_A (fun i => nth i cube_ubar0 0) r) (seq 0 24).
(** The columns of [cube_A] are orthogonal with squared norm 128. *)
Definition cube_L : list Q :=
  flat_map (fun r => map (fun i => nth (24 * i + r) cube_A 0 / 128) (seq 0 9)) (seq 0 24).

Lemma computeElemRecon3D_exact_witness :
  full_column_rank 24 9 cube_A /\
  length cube_ubar0 = (9 * 1)%nat /\
  reproduces 1 2 3 cube27 (repeat 0 8) cube_uderiv cube_ubar0 /\
  computeElemRecon3D 1 2 3 cube27 (repeat 0 8) cube_uderiv []
    (copy_ubar 24 9 1 (cube_ubar0 ++ repeat 0 15)) /\
  copy_ubar 24 9 1 (cube_ubar0 ++ repeat 0 15) ==l cube_ubar0.
Proof.
  assert (Hr : full_column_rank 24 9 cube_A)
    by (apply (left_inverse_rank _ _ _ cube_L); vm_compute; reflexivity).
  assert (Hd : reproduces 1 2 3 cube27 (repeat 0 8) cube_uderiv cube_ubar0)
    by (apply reproducesb_spec; vm_compute; reflexivity).
  assert (Hrel : computeElemRecon3D 1 2 3 cube27 (repeat 0 8) cube_uderiv []
                   (copy_ubar 24 9 1 (cube_ubar0 ++ repeat 0 15))).
  { exists (cube_ubar0 ++ repeat 0 15); split; [|reflexivity].
    apply (dgelss_exact_sol _ _ _ _ _ _ (fun j i => nth (1 * i + j) cube_ubar0 0) Hr
             (recon_b3D_range 1 2 3 cube27 (repeat 0 8) cube_uderiv [1; 1] cube_ubar0 Hd)).
    intros j i Hj Hi; assert (j = 0%nat) as -> by lia.
    rewrite app_nth1 by (simpl; lia); rewrite Nat.mul_0_r, Nat.mul_1_l, !Nat.add_0_r.
    reflexivity. }
  split; [exact Hr|]; split; [reflexivity|]; split; [exact Hd|]; split; [exact Hrel|].
  exact (computeElemRecon3D_exact 1 2 3 cube27 (repeat 0 8) cube_uderiv [] _ cube_ubar0
           Hr eq_refl Hd Hrel).
Defined.

End ReconFacts.
