(* ===== verification/Refine.v ===== *)
(** * C5: the refined-field builder

    [Refine] models [addRefinedSolution3D] (src/src/TMRGeometry.c, lines
    2004-2197) and [TMR_ComputeReconSolution] for octree forests (lines
    2595-2735).  For every element of the given list, the builder reads
    the element's nodal values and nodal derivatives, asks the patch
    reconstruction for the enrichment block [ubar], evaluates at every
    knot of the refined element the coarse interpolant plus the enrichment
    (or the enrichment alone when [compute_difference] is set), zeros the
    blocks of dependent refined slots, and adds the element array [uref]
    into the refined vector.  [TMR_ComputeReconSolution] runs weights,
    nodal derivatives and the builder once per volume name, then divides
    every refined node by the number of refined element slots referencing
    it.

    The reconstruction is a parameter [recon] (the array [ubar] that
    [computeElemRecon3D] writes): the theorems assume it meets the
    relation [Recon.computeElemRecon3D] on the inputs it is given.

    The element array [uref] is allocated with [vars_per_node*order^3]
    entries but [vars_per_node*refined_order^3] are written; the model
    carries the allocation size [cap] and fails ([None]) when the writes
    do not fit.  [uref_alloc] is the source's size; the functional
    theorems are stated for the size [vars_per_node*refined_order^3]
    that the writes need. *)

From Stdlib Require Import PeanoNat ZArith QArith Qring Qfield List Lia Lqa.
From S2P Require Import Prelude LeastSquares Enrichment Interp NodeVec NodeDeriv Recon.
Import ListNotations.
Open Scope Q_scope.
Open Scope tmr_scope.

Module Refine.
Import Enrich Forest BVec Weights NodeDeriv Recon.

(** [Nr]: the enrichment values at a refined knot, for orders 2 and 3
    (for other orders [nenrich = 0] and [Nr] is never read). *)
Definition enrich3D_vals (order : nat) (pt : Q * Q * Q) : list Q :=
  if Nat.eqb order 2 then eval2ndEnrichmentFuncs3D pt
  else if Nat.eqb order 3 then eval3rdEnrichmentFuncs3D pt
  else [].

(** The block [u[0..vars_per_node)] at the refined knot [pt]:
    [u[i] = sum_k N[k]*uelem[vpn*k + i] + sum_k Nr[k]*ubar[vpn*k + i]],
    without the first sum when [compute_difference] is set. *)
Definition refined_node_vals (order vpn : nat) (uelem ubar : list Q)
  (compute_difference : bool) (pt : Q * Q * Q) : list Q :=
  let N := evalInterp3D (getInterpKnots order) pt in
  let Nr := enrich3D_vals order pt in
  let nenrich := getNum3dEnrich order in
  map (fun i =>
         (if compute_difference then 0
          else sumQ (map (fun k => nth k N 0 * nth (vpn * k + i) uelem 0)
                         (seq 0 (order * order * order))))
         + sumQ (map (fun k => nth k Nr 0 * nth (vpn * k + i) ubar 0) (seq 0 nenrich)))
      (seq 0 vpn).

(** The loops over the refined knots [(n, m, p)], [p] outermost. *)
Definition uref_elem (order rorder vpn : nat) (uelem ubar : list Q)
  (compute_difference : bool) : list Q :=
  let rknots := getInterpKnots rorder in
  flat_map (fun q => let '(n, m, p) := q in
                     refined_node_vals order vpn uelem ubar compute_difference
                       (nth n rknots 0, nth m rknots 0, nth p rknots 0))
           (knot_positions3D rorder).

(** "Zero the contribution if it goes to a dependent node". *)
Definition mask_dependent (rorder vpn : nat) (refined_nodes : list Z) (uref : list Q)
  : list Q :=
  flat_map (fun i => if (nth i refined_nodes 0%Z <? 0)%Z then repeat 0 vpn
                     else block vpn i uref)
           (seq 0 (rorder * rorder * rorder)).

(** [uref = new TacsScalar[vars_per_node*order*order*order]] *)
Definition uref_alloc (order vpn : nat) : nat := (vpn * (order * order * order))%nat.

(** The element's writes into an allocation of [cap] entries: they fit
    or the element faults. *)
Definition store_uref (cap : nat) (uref : list Q) : option (list Q) :=
  if Nat.leb (length uref) cap then Some uref else None.

(** One pass of the element loop of [addRefinedSolution3D]. *)
Definition refine_elem (cap : nat) (deps deps_ref : dep_table) (order rorder vpn : nat)
  (recon : list Q -> list Q -> list Q -> list Q) (conn rconn : list (list Z))
  (rXpts_of : list (list Q)) (vec vecDeriv : bvec) (compute_difference : bool)
  (acc : bvec) (e : nat) : option bvec :=
  let nodes := nth e conn [] in
  let uelem := getValues deps vec nodes in
  let delem := getValues deps vecDeriv nodes in
  let ubar := recon (nth e rXpts_of []) uelem delem in
  let refined_nodes := nth e rconn [] in
  match store_uref cap (uref_elem order rorder vpn uelem ubar compute_difference) with
  | None => None
  | Some uref => Some (setValues_add deps_ref acc refined_nodes
                                     (mask_dependent rorder vpn refined_nodes uref))
  end.

(** [addRefinedSolution3D(forest, tacs, refined_forest, refined_tacs, vec,
    vecDeriv, vec_refined, compute_difference, element_nums,
    num_elements)] with an element array of [cap] entries. *)
Definition addRefinedSolution3D_alloc (cap : nat) (deps deps_ref : dep_table)
  (order rorder vpn : nat) (recon : list Q -> list Q -> list Q -> list Q)
  (conn rconn : list (list Z)) (rXpts_of : list (list Q))
  (vec vecDeriv vec_refined : bvec) (compute_difference : bool)
  (element_nums : option (list nat)) : option bvec :=
  let elems := match element_nums with None => seq 0 (length conn) | Some l => l end in
  fold_left (fun acc e => match acc with
                          | None => None
                          | Some v => refine_elem cap deps deps_ref order rorder vpn recon
                                        conn rconn rXpts_of vec vecDeriv compute_difference v e
                          end) elems (Some vec_refined).

(** The source, with its allocation. *)
Definition addRefinedSolution3D (deps deps_ref : dep_table) (order rorder vpn : nat)
  (recon : list Q -> list Q -> list Q -> list Q) (conn rconn : list (list Z))
  (rXpts_of : list (list Q)) (vec vecDeriv vec_refined : bvec)
  (compute_difference : bool) (element_nums : option (list nat)) : option bvec :=
  addRefinedSolution3D_alloc (uref_alloc order vpn) deps deps_ref order rorder vpn recon
    conn rconn rXpts_of vec vecDeriv vec_refined compute_difference element_nums.

(** The final pass: [u[j] *= 1/w[i]] for the [size] local nodes. *)
Definition normalize_refined (u w : bvec) (size : nat) : bvec :=
  mkBVec (bsize u) (fun n j => if Nat.ltb n size && Nat.ltb j (bsize u)
                               then val u n j * / val w n 0 else val u n j).

(** One volume name of [TMR_ComputeReconSolution]: the nodal weights and
    derivatives over the elements [g] of the volume, then the refined
    contributions of those elements, carried as (weights, uderiv,
    uvec_refined). *)
Definition recon_volume_step (cap : nat) (deps deps_ref : dep_table) (order rorder vpn : nat)
  (recon : list Q -> list Q -> list Q -> list Q) (conn : list (list Z))
  (Xpts_of : list (list Q)) (rconn : list (list Z)) (rXpts_of : list (list Q))
  (uvec : bvec) (compute_difference : bool)
  (st : option (bvec * bvec * bvec)) (g : list nat) : option (bvec * bvec * bvec) :=
  match st with
  | None => None
  | Some (w, ud, ur) =>
      let w' := computeLocalWeights deps conn (Some g) w in
      let ud' := computeNodeDeriv3D deps order vpn conn Xpts_of uvec w' ud (Some g) in
      match addRefinedSolution3D_alloc cap deps deps_ref order rorder vpn recon conn rconn
              rXpts_of uvec ud' ur compute_difference (Some g) with
      | None => None
      | Some ur' => Some (w', ud', ur')
      end
  end.

(** [TMR_ComputeReconSolution(forest, tacs, forest_refined, tacs_refined,
    uvec, uvec_refined, compute_difference)] for octrees: [groups] lists,
    in the order of the set of volume names, the elements
    [getOctsWithName] returns for each name; [size] is the number of
    local refined nodes. *)
Definition TMR_ComputeReconSolution3D_alloc (cap : nat) (deps deps_ref : dep_table)
  (order rorder vpn : nat) (recon : list Q -> list Q -> list Q -> list Q)
  (conn : list (list Z)) (Xpts_of : list (list Q)) (rconn : list (list Z))
  (rXpts_of : list (list Q)) (groups : list (list nat))
  (uvec uvec_refined uderiv weights weights_refined : bvec) (size : nat)
  (compute_difference : bool) : option bvec :=
  match fold_left (recon_volume_step cap deps deps_ref order rorder vpn recon conn Xpts_of
                     rconn rXpts_of uvec compute_difference)
                  groups (Some (weights, uderiv, zeroEntries uvec_refined)) with
  | None => None
  | Some (_, _, ur) =>
      Some (normalize_refined ur (computeLocalWeights deps_ref rconn None weights_refined) size)
  end.

Definition TMR_ComputeReconSolution3D (deps deps_ref : dep_table) (order rorder vpn : nat)
  (recon : list Q -> list Q -> list Q -> list Q) (conn : list (list Z))
  (Xpts_of : list (list Q)) (rconn : list (list Z)) (rXpts_of : list (list Q))
  (groups : list (list nat)) (uvec uvec_refined uderiv weights weights_refined : bvec)
  (size : nat) (compute_difference : bool) : option bvec :=
  TMR_ComputeReconSolution3D_alloc (uref_alloc order vpn) deps deps_ref order rorder vpn
    recon conn Xpts_of rconn rXpts_of groups uvec uvec_refined uderiv weights
    weights_refined size compute_difference.

End Refine.

Module RefineFacts.
Import Lapack LapackFacts Enrich Forest BVec BVecFacts Weights WeightsFacts NodeDeriv
       NodeDerivFacts InterpFacts Recon ReconFacts Refine.

Lemma refined_node_vals_length order vpn uelem ubar cd pt :
  length (refined_node_vals order vpn uelem ubar cd pt) = vpn.
Proof. unfold refined_node_vals; rewrite length_map, length_seq; reflexivity. Qed.

Lemma uref_elem_length order rorder vpn uelem ubar cd :
  length (uref_elem order rorder vpn uelem ubar cd) = (vpn * (rorder * rorder * rorder))%nat.
Proof.
  unfold uref_elem; rewrite (length_flat_map_const _ _ vpn), knot_positions3D_length;
    [reflexivity|].
  intros [[n m] p] _; apply refined_node_vals_length.
Qed.

(** Once an element faults, the element loop stays faulted. *)
Lemma fold_option_none {A} (f : A -> nat -> option A) (l : list nat) :
  fold_left (fun acc e => match acc with None => None | Some v => f v e end) l None = None.
Proof. induction l; simpl; auto. Qed.

(** With room for [vars_per_node*refined_order^3] entries, no element
    faults and the builder is the plain fold of its element steps. *)
Lemma addRefinedSolution3D_alloc_ok cap deps deps_ref order rorder vpn recon conn rconn
  rXpts_of vec vecDeriv vec_refined cd (elems : list nat) :
  (vpn * (rorder * rorder * rorder) <= cap)%nat ->
  fold_left (fun acc e => match acc with
                          | None => None
                          | Some v => refine_elem cap deps deps_ref order rorder vpn recon
                                        conn rconn rXpts_of vec vecDeriv cd v e
                          end) elems (Some vec_refined) =
  Some (fold_left (fun acc e =>
          let nodes := nth e conn [] in
          let uelem := getValues deps vec nodes in
          let ubar := recon (nth e rXpts_of []) uelem (getValues deps vecDeriv nodes) in
          setValues_add deps_ref acc (nth e rconn [])
            (mask_dependent rorder vpn (nth e rconn []) (uref_elem order rorder vpn uelem ubar cd)))
          elems vec_refined).
Proof.
  intros Hcap; revert vec_refined; induction elems as [|e l IH]; intros v; [reflexivity|].
  cbn [fold_left]; rewrite <- IH; f_equal.
  unfold refine_elem, store_uref; rewrite uref_elem_length.
  destruct (Nat.leb_spec (vpn * (rorder * rorder * rorder)) cap); [reflexivity|lia].
Qed.

Lemma refine_elem_overflow cap deps deps_ref order rorder vpn recon conn rconn rXpts_of
  vec vecDeriv cd v e :
  (cap < vpn * (rorder * rorder * rorder))%nat ->
  refine_elem cap deps deps_ref order rorder vpn recon conn rconn rXpts_of vec vecDeriv cd v e
  = None.
Proof.
  intros H; unfold refine_elem, store_uref; cbv zeta; rewrite uref_elem_length.
  destruct (Nat.leb_spec (vpn * (rorder * rorder * rorder)) cap); [lia|reflexivity].
Qed.

(** (C3) Buffer overflow in [addRefinedSolution3D]: the element array
    [uref] is allocated with [vars_per_node*order^3] entries while the
    element writes [vars_per_node*refined_order^3] of them; as soon as the
    refined order exceeds the order (the order elevation the refined-field
    builder exists for) and there is a variable and an element, the first
    element already writes past the allocation. *)
Theorem addRefinedSolution3D_overflow deps deps_ref order rorder vpn recon conn rconn
  rXpts_of vec vecDeriv vec_refined cd (en : option (list nat)) :
  (0 < vpn)%nat -> (order < rorder)%nat ->
  match en with None => seq 0 (length conn) | Some l => l end <> [] ->
  addRefinedSolution3D deps deps_ref order rorder vpn recon conn rconn rXpts_of
    vec vecDeriv vec_refined cd en = None.
Proof.
  intros Hv Ho Hne; unfold addRefinedSolution3D, addRefinedSolution3D_alloc; cbv zeta.
  destruct (match en with None => seq 0 (length conn) | Some l => l end) as [|e l];
    [congruence|].
  assert (H2 : (order * order < rorder * rorder)%nat) by nia.
  assert (H3 : (order * order * order < rorder * rorder * rorder)%nat) by nia.
  cbn [fold_left]; rewrite refine_elem_overflow by (unfold uref_alloc; nia).
  apply fold_option_none.
Qed.

Lemma addRefinedSolution3D_overflow_witness :
  (0 < 1)%nat /\ (2 < 3)%nat /\ seq 0 (length [[0; 1; 2; 3; 4; 5; 6; 7]%Z]) <> [] /\
  addRefinedSolution3D [] [] 2 3 1 (fun _ _ _ => []) [[0; 1; 2; 3; 4; 5; 6; 7]%Z] [] []
    (mkBVec 1 (fun _ _ => 0)) (mkBVec 3 (fun _ _ => 0)) (mkBVec 1 (fun _ _ => 0)) false None
  = None.
Proof.
  split; [lia|]; split; [lia|]; split; [discriminate|].
  apply (addRefinedSolution3D_overflow [] [] 2 3 1 (fun _ _ _ => [])
           [[0; 1; 2; 3; 4; 5; 6; 7]%Z] [] [] (mkBVec 1 (fun _ _ => 0))
           (mkBVec 3 (fun _ _ => 0)) (mkBVec 1 (fun _ _ => 0)) false None);
    [lia|lia|discriminate].
Defined.

(** ** A field constant per component through the whole pipeline *)

Lemma refined_node_vals_const order vpn uelem ubar cd pt (a : nat -> Q) :
  (2 <= order <= 6)%nat ->
  (forall i k, (i < order * order * order)%nat -> (k < vpn)%nat ->
     nth (vpn * i + k) uelem 0 == a k) ->
  (forall r, nth r ubar 0 == 0) ->
  refined_node_vals order vpn uelem ubar cd pt ==l
  map (fun i => if cd then 0 else a i) (seq 0 vpn).
Proof.
  intros Ho Hu Hb.
  destruct (evalInterp3D_unity order pt Ho) as (U & _).
  destruct (evalInterp3D_deriv_length order pt Ho) as (L & _).
  destruct pt as [[x y] z]; cbn [evalInterp3D_deriv iN] in U, L.
  unfold refined_node_vals; cbv zeta; apply map_eqlistQ; intros i Hi; apply in_seq in Hi.
  rewrite (sumQ_map_zero (fun k => nth k (enrich3D_vals order (x, y, z)) 0 * nth (vpn * k + i) ubar 0))
    by (intros; rewrite Hb; ring).
  destruct cd; [ring|].
  rewrite (sumQ_map_ext _ (fun k => a i * nth k (evalInterp3D (getInterpKnots order) (x, y, z)) 0))
    by (intros k Hk; apply in_seq in Hk; rewrite Hu by lia; ring).
  rewrite sumQ_map_scale, <- L, sumQ_nth_seq, U; ring.
Qed.

Lemma uref_elem_const order rorder vpn uelem ubar cd (a : nat -> Q) q i :
  (2 <= order <= 6)%nat ->
  (forall i k, (i < order * order * order)%nat -> (k < vpn)%nat ->
     nth (vpn * i + k) uelem 0 == a k) ->
  (forall r, nth r ubar 0 == 0) ->
  (q < rorder * rorder * rorder)%nat -> (i < vpn)%nat ->
  nth (vpn * q + i) (uref_elem order rorder vpn uelem ubar cd) 0 == if cd then 0 else a i.
Proof.
  intros Ho Hu Hb Hq Hi; unfold uref_elem.
  rewrite (nth_flat_map_block _ _ vpn q i (0, 0, 0)%nat);
    [| intros [[n m] p] _; apply refined_node_vals_length
     | rewrite knot_positions3D_length; lia | lia].
  destruct (nth q (knot_positions3D rorder) (0, 0, 0)%nat) as [[n m] p].
  rewrite (nth_eqlistQ _ _ i (refined_node_vals_const order vpn uelem ubar cd _ a Ho Hu Hb)).
  rewrite (nth_map_lt _ _ _ 0%nat) by (rewrite length_seq; lia).
  rewrite seq_nth by lia; reflexivity.
Qed.

Lemma mask_slot rorder vpn (rnodes : list Z) (uref : list Q) k j :
  (k < rorder * rorder * rorder)%nat -> (j < vpn)%nat ->
  length uref = (vpn * (rorder * rorder * rorder))%nat ->
  nth (vpn * k + j) (mask_dependent rorder vpn rnodes uref) 0 =
  if (nth k rnodes 0%Z <? 0)%Z then 0 else nth (vpn * k + j) uref 0.
Proof.
  intros Hk Hj Hl; unfold mask_dependent.
  rewrite (nth_flat_map_block _ _ vpn k j 0%nat); [| | rewrite length_seq; lia | lia].
  - rewrite seq_nth by lia; destruct (_ <? 0)%Z; [apply nth_repeat|apply block_nth, Hj].
  - intros i Hi; apply in_seq in Hi; destruct (_ <? 0)%Z; [apply repeat_length|].
    unfold block; rewrite length_firstn, length_skipn; nia.
Qed.

(** One element adds, to node [m], its number of slots naming [m] times
    the constant (or zero for the difference field). *)
Lemma refine_step_const deps_ref order rorder vpn (rnodes : list Z) uelem ubar cd
  (a : nat -> Q) (v : bvec) m j :
  (2 <= order <= 6)%nat ->
  (forall i k, (i < order * order * order)%nat -> (k < vpn)%nat ->
     nth (vpn * i + k) uelem 0 == a k) ->
  (forall r, nth r ubar 0 == 0) ->
  bsize v = vpn -> length rnodes = (rorder * rorder * rorder)%nat -> (j < vpn)%nat ->
  val (setValues_add deps_ref v rnodes
         (mask_dependent rorder vpn rnodes (uref_elem order rorder vpn uelem ubar cd))) m j ==
  val v m j + inject_Z (Z.of_nat (length (filter (fun n => Z.eqb n (Z.of_nat m)) rnodes)))
              * (if cd then 0 else a j).
Proof.
  intros Ho Hu Hb Hv Hl Hj; rewrite setValues_add_val by lia; rewrite Hv.
  rewrite (sumQ_slots_count rnodes m _ (if cd then 0 else a j)); [reflexivity|].
  intros k Hk; rewrite mask_slot by (try rewrite uref_elem_length; lia).
  unfold slot_weight; destruct (Z.ltb_spec (nth k rnodes 0%Z) 0) as [Hn|Hn],
    (Z.leb_spec 0 (nth k rnodes 0%Z)); try lia.
  - destruct (Z.eqb_spec (nth k rnodes 0%Z) (Z.of_nat m)); [lia|ring].
  - rewrite uref_elem_const by (auto; lia).
    destruct (Nat.eqb_spec (Z.to_nat (nth k rnodes 0%Z)) m),
      (Z.eqb_spec (nth k rnodes 0%Z) (Z.of_nat m)); try lia; ring.
Qed.

Lemma refine_fold_const deps deps_ref order rorder vpn
  (recon : list Q -> list Q -> list Q -> list Q) (conn rconn : list (list Z))
  (rXpts_of : list (list Q)) (vec vecDeriv : bvec) cd (a : nat -> Q) (elems : list nat) (v : bvec) m j :
  (2 <= order <= 6)%nat -> bsize v = vpn -> (j < vpn)%nat ->
  (forall e, In e elems ->
     length (nth e rconn []) = (rorder * rorder * rorder)%nat /\
     (forall i k, (i < order * order * order)%nat -> (k < vpn)%nat ->
        nth (vpn * i + k) (getValues deps vec (nth e conn [])) 0 == a k) /\
     (forall r, nth r (recon (nth e rXpts_of []) (getValues deps vec (nth e conn []))
                         (getValues deps vecDeriv (nth e conn []))) 0 == 0)) ->
  val (fold_left (fun acc e =>
          let nodes := nth e conn [] in
          let uelem := getValues deps vec nodes in
          let ubar := recon (nth e rXpts_of []) uelem (getValues deps vecDeriv nodes) in
          setValues_add deps_ref acc (nth e rconn [])
            (mask_dependent rorder vpn (nth e rconn []) (uref_elem order rorder vpn uelem ubar cd)))
          elems v) m j ==
  val v m j + inject_Z (Z.of_nat (count_refs rconn elems m)) * (if cd then 0 else a j).
Proof.
  intros Ho Hv Hj; unfold count_refs; revert v Hv.
  induction elems as [|e l IH]; intros v Hv He; cbn [fold_left flat_map];
    [cbn [filter length Z.of_nat inject_Z]; ring|].
  destruct (He e (or_introl eq_refl)) as (Hl & Hu & Hb).
  rewrite IH by (try rewrite setValues_add_bsize; auto; intros; apply He; right; auto).
  cbv zeta.
  rewrite (refine_step_const deps_ref order rorder vpn (nth e rconn [])
             (getValues deps vec (nth e conn []))
             (recon (nth e rXpts_of []) (getValues deps vec (nth e conn []))
                (getValues deps vecDeriv (nth e conn []))) cd a v m j Ho Hu Hb Hv Hl Hj).
  rewrite filter_app, length_app, Nat2Z.inj_add, inject_Z_plus; ring.
Qed.

Lemma refine_fold_bsize deps deps_ref order rorder vpn
  (recon : list Q -> list Q -> list Q -> list Q) (conn rconn : list (list Z))
  (rXpts_of : list (list Q)) (vec vecDeriv : bvec) cd (elems : list nat) (v : bvec) :
  bsize (fold_left (fun acc e =>
          let nodes := nth e conn [] in
          let uelem := getValues deps vec nodes in
          let ubar := recon (nth e rXpts_of []) uelem (getValues deps vecDeriv nodes) in
          setValues_add deps_ref acc (nth e rconn [])
            (mask_dependent rorder vpn (nth e rconn []) (uref_elem order rorder vpn uelem ubar cd)))
          elems v) = bsize v.
Proof.
  revert v; induction elems as [|e l IH]; intros v; [reflexivity|].
  cbn [fold_left]; rewrite IH; apply setValues_add_bsize.
Qed.

Lemma computeNodeDeriv3D_bsize deps order vpn (conn : list (list Z)) (Xpts_of : list (list Q))
  uvec weights (uderiv : bvec) (en : option (list nat)) :
  bsize (computeNodeDeriv3D deps order vpn conn Xpts_of uvec weights uderiv en) = bsize uderiv.
Proof.
  unfold computeNodeDeriv3D; cbv zeta; rewrite (fold_setValues_add_bsize deps (fun e => nth e conn []));
    reflexivity.
Qed.

(** A volume whose elements fit in [cap] never faults. *)
Lemma recon_volume_step_some cap deps deps_ref order rorder vpn
  (recon : list Q -> list Q -> list Q -> list Q) (conn : list (list Z))
  (Xpts_of : list (list Q)) (rconn : list (list Z)) (rXpts_of : list (list Q))
  uvec cd (w ud ur : bvec) (g : list nat) :
  (vpn * (rorder * rorder * rorder) <= cap)%nat ->
  recon_volume_step cap deps deps_ref order rorder vpn recon conn Xpts_of rconn rXpts_of uvec cd
    (Some (w, ud, ur)) g =
  let w' := computeLocalWeights deps conn (Some g) w in
  let ud' := computeNodeDeriv3D deps order vpn conn Xpts_of uvec w' ud (Some g) in
  Some (w', ud',
        fold_left (fun acc e =>
          let nodes := nth e conn [] in
          let uelem := getValues deps uvec nodes in
          let ubar := recon (nth e rXpts_of []) uelem (getValues deps ud' nodes) in
          setValues_add deps_ref acc (nth e rconn [])
            (mask_dependent rorder vpn (nth e rconn []) (uref_elem order rorder vpn uelem ubar cd)))
          g ur).
Proof.
  intros Hcap; unfold recon_volume_step, addRefinedSolution3D_alloc; cbv zeta.
  rewrite addRefinedSolution3D_alloc_ok by exact Hcap; reflexivity.
Qed.

Section ConstantField.
Context (deps deps_ref : dep_table) (order rorder vpn : nat)
        (recon : list Q -> list Q -> list Q -> list Q) (conn : list (list Z))
        (Xpts_of : list (list Q)) (rconn : list (list Z)) (rXpts_of : list (list Q))
        (uvec : bvec) (cd : bool) (uninit : list Q) (a : nat -> Q).
Hypothesis Ho : (2 <= order <= 6)%nat.
(** The reconstruction meets the least-squares contract whenever the
    right-hand side it assembles vanishes. *)
Hypothesis Hrec : forall X u d,
  Forall (fun q => q == 0) (recon_b3D order rorder vpn X u d (wvals3D order uninit)) ->
  computeElemRecon3D vpn order rorder X u d uninit (recon X u d).

(** An element of a volume: a refined element of [refined_order^3] nodes
    and a coarse field it reads as the constant [a]. *)
Definition const_elem (e : nat) : Prop :=
  length (nth e rconn []) = (rorder * rorder * rorder)%nat /\
  forall i k, (i < order * order * order)%nat -> (k < vpn)%nat ->
    nth (vpn * i + k) (getValues deps uvec (nth e conn [])) 0 == a k.

(** Within one volume the nodal derivatives vanish, so the reconstruction
    returns a zero enrichment block. *)
Lemma volume_recon_zero (g : list nat) (w ud : bvec) e r :
  bsize ud = (3 * vpn)%nat -> (forall e, In e g -> const_elem e) -> In e g ->
  nth r (recon (nth e rXpts_of []) (getValues deps uvec (nth e conn []))
            (getValues deps (computeNodeDeriv3D deps order vpn conn Xpts_of uvec
                               (computeLocalWeights deps conn (Some g) w) ud (Some g))
                       (nth e conn []))) 0 == 0.
Proof.
  intros Hb Hg He.
  set (ud' := computeNodeDeriv3D deps order vpn conn Xpts_of uvec
                (computeLocalWeights deps conn (Some g) w) ud (Some g)).
  assert (Hz : Forall (fun q => q == 0) (getValues deps ud' (nth e conn []))).
  { apply getValues_zero; intros n c Hc.
    apply (computeNodeDeriv3D_const deps order vpn conn Xpts_of uvec _ ud (Some g) a Ho);
      [intros e' He'; apply (Hg e' He')|].
    unfold ud' in Hc; rewrite computeNodeDeriv3D_bsize in Hc; exact Hc. }
  pose proof (Hrec (nth e rXpts_of []) (getValues deps uvec (nth e conn []))
                (getValues deps ud' (nth e conn [])) ) as Hr.
  pose proof (computeElemRecon3D_zero_rhs vpn order rorder _ _ _ uninit _
                (recon_b3D_const _ _ _ _ _ _ _ a Ho (proj2 (Hg e He))
                   (fun r _ => Forall_zero_nth _ r Hz))
                (Hr (recon_b3D_const _ _ _ _ _ _ _ a Ho (proj2 (Hg e He))
                       (fun r _ => Forall_zero_nth _ r Hz)))) as H0.
  rewrite (nth_eqlistQ _ _ r H0), nth_repeat; reflexivity.
Qed.

Lemma recon_volumes_const cap (groups : list (list nat)) (w ud ur : bvec) m j :
  (vpn * (rorder * rorder * rorder) <= cap)%nat ->
  bsize ud = (3 * vpn)%nat -> bsize ur = vpn -> (j < vpn)%nat ->
  (forall g e, In g groups -> In e g -> const_elem e) ->
  exists w' ud' ur',
    fold_left (recon_volume_step cap deps deps_ref order rorder vpn recon conn Xpts_of rconn
                 rXpts_of uvec cd) groups (Some (w, ud, ur)) = Some (w', ud', ur') /\
    bsize ur' = vpn /\
    val ur' m j == val ur m j + inject_Z (Z.of_nat (count_refs rconn (concat groups) m))
                               * (if cd then 0 else a j).
Proof.
  intros Hcap; revert w ud ur.
  induction groups as [|g gs IH]; intros w ud ur Hud Hur Hj Hg.
  - exists w, ud, ur; split; [reflexivity|]; split; [exact Hur|].
    cbn [concat count_refs flat_map filter length Z.of_nat inject_Z]; ring.
  - cbn [fold_left]; rewrite recon_volume_step_some by exact Hcap; cbv zeta.
    destruct (IH (computeLocalWeights deps conn (Some g) w)
                 (computeNodeDeriv3D deps order vpn conn Xpts_of uvec
                    (computeLocalWeights deps conn (Some g) w) ud (Some g))
                 (fold_left (fun acc e =>
                    setValues_add deps_ref acc (nth e rconn [])
                      (mask_dependent rorder vpn (nth e rconn [])
                        (uref_elem order rorder vpn (getValues deps uvec (nth e conn []))
                           (recon (nth e rXpts_of []) (getValues deps uvec (nth e conn []))
                              (getValues deps (computeNodeDeriv3D deps order vpn conn Xpts_of
                                   uvec (computeLocalWeights deps conn (Some g) w) ud (Some g))
                                 (nth e conn []))) cd))) g ur))
      as (w' & ud' & ur' & Hf & Hb' & Hv).
    + rewrite computeNodeDeriv3D_bsize; exact Hud.
    + etransitivity; [apply (refine_fold_bsize deps deps_ref order rorder vpn recon conn rconn
                              rXpts_of uvec _ cd g ur)|exact Hur].
    + exact Hj.
    + intros g' e Hg' He; exact (Hg g' e (or_intror Hg') He).
    + exists w', ud', ur'; split; [exact Hf|]; split; [exact Hb'|].
      rewrite Hv.
      rewrite (refine_fold_const deps deps_ref order rorder vpn recon conn rconn rXpts_of uvec
                 _ cd a g ur m j Ho Hur Hj).
      * unfold count_refs; cbn [concat]; rewrite flat_map_app, filter_app, length_app,
          Nat2Z.inj_add, inject_Z_plus; ring.
      * intros e He; destruct (Hg g e (or_introl eq_refl) He) as [Hl Hu].
        split; [exact Hl|]; split; [exact Hu|].
        intros r; apply (volume_recon_zero g w ud e r Hud
                           (fun e' He' => Hg g e' (or_introl eq_refl) He') He).
Qed.

(** (C2) Constant fields through the reconstruction pipeline (spec,
    testable property 3 and the averaging of section 4.5): with an
    element array large enough for the refined element, a reconstruction
    that meets the least-squares contract, and a coarse field that every
    element of every volume reads as the constant [a], the refined field
    [TMR_ComputeReconSolution] builds equals [a] at every local refined
    node referenced by an element slot (the difference field equals
    zero), provided the volumes list each element referencing the node
    once. *)
Theorem TMR_ComputeReconSolution3D_const (groups : list (list nat))
  (uvec_refined uderiv weights weights_refined : bvec) (size m j : nat) :
  bsize uvec_refined = vpn -> bsize uderiv = (3 * vpn)%nat -> bsize weights_refined = 1%nat ->
  (forall g e, In g groups -> In e g -> const_elem e) ->
  count_refs rconn (concat groups) m = count_refs rconn (seq 0 (length rconn)) m ->
  (0 < count_refs rconn (seq 0 (length rconn)) m)%nat ->
  (m < size)%nat -> (j < vpn)%nat ->
  exists u,
    TMR_ComputeReconSolution3D_alloc (vpn * (rorder * rorder * rorder)) deps deps_ref order
      rorder vpn recon conn Xpts_of rconn rXpts_of groups uvec uvec_refined uderiv weights
      weights_refined size cd = Some u /\
    val u m j == if cd then 0 else a j.
Proof.
  intros Hur Hud Hwr Hg Hcnt Hpos Hm Hj; unfold TMR_ComputeReconSolution3D_alloc.
  destruct (recon_volumes_const _ groups weights uderiv (zeroEntries uvec_refined) m j
              (le_n _) Hud Hur Hj Hg) as (w' & ud' & ur' & Hf & Hb & Hv).
  rewrite Hf; eexists; split; [reflexivity|].
  unfold normalize_refined; cbn [val bsize]; rewrite Hb.
  destruct (Nat.ltb_spec m size); [|lia]; destruct (Nat.ltb_spec j vpn); [|lia]; cbn [andb].
  change (computeLocalWeights deps_ref rconn None weights_refined) with
    (fold_left (fun acc e => let nodes := nth e rconn [] in
                             setValues_add deps_ref acc nodes (elem_unit_weights nodes))
               (seq 0 (length rconn)) (zeroEntries weights_refined)).
  rewrite Hv, weights_fold by exact Hwr; cbn [val zeroEntries]; rewrite Hcnt.
  assert (Hz : ~ inject_Z (Z.of_nat (count_refs rconn (seq 0 (length rconn)) m)) == 0)
    by (intros Hq; apply (proj1 (inject_Z_injective _ 0%Z)) in Hq; lia).
  rewrite !Qplus_0_l; field; exact Hz.
Qed.

End ConstantField.

(** One order-2 element refined to order 3, carrying the constant 5. *)
Definition one_rconn : list (list Z) := [map Z.of_nat (seq 0 27)].

Lemma TMR_ComputeReconSolution3D_const_witness :
  (2 <= 2 <= 6)%nat /\
  (forall X u d,
     Forall (fun q => q == 0) (recon_b3D 2 3 1 X u d (wvals3D 2 [])) ->
     computeElemRecon3D 1 2 3 X u d [] ((fun _ _ _ => repeat 0 9) X u d)) /\
  bsize (mkBVec 1 (fun _ _ => 0)) = 1%nat /\ bsize (mkBVec 3 (fun _ _ => 0)) = (3 * 1)%nat /\
  bsize (mkBVec 1 (fun _ _ => 0)) = 1%nat /\
  (forall g e, In g [[0%nat]] -> In e g ->
     const_elem [] 2 3 1 cube_conn one_rconn (mkBVec 1 (fun _ _ => 5)) (fun _ => 5) e) /\
  count_refs one_rconn (concat [[0%nat]]) 13 = count_refs one_rconn (seq 0 (length one_rconn)) 13 /\
  (0 < count_refs one_rconn (seq 0 (length one_rconn)) 13)%nat /\ (13 < 27)%nat /\ (0 < 1)%nat /\
  exists u,
    TMR_ComputeReconSolution3D_alloc (1 * (3 * 3 * 3)) [] [] 2 3 1 (fun _ _ _ => repeat 0 9)
      cube_conn [cube_Xpts] one_rconn [cube27] [[0%nat]] (mkBVec 1 (fun _ _ => 5))
      (mkBVec 1 (fun _ _ => 0)) (mkBVec 3 (fun _ _ => 0)) (mkBVec 1 (fun _ _ => 0))
      (mkBVec 1 (fun _ _ => 0)) 27 false = Some u /\
    val u 13 0 == if false then 0 else (fun _ => 5) 0%nat.
Proof.
  assert (Hrec : forall X u d,
     Forall (fun q => q == 0) (recon_b3D 2 3 1 X u d (wvals3D 2 [])) ->
     computeElemRecon3D 1 2 3 X u d [] ((fun _ _ _ => repeat 0 9) X u d)).
  { intros X u d Hb; exists (repeat 0 24); split; [|reflexivity].
    apply dgelss_zero_sol; [exact Hb|].
    apply Forall_forall; intros q Hq; apply repeat_spec in Hq; rewrite Hq; reflexivity. }
  assert (Hg : forall g e, In g [[0%nat]] -> In e g ->
     const_elem [] 2 3 1 cube_conn one_rconn (mkBVec 1 (fun _ _ => 5)) (fun _ => 5) e).
  { intros g e Hg He; destruct Hg as [<-|[]]; destruct He as [<-|[]].
    split; [reflexivity|]; intros i k Hi Hk; destruct k as [|k]; [|lia].
    do 8 (destruct i as [|i]; [vm_compute; reflexivity|]); lia. }
  assert (Hc : count_refs one_rconn (concat [[0%nat]]) 13 =
               count_refs one_rconn (seq 0 (length one_rconn)) 13) by reflexivity.
  assert (Hp : (0 < count_refs one_rconn (seq 0 (length one_rconn)) 13)%nat)
    by (vm_compute; lia).
  split; [lia|]; split; [exact Hrec|]; split; [reflexivity|]; split; [reflexivity|].
  split; [reflexivity|]; split; [exact Hg|]; split; [exact Hc|]; split; [exact Hp|].
  split; [lia|]; split; [lia|].
  exact (TMR_ComputeReconSolution3D_const [] [] 2 3 1 (fun _ _ _ => repeat 0 9) cube_conn
           [cube_Xpts] one_rconn [cube27] (mkBVec 1 (fun _ _ => 5)) false [] (fun _ => 5)
           ltac:(lia) Hrec [[0%nat]] (mkBVec 1 (fun _ _ => 0)) (mkBVec 3 (fun _ _ => 0))
           (mkBVec 1 (fun _ _ => 0)) (mkBVec 1 (fun _ _ => 0)) 27 13 0
           eq_refl eq_refl eq_refl Hg Hc Hp ltac:(lia) ltac:(lia)).
Defined.

End RefineFacts.
