(* ===== verification/Quad.v ===== *)
(** * The quadtree (2D shell) path of the reconstruction

    [Quad] models the 2D overloads of src/src/TMRGeometry.c for elements
    that are surfaces in 3D: [computeJacobianTrans2D] (lines 667-695),
    [computeNodeDeriv2D] (1539-1664), [computeElemRecon2D] (1141-1293),
    [addRefinedSolution2D] (1815-1999) and [TMR_ComputeReconSolution] for
    quadtree forests (2440-2589).  They follow the octree versions of
    [NodeDeriv], [Recon] and [Refine] with two reference directions: the
    third row of the Jacobian matrix is the unit normal
    [Xd0 x Xd1 / |Xd0 x Xd1|], and the least-squares rows of the
    reconstruction are the derivatives along the in-plane frame
    [d1 = Xd0/|Xd0|], [d2 = n x d1].

    [Tensor::crossProduct3D] and [Tensor::normalize3D] belong to TACS and
    are modelled from the spec; the square root they need is a parameter
    [sqrtf] of every definition that normalises.  Unlike the octree
    builder, [addRefinedSolution2D] allocates [uref] with the refined node
    count, so it needs no allocation model.

    [QuadFacts] proves that the nodal derivatives do not depend on the
    square root (any [sqrtf] that is non-zero on non-zero arguments gives
    the same result, because scaling the third row of the Jacobian matrix
    leaves the two columns the code reads unchanged), that a constant
    field has zero nodal derivatives, and that its reconstruction is
    zero. *)

From Stdlib Require Import PeanoNat ZArith QArith Qring Qfield List Lia Lqa.
From S2P Require Import Prelude LeastSquares Enrichment Interp NodeVec NodeDeriv Recon Refine Prolong.
Import ListNotations.
Open Scope Q_scope.
Open Scope tmr_scope.

Module Quad.
Import Lapack Enrich Forest Jac BVec Weights NodeDeriv Recon Refine Prolong.

(** [evalInterp(pt, N, Na, Nb)] of a quadtree forest: the values and the
    two parametric derivatives, read off the dual-number evaluation. *)
Record interp2 := { jN : list Q; jNa : list Q; jNb : list Q }.

Definition evalInterp2D_deriv (knots : list Q) (pt : Q * Q) : interp2 :=
  let '(x, y) := pt in
  {| jN := evalInterp2D knots (x, y);
     jNa := map du (evalInterp2D knots (mkDual x 1, mkDual y 0));
     jNb := map du (evalInterp2D knots (mkDual x 0, mkDual y 1)) |}.

(** [Tensor::crossProduct3D(c, a, b)]: [c = a x b]. *)
Definition crossProduct3D (a b : Q * Q * Q) : Q * Q * Q :=
  let '(a0, a1, a2) := a in
  let '(b0, b1, b2) := b in
  (a1 * b2 - a2 * b1, a2 * b0 - a0 * b2, a0 * b1 - a1 * b0).

(** [Tensor::normalize3D(a)]: [a / sqrt(a.a)]. *)
Definition normalize3D (sqrtf : Q -> Q) (a : Q * Q * Q) : Q * Q * Q :=
  let '(a0, a1, a2) := a in
  let n := sqrtf (a0 * a0 + a1 * a1 + a2 * a2) in
  (a0 / n, a1 / n, a2 / n).

(** One pass of the accumulation loop of [computeJacobianTrans2D]. *)
Definition jac_step2D (Xpts Na Nb : list Q) (Xd : m9) (i : nat) : m9 :=
  let x0 := nth (3 * i) Xpts 0 in
  let x1 := nth (3 * i + 1) Xpts 0 in
  let x2 := nth (3 * i + 2) Xpts 0 in
  let na := nth i Na 0 in
  let nb := nth i Nb 0 in
  mk9 (e0 Xd + x0 * na) (e1 Xd + x1 * na) (e2 Xd + x2 * na)
      (e3 Xd + x0 * nb) (e4 Xd + x1 * nb) (e5 Xd + x2 * nb)
      (e6 Xd) (e7 Xd) (e8 Xd).

(** [computeJacobianTrans2D(Xpts, Na, Nb, Xd, J, num_nodes)]: the two
    tangent rows, the unit normal as third row, and the inverse. *)
Definition computeJacobianTrans2D (sqrtf : Q -> Q) (Xpts Na Nb : list Q) (num_nodes : nat)
  : m9 * m9 * Q :=
  let X := fold_left (jac_step2D Xpts Na Nb) (seq 0 num_nodes) m9_zero in
  let '(n0, n1, n2) :=
    normalize3D sqrtf (crossProduct3D (e0 X, e1 X, e2 X) (e3 X, e4 X, e5 X)) in
  let Xd := mk9 (e0 X) (e1 X) (e2 X) (e3 X) (e4 X) (e5 X) n0 n1 n2 in
  let '(J, h) := jacobian3d Xd in
  (Xd, J, h).

(** [d[0..2] = winv*(Ud[2k]*J[3c] + Ud[2k+1]*J[3c+1])]. *)
Definition grad_block2D (J : m9) (ua ub winv : Q) : list Q :=
  [winv * (ua * e0 J + ub * e1 J);
   winv * (ua * e3 J + ub * e4 J);
   winv * (ua * e6 J + ub * e7 J)].

(** One knot [(ii, jj)] of the element loop of [computeNodeDeriv2D]. *)
Definition ElemSample2D (sqrtf : Q -> Q) (knots : list Q) (order vpn : nat) (nodes : list Z)
  (welem uelem Xpts : list Q) (p : nat * nat) : list Q :=
  let '(ii, jj) := p in
  let I := evalInterp2D_deriv knots (nth ii knots 0, nth jj knots 0) in
  let '(_, J, _) := computeJacobianTrans2D sqrtf Xpts (jNa I) (jNb I) (order * order) in
  let idx := (ii + jj * order)%nat in
  let winv := / nth idx welem 0 in
  if (0 <=? nth idx nodes 0%Z)%Z then
    flat_map (fun k => grad_block2D J (ud_sum uelem vpn k (jNa I) (order * order))
                                      (ud_sum uelem vpn k (jNb I) (order * order)) winv)
             (seq 0 vpn)
  else repeat 0 (3 * vpn).

(** The element array [delem]. *)
Definition computeNodeDerivElem2D (sqrtf : Q -> Q) (knots : list Q) (order vpn : nat)
  (nodes : list Z) (welem uelem Xpts : list Q) : list Q :=
  flat_map (ElemSample2D sqrtf knots order vpn nodes welem uelem Xpts) (knot_positions2D order).

(** [computeNodeDeriv2D(forest, tacs, uvec, weights, uderiv, element_nums,
    num_elements)]. *)
Definition computeNodeDeriv2D (sqrtf : Q -> Q) (deps : dep_table) (order vpn : nat)
  (conn : list (list Z)) (Xpts_of : list (list Q))
  (uvec weights uderiv : bvec) (element_nums : option (list nat)) : bvec :=
  let knots := getInterpKnots order in
  let elems := match element_nums with
               | None => seq 0 (length conn)
               | Some l => l
               end in
  fold_left (fun acc e =>
               let nodes := nth e conn [] in
               let welem := getValues deps weights nodes in
               let uelem := getValues deps uvec nodes in
               let Xpts := nth e Xpts_of [] in
               setValues_add deps acc nodes
                 (computeNodeDerivElem2D sqrtf knots order vpn nodes welem uelem Xpts))
            elems (zeroEntries uderiv).

(** ** [computeElemRecon2D] *)

(** [wvals[4]]: the [else] branch is taken for every order other than 2
    and 3; the array has four entries, and an order above 4 reads past
    them into [uninit]. *)
Definition wvals2D (order : nat) (uninit : list Q) : list Q :=
  if Nat.eqb order 2 then [1; 1]
  else if Nat.eqb order 3 then [1 # 2; 1; 1 # 2]
  else [1 # 2; 1; 1; 1 # 2] ++ uninit.

(** The flat index [ii + order*jj] of a knot. *)
Definition knot_index2D (order : nat) (p : nat * nat) : nat :=
  let '(ii, jj) := p in (ii + order * jj)%nat.

(** [wvals[ii]*wvals[jj]] *)
Definition knot_weight2D (wv : list Q) (p : nat * nat) : Q :=
  let '(ii, jj) := p in nth ii wv 0 * nth jj wv 0.

(** The local frame: [d1 = Xd[0..2]] normalised and [d2 = n x d1]. *)
Definition frame2D (sqrtf : Q -> Q) (Xd : m9) : (Q * Q * Q) * (Q * Q * Q) :=
  let d1 := normalize3D sqrtf (e0 Xd, e1 Xd, e2 Xd) in
  (d1, crossProduct3D (e6 Xd, e7 Xd, e8 Xd) d1).

Definition dot3 (a : Q * Q * Q) (b : list Q) : Q :=
  let '(a0, a1, a2) := a in a0 * nth 0 b 0 + a1 * nth 1 b 0 + a2 * nth 2 b 0.

(** [d = (a*J[0] + b*J[1], a*J[3] + b*J[4], a*J[6] + b*J[7])]. *)
Definition jmul2 (J : m9) (a b : Q) : list Q :=
  [a * e0 J + b * e1 J; a * e3 J + b * e4 J; a * e6 J + b * e7 J].

(** What the loop body computes at knot [p]: the refined element's
    Jacobian matrix and inverse, the coarse basis derivatives and the
    enrichment derivatives (evaluated with the refined knots). *)
Definition recon_knot2D (sqrtf : Q -> Q) (order refined_order : nat) (Xpts : list Q)
  (p : nat * nat) : m9 * m9 * interp2 * enr2 :=
  let knots := getInterpKnots order in
  let '(ii, jj) := p in
  let pt := (nth ii knots 0, nth jj knots 0) in
  let R := evalInterp2D_deriv (getInterpKnots refined_order) pt in
  let '(Xd, J, _) := computeJacobianTrans2D sqrtf Xpts (jNa R) (jNb R)
                       (refined_order * refined_order) in
  (Xd, J, evalInterp2D_deriv knots pt,
   evalEnrichmentFuncs2D_deriv order pt (getInterpKnots refined_order)).

(** Rows [c, c+1] of right-hand side [k]: [b = w*(d.ud) - w*(d.d)]. *)
Definition recon_b_rows2D (sqrtf : Q -> Q) (order refined_order vpn : nat)
  (Xpts uvals uderiv wv : list Q) (k : nat) (p : nat * nat) : list Q :=
  let '(Xd, J, Co, _) := recon_knot2D sqrtf order refined_order Xpts p in
  let '(d1, d2) := frame2D sqrtf Xd in
  let w := knot_weight2D wv p in
  let u := (3 * vpn * knot_index2D order p + 3 * k)%nat in
  let ud := [nth u uderiv 0; nth (u + 1) uderiv 0; nth (u + 2) uderiv 0] in
  let n := (order * order)%nat in
  let d := jmul2 J (ud_sum uvals vpn k (jNa Co) n) (ud_sum uvals vpn k (jNb Co) n) in
  [w * dot3 d1 ud - w * dot3 d1 d; w * dot3 d2 ud - w * dot3 d2 d].

(** Rows [c, c+1] of column [i] of [A]. *)
Definition recon_A_rows2D (sqrtf : Q -> Q) (order refined_order : nat) (Xpts wv : list Q)
  (i : nat) (p : nat * nat) : list Q :=
  let '(Xd, J, _, E) := recon_knot2D sqrtf order refined_order Xpts p in
  let '(d1, d2) := frame2D sqrtf Xd in
  let w := knot_weight2D wv p in
  let d := jmul2 J (nth i (eNa2 E) 0) (nth i (eNb2 E) 0) in
  [w * dot3 d1 d; w * dot3 d2 d].

(** The column-major arrays [b] and [A], [neq = 2*order^2]. *)
Definition recon_b2D (sqrtf : Q -> Q) (order refined_order vpn : nat)
  (Xpts uvals uderiv wv : list Q) : list Q :=
  flat_map (fun k => flat_map (recon_b_rows2D sqrtf order refined_order vpn Xpts uvals uderiv wv k)
                              (knot_positions2D order)) (seq 0 vpn).

Definition recon_A2D (sqrtf : Q -> Q) (order refined_order : nat) (Xpts wv : list Q) : list Q :=
  flat_map (fun i => flat_map (recon_A_rows2D sqrtf order refined_order Xpts wv i)
                              (knot_positions2D order)) (seq 0 (getNum2dEnrich order)).

(** [computeElemRecon2D(vars_per_node, forest, refined_forest, Xpts,
    uvals, uderiv, ubar, tmp)]: [ubar] is a possible output. *)
Definition computeElemRecon2D (sqrtf : Q -> Q) (vpn order refined_order : nat)
  (Xpts uvals uderiv uninit ubar : list Q) : Prop :=
  let nenrich := getNum2dEnrich order in
  let neq := (2 * order * order)%nat in
  let wv := wvals2D order uninit in
  exists b', LAPACKdgelss neq nenrich vpn (recon_A2D sqrtf order refined_order Xpts wv)
                          (recon_b2D sqrtf order refined_order vpn Xpts uvals uderiv wv) b'
             /\ ubar = copy_ubar neq nenrich vpn b'.

(** ** [addRefinedSolution2D] and [TMR_ComputeReconSolution] *)

(** The block [u[0..vars_per_node)] at the refined knot [pt]. *)
Definition refined_node_vals2D (order refined_order vpn : nat) (uelem ubar : list Q)
  (compute_difference : bool) (pt : Q * Q) : list Q :=
  let N := evalInterp2D (getInterpKnots order) pt in
  let Nr := evalEnrichmentFuncs2D order pt (getInterpKnots refined_order) in
  let nenrich := getNum2dEnrich order in
  map (fun i =>
         (if compute_difference then 0
          else sumQ (map (fun k => nth k N 0 * nth (vpn * k + i) uelem 0)
                         (seq 0 (order * order))))
         + sumQ (map (fun k => nth k Nr 0 * nth (vpn * k + i) ubar 0) (seq 0 nenrich)))
      (seq 0 vpn).

(** The loops over the refined knots [(n, m)], [m] outermost. *)
Definition uref_elem2D (order rorder vpn : nat) (uelem ubar : list Q)
  (compute_difference : bool) : list Q :=
  let rknots := getInterpKnots rorder in
  flat_map (fun q => let '(n, m) := q in
                     refined_node_vals2D order rorder vpn uelem ubar compute_difference
                       (nth n rknots 0, nth m rknots 0))
           (knot_positions2D rorder).

(** "Zero the contribution if it goes to a dependent node". *)
Definition mask_dependent2D (rorder vpn : nat) (refined_nodes : list Z) (uref : list Q)
  : list Q :=
  flat_map (fun i => if (nth i refined_nodes 0%Z <? 0)%Z then repeat 0 vpn
                     else block vpn i uref)
           (seq 0 (rorder * rorder)).

(** One pass of the element loop; both branches of [compute_difference]
    end with [setValues(ADD)]. *)
Definition refine_elem2D (deps deps_ref : dep_table) (order rorder vpn : nat)
  (recon : list Q -> list Q -> list Q -> list Q) (conn rconn : list (list Z))
  (rXpts_of : list (list Q)) (vec vecDeriv : bvec) (compute_difference : bool)
  (acc : bvec) (e : nat) : bvec :=
  let nodes := nth e conn [] in
  let uelem := getValues deps vec nodes in
  let delem := getValues deps vecDeriv nodes in
  let ubar := recon (nth e rXpts_of []) uelem delem in
  let refined_nodes := nth e rconn [] in
  setValues_add deps_ref acc refined_nodes
    (mask_dependent2D rorder vpn refined_nodes
       (uref_elem2D order rorder vpn uelem ubar compute_difference)).

(** [addRefinedSolution2D(forest, tacs, forest_refined, tacs_refined,
    vec, vecDeriv, vec_refined, compute_difference, element_nums,
    num_elements)]. *)
Definition addRefinedSolution2D (deps deps_ref : dep_table) (order rorder vpn : nat)
  (recon : list Q -> list Q -> list Q -> list Q) (conn rconn : list (list Z))
  (rXpts_of : list (list Q)) (vec vecDeriv vec_refined : bvec)
  (compute_difference : bool) (element_nums : option (list nat)) : bvec :=
  let elems := match element_nums with None => seq 0 (length conn) | Some l => l end in
  fold_left (refine_elem2D deps deps_ref order rorder vpn recon conn rconn rXpts_of
               vec vecDeriv compute_difference) elems vec_refined.

(** One face name of [TMR_ComputeReconSolution]: weights, nodal
    derivatives and refined contributions over the face's elements. *)
Definition recon_face_step (sqrtf : Q -> Q) (deps deps_ref : dep_table) (order rorder vpn : nat)
  (recon : list Q -> list Q -> list Q -> list Q) (conn : list (list Z))
  (Xpts_of : list (list Q)) (rconn : list (list Z)) (rXpts_of : list (list Q))
  (uvec : bvec) (compute_difference : bool) (st : bvec * bvec * bvec) (g : list nat)
  : bvec * bvec * bvec :=
  let '(w, ud, ur) := st in
  let w' := computeLocalWeights deps conn (Some g) w in
  let ud' := computeNodeDeriv2D sqrtf deps order vpn conn Xpts_of uvec w' ud (Some g) in
  (w', ud', addRefinedSolution2D deps deps_ref order rorder vpn recon conn rconn rXpts_of
              uvec ud' ur compute_difference (Some g)).

(** [TMR_ComputeReconSolution(forest, tacs, forest_refined, tacs_refined,
    uvec, uvec_refined, compute_difference)] for quadtrees: [groups]
    lists the elements of each face name in the order of the name set. *)
Definition TMR_ComputeReconSolution2D (sqrtf : Q -> Q) (deps deps_ref : dep_table)
  (order rorder vpn : nat) (recon : list Q -> list Q -> list Q -> list Q)
  (conn : list (list Z)) (Xpts_of : list (list Q)) (rconn : list (list Z))
  (rXpts_of : list (list Q)) (groups : list (list nat))
  (uvec uvec_refined uderiv weights weights_refined : bvec) (size : nat)
  (compute_difference : bool) : bvec :=
  let '(_, _, ur) :=
    fold_left (recon_face_step sqrtf deps deps_ref order rorder vpn recon conn Xpts_of rconn
                 rXpts_of uvec compute_difference)
              groups (weights, uderiv, zeroEntries uvec_refined) in
  normalize_refined ur (computeLocalWeights deps_ref rconn None weights_refined) size.

End Quad.

Module QuadFacts.
Import Lapack LapackFacts Enrich Forest Jac BVec BVecFacts Weights NodeDeriv NodeDerivFacts
       InterpFacts Recon ReconFacts Refine Prolong Quad.

(** ** The nodal derivatives do not depend on the square root *)

(** The entries of [J] that the 2D code reads: the first two columns. *)
Definition J_cols_eq (A B : m9) : Prop :=
  e0 A == e0 B /\ e1 A == e1 B /\ e3 A == e3 B /\ e4 A == e4 B /\
  e6 A == e6 B /\ e7 A == e7 B.

(** Scaling the third row of a matrix by [s <> 0] leaves the first two
    columns of its inverse unchanged. *)
Lemma jacobian3d_row3_scale (X Y : m9) (s : Q) :
  ~ s == 0 ->
  e0 Y == e0 X -> e1 Y == e1 X -> e2 Y == e2 X -> e3 Y == e3 X -> e4 Y == e4 X ->
  e5 Y == e5 X -> e6 Y == s * e6 X -> e7 Y == s * e7 X -> e8 Y == s * e8 X ->
  J_cols_eq (fst (jacobian3d Y)) (fst (jacobian3d X)).
Proof.
  intros Hs H0 H1 H2 H3 H4 H5 H6 H7 H8.
  assert (Hd : det3 Y == s * det3 X)
    by (unfold det3; rewrite H0, H1, H2, H3, H4, H5, H6, H7, H8; ring).
  unfold J_cols_eq, jacobian3d; simpl.
  rewrite Hd, Qinv_mult_distr, H0, H1, H2, H3, H4, H5, H6, H7, H8.
  generalize (/ det3 X); intros d.
  repeat split; field; exact Hs.
Qed.

Lemma sum_squares_zero (a b c : Q) : a * a + b * b + c * c == 0 -> a == 0 /\ b == 0 /\ c == 0.
Proof.
  intros H.
  assert (Ha : 0 <= a * a) by nra. assert (Hb : 0 <= b * b) by nra.
  assert (Hc : 0 <= c * c) by nra.
  assert (Sq : forall x, x * x == 0 -> x == 0)
    by (intros x Hx; apply Qmult_integral in Hx as [Hx|Hx]; exact Hx).
  repeat split; apply Sq; lra.
Qed.

(** Two square roots that do not vanish on non-zero arguments give
    Jacobian inverses that agree on the columns the code reads. *)
Lemma computeJacobianTrans2D_sqrt_indep (f g : Q -> Q) (Xpts Na Nb : list Q) (n : nat) :
  (forall x, ~ x == 0 -> ~ f x == 0) -> (forall x, ~ x == 0 -> ~ g x == 0) ->
  J_cols_eq (snd (fst (computeJacobianTrans2D f Xpts Na Nb n)))
            (snd (fst (computeJacobianTrans2D g Xpts Na Nb n))).
Proof.
  intros Hf Hg; unfold computeJacobianTrans2D; cbv zeta.
  set (X := fold_left _ _ _).
  destruct (crossProduct3D _ _) as [[c0 c1] c2]; unfold normalize3D.
  set (q := c0 * c0 + c1 * c1 + c2 * c2).
  destruct (Qeq_dec q 0) as [Hq|Hq].
  - destruct (sum_squares_zero c0 c1 c2 Hq) as (Z0 & Z1 & Z2).
    destruct (jacobian3d (mk9 _ _ _ _ _ _ (c0 / f q) (c1 / f q) (c2 / f q))) as [Jf hf] eqn:Ef.
    destruct (jacobian3d (mk9 _ _ _ _ _ _ (c0 / g q) (c1 / g q) (c2 / g q))) as [Jg hg] eqn:Eg.
    cbn [fst snd].
    replace Jf with (fst (jacobian3d (mk9 (e0 X) (e1 X) (e2 X) (e3 X) (e4 X) (e5 X)
                                        (c0 / f q) (c1 / f q) (c2 / f q)))) by (rewrite Ef; reflexivity).
    replace Jg with (fst (jacobian3d (mk9 (e0 X) (e1 X) (e2 X) (e3 X) (e4 X) (e5 X)
                                        (c0 / g q) (c1 / g q) (c2 / g q)))) by (rewrite Eg; reflexivity).
    apply (jacobian3d_row3_scale _ _ 1); cbn [e0 e1 e2 e3 e4 e5 e6 e7 e8];
      try discriminate; try reflexivity; rewrite ?Z0, ?Z1, ?Z2; unfold Qdiv; ring.
  - pose proof (Hf q Hq) as Fq; pose proof (Hg q Hq) as Gq.
    destruct (jacobian3d (mk9 _ _ _ _ _ _ (c0 / f q) (c1 / f q) (c2 / f q))) as [Jf hf] eqn:Ef.
    destruct (jacobian3d (mk9 _ _ _ _ _ _ (c0 / g q) (c1 / g q) (c2 / g q))) as [Jg hg] eqn:Eg.
    cbn [fst snd].
    replace Jf with (fst (jacobian3d (mk9 (e0 X) (e1 X) (e2 X) (e3 X) (e4 X) (e5 X)
                                        (c0 / f q) (c1 / f q) (c2 / f q)))) by (rewrite Ef; reflexivity).
    replace Jg with (fst (jacobian3d (mk9 (e0 X) (e1 X) (e2 X) (e3 X) (e4 X) (e5 X)
                                        (c0 / g q) (c1 / g q) (c2 / g q)))) by (rewrite Eg; reflexivity).
    apply (jacobian3d_row3_scale _ _ (g q / f q)); cbn [e0 e1 e2 e3 e4 e5 e6 e7 e8];
      try reflexivity; try (field; repeat split; assumption).
    intros H; apply Gq.
    setoid_replace (g q) with ((g q / f q) * f q) by (field; exact Fq).
    rewrite H; ring.
Qed.

Lemma grad_block2D_cols (J1 J2 : m9) (ua ub winv : Q) :
  J_cols_eq J1 J2 -> grad_block2D J1 ua ub winv ==l grad_block2D J2 ua ub winv.
Proof.
  intros (H0 & H1 & H3 & H4 & H6 & H7); unfold grad_block2D.
  rewrite H0, H1, H3, H4, H6, H7; reflexivity.
Qed.

Section SqrtIndep.
Context (f g : Q -> Q).
Hypothesis Hf : forall x, ~ x == 0 -> ~ f x == 0.
Hypothesis Hg : forall x, ~ x == 0 -> ~ g x == 0.

Lemma ElemSample2D_sqrt_indep knots order vpn nodes welem uelem Xpts p :
  ElemSample2D f knots order vpn nodes welem uelem Xpts p
  ==l ElemSample2D g knots order vpn nodes welem uelem Xpts p.
Proof.
  destruct p as [ii jj]; unfold ElemSample2D; cbv zeta.
  set (I := evalInterp2D_deriv knots (nth ii knots 0, nth jj knots 0)).
  pose proof (computeJacobianTrans2D_sqrt_indep f g Xpts (jNa I) (jNb I) (order * order) Hf Hg)
    as HJ.
  destruct (computeJacobianTrans2D f _ _ _ _) as [[Xf Jf] hf].
  destruct (computeJacobianTrans2D g _ _ _ _) as [[Xg Jg] hg].
  cbn [fst snd] in HJ.
  destruct (_ <=? _)%Z; [|reflexivity].
  apply flat_map_eqlistQ; intros k _; apply grad_block2D_cols, HJ.
Qed.

(** [computeNodeDeriv2D] does not depend on the square root that
    normalises the normal: two square roots that vanish only at zero give
    nodal derivatives equal in every entry. *)
Theorem computeNodeDeriv2D_sqrt_indep deps order vpn conn Xpts_of uvec weights uderiv en :
  vequiv (computeNodeDeriv2D f deps order vpn conn Xpts_of uvec weights uderiv en)
         (computeNodeDeriv2D g deps order vpn conn Xpts_of uvec weights uderiv en).
Proof.
  unfold computeNodeDeriv2D; cbv zeta; apply fold_left_vequiv; [|reflexivity].
  intros e v w Hvw; apply (setValues_add_Proper deps _ v w Hvw).
  apply flat_map_eqlistQ; intros p _; apply ElemSample2D_sqrt_indep.
Qed.

End SqrtIndep.

(** ** A field constant per component *)

Lemma length_tensor2 {K} `{RingOps K} (nx ny : list K) :
  length (tensor2 nx ny) = (length nx * length ny)%nat.
Proof.
  unfold tensor2; rewrite (length_flat_map_const _ _ (length nx)); [lia|].
  intros b _; apply length_map.
Qed.

(** Product rule, summed over the 2D tensor product. *)
Lemma sum_tensor2_du (nx ny : list dual) :
  sD (tensor2 nx ny) == sD nx * sR ny + sR nx * sD ny.
Proof.
  unfold sD, sR, tensor2; rewrite map_flat_map, sumQ_flat_map.
  rewrite (sumQ_map_ext _ (fun b => sumQ (map du nx) * re b + sumQ (map re nx) * du b)).
  - rewrite sumQ_map_add, !sumQ_map_scale; ring.
  - intros b _; rewrite map_map.
    rewrite (sumQ_map_ext _ (fun a => re b * du a + du b * re a)) by (intros; simpl; ring).
    rewrite sumQ_map_add, !sumQ_map_scale; ring.
Qed.

(** The two derivative arrays of the 2D basis sum to zero, by index. *)
Lemma evalInterp2D_deriv_sums (order : nat) (pt : Q * Q) :
  (2 <= order <= 6)%nat ->
  let I := evalInterp2D_deriv (getInterpKnots order) pt in
  sumQ (map (fun i => nth i (jNa I) 0) (seq 0 (order * order))) == 0 /\
  sumQ (map (fun i => nth i (jNb I) 0) (seq 0 (order * order))) == 0.
Proof.
  intros Ho; destruct pt as [x y]; cbn [evalInterp2D_deriv jNa jNb].
  destruct (lagrange1D_unity order x 1 Ho) as [_ [Rx1 Dx1]].
  destruct (lagrange1D_unity order y 1 Ho) as [_ [Ry1 Dy1]].
  destruct (lagrange1D_unity order x 0 Ho) as [_ [Rx0 Dx0]].
  destruct (lagrange1D_unity order y 0 Ho) as [_ [Ry0 Dy0]].
  set (knots := getInterpKnots order) in *.
  assert (L : forall dx dy, length (map du (evalInterp2D knots (mkDual x dx, mkDual y dy)))
                            = (order * order)%nat)
    by (intros; rewrite length_map; unfold evalInterp2D;
        rewrite length_tensor2, !length_lagrange1D; unfold knots;
        rewrite getInterpKnots_length by exact Ho; reflexivity).
  split.
  - rewrite <- (L 1 0), sumQ_nth_seq.
    change (sD (tensor2 (lagrange1D knots (mkDual x 1)) (lagrange1D knots (mkDual y 0))) == 0).
    rewrite sum_tensor2_du, Rx1, Dx1, Ry0, Dy0; ring.
  - rewrite <- (L 0 1), sumQ_nth_seq.
    change (sD (tensor2 (lagrange1D knots (mkDual x 0)) (lagrange1D knots (mkDual y 1))) == 0).
    rewrite sum_tensor2_du, Rx0, Dx0, Ry1, Dy1; ring.
Qed.

Lemma knot_positions2D_bound (p ii jj : nat) :
  In (ii, jj) (knot_positions2D p) ->
  (ii < p)%nat /\ (jj < p)%nat /\ (knot_index2D p (ii, jj) < p * p)%nat.
Proof.
  unfold knot_positions2D; intros H.
  apply in_flat_map in H as [j [Hj H]]; apply in_map_iff in H as [i [Heq Hi]].
  inversion Heq; subst; apply in_seq in Hj, Hi; simpl; repeat split; try lia; nia.
Qed.

Lemma ElemSample2D_const sqrtf (order vpn : nat) nodes welem uelem Xpts (a : nat -> Q)
  (p : nat * nat) :
  (2 <= order <= 6)%nat ->
  (forall i k, (i < order * order)%nat -> (k < vpn)%nat -> nth (vpn * i + k) uelem 0 == a k) ->
  Forall (fun q => q == 0)
    (ElemSample2D sqrtf (getInterpKnots order) order vpn nodes welem uelem Xpts p).
Proof.
  intros Ho Hu; destruct p as [ii jj].
  set (knots := getInterpKnots order).
  destruct (evalInterp2D_deriv_sums order (nth ii knots 0, nth jj knots 0) Ho) as (Za & Zb);
    cbv zeta in Za, Zb; fold knots in Za, Zb.
  unfold ElemSample2D; fold knots; cbv zeta.
  destruct (computeJacobianTrans2D _ _ _ _ _) as [[Xd J] h].
  destruct (_ <=? _)%Z.
  - apply Forall_flat_map, Forall_forall; intros k Hk; apply in_seq in Hk.
    assert (Hu' : forall i, (i < order * order)%nat -> nth (vpn * i + k) uelem 0 == a k)
      by (intros; apply Hu; lia).
    unfold grad_block2D; repeat apply Forall_cons; try apply Forall_nil;
      rewrite (ud_sum_const uelem (jNa _) vpn k _ (a k) Hu'),
              (ud_sum_const uelem (jNb _) vpn k _ (a k) Hu'), Za, Zb; ring.
  - apply Forall_forall; intros q Hq; apply repeat_spec in Hq; rewrite Hq; reflexivity.
Qed.

(** [computeNodeDeriv2D] on a field that every element reads as a
    constant per component gives nodal derivatives that vanish at every
    node, whatever the square root. *)
Theorem computeNodeDeriv2D_const sqrtf deps order vpn conn Xpts_of uvec weights uderiv en
  (a : nat -> Q) :
  (2 <= order <= 6)%nat ->
  (forall e, In e (match en with None => seq 0 (length conn) | Some l => l end) ->
     forall i k, (i < order * order)%nat -> (k < vpn)%nat ->
       nth (vpn * i + k) (getValues deps uvec (nth e conn [])) 0 == a k) ->
  forall n c, (c < bsize uderiv)%nat ->
    val (computeNodeDeriv2D sqrtf deps order vpn conn Xpts_of uvec weights uderiv en) n c == 0.
Proof.
  intros Ho He n c Hc; change (bsize uderiv) with (bsize (zeroEntries uderiv)) in Hc.
  revert n c Hc; apply fold_setValues_add_zero; [reflexivity|].
  intros e Hin; apply Forall_flat_map, Forall_forall; intros p _.
  apply (ElemSample2D_const _ _ _ _ _ _ _ a p Ho (He e Hin)).
Qed.

(** A constant field with zero prescribed derivatives leaves zero rows in
    [b] at every knot. *)
Lemma recon_b_rows2D_const sqrtf order refined_order vpn Xpts uvals uderiv wv k p
  (c : nat -> Q) :
  (2 <= order <= 6)%nat -> In p (knot_positions2D order) -> (k < vpn)%nat ->
  (forall i k, (i < order * order)%nat -> (k < vpn)%nat -> nth (vpn * i + k) uvals 0 == c k) ->
  (forall r, (r < 3 * vpn * (order * order))%nat -> nth r uderiv 0 == 0) ->
  Forall (fun q => q == 0)
    (recon_b_rows2D sqrtf order refined_order vpn Xpts uvals uderiv wv k p).
Proof.
  intros Ho Hp Hk Hu Hd; destruct p as [ii jj].
  destruct (knot_positions2D_bound _ _ _ Hp) as (_ & _ & Hidx).
  set (knots := getInterpKnots order).
  destruct (evalInterp2D_deriv_sums order (nth ii knots 0, nth jj knots 0) Ho) as (Za & Zb);
    cbv zeta in Za, Zb; fold knots in Za, Zb.
  assert (Hu' : forall i, (i < order * order)%nat -> nth (vpn * i + k) uvals 0 == c k)
    by (intros; apply Hu; lia).
  unfold recon_b_rows2D, recon_knot2D; fold knots; cbv zeta.
  destruct (computeJacobianTrans2D _ _ _ _ _) as [[Xd J] h]; cbn [nth].
  destruct (frame2D sqrtf Xd) as [[[x1 y1] z1] [[x2 y2] z2]].
  set (idx := knot_index2D order (ii, jj)) in *.
  unfold jmul2, dot3; cbn [nth]; repeat apply Forall_cons; try apply Forall_nil;
    rewrite (ud_sum_const uvals (jNa _) vpn k _ (c k) Hu'),
            (ud_sum_const uvals (jNb _) vpn k _ (c k) Hu'), Za, Zb, !Hd by nia; ring.
Qed.

Lemma recon_b2D_const sqrtf order refined_order vpn Xpts uvals uderiv wv (c : nat -> Q) :
  (2 <= order <= 6)%nat ->
  (forall i k, (i < order * order)%nat -> (k < vpn)%nat -> nth (vpn * i + k) uvals 0 == c k) ->
  (forall r, (r < 3 * vpn * (order * order))%nat -> nth r uderiv 0 == 0) ->
  Forall (fun q => q == 0) (recon_b2D sqrtf order refined_order vpn Xpts uvals uderiv wv).
Proof.
  intros Ho Hu Hd; unfold recon_b2D.
  apply Forall_flat_map, Forall_forall; intros k Hk; apply in_seq in Hk.
  apply Forall_flat_map, Forall_forall; intros p Hp.
  apply (recon_b_rows2D_const sqrtf order refined_order vpn Xpts uvals uderiv wv k p c Ho Hp
           ltac:(lia) Hu Hd).
Qed.

(** A zero right-hand side gives a zero enrichment block. *)
Lemma computeElemRecon2D_zero_rhs sqrtf (vpn order refined_order : nat)
  (Xpts uvals uderiv uninit ubar : list Q) :
  Forall (fun q => q == 0)
    (recon_b2D sqrtf order refined_order vpn Xpts uvals uderiv (wvals2D order uninit)) ->
  computeElemRecon2D sqrtf vpn order refined_order Xpts uvals uderiv uninit ubar ->
  ubar ==l repeat 0 (getNum2dEnrich order * vpn).
Proof.
  intros Hb (b' & Hls & ->).
  apply copy_ubar_ext; [apply repeat_length|].
  intros j i Hj Hi; rewrite nth_repeat.
  exact (dgelss_zero_rhs _ _ _ _ _ _ Hb Hls j i Hj Hi).
Qed.

Lemma computeNodeDeriv2D_bsize sqrtf deps order vpn (conn : list (list Z))
  (Xpts_of : list (list Q)) uvec weights (uderiv : bvec) (en : option (list nat)) :
  bsize (computeNodeDeriv2D sqrtf deps order vpn conn Xpts_of uvec weights uderiv en)
  = bsize uderiv.
Proof.
  unfold computeNodeDeriv2D; cbv zeta; rewrite (fold_setValues_add_bsize deps (fun e => nth e conn []));
    reflexivity.
Qed.

(** Null case of the 2D reconstruction (spec, testable property 3):
    for a nodal field constant in each component and prescribed
    derivatives that all vanish, every [ubar] that [computeElemRecon2D]
    can produce under the contract of the least-squares driver is zero,
    whatever the square root and the contents of the uninitialised
    weights. *)
Theorem computeElemRecon2D_constant sqrtf (vpn order refined_order : nat)
  (Xpts uvals uderiv uninit ubar : list Q) (c : nat -> Q) :
  (2 <= order <= 6)%nat ->
  (forall i k, (i < order * order)%nat -> (k < vpn)%nat -> nth (vpn * i + k) uvals 0 == c k) ->
  (forall r, (r < 3 * vpn * (order * order))%nat -> nth r uderiv 0 == 0) ->
  computeElemRecon2D sqrtf vpn order refined_order Xpts uvals uderiv uninit ubar ->
  ubar ==l repeat 0 (getNum2dEnrich order * vpn).
Proof.
  intros Ho Hu Hd; apply computeElemRecon2D_zero_rhs.
  exact (recon_b2D_const _ _ _ _ _ _ _ _ c Ho Hu Hd).
Qed.

(** ** Witnesses *)

(** The unit square in the plane [z = 0], nodes in the code's order. *)
Definition sq_conn : list (list Z) := [[0; 1; 2; 3]%Z].
Definition sq_Xpts : list Q := [0; 0; 0; 1; 0; 0; 0; 1; 0; 1; 1; 0].

Lemma computeNodeDeriv2D_sqrt_indep_witness :
  vequiv (computeNodeDeriv2D (fun x => x) [] 2 1 sq_conn [sq_Xpts]
            (mkBVec 1 (fun n _ => inject_Z (Z.of_nat n))) (mkBVec 1 (fun _ _ => 1))
            (mkBVec 3 (fun _ _ => 0)) None)
         (computeNodeDeriv2D (fun x => 2 * x) [] 2 1 sq_conn [sq_Xpts]
            (mkBVec 1 (fun n _ => inject_Z (Z.of_nat n))) (mkBVec 1 (fun _ _ => 1))
            (mkBVec 3 (fun _ _ => 0)) None).
Proof.
  apply computeNodeDeriv2D_sqrt_indep; intros x Hx; [exact Hx|].
  intros H; apply Hx; cbv beta in H; lra.
Defined.

Lemma computeElemRecon2D_constant_witness :
  (2 <= 2 <= 6)%nat /\
  (forall i k, (i < 2 * 2)%nat -> (k < 1)%nat -> nth (1 * i + k) (repeat 7 4) 0 == 7) /\
  (forall r, (r < 3 * 1 * (2 * 2))%nat -> nth r (repeat 0 12) 0 == 0) /\
  computeElemRecon2D (fun x => x) 1 2 3 sq_Xpts (repeat 7 4) (repeat 0 12) [] (repeat 0 5) /\
  repeat 0 5 ==l repeat 0 (getNum2dEnrich 2 * 1).
Proof.
  assert (Hu : forall i k, (i < 2 * 2)%nat -> (k < 1)%nat -> nth (1 * i + k) (repeat 7 4) 0 == 7)
    by (intros i k Hi Hk; rewrite nth_repeat_lt by lia; reflexivity).
  assert (Hd : forall r, (r < 3 * 1 * (2 * 2))%nat -> nth r (repeat 0 12) 0 == 0)
    by (intros; rewrite nth_repeat; reflexivity).
  assert (Hr : computeElemRecon2D (fun x => x) 1 2 3 sq_Xpts (repeat 7 4) (repeat 0 12) []
                 (repeat 0 5)).
  { exists (repeat 0 8); split; [|reflexivity].
    apply dgelss_zero_sol; [apply (recon_b2D_const _ _ _ _ _ _ _ _ (fun _ => 7)); auto; lia|].
    apply Forall_forall; intros q Hq; apply repeat_spec in Hq; rewrite Hq; reflexivity. }
  split; [lia|]; split; [exact Hu|]; split; [exact Hd|]; split; [exact Hr|].
  exact (computeElemRecon2D_constant (fun x => x) 1 2 3 sq_Xpts (repeat 7 4) (repeat 0 12) []
           (repeat 0 5) (fun _ => 7) ltac:(lia) Hu Hd Hr).
Defined.

End QuadFacts.
