(* ===== verification/KS.v ===== *)
(** * C6(c): the KS aggregate of [TMRStressConstraint::evalConstraint]

    [evalConstraint] (src/src/TMRGeometry.c, lines 3627-3818) sweeps the
    Gauss points of every element twice.  The first sweep keeps the
    largest failure value, starting from [ks_max_fail = -1e20] and
    replacing it whenever [fval > ks_max_fail]; the second accumulates
    [ks_fail_sum += detJ*w*exp(ks_weight*(fval - ks_max_fail))]; the
    functional is [ks_max_fail + log(ks_fail_sum)/ks_weight].  [KS] models
    the two sweeps over the list of quadrature samples [(fval, detJ*w)] in
    the order the loops visit them (elements, then [kk], [jj], [ii]); the
    samples themselves are produced by the strain and failure kernels
    ([StressConstraint]).  With one process the reductions are the
    identity.  The model is over the reals, where [exp] and [log] live.

    [KSFacts] shows that the functional lies between
    [ks_max + log(w_max)/k] and [ks_max + log(W)/k] ([w_max] the weight of
    a sample attaining the maximum, [W] the total weight), that it
    therefore tends to the maximum as [k] grows (the spec's testable
    property 5), and that it is below the maximum whenever the total
    weight is below one: it is then not the upper bound the spec's
    glossary describes, and it increases with [k] rather than decreasing
    (the spec's scenario S3). *)

From Stdlib Require Import Reals Lra List.
Import ListNotations.
Open Scope R_scope.

Module KS.

(** One Gauss point: the failure value and [detJ*gaussWts[ii]*gaussWts[jj]*gaussWts[kk]]. *)
Record ks_sample := mkSample { ks_fval : R; ks_detw : R }.

(** [ks_max_fail = -1e20] *)
Definition ks_max_init : R := - IZR (10 ^ 20).

(** [if (fval > ks_max_fail) ks_max_fail = fval] *)
Definition ks_max_step (m : R) (s : ks_sample) : R :=
  if Rlt_dec m (ks_fval s) then ks_fval s else m.

Definition ks_max_phase (samples : list ks_sample) : R :=
  fold_left ks_max_step samples ks_max_init.

(** [ks_fail_sum += detJ*exp(ks_weight*(fval - ks_max_fail))] *)
Definition ks_sum_step (k m acc : R) (s : ks_sample) : R :=
  acc + ks_detw s * exp (k * (ks_fval s - m)).

Definition ks_sum_phase (k m : R) (samples : list ks_sample) : R :=
  fold_left (ks_sum_step k m) samples 0.

(** [ks_func_val = ks_max_fail + log(ks_fail_sum)/ks_weight] *)
Definition ks_func_val (k : R) (samples : list ks_sample) : R :=
  let m := ks_max_phase samples in
  m + ln (ks_sum_phase k m samples) / k.

End KS.

Module KSFacts.
Import KS.

Definition sumR (l : list R) : R := fold_right Rplus 0 l.

Lemma fold_left_sum {A} (f : A -> R) (l : list A) (a : R) :
  fold_left (fun acc x => acc + f x) l a = a + sumR (map f l).
Proof.
  revert a; induction l as [|x l IH]; intros a; simpl; [ring|].
  rewrite IH; ring.
Qed.

Lemma ks_sum_phase_sum (k m : R) (samples : list ks_sample) :
  ks_sum_phase k m samples =
  sumR (map (fun s => ks_detw s * exp (k * (ks_fval s - m))) samples).
Proof. unfold ks_sum_phase, ks_sum_step; rewrite fold_left_sum; ring. Qed.

Lemma sumR_le (f g : ks_sample -> R) (l : list ks_sample) :
  (forall s, In s l -> f s <= g s) -> sumR (map f l) <= sumR (map g l).
Proof.
  induction l as [|x l IH]; intros H; simpl; [lra|].
  apply Rplus_le_compat; [apply H; left; reflexivity|apply IH; intros; apply H; right; auto].
Qed.

Lemma sumR_nonneg (f : ks_sample -> R) (l : list ks_sample) :
  (forall s, In s l -> 0 <= f s) -> 0 <= sumR (map f l).
Proof.
  induction l as [|x l IH]; intros H; simpl; [lra|].
  pose proof (H x (or_introl eq_refl)); pose proof (IH (fun s Hs => H s (or_intror Hs))); lra.
Qed.

(** A sum of non-negative terms bounds each of them. *)
Lemma sumR_ge_member (f : ks_sample -> R) (l : list ks_sample) (s : ks_sample) :
  (forall x, In x l -> 0 <= f x) -> In s l -> f s <= sumR (map f l).
Proof.
  induction l as [|x l IH]; intros H Hs; [destruct Hs|]; simpl.
  destruct Hs as [<-|Hs].
  - pose proof (sumR_nonneg f l (fun y Hy => H y (or_intror Hy))); lra.
  - pose proof (H x (or_introl eq_refl)); pose proof (IH (fun y Hy => H y (or_intror Hy)) Hs); lra.
Qed.

Lemma ks_max_fold_ge (l : list ks_sample) (m : R) :
  m <= fold_left ks_max_step l m /\
  forall s, In s l -> ks_fval s <= fold_left ks_max_step l m.
Proof.
  revert m; induction l as [|x l IH]; intros m; simpl; [split; [lra|tauto]|].
  destruct (IH (ks_max_step m x)) as [H1 H2].
  assert (Hx : m <= ks_max_step m x /\ ks_fval x <= ks_max_step m x)
    by (unfold ks_max_step; destruct (Rlt_dec m (ks_fval x)); lra).
  split; [lra|]; intros s [<-|Hs]; [lra|auto].
Qed.

Lemma ks_max_fold_attained (l : list ks_sample) (m : R) :
  fold_left ks_max_step l m = m \/
  exists s, In s l /\ ks_fval s = fold_left ks_max_step l m.
Proof.
  revert m; induction l as [|x l IH]; intros m; simpl; [left; reflexivity|].
  destruct (IH (ks_max_step m x)) as [H|(s & Hs & Heq)].
  - rewrite H; unfold ks_max_step; destruct (Rlt_dec m (ks_fval x)); [|left; reflexivity].
    right; exists x; split; [left|]; reflexivity.
  - right; exists s; split; [right|]; assumption.
Qed.

(** The first sweep returns the largest failure value once some sample
    exceeds the initial [-1e20]. *)
Lemma ks_max_phase_spec (samples : list ks_sample) :
  (exists s, In s samples /\ ks_max_init < ks_fval s) ->
  (forall s, In s samples -> ks_fval s <= ks_max_phase samples) /\
  exists s, In s samples /\ ks_fval s = ks_max_phase samples.
Proof.
  intros (s0 & Hs0 & Hlt); unfold ks_max_phase.
  destruct (ks_max_fold_ge samples ks_max_init) as [H1 H2].
  split; [exact H2|].
  destruct (ks_max_fold_attained samples ks_max_init) as [H|H]; [|exact H].
  pose proof (H2 s0 Hs0); lra.
Qed.

Lemma ln_le_mono (x y : R) : 0 < x -> x <= y -> ln x <= ln y.
Proof.
  intros Hx Hxy; destruct (Rle_lt_or_eq_dec x y Hxy) as [H|H];
    [left; apply ln_increasing; assumption|rewrite H; right; reflexivity].
Qed.

(** The sum of the second sweep lies between the weight of a maximising
    sample and the total weight. *)
Lemma ks_sum_bounds (k : R) (samples : list ks_sample) (s : ks_sample) :
  0 < k -> (forall x, In x samples -> 0 <= ks_detw x) ->
  (forall x, In x samples -> ks_fval x <= ks_max_phase samples) ->
  In s samples -> ks_fval s = ks_max_phase samples ->
  ks_detw s <= ks_sum_phase k (ks_max_phase samples) samples <=
  sumR (map ks_detw samples).
Proof.
  intros Hk Hw Hm Hs Hsm; rewrite ks_sum_phase_sum; split.
  - set (f := fun x => ks_detw x * exp (k * (ks_fval x - ks_max_phase samples))).
    replace (ks_detw s) with (f s)
      by (unfold f; rewrite Hsm; replace (k * _) with 0 by ring; rewrite exp_0; ring).
    apply sumR_ge_member; [|exact Hs].
    intros x Hx; unfold f; pose proof (exp_pos (k * (ks_fval x - ks_max_phase samples))).
    pose proof (Hw x Hx); nra.
  - apply sumR_le; intros x Hx.
    assert (He : exp (k * (ks_fval x - ks_max_phase samples)) <= 1).
    { rewrite <- exp_0; pose proof (Hm x Hx).
      destruct (Rle_lt_or_eq_dec (k * (ks_fval x - ks_max_phase samples)) 0) as [Hl|Hl];
        [nra|left; apply exp_increasing, Hl|rewrite Hl; right; reflexivity]. }
    pose proof (Hw x Hx); pose proof (exp_pos (k * (ks_fval x - ks_max_phase samples))); nra.
Qed.

Lemma ks_max_init_neg : ks_max_init < 0.
Proof.
  unfold ks_max_init; assert (H : 0 < IZR (10 ^ 20)) by (apply IZR_lt; reflexivity); lra.
Qed.

Lemma sumR_pos (l : list ks_sample) (s : ks_sample) :
  (forall x, In x l -> 0 < ks_detw x) -> In s l -> 0 < sumR (map ks_detw l).
Proof.
  intros H Hs; pose proof (H s Hs).
  pose proof (sumR_ge_member ks_detw l s (fun x Hx => Rlt_le _ _ (H x Hx)) Hs); lra.
Qed.

(** Bounds of the KS functional: for a positive weight [k], positive
    sample weights [detJ*w] and some failure value above [-1e20], the
    functional lies between [ks_max + log(w_s)/k], for a sample [s]
    attaining the maximum, and [ks_max + log(W)/k], [W] the total weight. *)
Theorem ks_func_val_bounds (k : R) (samples : list ks_sample) :
  0 < k -> (forall x, In x samples -> 0 < ks_detw x) ->
  (exists s, In s samples /\ ks_max_init < ks_fval s) ->
  exists s, In s samples /\ ks_fval s = ks_max_phase samples /\
    ks_max_phase samples + ln (ks_detw s) / k <= ks_func_val k samples <=
    ks_max_phase samples + ln (sumR (map ks_detw samples)) / k.
Proof.
  intros Hk Hw Hex.
  destruct (ks_max_phase_spec samples Hex) as [Hm (s & Hs & Hsm)].
  exists s; split; [exact Hs|]; split; [exact Hsm|].
  destruct (ks_sum_bounds k samples s Hk (fun x Hx => Rlt_le _ _ (Hw x Hx)) Hm Hs Hsm)
    as [Hlo Hhi].
  pose proof (Hw s Hs) as Hws.
  assert (Hik : 0 < / k) by (apply Rinv_0_lt_compat, Hk).
  unfold ks_func_val; unfold Rdiv; split; apply Rplus_le_compat_l, Rmult_le_compat_r; try lra;
    apply ln_le_mono; lra.
Qed.

Lemma ks_func_val_bounds_witness :
  0 < 10 /\ (forall x, In x [mkSample 1 (1/2); mkSample 0 (1/4)] -> 0 < ks_detw x) /\
  (exists s, In s [mkSample 1 (1/2); mkSample 0 (1/4)] /\ ks_max_init < ks_fval s) /\
  exists s, In s [mkSample 1 (1/2); mkSample 0 (1/4)] /\
    ks_fval s = ks_max_phase [mkSample 1 (1/2); mkSample 0 (1/4)] /\
    ks_max_phase [mkSample 1 (1/2); mkSample 0 (1/4)] + ln (ks_detw s) / 10 <=
    ks_func_val 10 [mkSample 1 (1/2); mkSample 0 (1/4)] <=
    ks_max_phase [mkSample 1 (1/2); mkSample 0 (1/4)] +
      ln (sumR (map ks_detw [mkSample 1 (1/2); mkSample 0 (1/4)])) / 10.
Proof.
  assert (Hw : forall x, In x [mkSample 1 (1/2); mkSample 0 (1/4)] -> 0 < ks_detw x)
    by (intros x [<-|[<-|[]]]; simpl; lra).
  assert (Hex : exists s, In s [mkSample 1 (1/2); mkSample 0 (1/4)] /\ ks_max_init < ks_fval s)
    by (exists (mkSample 1 (1/2)); split; [left; reflexivity|pose proof ks_max_init_neg; simpl; lra]).
  split; [lra|]; split; [exact Hw|]; split; [exact Hex|].
  exact (ks_func_val_bounds 10 _ ltac:(lra) Hw Hex).
Defined.

(** Limit of the KS functional (spec, testable property 5): under
    the same hypotheses, the functional tends to the largest failure
    value as the weight [k] grows. *)
Theorem ks_func_val_limit (samples : list ks_sample) :
  (forall x, In x samples -> 0 < ks_detw x) ->
  (exists s, In s samples /\ ks_max_init < ks_fval s) ->
  forall eps, 0 < eps -> exists K, 0 < K /\
    forall k, K <= k -> Rabs (ks_func_val k samples - ks_max_phase samples) < eps.
Proof.
  intros Hw Hex eps Heps.
  destruct (ks_max_phase_spec samples Hex) as [Hm (s & Hs & Hsm)].
  set (C := Rabs (ln (ks_detw s)) + Rabs (ln (sumR (map ks_detw samples)))).
  assert (HC : 0 <= C) by (unfold C; pose proof (Rabs_pos (ln (ks_detw s)));
                           pose proof (Rabs_pos (ln (sumR (map ks_detw samples)))); lra).
  exists ((C + 1) / eps); split; [apply Rdiv_lt_0_compat; lra|].
  intros k Hk.
  assert (Hk0 : 0 < k) by (apply Rlt_le_trans with ((C + 1) / eps); [apply Rdiv_lt_0_compat|]; lra).
  destruct (ks_sum_bounds k samples s Hk0 (fun x Hx => Rlt_le _ _ (Hw x Hx)) Hm Hs Hsm)
    as [Hlo Hhi].
  pose proof (Hw s Hs) as Hws.
  assert (Hln : Rabs (ln (ks_sum_phase k (ks_max_phase samples) samples)) <= C).
  { pose proof (ln_le_mono _ _ Hws Hlo); pose proof (ln_le_mono _ _ (Rlt_le_trans _ _ _ Hws Hlo) Hhi).
    unfold C; pose proof (Rle_abs (ln (sumR (map ks_detw samples)))).
    pose proof (Rabs_pos (ln (ks_detw s))); pose proof (Rabs_pos (ln (sumR (map ks_detw samples)))).
    pose proof (Rle_abs (- ln (ks_detw s))) as Hn; rewrite Rabs_Ropp in Hn.
    apply Rabs_le; lra. }
  unfold ks_func_val; cbv zeta.
  replace (ks_max_phase samples + ln (ks_sum_phase k (ks_max_phase samples) samples) / k
           - ks_max_phase samples)
    with (ln (ks_sum_phase k (ks_max_phase samples) samples) / k) by ring.
  unfold Rdiv; rewrite Rabs_mult, (Rabs_pos_eq (/ k)) by (left; apply Rinv_0_lt_compat, Hk0).
  apply Rle_lt_trans with (C * / k); [apply Rmult_le_compat_r; [left; apply Rinv_0_lt_compat|]; lra|].
  apply Rmult_lt_reg_r with k; [exact Hk0|].
  rewrite Rmult_assoc, Rinv_l by lra.
  unfold Rdiv in Hk; apply Rmult_le_compat_r with (r := eps) in Hk; [|lra].
  rewrite Rmult_assoc, Rinv_l in Hk by lra; lra.
Qed.

Lemma ks_func_val_limit_witness :
  (forall x, In x [mkSample 1 (1/2)] -> 0 < ks_detw x) /\
  (exists s, In s [mkSample 1 (1/2)] /\ ks_max_init < ks_fval s) /\ 0 < 1 /\
  exists K, 0 < K /\ forall k, K <= k ->
    Rabs (ks_func_val k [mkSample 1 (1/2)] - ks_max_phase [mkSample 1 (1/2)]) < 1.
Proof.
  assert (Hw : forall x, In x [mkSample 1 (1/2)] -> 0 < ks_detw x)
    by (intros x [<-|[]]; simpl; lra).
  assert (Hex : exists s, In s [mkSample 1 (1/2)] /\ ks_max_init < ks_fval s)
    by (exists (mkSample 1 (1/2)); split; [left; reflexivity|pose proof ks_max_init_neg; simpl; lra]).
  split; [exact Hw|]; split; [exact Hex|]; split; [lra|].
  exact (ks_func_val_limit _ Hw Hex 1 ltac:(lra)).
Defined.

(** (C39) The KS functional is not an upper bound on the maximum (spec
    glossary: "a smooth differentiable upper bound on a maximum"): the
    samples are weighted by [detJ*w], and whenever the total weight is
    below one the functional is strictly below the largest failure value,
    for every [k > 0]. *)
Theorem ks_func_val_below_max (k : R) (samples : list ks_sample) :
  0 < k -> (forall x, In x samples -> 0 < ks_detw x) ->
  (exists s, In s samples /\ ks_max_init < ks_fval s) ->
  sumR (map ks_detw samples) < 1 ->
  ks_func_val k samples < ks_max_phase samples.
Proof.
  intros Hk Hw Hex HW.
  destruct (ks_max_phase_spec samples Hex) as [Hm (s & Hs & Hsm)].
  destruct (ks_sum_bounds k samples s Hk (fun x Hx => Rlt_le _ _ (Hw x Hx)) Hm Hs Hsm)
    as [Hlo Hhi].
  pose proof (Hw s Hs) as Hws.
  assert (Hln : ln (ks_sum_phase k (ks_max_phase samples) samples) < 0).
  { rewrite <- ln_1; apply ln_increasing; lra. }
  unfold ks_func_val; cbv zeta.
  assert (Hq : ln (ks_sum_phase k (ks_max_phase samples) samples) / k < 0).
  { unfold Rdiv; assert (0 < / k) by (apply Rinv_0_lt_compat, Hk); nra. }
  lra.
Qed.

Lemma ks_func_val_below_max_witness :
  0 < 10 /\ (forall x, In x [mkSample 1 (1/2)] -> 0 < ks_detw x) /\
  (exists s, In s [mkSample 1 (1/2)] /\ ks_max_init < ks_fval s) /\
  sumR (map ks_detw [mkSample 1 (1/2)]) < 1 /\
  ks_func_val 10 [mkSample 1 (1/2)] < ks_max_phase [mkSample 1 (1/2)].
Proof.
  assert (Hw : forall x, In x [mkSample 1 (1/2)] -> 0 < ks_detw x)
    by (intros x [<-|[]]; simpl; lra).
  assert (Hex : exists s, In s [mkSample 1 (1/2)] /\ ks_max_init < ks_fval s)
    by (exists (mkSample 1 (1/2)); split; [left; reflexivity|pose proof ks_max_init_neg; simpl; lra]).
  assert (HW : sumR (map ks_detw [mkSample 1 (1/2)]) < 1) by (simpl; lra).
  split; [lra|]; split; [exact Hw|]; split; [exact Hex|]; split; [exact HW|].
  exact (ks_func_val_below_max 10 _ ltac:(lra) Hw Hex HW).
Defined.

(** The KS functional need not decrease towards the maximum as [k]
    grows (spec, scenario S3: "monotone non-increasing toward 1.0"): for
    a single sample of failure value [f] and weight [w < 1] it is
    [f + log(w)/k], strictly increasing in [k]. *)
Theorem ks_func_val_increasing_single (f w k1 k2 : R) :
  ks_max_init < f -> 0 < w < 1 -> 0 < k1 < k2 ->
  ks_func_val k1 [mkSample f w] < ks_func_val k2 [mkSample f w].
Proof.
  intros Hf Hw Hk.
  assert (Hm : ks_max_phase [mkSample f w] = f)
    by (unfold ks_max_phase, ks_max_step; simpl; destruct (Rlt_dec ks_max_init f); lra).
  assert (Hs : forall k, ks_sum_phase k f [mkSample f w] = w).
  { intros k; unfold ks_sum_phase, ks_sum_step; simpl.
    replace (k * (f - f)) with 0 by ring; rewrite exp_0; ring. }
  unfold ks_func_val; cbv zeta; rewrite Hm, !Hs.
  assert (Hln : ln w < 0) by (rewrite <- ln_1; apply ln_increasing; lra).
  assert (Hinv : / k2 < / k1) by (apply Rinv_lt_contravar; nra).
  unfold Rdiv; nra.
Qed.

Lemma ks_func_val_increasing_single_witness :
  ks_max_init < 1 /\ 0 < 1/2 < 1 /\ 0 < 10 < 100 /\
  ks_func_val 10 [mkSample 1 (1/2)] < ks_func_val 100 [mkSample 1 (1/2)].
Proof.
  assert (Hf : ks_max_init < 1) by (pose proof ks_max_init_neg; lra).
  split; [exact Hf|]; split; [lra|]; split; [lra|].
  exact (ks_func_val_increasing_single 1 (1/2) 10 100 Hf ltac:(lra) ltac:(lra)).
Defined.

End KSFacts.
