(* ===== verification/Estimators.v ===== *)
(** * C6(a, b): the error estimators

    [SE] models [TMR_StrainEnergyErrorEst] for octree forests
    (src/src/TMRGeometry.c, lines 2934-3088).  It computes the nodal
    weights and derivatives of the solution, then for every element reads
    the nodal derivatives, reconstructs the enrichment block, evaluates the
    enrichment part of the reconstruction at the refined knots into
    [vars_interp], and hands the element's [computeEnergies] the arrays
    [vars_elem] and [dvars].  Neither of those is ever written in the 3D
    function (the 2D version fills [vars_elem] from the assembler and
    passes [vars_interp]); the model carries their contents as the
    arguments [vars_elem0] and [dvars0].

    [Adj] models [TMR_AdjointErrorEst] for octree forests (lines
    3375-3535): a first sweep deposits each element's localised error
    (and that of the auxiliary elements bound to it) into a nodal error
    vector and into the adjoint correction; a second sweep reads the
    nodal error back and takes an eighth of the absolute sum at the eight
    corner nodes as the element indicator.  [corner_loop2D] models the
    corner loop of the quadtree version (lines 3324-3328), whose step is
    [refined_order - 1].

    The element collaborator ([computeEnergies], [addLocalizedError]) is a
    parameter; with one process the reductions are the identity.

    The theorems show that the 3D strain-energy indicators do not depend on
    the solution at all, that the nodal error field of the adjoint
    estimator carries exactly the adjoint correction, that every
    auxiliary element is visited when their list is sorted, and when the
    2D corner loop terminates. *)

From Stdlib Require Import PeanoNat ZArith QArith Qring Qabs List Lia Lqa Sorted.
From S2P Require Import Prelude Enrichment Interp NodeVec NodeDeriv.
Import ListNotations.
Open Scope Q_scope.
Open Scope tmr_scope.

Module SE.
Import Enrich Forest BVec Weights NodeDeriv.

(** [vars_interp]: the enrichment part of the reconstruction at the
    refined knots; the [else] branch takes the order-3 functions for every
    order other than 2. *)
Definition se_vars_interp (order rorder vpn : nat) (ubar : list Q) : list Q :=
  let rknots := getInterpKnots rorder in
  let nenrich := getNum3dEnrich order in
  flat_map (fun q => let '(n, m, p) := q in
              let pt := (nth n rknots 0, nth m rknots 0, nth p rknots 0) in
              let Nr := if Nat.eqb order 2 then eval2ndEnrichmentFuncs3D pt
                        else eval3rdEnrichmentFuncs3D pt in
              map (fun kk => sumQ (map (fun k => nth (vpn * k + kk) ubar 0 * nth k Nr 0)
                                       (seq 0 nenrich)))
                  (seq 0 vpn))
           (knot_positions3D rorder).

(** One element of the loop: the running total and the indicators. *)
Definition se_elem (computeEnergies : nat -> list Q -> list Q -> list Q -> Q * Q)
  (recon : list Q -> list Q -> list Q -> list Q) (vars_elem0 dvars0 : list Q)
  (deps : dep_table) (order rorder vpn : nat) (conn : list (list Z))
  (rXpts_of : list (list Q)) (uderiv : bvec) (st : Q * list Q) (i : nat) : Q * list Q :=
  let '(total, error) := st in
  let nodes := nth i conn [] in
  let delem := getValues deps uderiv nodes in
  let Xpts := nth i rXpts_of [] in
  let ubar := recon Xpts vars_elem0 delem in
  let vars_interp := se_vars_interp order rorder vpn ubar in
  let '(Te, Pe) := computeEnergies i Xpts vars_elem0 dvars0 in
  (total + Qabs Pe, error ++ [Qabs Pe]).

(** [TMR_StrainEnergyErrorEst(forest, tacs, refined_forest, refined_tacs,
    error)]: the total and the array [error]. *)
Definition TMR_StrainEnergyErrorEst3D (computeEnergies : nat -> list Q -> list Q -> list Q -> Q * Q)
  (recon : list Q -> list Q -> list Q -> list Q) (vars_elem0 dvars0 : list Q)
  (deps : dep_table) (order rorder vpn : nat) (conn : list (list Z))
  (Xpts_of rXpts_of : list (list Q)) (uvec weights uderiv : bvec) : Q * list Q :=
  let weights' := computeLocalWeights deps conn None weights in
  let uderiv' := computeNodeDeriv3D deps order vpn conn Xpts_of uvec weights' uderiv None in
  fold_left (se_elem computeEnergies recon vars_elem0 dvars0 deps order rorder vpn conn
               rXpts_of uderiv')
            (seq 0 (length conn)) (0, []).

End SE.

Module Adj.
Import Forest BVec.

(** An auxiliary element: the element number it is bound to and its
    [addLocalizedError(time, err, adj, Xpts, vars)]. *)
Definition aux_elem := (nat * (list Q -> list Q -> list Q -> list Q -> list Q))%type.

(** [while (aux_count < num_aux_elems && aux[aux_count].num == elem)]:
    the error buffer and the auxiliary elements left. *)
Fixpoint consume_aux (elem : nat) (aux : list aux_elem) (err adj Xpts vars : list Q)
  : list Q * list aux_elem :=
  match aux with
  | [] => (err, [])
  | (num, f) :: rest =>
      if Nat.eqb num elem then consume_aux elem rest (f err adj Xpts vars) adj Xpts vars
      else (err, aux)
  end.

(** [memset(err, 0, element->numNodes()*sizeof(TacsScalar))] *)
Definition zero_prefix (n : nat) (err : list Q) : list Q :=
  repeat 0 n ++ skipn n err.

(** The state of the first sweep: the error buffer, the auxiliary
    elements left, the adjoint correction and the nodal error vector. *)
Record adj_state := mkAdjState
  { st_err : list Q; st_aux : list aux_elem; st_corr : Q; st_nodal : bvec }.

Definition adj_first_elem
  (addLocalizedError : nat -> list Q -> list Q -> list Q -> list Q -> list Q)
  (numNodes : nat -> nat) (deps_ref : dep_table) (rconn : list (list Z))
  (rXpts_of : list (list Q)) (solution_refined adjoint_refined : bvec)
  (st : adj_state) (elem : nat) : adj_state :=
  let refine_nodes := nth elem rconn [] in
  let Xpts := nth elem rXpts_of [] in
  let vars_interp := getValues deps_ref solution_refined refine_nodes in
  let adj_interp := getValues deps_ref adjoint_refined refine_nodes in
  let err0 := zero_prefix (numNodes elem) (st_err st) in
  let err1 := addLocalizedError elem err0 adj_interp Xpts vars_interp in
  let '(err2, aux') := consume_aux elem (st_aux st) err1 adj_interp Xpts vars_interp in
  mkAdjState err2 aux'
    (st_corr st + sumQ (map (fun i => nth i err2 0) (seq 0 (numNodes elem))))
    (setValues_add deps_ref (st_nodal st) refine_nodes err2).

(** The corner nodes of the refined element. *)
Definition corner_index3D (rorder i j k : nat) : nat :=
  ((rorder - 1) * i + (rorder - 1) * j * rorder + (rorder - 1) * k * rorder * rorder)%nat.

Definition corner_estimate3D (rorder : nat) (err : list Q) : Q :=
  sumQ (flat_map (fun k => flat_map (fun j => map (fun i => nth (corner_index3D rorder i j k) err 0)
                                               (seq 0 2)) (seq 0 2)) (seq 0 2)).

Definition adj_second_elem (deps_ref : dep_table) (rorder : nat) (rconn : list (list Z))
  (nodal_error : bvec) (st : Q * list Q) (elem : nat) : Q * list Q :=
  let '(total, error) := st in
  let err := getValues deps_ref nodal_error (nth elem rconn []) in
  let e := (1 # 8) * Qabs (corner_estimate3D rorder err) in
  (total + e, error ++ [e]).

(** [TMR_AdjointErrorEst(forest, tacs, forest_refined, tacs_refined,
    solution_refined, adjoint_refined, error, adj_corr)]: the returned
    error, the correction [adj_corr], the indicators, and the nodal error
    vector. *)
Definition TMR_AdjointErrorEst3D
  (addLocalizedError : nat -> list Q -> list Q -> list Q -> list Q -> list Q)
  (numNodes : nat -> nat) (aux : list aux_elem) (deps_ref : dep_table) (rorder : nat)
  (rconn : list (list Z)) (rXpts_of : list (list Q)) (solution_refined adjoint_refined : bvec)
  : Q * Q * list Q * bvec :=
  let nelems := length rconn in
  let st := fold_left (adj_first_elem addLocalizedError numNodes deps_ref rconn rXpts_of
                         solution_refined adjoint_refined)
                      (seq 0 nelems)
                      (mkAdjState (repeat 0 (rorder * rorder * rorder)) aux 0
                                  (mkBVec 1 (fun _ _ => 0))) in
  let '(total, error) := fold_left (adj_second_elem deps_ref rorder rconn (st_nodal st))
                                   (seq 0 nelems) (0, []) in
  (total, st_corr st, error, st_nodal st).

(** The quadtree corner loop [for (j = 0; j < refined_order; j +=
    refined_order-1)], run with [fuel] iterations at most: the indices it
    visits, or [None] when the fuel runs out first. *)
Fixpoint corner_loop2D (fuel rorder j : nat) : option (list nat) :=
  match fuel with
  | O => None
  | S fuel' =>
      if Nat.ltb j rorder
      then match corner_loop2D fuel' rorder (j + (rorder - 1)) with
           | Some l => Some (j :: l)
           | None => None
           end
      else Some []
  end.

End Adj.

Module SEFacts.
Import SE.

Lemma fold_left_ext_in {A B} (f g : A -> B -> A) (l : list B) (a : A) :
  (forall x b, In b l -> f x b = g x b) -> fold_left f l a = fold_left g l a.
Proof.
  revert a; induction l as [|b l IH]; intros a H; simpl; [reflexivity|].
  rewrite (H a b (or_introl eq_refl)); apply IH; intros; apply H; right; auto.
Qed.

(** (C7) The 3D strain-energy indicators do not see the solution: the
    arrays [vars_elem] and [dvars] handed to [computeEnergies] are never
    written and the reconstruction [vars_interp] is never used, so
    [TMR_StrainEnergyErrorEst] returns the same total and the same
    element indicators for any two solution vectors. *)
Theorem TMR_StrainEnergyErrorEst3D_indep computeEnergies recon vars_elem0 dvars0 deps
  order rorder vpn conn Xpts_of rXpts_of (uvec uvec' weights uderiv : BVec.bvec) :
  TMR_StrainEnergyErrorEst3D computeEnergies recon vars_elem0 dvars0 deps order rorder vpn
    conn Xpts_of rXpts_of uvec weights uderiv =
  TMR_StrainEnergyErrorEst3D computeEnergies recon vars_elem0 dvars0 deps order rorder vpn
    conn Xpts_of rXpts_of uvec' weights uderiv.
Proof.
  unfold TMR_StrainEnergyErrorEst3D; cbv zeta.
  apply fold_left_ext_in; intros [total error] i _; reflexivity.
Qed.

End SEFacts.

Module AdjFacts.
Import Forest BVec BVecFacts Adj.

(** The total of the first [N] nodes of a one-component vector. *)
Definition nodal_mass (N : nat) (v : bvec) : Q := sumQ (map (fun n => val v n 0) (seq 0 N)).

(** A slot delivers all of its value to the first [N] nodes: an
    independent node below [N], or a dependent node whose table weights
    sum to one over nodes below [N]. *)
Definition slot_ok (deps : dep_table) (N : nat) (n : Z) : Prop :=
  if (0 <=? n)%Z then (Z.to_nat n < N)%nat
  else sumQ (map snd (dep_of deps n)) == 1 /\ Forall (fun mw => (fst mw < N)%nat) (dep_of deps n).

Lemma slot_weight_total (deps : dep_table) (N : nat) (n : Z) :
  slot_ok deps N n -> sumQ (map (fun m => slot_weight deps n m) (seq 0 N)) == 1.
Proof.
  unfold slot_ok, slot_weight; destruct (0 <=? n)%Z.
  - intros H.
    rewrite (sumQ_map_ext _ (fun m => (if Nat.eqb (Z.to_nat n) m then 1 else 0) * (fun _ => 1) m))
      by (intros; ring).
    exact (sumQ_delta N (Z.to_nat n) (fun _ => 1) H).
  - intros [Hs Hf]; rewrite Forall_forall in Hf.
    rewrite (sumQ_map_ext _ (fun m => sumQ (map (fun mw => (if Nat.eqb (fst mw) m then 1 else 0)
                                                        * snd mw) (dep_of deps n))))
      by (intros m _; apply sumQ_map_ext; intros mw _; destruct (Nat.eqb (fst mw) m); ring).
    rewrite sumQ_swap, <- Hs; apply sumQ_map_ext; intros mw Hmw.
    exact (sumQ_delta N (fst mw) (fun _ => snd mw) (Hf mw Hmw)).
Qed.

(** Adding an array through slots that are all [slot_ok] adds its total
    to the mass. *)
Lemma nodal_mass_setValues_add (deps : dep_table) (N : nat) (v : bvec) (nodes : list Z)
  (data : list Q) :
  bsize v = 1%nat ->
  (forall k, (k < length nodes)%nat -> slot_ok deps N (nth k nodes 0%Z)) ->
  nodal_mass N (setValues_add deps v nodes data) ==
  nodal_mass N v + sumQ (map (fun k => nth k data 0) (seq 0 (length nodes))).
Proof.
  intros Hb Hs; unfold nodal_mass.
  rewrite (sumQ_map_ext _ (fun n => val v n 0 + sumQ (map (fun k => slot_weight deps (nth k nodes 0%Z) n
                                                              * nth (bsize v * k + 0) data 0)
                                                         (seq 0 (length nodes)))))
    by (intros; apply setValues_add_val; lia).
  rewrite sumQ_map_add, sumQ_swap; apply Qplus_comp; [reflexivity|].
  apply sumQ_map_ext; intros k Hk; apply in_seq in Hk.
  rewrite (sumQ_map_scale_r (nth (bsize v * k + 0) data 0) (fun m => slot_weight deps (nth k nodes 0%Z) m)).
  rewrite slot_weight_total by (apply Hs; lia).
  rewrite Hb, Nat.mul_1_l, Nat.add_0_r; ring.
Qed.

(** The element hypotheses of the conservation property: the element's
    [numNodes] is the length of its node list and its slots deliver to the
    first [N] nodes. *)
Definition adj_elem_ok (deps_ref : dep_table) (N : nat) (numNodes : nat -> nat)
  (rconn : list (list Z)) (e : nat) : Prop :=
  numNodes e = length (nth e rconn []) /\
  forall k, (k < length (nth e rconn []))%nat -> slot_ok deps_ref N (nth k (nth e rconn []) 0%Z).

Lemma adj_first_fold_mass addLocalizedError numNodes deps_ref (N : nat) rconn rXpts_of
  solution_refined adjoint_refined (elems : list nat) (st : adj_state) :
  bsize (st_nodal st) = 1%nat ->
  (forall e, In e elems -> adj_elem_ok deps_ref N numNodes rconn e) ->
  let st' := fold_left (adj_first_elem addLocalizedError numNodes deps_ref rconn rXpts_of
                          solution_refined adjoint_refined) elems st in
  bsize (st_nodal st') = 1%nat /\
  nodal_mass N (st_nodal st') - st_corr st' == nodal_mass N (st_nodal st) - st_corr st.
Proof.
  revert st; induction elems as [|e l IH]; intros st Hb He; cbv zeta; cbn [fold_left];
    [split; [exact Hb|reflexivity]|].
  destruct (He e (or_introl eq_refl)) as [Hn Hs].
  set (st1 := adj_first_elem addLocalizedError numNodes deps_ref rconn rXpts_of
                solution_refined adjoint_refined st e).
  assert (H1 : bsize (st_nodal st1) = 1%nat /\
               nodal_mass N (st_nodal st1) - st_corr st1 == nodal_mass N (st_nodal st) - st_corr st).
  { unfold st1, adj_first_elem; cbv zeta.
    destruct (consume_aux _ _ _ _ _ _) as [err2 aux']; cbn [st_nodal st_corr].
    split; [rewrite setValues_add_bsize; exact Hb|].
    rewrite nodal_mass_setValues_add by assumption; rewrite Hn; ring. }
  destruct H1 as [Hb1 Hm1].
  destruct (IH st1 Hb1 (fun e' He' => He e' (or_intror He'))) as [Hb2 Hm2].
  split; [exact Hb2|]; rewrite Hm2; exact Hm1.
Qed.

Lemma adj_second_fold_total deps_ref rorder rconn nodal (elems : list nat) (st : Q * list Q) :
  let st' := fold_left (adj_second_elem deps_ref rorder rconn nodal) elems st in
  fst st' - sumQ (snd st') == fst st - sumQ (snd st).
Proof.
  revert st; induction elems as [|e l IH]; intros [t err]; cbv zeta; cbn [fold_left];
    [reflexivity|].
  rewrite IH; unfold adj_second_elem; cbn [fst snd]; rewrite sumQ_app; simpl; ring.
Qed.

(** (C4) Conservation in the adjoint error estimator (spec, scenario
    S5): when every element's [numNodes] is its number of refined nodes
    and every slot delivers its value to the first [N] nodes (a dependent
    node's weights summing to one), the nodal error vector holds in its
    first [N] nodes exactly the adjoint correction [adj_corr], and the
    returned error is the sum of the element indicators. *)
Theorem TMR_AdjointErrorEst3D_conservation addLocalizedError numNodes aux deps_ref rorder
  rconn rXpts_of solution_refined adjoint_refined (N : nat) :
  (forall e, (e < length rconn)%nat -> adj_elem_ok deps_ref N numNodes rconn e) ->
  let r := TMR_AdjointErrorEst3D addLocalizedError numNodes aux deps_ref rorder rconn rXpts_of
             solution_refined adjoint_refined in
  nodal_mass N (snd r) == snd (fst (fst r)) /\ fst (fst (fst r)) == sumQ (snd (fst r)).
Proof.
  intros He r; unfold r, TMR_AdjointErrorEst3D; cbv zeta.
  destruct (adj_first_fold_mass addLocalizedError numNodes deps_ref N rconn rXpts_of
              solution_refined adjoint_refined (seq 0 (length rconn))
              (mkAdjState (repeat 0 (rorder * rorder * rorder)) aux 0 (mkBVec 1 (fun _ _ => 0)))
              eq_refl (fun e Hin => He e (proj2 (proj1 (in_seq _ _ _) Hin))))
    as [_ Hm].
  set (st := fold_left _ _ _) in *.
  pose proof (adj_second_fold_total deps_ref rorder rconn (st_nodal st) (seq 0 (length rconn))
                (0, [])) as Ht; cbv zeta in Ht.
  destruct (fold_left (adj_second_elem deps_ref rorder rconn (st_nodal st)) _ _) as [total error].
  cbn [fst snd] in *; split.
  - assert (H0 : nodal_mass N (mkBVec 1 (fun _ _ => 0)) == 0)
      by (unfold nodal_mass; apply sumQ_map_zero; reflexivity).
    cbn [st_nodal st_corr] in Hm; rewrite H0 in Hm; lra.
  - simpl in Ht; lra.
Qed.


Section AuxConsumption.
Variables (addLocalizedError : nat -> list Q -> list Q -> list Q -> list Q -> list Q)
  (numNodes : nat -> nat) (deps_ref : dep_table) (rconn : list (list Z))
  (rXpts_of : list (list Q)) (solution_refined adjoint_refined : bvec).

(** What the first sweep keeps of the auxiliary list before element [e]:
    sorted, bound to elements from [e] on, and a part of the list given. *)
Definition aux_inv (aux0 : list aux_elem) (e : nat) (aux : list aux_elem) : Prop :=
  Sorted le (map fst aux) /\ Forall (fun a => (e <= fst a)%nat) aux /\ incl aux aux0.

Lemma consume_aux_inv (e : nat) (aux : list aux_elem) err adj Xpts vars :
  Sorted le (map fst aux) -> Forall (fun a => (e <= fst a)%nat) aux ->
  let aux' := snd (consume_aux e aux err adj Xpts vars) in
  Sorted le (map fst aux') /\ Forall (fun a => (S e <= fst a)%nat) aux' /\ incl aux' aux.
Proof.
  revert err; induction aux as [|[num f] rest IH]; intros err Hs Hf; cbv zeta; cbn.
  - repeat split; constructor || apply incl_refl.
  - inversion Hf as [|? ? Hnum Hrest]; subst; cbn in Hnum.
    apply Sorted_StronglySorted in Hs as Hss; [|exact Nat.le_trans].
    inversion Hss as [|? ? Hss' Hall]; subst.
    destruct (Nat.eqb_spec num e) as [->|Hne].
    + destruct (IH (f err adj Xpts vars)) as (H1 & H2 & H3);
        [now inversion Hs| exact Hrest |].
      repeat split; [exact H1|exact H2|now apply incl_tl].
    + repeat split; [exact Hs| |apply incl_refl].
      constructor; cbn; [lia|].
      rewrite Forall_map in Hall; eapply Forall_impl; [|exact Hall]; cbn; lia.
Qed.

Lemma adj_first_elem_inv aux0 (st : adj_state) (e : nat) :
  aux_inv aux0 e (st_aux st) ->
  aux_inv aux0 (S e) (st_aux (adj_first_elem addLocalizedError numNodes deps_ref rconn rXpts_of
                                solution_refined adjoint_refined st e)).
Proof.
  intros (Hs & Hf & Hi); unfold adj_first_elem; cbv zeta.
  pose proof (consume_aux_inv e (st_aux st)
                (addLocalizedError e (zero_prefix (numNodes e) (st_err st))
                   (getValues deps_ref adjoint_refined (nth e rconn []))
                   (nth e rXpts_of []) (getValues deps_ref solution_refined (nth e rconn [])))
                (getValues deps_ref adjoint_refined (nth e rconn [])) (nth e rXpts_of [])
                (getValues deps_ref solution_refined (nth e rconn [])) Hs Hf) as (H1 & H2 & H3).
  destruct (consume_aux _ _ _ _ _ _) as [err2 aux']; cbn in *.
  split; [exact H1|split; [exact H2|]]; eapply incl_tran; eassumption.
Qed.

(** (C28) Auxiliary elements (spec, the adjoint estimator): when the
    auxiliary list is sorted by element number and every number is an
    element of the mesh, the first sweep of [TMR_AdjointErrorEst3D]
    applies every auxiliary element: none is left when it ends. *)
Theorem adj_first_sweep_consumes_aux (aux : list aux_elem) (err0 : list Q) (nodal0 : bvec) :
  Sorted le (map fst aux) -> Forall (fun a => (fst a < length rconn)%nat) aux ->
  st_aux (fold_left (adj_first_elem addLocalizedError numNodes deps_ref rconn rXpts_of
                       solution_refined adjoint_refined)
                    (seq 0 (length rconn)) (mkAdjState err0 aux 0 nodal0)) = [].
Proof.
  intros Hs Hlt.
  assert (Hinv : forall n, aux_inv aux n
                   (st_aux (fold_left (adj_first_elem addLocalizedError numNodes deps_ref rconn
                                         rXpts_of solution_refined adjoint_refined)
                                      (seq 0 n) (mkAdjState err0 aux 0 nodal0)))).
  { induction n as [|n IHn].
    - repeat split; [exact Hs| |apply incl_refl].
      apply Forall_forall; intros; lia.
    - rewrite seq_S, fold_left_app; apply adj_first_elem_inv, IHn. }
  destruct (Hinv (length rconn)) as (_ & Hf & Hi).
  destruct (st_aux _) as [|a rest] eqn:E; [reflexivity|exfalso].
  inversion Hf as [|? ? Ha]; subst.
  rewrite Forall_forall in Hlt; specialize (Hlt a (Hi a (or_introl eq_refl))); lia.
Qed.

End AuxConsumption.

(** The loop never ends when [refined_order] is one: [j] stays at zero. *)
Lemma corner_loop2D_one (fuel : nat) : corner_loop2D fuel 1 0 = None.
Proof.
  induction fuel as [|fuel IH]; [reflexivity|]; cbn -[Nat.ltb]; rewrite IH; reflexivity.
Qed.

(** From [j = 0] with [refined_order >= 2] the loop visits [0] and
    [refined_order - 1] and stops. *)
Lemma corner_loop2D_ge2 (ro fuel : nat) :
  corner_loop2D (S (S (S fuel))) (S (S ro)) 0 = Some [0%nat; S ro].
Proof.
  cbn [corner_loop2D].
  rewrite (proj2 (Nat.ltb_lt 0 (S (S ro)))) by lia.
  replace (0 + (S (S ro) - 1))%nat with (S ro) by lia.
  rewrite (proj2 (Nat.ltb_lt (S ro) (S (S ro)))) by lia.
  replace (S ro + (S (S ro) - 1))%nat with (S (S (ro + ro))) by lia.
  rewrite (proj2 (Nat.ltb_ge (S (S (ro + ro))) (S (S ro)))) by lia.
  reflexivity.
Qed.

(** The quadtree corner loop of the 2D adjoint estimator visits
    the indices 0 and [refined_order - 1] and stops within three
    iterations when [refined_order] is at least two, visits nothing when
    it is zero, and never stops when it is one: no amount of fuel gives a
    result. *)
Theorem corner_loop2D_spec (rorder fuel : nat) :
  (3 <= fuel)%nat ->
  corner_loop2D fuel rorder 0 =
  match rorder with O => Some [] | S O => None | _ => Some [0%nat; (rorder - 1)%nat] end.
Proof.
  intros Hf; destruct rorder as [|[|ro]]; [|apply corner_loop2D_one|].
  - destruct fuel; [lia|reflexivity].
  - destruct fuel as [|[|[|fuel]]]; try lia.
    rewrite corner_loop2D_ge2; do 3 f_equal; lia.
Qed.


(** A two-element refined mesh: element 1 shares node 1 with element 0
    and has a dependent node [-1] that splits between nodes 0 and 2. *)
Definition adjw_rconn : list (list Z) := [[0; 1]; [1; -1]]%Z.
Definition adjw_deps : dep_table := [[(0%nat, 1 # 2); (2%nat, 1 # 2)]].
Definition adjw_numNodes (e : nat) : nat := length (nth e adjw_rconn []).
Definition adjw_add (e : nat) (err adj Xpts vars : list Q) : list Q :=
  map (fun x => x + inject_Z (Z.of_nat (S e))) err.
Definition adjw_aux : list aux_elem :=
  [(0%nat, fun err _ _ _ => map (Qmult 2) err); (1%nat, fun err _ _ _ => map (Qplus 1) err);
   (1%nat, fun err _ _ _ => map (Qplus 3) err)].
Definition adjw_zero : bvec := mkBVec 1 (fun _ _ => 0).

Lemma adjw_elems_ok (e : nat) :
  (e < length adjw_rconn)%nat -> adj_elem_ok adjw_deps 3 adjw_numNodes adjw_rconn e.
Proof.
  intros He; split; [reflexivity|].
  destruct e as [|[|e]]; cbn in *; [| |lia]; intros k Hk; destruct k as [|[|k]]; cbn; try lia.
  split; [reflexivity|repeat constructor; cbn; lia].
Qed.

Lemma TMR_AdjointErrorEst3D_conservation_witness :
  (forall e, (e < length adjw_rconn)%nat -> adj_elem_ok adjw_deps 3 adjw_numNodes adjw_rconn e) /\
  (let r := TMR_AdjointErrorEst3D adjw_add adjw_numNodes adjw_aux adjw_deps 2 adjw_rconn []
              adjw_zero adjw_zero in
   nodal_mass 3 (snd r) == snd (fst (fst r)) /\ fst (fst (fst r)) == sumQ (snd (fst r))).
Proof.
  split; [exact adjw_elems_ok|].
  exact (TMR_AdjointErrorEst3D_conservation adjw_add adjw_numNodes adjw_aux adjw_deps 2
           adjw_rconn [] adjw_zero adjw_zero 3 adjw_elems_ok).
Defined.

Lemma adj_first_sweep_consumes_aux_witness :
  Sorted le (map fst adjw_aux) /\ Forall (fun a => (fst a < length adjw_rconn)%nat) adjw_aux /\
  st_aux (fold_left (adj_first_elem adjw_add adjw_numNodes adjw_deps adjw_rconn [] adjw_zero
                       adjw_zero)
                    (seq 0 (length adjw_rconn)) (mkAdjState [0; 0] adjw_aux 0 adjw_zero)) = [].
Proof.
  assert (Hs : Sorted le (map fst adjw_aux)) by (repeat constructor).
  assert (Hf : Forall (fun a => (fst a < length adjw_rconn)%nat) adjw_aux)
    by (repeat constructor; cbn; lia).
  split; [exact Hs|split; [exact Hf|]].
  exact (adj_first_sweep_consumes_aux adjw_add adjw_numNodes adjw_deps adjw_rconn [] adjw_zero
           adjw_zero adjw_aux [0; 0] adjw_zero Hs Hf).
Defined.

Lemma corner_loop2D_spec_witness :
  (3 <= 5)%nat /\ corner_loop2D 5 4 0 = Some [0%nat; 3%nat].
Proof.
  split; [lia|].
  exact (corner_loop2D_spec 4 5 ltac:(lia)).
Defined.

End AdjFacts.
