(* ===== verification/QuadEst.v ===== *)
(** * C6(a, b) for quadtree forests: the 2D error estimators

    [SE2D] models [TMR_StrainEnergyErrorEst] for quadtree forests
    (src/src/TMRGeometry.c, lines 2774-2925): nodal weights and nodal
    derivatives of the solution ([computeLocalWeights],
    [computeNodeDeriv2D]), then for every element the reconstruction
    [computeElemRecon2D] from the element variables and the nodal
    derivatives, the enrichment part of the reconstruction at the refined
    knots ([vars_interp]) and the element's [computeEnergies] on it, with
    [dvars] zeroed.  Unlike the octree version it reads the element
    variables from the assembler and passes [vars_interp].

    [Adj2D] models [TMR_AdjointErrorEst] for quadtree forests (lines
    3203-3355).  Its first sweep is the one of the octree version
    ([Adj.adj_first_elem]); its second sweep takes a quarter of the
    absolute sum of the nodal error at the corner nodes, visited by the
    loop [for (j = 0; j < refined_order; j += refined_order-1)], which
    [Adj.corner_loop2D] runs with fuel.

    The element collaborator ([computeEnergies], [addLocalizedError]) and
    the reconstruction are parameters, as in [Estimators].

    [QuadEstFacts] proves that the quadtree strain-energy estimator
    reports zero error for a field that is constant on every element
    (composing the constant-field lemmas of [NodeDeriv], [Quad] and the
    least-squares contract), and that the quadtree adjoint estimator
    returns for every refined order of at least two, with fuel three,
    indicators that are a quarter of the absolute corner sums, a total
    that is their sum and a nodal error field that carries the adjoint
    correction; with refined order one it never returns. *)

From Stdlib Require Import PeanoNat ZArith QArith Qring Qabs List Lia Lqa.
From S2P Require Import Prelude LeastSquares Enrichment Interp NodeVec NodeDeriv Recon Prolong Quad Estimators.
Import ListNotations.
Open Scope Q_scope.
Open Scope tmr_scope.

Module SE2D.
Import Enrich Forest BVec Weights Prolong Quad.

(** [vars_interp]: the enrichment part of the reconstruction at the
    refined knots [(n, m)], [m] outermost, node [n + m*refined_order]. *)
Definition se_vars_interp2D (order rorder vpn : nat) (ubar : list Q) : list Q :=
  let rknots := getInterpKnots rorder in
  let nenrich := getNum2dEnrich order in
  flat_map (fun q => let '(n, m) := q in
              let Nr := evalEnrichmentFuncs2D order (nth n rknots 0, nth m rknots 0) rknots in
              map (fun kk => sumQ (map (fun k => nth (vpn * k + kk) ubar 0 * nth k Nr 0)
                                       (seq 0 nenrich)))
                  (seq 0 vpn))
           (knot_positions2D rorder).

(** One element of the loop: [vars_elem] is what [getElement(i, NULL,
    vars_elem)] reads from the solution, [delem] the nodal derivatives. *)
Definition se_elem2D (computeEnergies : nat -> list Q -> list Q -> list Q -> Q * Q)
  (recon : list Q -> list Q -> list Q -> list Q) (deps : dep_table) (order rorder vpn : nat)
  (conn : list (list Z)) (rXpts_of : list (list Q)) (uvec uderiv : bvec)
  (st : Q * list Q) (i : nat) : Q * list Q :=
  let '(total, error) := st in
  let nodes := nth i conn [] in
  let vars_elem := getValues deps uvec nodes in
  let delem := getValues deps uderiv nodes in
  let Xpts := nth i rXpts_of [] in
  let ubar := recon Xpts vars_elem delem in
  let vars_interp := se_vars_interp2D order rorder vpn ubar in
  let dvars := repeat 0 (vpn * (rorder * rorder)) in
  let '(Te, Pe) := computeEnergies i Xpts vars_interp dvars in
  (total + Qabs Pe, error ++ [Qabs Pe]).

(** [TMR_StrainEnergyErrorEst(forest, tacs, forest_refined, tacs_refined,
    error)] for quadtrees: the total and the array [error]. *)
Definition TMR_StrainEnergyErrorEst2D (sqrtf : Q -> Q)
  (computeEnergies : nat -> list Q -> list Q -> list Q -> Q * Q)
  (recon : list Q -> list Q -> list Q -> list Q) (deps : dep_table) (order rorder vpn : nat)
  (conn : list (list Z)) (Xpts_of rXpts_of : list (list Q)) (uvec weights uderiv : bvec)
  : Q * list Q :=
  let weights' := computeLocalWeights deps conn None weights in
  let uderiv' := computeNodeDeriv2D sqrtf deps order vpn conn Xpts_of uvec weights' uderiv None in
  fold_left (se_elem2D computeEnergies recon deps order rorder vpn conn rXpts_of uvec uderiv')
            (seq 0 (length conn)) (0, []).

End SE2D.

Module Adj2D.
Import Forest BVec Adj.

(** [error[elem] += err[i + j*refined_order]] over the corner indices
    [cs] the loop visits, [j] outermost. *)
Definition corner_estimate2D (rorder : nat) (cs : list nat) (err : list Q) : Q :=
  sumQ (flat_map (fun j => map (fun i => nth (i + j * rorder) err 0) cs) cs).

(** The second sweep for one element: [error[elem]] is a quarter of the
    absolute sum of [err[i + j*refined_order]] over the corner indices
    [i], [j] that the loop visits; [None] when the loop runs out of
    fuel. *)
Definition adj_second_elem2D (fuel : nat) (deps_ref : dep_table) (rorder : nat)
  (rconn : list (list Z)) (nodal_error : bvec) (st : option (Q * list Q)) (elem : nat)
  : option (Q * list Q) :=
  match st with
  | None => None
  | Some (total, error) =>
      match corner_loop2D fuel rorder 0 with
      | None => None
      | Some cs =>
          let err := getValues deps_ref nodal_error (nth elem rconn []) in
          let e := (1 # 4) * Qabs (corner_estimate2D rorder cs err) in
          Some (total + e, error ++ [e])
      end
  end.

(** [TMR_AdjointErrorEst(forest, tacs, forest_refined, tacs_refined,
    solution_refined, adjoint_refined, error, adj_corr)] for quadtrees:
    the returned error, [adj_corr], the indicators and the nodal error
    vector, or [None] when a corner loop runs out of fuel. *)
Definition TMR_AdjointErrorEst2D (fuel : nat)
  (addLocalizedError : nat -> list Q -> list Q -> list Q -> list Q -> list Q)
  (numNodes : nat -> nat) (aux : list aux_elem) (deps_ref : dep_table) (rorder : nat)
  (rconn : list (list Z)) (rXpts_of : list (list Q)) (solution_refined adjoint_refined : bvec)
  : option (Q * Q * list Q * bvec) :=
  let nelems := length rconn in
  let st := fold_left (adj_first_elem addLocalizedError numNodes deps_ref rconn rXpts_of
                         solution_refined adjoint_refined)
                      (seq 0 nelems)
                      (mkAdjState (repeat 0 (rorder * rorder)) aux 0 (mkBVec 1 (fun _ _ => 0))) in
  match fold_left (adj_second_elem2D fuel deps_ref rorder rconn (st_nodal st)) (seq 0 nelems)
                  (Some (0, [])) with
  | Some (total, error) => Some (total, st_corr st, error, st_nodal st)
  | None => None
  end.

End Adj2D.

Module QuadEstFacts.
Import Forest BVec BVecFacts Adj AdjFacts Adj2D.

(** ** The quadtree adjoint estimator *)

(** The four corner nodes of a refined element of order [rorder]. *)
Definition corner_sum2D (rorder : nat) (err : list Q) : Q :=
  nth 0 err 0 + nth (rorder - 1) err 0 + nth ((rorder - 1) * rorder) err 0
  + nth (rorder - 1 + (rorder - 1) * rorder) err 0.

Lemma corner_estimate2D_ge2 (ro : nat) (err : list Q) :
  corner_estimate2D (S (S ro)) [0%nat; S ro] err == corner_sum2D (S (S ro)) err.
Proof.
  unfold corner_estimate2D, corner_sum2D; cbn [flat_map map sumQ fold_right app].
  rewrite !Nat.mul_0_l, !Nat.add_0_l, !Nat.add_0_r.
  replace (S (S ro) - 1)%nat with (S ro) by lia; ring.
Qed.

Lemma adj_second2D_fold_none fuel deps_ref rorder rconn nodal (elems : list nat) :
  fold_left (adj_second_elem2D fuel deps_ref rorder rconn nodal) elems None = None.
Proof. induction elems as [|e l IH]; [reflexivity|exact IH]. Qed.

(** With [refined_order >= 2] and three iterations of fuel, the second
    sweep appends one indicator per element and adds it to the total. *)
Lemma adj_second2D_fold (ro f : nat) deps_ref rconn nodal (elems : list nat) (t : Q)
  (err : list Q) :
  let ind e := (1 # 4) * Qabs (corner_estimate2D (S (S ro)) [0%nat; S ro]
                                 (getValues deps_ref nodal (nth e rconn []))) in
  fold_left (adj_second_elem2D (S (S (S f))) deps_ref (S (S ro)) rconn nodal) elems (Some (t, err))
  = Some (fold_left (fun t e => t + ind e) elems t, err ++ map ind elems).
Proof.
  intros ind; revert t err; induction elems as [|e l IH]; intros t err; cbn [fold_left map].
  - rewrite app_nil_r; reflexivity.
  - unfold adj_second_elem2D at 2; rewrite corner_loop2D_ge2, IH, <- app_assoc; reflexivity.
Qed.

Lemma fold_left_Qplus {A} (g : A -> Q) (l : list A) (t : Q) :
  fold_left (fun t e => t + g e) l t == t + sumQ (map g l).
Proof.
  revert t; induction l as [|e l IH]; intros t; cbn [fold_left map sumQ fold_right]; [ring|].
  rewrite IH; unfold sumQ; cbn [fold_right]; ring.
Qed.

(** (C27) Termination and conservation in the quadtree adjoint error
    estimator: for every refined order of at least two, three iterations
    of each corner loop suffice and [TMR_AdjointErrorEst] returns; each
    element indicator is a quarter of the absolute sum of the nodal error
    at the element's four corner nodes, the returned error is the sum of
    the indicators, and, when every element's [numNodes] is its number of
    refined nodes and every slot delivers to the first [N] nodes, the
    nodal error vector holds in those nodes exactly [adj_corr]. *)
Theorem TMR_AdjointErrorEst2D_returns fuel addLocalizedError numNodes aux deps_ref rorder
  rconn rXpts_of solution_refined adjoint_refined (N : nat) :
  (2 <= rorder)%nat -> (3 <= fuel)%nat ->
  (forall e, (e < length rconn)%nat -> adj_elem_ok deps_ref N numNodes rconn e) ->
  exists total corr error nodal,
    TMR_AdjointErrorEst2D fuel addLocalizedError numNodes aux deps_ref rorder rconn rXpts_of
      solution_refined adjoint_refined = Some (total, corr, error, nodal) /\
    length error = length rconn /\
    (forall e, (e < length rconn)%nat ->
       nth e error 0 == (1 # 4) * Qabs (corner_sum2D rorder
                                           (getValues deps_ref nodal (nth e rconn [])))) /\
    total == sumQ error /\ nodal_mass N nodal == corr.
Proof.
  intros Hr Hf He.
  destruct rorder as [|[|ro]]; try lia; destruct fuel as [|[|[|f]]]; try lia.
  unfold TMR_AdjointErrorEst2D; cbv zeta.
  destruct (adj_first_fold_mass addLocalizedError numNodes deps_ref N rconn rXpts_of
              solution_refined adjoint_refined (seq 0 (length rconn))
              (mkAdjState (repeat 0 (S (S ro) * S (S ro))) aux 0 (mkBVec 1 (fun _ _ => 0)))
              eq_refl (fun e Hin => He e (proj2 (proj1 (in_seq _ _ _) Hin)))) as [_ Hm].
  set (st := fold_left (adj_first_elem _ _ _ _ _ _ _) _ _) in *.
  rewrite adj_second2D_fold; cbn [app].
  eexists _, _, _, _; split; [reflexivity|].
  split; [rewrite length_map, length_seq; reflexivity|]; split; [|split].
  - intros e Hel; rewrite (nth_map_lt _ _ _ 0%nat) by (rewrite length_seq; exact Hel).
    rewrite seq_nth by exact Hel; cbn [Nat.add].
    rewrite corner_estimate2D_ge2; reflexivity.
  - rewrite fold_left_Qplus; ring.
  - assert (H0 : nodal_mass N (mkBVec 1 (fun _ _ => 0)) == 0)
      by (unfold nodal_mass; apply sumQ_map_zero; reflexivity).
    cbn [st_nodal st_corr] in Hm; rewrite H0 in Hm; lra.
Qed.

Lemma TMR_AdjointErrorEst2D_returns_witness :
  (2 <= 2)%nat /\ (3 <= 3)%nat /\
  (forall e, (e < length adjw_rconn)%nat -> adj_elem_ok adjw_deps 3 adjw_numNodes adjw_rconn e) /\
  exists total corr error nodal,
    TMR_AdjointErrorEst2D 3 adjw_add adjw_numNodes adjw_aux adjw_deps 2 adjw_rconn []
      adjw_zero adjw_zero = Some (total, corr, error, nodal) /\
    length error = length adjw_rconn /\
    (forall e, (e < length adjw_rconn)%nat ->
       nth e error 0 == (1 # 4) * Qabs (corner_sum2D 2
                                           (getValues adjw_deps nodal (nth e adjw_rconn [])))) /\
    total == sumQ error /\ nodal_mass 3 nodal == corr.
Proof.
  split; [lia|]; split; [lia|]; split; [exact adjw_elems_ok|].
  exact (TMR_AdjointErrorEst2D_returns 3 adjw_add adjw_numNodes adjw_aux adjw_deps 2 adjw_rconn []
           adjw_zero adjw_zero 3 ltac:(lia) ltac:(lia) adjw_elems_ok).
Defined.

(** ** The quadtree strain-energy estimator on a constant field *)

Section SEConstant.
Import Lapack Weights Prolong Quad QuadFacts SE2D.
Context (sqrtf : Q -> Q) (computeEnergies : nat -> list Q -> list Q -> list Q -> Q * Q)
        (recon : list Q -> list Q -> list Q -> list Q) (deps : dep_table) (order rorder vpn : nat)
        (conn : list (list Z)) (Xpts_of rXpts_of : list (list Q)) (uvec weights uderiv : bvec)
        (uninit : list Q) (a : nat -> Q).
Hypothesis Ho : (2 <= order <= 6)%nat.
(** The reconstruction meets the least-squares contract whenever the
    right-hand side it assembles vanishes. *)
Hypothesis Hrec : forall X u d,
  Forall (fun q => q == 0) (recon_b2D sqrtf order rorder vpn X u d (wvals2D order uninit)) ->
  computeElemRecon2D sqrtf vpn order rorder X u d uninit (recon X u d).
(** The element's potential energy vanishes on zero variables. *)
Hypothesis HE : forall i X v d, Forall (fun q => q == 0) v -> snd (computeEnergies i X v d) == 0.
(** Every element reads the solution as the constant [a]. *)
Hypothesis Hc : forall e, (e < length conn)%nat ->
  forall i k, (i < order * order)%nat -> (k < vpn)%nat ->
    nth (vpn * i + k) (getValues deps uvec (nth e conn [])) 0 == a k.

Lemma se_vars_interp2D_zero (ubar : list Q) :
  (forall r, nth r ubar 0 == 0) -> Forall (fun q => q == 0) (se_vars_interp2D order rorder vpn ubar).
Proof.
  intros Hb; unfold se_vars_interp2D; apply Forall_flat_map, Forall_forall; intros [n m] _.
  apply Forall_map, Forall_forall; intros kk _; apply sumQ_map_zero; intros k _; rewrite Hb; ring.
Qed.

(** With vanishing nodal derivatives an element adds a zero indicator. *)
Lemma se_elem2D_zero (ud : bvec) (e : nat) (t : Q) (err : list Q) :
  (e < length conn)%nat -> (forall n c, (c < bsize ud)%nat -> val ud n c == 0) ->
  exists z, z == 0 /\
    se_elem2D computeEnergies recon deps order rorder vpn conn rXpts_of uvec ud (t, err) e
    = (t + z, err ++ [z]).
Proof.
  intros He Hz; unfold se_elem2D; cbv zeta.
  set (d := getValues deps ud (nth e conn [])).
  set (u := getValues deps uvec (nth e conn [])).
  set (X := nth e rXpts_of []).
  assert (Hd : Forall (fun q => q == 0) d) by (apply getValues_zero; exact Hz).
  assert (Hb0 : Forall (fun q => q == 0) (recon_b2D sqrtf order rorder vpn X u d (wvals2D order uninit)))
    by (apply (recon_b2D_const _ _ _ _ _ _ _ _ a Ho (Hc e He)); intros r _;
        apply Forall_zero_nth, Hd).
  pose proof (computeElemRecon2D_zero_rhs sqrtf vpn order rorder X u d uninit _ Hb0 (Hrec X u d Hb0))
    as H0.
  assert (Hv : Forall (fun q => q == 0) (se_vars_interp2D order rorder vpn (recon X u d)))
    by (apply se_vars_interp2D_zero; intros r; rewrite (nth_eqlistQ _ _ r H0), nth_repeat;
        reflexivity).
  pose proof (HE e X _ (repeat 0 (vpn * (rorder * rorder))) Hv) as HP.
  destruct (computeEnergies _ _ _ _) as [Te Pe]; cbn [snd] in HP.
  exists (Qabs Pe); split; [rewrite HP; reflexivity|reflexivity].
Qed.

Lemma se2D_fold (ud : bvec) (elems : list nat) (t : Q) (err : list Q) :
  (forall e, In e elems -> (e < length conn)%nat) ->
  (forall n c, (c < bsize ud)%nat -> val ud n c == 0) ->
  let r := fold_left (se_elem2D computeEnergies recon deps order rorder vpn conn rXpts_of uvec ud)
                     elems (t, err) in
  fst r == t /\ length (snd r) = (length err + length elems)%nat /\
  (Forall (fun q => q == 0) err -> Forall (fun q => q == 0) (snd r)).
Proof.
  intros Hel Hz; revert t err; induction elems as [|e l IH]; intros t err; cbv zeta;
    cbn [fold_left].
  - split; [reflexivity|]; split; [cbn; lia|auto].
  - destruct (se_elem2D_zero ud e t err (Hel e (or_introl eq_refl)) Hz) as (z & Hz0 & ->).
    destruct (IH (fun e' H => Hel e' (or_intror H)) (t + z) (err ++ [z])) as (H1 & H2 & H3).
    split; [rewrite H1, Hz0; ring|]; split; [rewrite H2, length_app; cbn; lia|].
    intros Herr; apply H3, Forall_app; split; [exact Herr|constructor; [exact Hz0|constructor]].
Qed.

(** The quadtree strain-energy estimator on a field that every
    element reads as a constant per component: with a reconstruction
    that meets the least-squares contract and an element energy that
    vanishes on zero variables, [TMR_StrainEnergyErrorEst] returns a zero
    total and one zero indicator per element, whatever the square root.
    The nodal derivatives vanish, so does the reconstruction, and so does
    the enrichment field [vars_interp] handed to [computeEnergies]. *)
Theorem TMR_StrainEnergyErrorEst2D_const :
  let r := TMR_StrainEnergyErrorEst2D sqrtf computeEnergies recon deps order rorder vpn conn
             Xpts_of rXpts_of uvec weights uderiv in
  fst r == 0 /\ length (snd r) = length conn /\ Forall (fun q => q == 0) (snd r).
Proof.
  intros r; unfold r, TMR_StrainEnergyErrorEst2D; cbv zeta.
  set (ud := computeNodeDeriv2D sqrtf deps order vpn conn Xpts_of uvec _ uderiv None).
  assert (Hz : forall n c, (c < bsize ud)%nat -> val ud n c == 0).
  { intros n c Hcb; unfold ud in *; rewrite computeNodeDeriv2D_bsize in Hcb.
    apply (computeNodeDeriv2D_const sqrtf deps order vpn conn Xpts_of uvec _ uderiv None a Ho);
      [|exact Hcb].
    intros e He; apply in_seq in He; apply Hc; lia. }
  destruct (se2D_fold ud (seq 0 (length conn)) 0 []
              (fun e He => proj2 (proj1 (in_seq _ _ _) He)) Hz) as (H1 & H2 & H3).
  split; [exact H1|]; split; [rewrite H2, length_seq; reflexivity|apply H3; constructor].
Qed.

End SEConstant.

(** A quadratic energy [sum v_i^2], the unit square of [Quad] carrying the
    constant 7, and a reconstruction that returns zeros. *)
Definition sqE (i : nat) (X v d : list Q) : Q * Q := (0, sumQ (map (fun x => x * x) v)).

Lemma TMR_StrainEnergyErrorEst2D_const_witness :
  let r := SE2D.TMR_StrainEnergyErrorEst2D (fun x => x) sqE (fun _ _ _ => repeat 0 5) [] 2 3 1
             QuadFacts.sq_conn [QuadFacts.sq_Xpts] [[]] (mkBVec 1 (fun _ _ => 7))
             (mkBVec 1 (fun _ _ => 0)) (mkBVec 3 (fun _ _ => 0)) in
  fst r == 0 /\ length (snd r) = 1%nat /\ Forall (fun q => q == 0) (snd r).
Proof.
  apply (TMR_StrainEnergyErrorEst2D_const (fun x => x) sqE (fun _ _ _ => repeat 0 5) [] 2 3 1
           QuadFacts.sq_conn [QuadFacts.sq_Xpts] [[]] (mkBVec 1 (fun _ _ => 7))
           (mkBVec 1 (fun _ _ => 0)) (mkBVec 3 (fun _ _ => 0)) [] (fun _ => 7)).
  - lia.
  - intros X u d Hb; exists (repeat 0 8); split; [|reflexivity].
    apply LapackFacts.dgelss_zero_sol; [exact Hb|].
    apply Forall_forall; intros q Hq; apply repeat_spec in Hq; rewrite Hq; reflexivity.
  - intros i X v d Hv; cbn [snd sqE]; apply sumQ_map_zero; intros x Hx.
    rewrite Forall_forall in Hv; rewrite (Hv x Hx); ring.
  - intros e He i k Hi Hk; destruct e as [|e]; [|cbn in He; lia].
    assert (k = 0%nat) by lia; subst k.
    destruct i as [|[|[|[|i]]]]; try lia; vm_compute; reflexivity.
Defined.

End QuadEstFacts.
