(* ===== verification/Geometry.v ===== *)
(** * Geometry: finite-difference derivatives and arc-length integration

    [Geom] models the parts of the geometry classes whose behaviour is
    written in the sources (src/src/TMRGeometry.c, lines 1-500, and the
    surface derivative in src/unnamed/part_000): the virtual interface of
    [TMRCurve] and [TMRSurface] (src/unnamed/part_001) is a record of the
    operations a concrete curve or surface supplies ([curve], [surface]);
    [curve_evalDeriv] and [surface_evalDeriv] are the finite-difference
    derivatives of the base classes, [pointDist], [integrateEdge] and
    [TMRCurve_integrate] the adaptive arc-length integration, and the
    vertex and projected-curve classes evaluate through the curves and
    surfaces they reference.

    A C function [int f(..., T *out)] that returns a failure flag and may
    leave [out] unwritten is modelled as a function of the caller's [out]
    returning the flag and the new [out].  [sqrt] is a parameter [sqrtf]
    of the definitions that call it: the theorems say which values of it
    they use.

    The theorems show that the curve derivative is exact on straight
    lines, that it reports success without writing the derivative when
    the parameter range is shorter than the step, that the surface
    derivative reports success outside its range, that the recursion of
    [integrateEdge] is bounded by its depth test (so 21 levels of fuel
    give its result), and that [integrate] does not return the arc length:
    on a straight line it returns [|V| (t2 - t1)^2 / 128]. *)

From Stdlib Require Import PeanoNat ZArith QArith Qring Qabs Bool List Lia Lqa.
From Stdlib Require Import Setoid Morphisms.
From S2P Require Import Prelude.
Import ListNotations.
Open Scope Q_scope.

Module Geom.

(** [TMRPoint] *)
Record TMRPoint := mkPoint { px : Q; py : Q; pz : Q }.

(** The virtual operations of [TMRCurve] (TMRGeometry.h): [getRange],
    [evalPoint] (the failure flag and the point written) and
    [invEvalPoint]. *)
Record curve := mkCurve {
  getRange : Q * Q;
  evalPoint : Q -> Z * TMRPoint;
  invEvalPoint : TMRPoint -> Z * Q }.

(** The base-class [TMRCurve::invEvalPoint]: not implemented, fails. *)
Definition curve_invEvalPoint_default (X : TMRPoint) : Z * Q := (1%Z, 0).

(** The virtual operations of [TMRSurface]: [getRange] returns
    [(umin, vmin, umax, vmax)]. *)
Record surface := mkSurface {
  s_getRange : Q * Q * Q * Q;
  s_evalPoint : Q -> Q -> Z * TMRPoint;
  s_invEvalPoint : TMRPoint -> Z * (Q * Q) }.

(** [deriv_step_size = 1e-6] of both classes. *)
Definition deriv_step_size : Q := 1 # 1000000.

Definition pt_sub (a b : TMRPoint) : TMRPoint :=
  mkPoint (px a - px b) (py a - py b) (pz a - pz b).

Definition pt_div (a : TMRPoint) (h : Q) : TMRPoint :=
  mkPoint (px a / h) (py a / h) (pz a / h).

(** [TMRCurve::evalDeriv(t, Xt)]: a forward difference when [t + h] is in
    range, else a backward difference when [t - h] is; [Xt] is the
    caller's point, returned unchanged when it is not written. *)
Definition curve_evalDeriv (c : curve) (t : Q) (Xt : TMRPoint) : Z * TMRPoint :=
  let '(tmin, tmax) := getRange c in
  let h := deriv_step_size in
  if Qle_bool tmin t && Qle_bool t tmax then
    let '(fail, p) := evalPoint c t in
    if negb (Z.eqb fail 0) then (fail, Xt)
    else if Qle_bool (t + h) tmax then
      let '(fail2, p2) := evalPoint c (t + h) in
      if negb (Z.eqb fail2 0) then (fail2, Xt) else (fail2, pt_div (pt_sub p2 p) h)
    else if Qle_bool (tmin + h) t then
      let '(fail2, p2) := evalPoint c (t - h) in
      if negb (Z.eqb fail2 0) then (fail2, Xt) else (fail2, pt_div (pt_sub p p2) h)
    else (fail, Xt)
  else (1%Z, Xt).

(** [fail = fail || evalPoint(..., &p2)]: when [fail] is already set the
    call is skipped and [p2] keeps its uninitialised contents [uninit]. *)
Definition or_eval (fail : Z) (ev : Z * TMRPoint) (uninit : TMRPoint) : Z * TMRPoint :=
  if negb (Z.eqb fail 0) then (1%Z, uninit)
  else let '(f, p2) := ev in (if Z.eqb f 0 then 0%Z else 1%Z, p2).

(** [TMRSurface::evalDeriv(u, v, Xu, Xv)] (src/unnamed/part_000). *)
Definition surface_evalDeriv (s : surface) (u v : Q) (uninit Xu Xv : TMRPoint)
  : Z * TMRPoint * TMRPoint :=
  let '(umin, vmin, umax, vmax) := s_getRange s in
  let h := deriv_step_size in
  if Qle_bool umin u && Qle_bool u umax && Qle_bool vmin v && Qle_bool v vmax then
    let '(fail0, p) := s_evalPoint s u v in
    let '(fail1, Xu') :=
      if Qle_bool (u + h) umax then
        let '(f, p2) := or_eval fail0 (s_evalPoint s (u + h) v) uninit in
        (f, pt_div (pt_sub p2 p) h)
      else if Qle_bool (umin + h) u then
        let '(f, p2) := or_eval fail0 (s_evalPoint s (u - h) v) uninit in
        (f, pt_div (pt_sub p p2) h)
      else (1%Z, Xu) in
    let '(fail2, Xv') :=
      if Qle_bool (v + h) vmax then
        let '(f, p2) := or_eval fail1 (s_evalPoint s u (v + h)) uninit in
        (f, pt_div (pt_sub p2 p) h)
      else if Qle_bool (vmin + h) v then
        let '(f, p2) := or_eval fail1 (s_evalPoint s u (v - h)) uninit in
        (f, pt_div (pt_sub p p2) h)
      else (1%Z, Xv) in
    (fail2, Xu', Xv')
  else (0%Z, Xu, Xv).

(** [pointDist(a, b)] *)
Definition pointDist (sqrtf : Q -> Q) (a b : TMRPoint) : Q :=
  sqrtf ((px a - px b) * (px a - px b) + (py a - py b) * (py a - py b) +
         (pz a - pz b) * (pz a - pz b)).

(** An entry of the linked list of [integrateEdge]. *)
Record IntegralPt := mkIP { ip_t : Q; ip_dist : Q }.

(** [integrateEdge(edge, t1, p1, t2, tol, ncalls, &pt)]: the list built so
    far is [rev prev ++ [pt]], [pt] its last entry.  The recursion stops
    when [ncalls > 5] and the error is below [tol], or when [ncalls > 20];
    [fuel] bounds the depth (21 is enough from [ncalls = 0]). *)
Fixpoint integrateEdge (fuel : nat) (c : curve) (sqrtf : Q -> Q) (t1 : Q) (p1 : TMRPoint)
  (t2 tol : Q) (ncalls : nat) (pt : IntegralPt) (prev : list IntegralPt)
  : IntegralPt * list IntegralPt :=
  let tmid := (1 # 2) * (t1 + t2) in
  let pmid := snd (evalPoint c tmid) in
  let p2 := snd (evalPoint c t2) in
  let int1 := (tmid - t1) * pointDist sqrtf p1 pmid in
  let int2 := (t2 - tmid) * pointDist sqrtf pmid p2 in
  let int3 := (tmid - t1) * pointDist sqrtf p1 p2 in
  let error := Qabs (int3 - int1 - int2) in
  if (Nat.ltb 5 ncalls && negb (Qle_bool tol error)) || Nat.ltb 20 ncalls then
    let m := mkIP tmid (ip_dist pt + int1) in
    (mkIP t2 (ip_dist m + int2), m :: pt :: prev)
  else
    match fuel with
    | O => (pt, prev)
    | S f =>
        let '(pt1, prev1) := integrateEdge f c sqrtf t1 p1 tmid tol (S ncalls) pt prev in
        integrateEdge f c sqrtf tmid pmid t2 tol (S ncalls) pt1 prev1
    end.

(** [TMRCurve::integrate(t1, t2, tol, &tvals, &dist, &nvals)]: the length
    it returns, and the arrays [tvals] and [dist] (of length [nvals]). *)
Definition TMRCurve_integrate (c : curve) (sqrtf : Q -> Q) (t1 t2 tol : Q)
  : Q * list Q * list Q :=
  let root := mkIP t1 0 in
  let p1 := snd (evalPoint c t1) in
  let '(last, prev) := integrateEdge 21 c sqrtf t1 p1 t2 tol 0 root [] in
  let l := rev (last :: prev) in
  (ip_dist last, map ip_t l, map ip_dist l).

(** The vertex classes: [TMRVertexFromPoint], [TMRVertexFromCurve] and
    [TMRVertexFromSurface], each built either from its parameters or by
    inverting a point. *)
Inductive vertex :=
  | VertexFromPoint (p : TMRPoint)
  | VertexFromCurve (c : curve) (t : Q)
  | VertexFromSurface (s : surface) (u v : Q).

Definition VertexFromCurve_of_point (c : curve) (p : TMRPoint) : vertex :=
  VertexFromCurve c (snd (invEvalPoint c p)).

Definition VertexFromSurface_of_point (s : surface) (p : TMRPoint) : vertex :=
  let '(u, v) := snd (s_invEvalPoint s p) in VertexFromSurface s u v.

(** [evalPoint] of the three vertex classes. *)
Definition vertex_evalPoint (vx : vertex) : Z * TMRPoint :=
  match vx with
  | VertexFromPoint p => (0%Z, p)
  | VertexFromCurve c t => evalPoint c t
  | VertexFromSurface s u v => s_evalPoint s u v
  end.

(** [TMRCurveFromSurfaceProjection]: the curve's point, inverted on the
    surface and evaluated there; [p] is the caller's point, unchanged on
    failure. *)
Definition projection_evalPoint (s : surface) (c : curve) (t : Q) (p : TMRPoint)
  : Z * TMRPoint :=
  let '(fail, pt) := evalPoint c t in
  if negb (Z.eqb fail 0) then (fail, p)
  else let '(fail1, uv) := s_invEvalPoint s pt in
       if negb (Z.eqb fail1 0) then (fail1, p)
       else s_evalPoint s (fst uv) (snd uv).

Definition CurveFromSurfaceProjection (s : surface) (c : curve) : curve :=
  mkCurve (getRange c) (fun t => projection_evalPoint s c t (mkPoint 0 0 0))
          curve_invEvalPoint_default.

End Geom.

Module GeomFacts.
Import Geom.

Definition pt_eq (a b : TMRPoint) : Prop :=
  px a == px b /\ py a == py b /\ pz a == pz b.

(** The point [P + t V] of a straight line, and the line as a curve on
    [[tmin, tmax]] whose evaluation always succeeds. *)
Definition linept (P V : TMRPoint) (t : Q) : TMRPoint :=
  mkPoint (px P + t * px V) (py P + t * py V) (pz P + t * pz V).

Definition line (tmin tmax : Q) (P V : TMRPoint) : curve :=
  mkCurve (tmin, tmax) (fun t => (0%Z, linept P V t)) curve_invEvalPoint_default.

Lemma Qle_bool_true (x y : Q) : x <= y -> Qle_bool x y = true.
Proof. apply Qle_bool_iff. Qed.

Lemma Qle_bool_false (x y : Q) : y < x -> Qle_bool x y = false.
Proof.
  intros H; destruct (Qle_bool x y) eqn:E; [|reflexivity].
  apply Qle_bool_iff in E; lra.
Qed.

(** The difference quotient of a line is its direction. *)
Lemma line_quotient (P V : TMRPoint) (a b : Q) :
  a - b == deriv_step_size ->
  pt_eq (pt_div (pt_sub (linept P V a) (linept P V b)) deriv_step_size) V.
Proof.
  intros Hab; unfold pt_eq, pt_div, pt_sub, linept; cbn [px py pz].
  rewrite <- Hab; unfold deriv_step_size in Hab.
  assert (Hn : ~ a - b == 0) by (rewrite Hab; discriminate).
  repeat split; field; exact Hn.
Qed.

(** [TMRCurve::evalDeriv] is exact on straight lines: at any [t] of
    the range from which a forward or a backward step stays in range, it
    succeeds and returns the line's direction. *)
Theorem curve_evalDeriv_line (tmin tmax t : Q) (P V Xt : TMRPoint) :
  tmin <= t <= tmax ->
  t + deriv_step_size <= tmax \/ tmin + deriv_step_size <= t ->
  fst (curve_evalDeriv (line tmin tmax P V) t Xt) = 0%Z /\
  pt_eq (snd (curve_evalDeriv (line tmin tmax P V) t Xt)) V.
Proof.
  intros [H1 H2] Hstep; unfold curve_evalDeriv; cbn [getRange evalPoint line].
  rewrite !Qle_bool_true by assumption; cbn [andb negb Z.eqb].
  destruct (Qle_bool (t + deriv_step_size) tmax) eqn:E.
  - split; [reflexivity|apply line_quotient; ring].
  - destruct Hstep as [Hf|Hb]; [apply Qle_bool_iff in Hf; congruence|].
    rewrite Qle_bool_true by exact Hb; cbn [negb Z.eqb fst snd].
    split; [reflexivity|apply line_quotient; ring].
Qed.

(** When the parameter range is shorter than the step, so that
    neither [t + h] nor [t - h] is in range, [TMRCurve::evalDeriv]
    returns success (0) and leaves the caller's derivative unwritten. *)
Theorem curve_evalDeriv_short_range (c : curve) (t : Q) (p Xt : TMRPoint) :
  fst (getRange c) <= t <= snd (getRange c) ->
  snd (getRange c) < t + deriv_step_size ->
  t < fst (getRange c) + deriv_step_size ->
  evalPoint c t = (0%Z, p) ->
  curve_evalDeriv c t Xt = (0%Z, Xt).
Proof.
  destruct c as [[tmin tmax] ev inv]; cbn [fst snd getRange evalPoint].
  intros [H1 H2] Hf Hb He; unfold curve_evalDeriv; cbn [getRange evalPoint].
  rewrite !Qle_bool_true by assumption; cbn [andb]; rewrite He; cbn [negb Z.eqb].
  rewrite !Qle_bool_false by assumption; reflexivity.
Qed.

(** Out of range, the curve derivative fails (returns 1) while the
    surface derivative returns success (0); neither writes its outputs. *)
Theorem evalDeriv_out_of_range (c : curve) (s : surface) (t u v : Q)
  (Xt uninit Xu Xv : TMRPoint) :
  ~ (fst (getRange c) <= t <= snd (getRange c)) ->
  let '(umin, vmin, umax, vmax) := s_getRange s in
  ~ (umin <= u <= umax /\ vmin <= v <= vmax) ->
  curve_evalDeriv c t Xt = (1%Z, Xt) /\
  surface_evalDeriv s u v uninit Xu Xv = (0%Z, Xu, Xv).
Proof.
  destruct c as [[tmin tmax] ev inv], s as [[[[umin vmin] umax] vmax] sev sinv].
  cbn [fst snd getRange s_getRange]; intros Ht Huv.
  unfold curve_evalDeriv, surface_evalDeriv; cbn [getRange s_getRange].
  split.
  - destruct (Qle_bool tmin t) eqn:E1, (Qle_bool t tmax) eqn:E2; cbn [andb]; try reflexivity.
    apply Qle_bool_iff in E1, E2; tauto.
  - destruct (Qle_bool umin u) eqn:E1, (Qle_bool u umax) eqn:E2,
      (Qle_bool vmin v) eqn:E3, (Qle_bool v vmax) eqn:E4; cbn [andb]; try reflexivity.
    apply Qle_bool_iff in E1, E2, E3, E4; tauto.
Qed.


(** The recursion of [integrateEdge] is bounded by its depth test
    [ncalls > 20]: any two amounts of fuel of at least [21 - ncalls] give
    the same result, so [TMRCurve_integrate], which starts at [ncalls = 0]
    with 21, computes what the unbounded recursion of the source
    computes. *)
Theorem integrateEdge_fuel (f1 f2 : nat) (c : curve) (sqrtf : Q -> Q) (t1 : Q) (p1 : TMRPoint)
  (t2 tol : Q) (ncalls : nat) (pt : IntegralPt) (prev : list IntegralPt) :
  (21 - ncalls <= f1)%nat -> (21 - ncalls <= f2)%nat ->
  integrateEdge f1 c sqrtf t1 p1 t2 tol ncalls pt prev =
  integrateEdge f2 c sqrtf t1 p1 t2 tol ncalls pt prev.
Proof.
  revert f2 t1 p1 t2 ncalls pt prev.
  induction f1 as [|f1 IH]; intros f2 t1 p1 t2 ncalls pt prev H1 H2;
    destruct f2 as [|f2]; cbn [integrateEdge];
    destruct (_ || Nat.ltb 20 ncalls) eqn:E; try reflexivity;
    apply orb_false_iff in E as [_ E]; apply Nat.ltb_ge in E; try lia.
  rewrite (IH f2) by lia.
  destruct (integrateEdge f2 _ _ _ _ _ _ _ _ _) as [pt1 prev1].
  apply IH; lia.
Qed.

(** ** [integrate] on a straight line *)

Fixpoint half_pow (k : nat) : Q :=
  match k with O => 1 | S k' => (1 # 2) * half_pow k' end.

Section Line.
Variables (tmin tmax tol s : Q) (P V : TMRPoint) (sqrtf : Q -> Q).
Context `{Hsq : Proper _ (Qeq ==> Qeq) sqrtf}.
Hypothesis Hs : forall u, sqrtf (u * u * (px V * px V + py V * py V + pz V * pz V)) == Qabs u * s.
Hypothesis Htol : 0 < tol.

Lemma line_dist (a b : Q) : pointDist sqrtf (linept P V a) (linept P V b) == Qabs (a - b) * s.
Proof.
  unfold pointDist, linept; cbn [px py pz].
  rewrite <- Hs; apply Hsq; ring.
Qed.

Lemma Qabs_le_sub (a b : Q) : a <= b -> Qabs (a - b) == b - a.
Proof. intros H; rewrite Qabs_neg by lra; ring. Qed.

(** A leaf at depth 6 on [[t1, t2]]: the error test passes and the two
    entries add [s w^2 / 2], [w = t2 - t1]. *)
Lemma line_leaf (fuel : nat) (t1 t2 : Q) (pt : IntegralPt) (prev : list IntegralPt) :
  t1 <= t2 ->
  ip_dist (fst (integrateEdge fuel (line tmin tmax P V) sqrtf t1 (linept P V t1) t2 tol 6
                  pt prev)) ==
  ip_dist pt + s * ((t2 - t1) * (t2 - t1)) * half_pow 1.
Proof.
  intros Ht.
  assert (Hcond : forall E, E == 0 -> Qle_bool tol (Qabs E) = false)
    by (intros E HE; apply Qle_bool_false; rewrite (Qabs_wd _ _ HE); exact Htol).
  destruct fuel; cbn [integrateEdge evalPoint line snd];
    (rewrite Hcond; [|rewrite !line_dist, !Qabs_le_sub by lra; ring]);
    cbn [Nat.ltb Nat.leb andb orb negb fst ip_dist half_pow];
    rewrite !line_dist, !Qabs_le_sub by lra; ring.
Qed.

(** One call on [[t1, t2]] at depth [ncalls <= 6] adds [s w^2 / 2^(7 -
    ncalls)] to the distance. *)
Lemma line_edge (fuel ncalls : nat) (t1 t2 : Q) (pt : IntegralPt) (prev : list IntegralPt) :
  (ncalls <= 6)%nat -> (6 <= fuel + ncalls)%nat -> t1 <= t2 ->
  ip_dist (fst (integrateEdge fuel (line tmin tmax P V) sqrtf t1 (linept P V t1) t2 tol ncalls
                  pt prev)) ==
  ip_dist pt + s * ((t2 - t1) * (t2 - t1)) * half_pow (7 - ncalls).
Proof.
  revert ncalls t1 t2 pt prev.
  induction fuel as [|fuel IH]; intros ncalls t1 t2 pt prev Hn Hf Ht.
  - assert (ncalls = 6)%nat as -> by lia; apply line_leaf, Ht.
  - destruct (Nat.eq_dec ncalls 6) as [->|Hne]; [apply line_leaf, Ht|].
    cbn [integrateEdge evalPoint line snd].
    rewrite (proj2 (Nat.ltb_ge 5 ncalls)), (proj2 (Nat.ltb_ge 20 ncalls)) by lia;
      cbn [andb orb].
    set (tm := (1 # 2) * (t1 + t2)).
    pose proof (IH (S ncalls) t1 tm pt prev ltac:(lia) ltac:(lia) ltac:(unfold tm; lra)) as H1.
    destruct (integrateEdge fuel _ _ t1 _ tm _ _ _ _) as [pt1 prev1]; cbn [fst] in H1.
    rewrite (IH (S ncalls) tm t2 pt1 prev1 ltac:(lia) ltac:(lia) ltac:(unfold tm; lra)), H1.
    replace (7 - ncalls)%nat with (S (7 - S ncalls)) by lia; cbn [half_pow].
    unfold tm; ring.
Qed.

(** (C40) [TMRCurve::integrate] does not return the arc length: on the
    straight line [P + t V] (with [sqrtf] exact on the squared distances,
    [|V| = s]) and any positive tolerance, it returns [s (t2 - t1)^2 /
    128], not [s (t2 - t1)], because every interval's chord length is
    multiplied by half the interval's parameter width. *)
Theorem TMRCurve_integrate_line (t1 t2 : Q) :
  t1 <= t2 ->
  fst (fst (TMRCurve_integrate (line tmin tmax P V) sqrtf t1 t2 tol)) ==
  s * ((t2 - t1) * (t2 - t1)) / 128.
Proof.
  intros Ht; unfold TMRCurve_integrate; cbn [evalPoint line snd].
  pose proof (line_edge 21 0 t1 t2 (mkIP t1 0) [] ltac:(lia) ltac:(lia) Ht) as H.
  destruct (integrateEdge 21 _ _ _ _ _ _ _ _ _) as [last prev]; cbn [fst ip_dist] in *.
  rewrite H; cbn [half_pow Nat.sub]; field.
Qed.

End Line.


(** ** Witnesses *)

(** A square root on rationals that is exact on squares, standing for
    [sqrt] in the witnesses. *)
Definition qsqrt (q : Q) : Q :=
  let r := Qred q in Z.sqrt (Qnum r) # Z.to_pos (Z.sqrt (Zpos (Qden r))).

#[export] Instance qsqrt_proper : Proper (Qeq ==> Qeq) qsqrt.
Proof. intros x y Hxy; unfold qsqrt; rewrite (Qred_complete x y Hxy); reflexivity. Qed.

Lemma Qred_coprime (n : Z) (d : positive) : Z.gcd n (Zpos d) = 1%Z -> Qred (n # d) = n # d.
Proof.
  intros Hg; unfold Qred.
  pose proof (Z.ggcd_gcd n (Zpos d)) as G; pose proof (Z.ggcd_correct_divisors n (Zpos d)) as D.
  destruct (Z.ggcd n (Zpos d)) as [g [aa bb]]; cbn [fst snd] in *.
  rewrite Hg in G; subst g.
  destruct D as [D1 D2]; rewrite Z.mul_1_l in D1, D2; subst; reflexivity.
Qed.

Lemma qsqrt_square (u : Q) : qsqrt (u * u) == Qabs u.
Proof.
  unfold qsqrt.
  rewrite (Qred_complete (u * u) (Qred u * Qred u)) by (rewrite Qred_correct; reflexivity).
  pose proof (gcd_Qred u) as G.
  transitivity (Qabs (Qred u)); [|apply Qabs_wd, Qred_correct].
  destruct (Qred u) as [a b]; cbn [Qnum Qden Qmult] in *.
  change ((a # b) * (a # b)) with ((a * a)%Z # (b * b)); rewrite Qred_coprime.
  - cbn [Qnum Qden]; rewrite Pos2Z.inj_mul.
    replace (a * a)%Z with (Z.abs a * Z.abs a)%Z by lia.
    rewrite !Z.sqrt_square by lia; reflexivity.
  - rewrite Pos2Z.inj_mul; apply Z.coprime_mul_l; apply Z.coprime_mul_r; exact G.
Qed.

Definition P0 : TMRPoint := mkPoint 0 0 0.
Definition Vx : TMRPoint := mkPoint 1 0 0.

Lemma qsqrt_Vx (u : Q) : qsqrt (u * u * (px Vx * px Vx + py Vx * py Vx + pz Vx * pz Vx)) == Qabs u * 1.
Proof.
  rewrite <- qsqrt_square; cbn [px py pz Vx].
  setoid_replace (u * u * (1 * 1 + 0 * 0 + 0 * 0)) with (u * u) by ring; ring.
Qed.

Lemma curve_evalDeriv_line_witness :
  0 <= 0 <= 1 /\ (0 + deriv_step_size <= 1 \/ 0 + deriv_step_size <= 0) /\
  fst (curve_evalDeriv (line 0 1 (mkPoint 1 2 3) (mkPoint 2 0 (-1))) 0 P0) = 0%Z /\
  pt_eq (snd (curve_evalDeriv (line 0 1 (mkPoint 1 2 3) (mkPoint 2 0 (-1))) 0 P0))
        (mkPoint 2 0 (-1)).
Proof.
  assert (H1 : 0 <= 0 <= 1) by (split; apply Qle_bool_iff; reflexivity).
  assert (H2 : 0 + deriv_step_size <= 1 \/ 0 + deriv_step_size <= 0)
    by (left; apply Qle_bool_iff; reflexivity).
  split; [exact H1|split; [exact H2|]].
  exact (curve_evalDeriv_line 0 1 0 (mkPoint 1 2 3) (mkPoint 2 0 (-1)) P0 H1 H2).
Defined.

Lemma curve_evalDeriv_short_range_witness :
  let c := line 0 (1 # 10000000) P0 Vx in
  (fst (getRange c) <= 0 <= snd (getRange c)) /\ snd (getRange c) < 0 + deriv_step_size /\
  0 < fst (getRange c) + deriv_step_size /\ evalPoint c 0 = (0%Z, linept P0 Vx 0) /\
  curve_evalDeriv c 0 Vx = (0%Z, Vx).
Proof.
  intros c.
  assert (H1 : fst (getRange c) <= 0 <= snd (getRange c))
    by (split; apply Qle_bool_iff; reflexivity).
  assert (H2 : snd (getRange c) < 0 + deriv_step_size) by reflexivity.
  assert (H3 : 0 < fst (getRange c) + deriv_step_size) by reflexivity.
  split; [exact H1|split; [exact H2|split; [exact H3|split; [reflexivity|]]]].
  exact (curve_evalDeriv_short_range c 0 (linept P0 Vx 0) Vx H1 H2 H3 eq_refl).
Defined.

Definition unit_square : surface :=
  mkSurface (0, 0, 1, 1) (fun u v => (0%Z, mkPoint u v 0)) (fun p => (0%Z, (px p, py p))).

Lemma evalDeriv_out_of_range_witness :
  ~ (fst (getRange (line 0 1 P0 Vx)) <= 2 <= snd (getRange (line 0 1 P0 Vx))) /\
  ~ (0 <= 2 <= 1 /\ 0 <= 0 <= 1) /\
  curve_evalDeriv (line 0 1 P0 Vx) 2 P0 = (1%Z, P0) /\
  surface_evalDeriv unit_square 2 0 P0 Vx Vx = (0%Z, Vx, Vx).
Proof.
  assert (H1 : ~ (fst (getRange (line 0 1 P0 Vx)) <= 2 <= snd (getRange (line 0 1 P0 Vx))))
    by (intros [_ H]; apply Qle_bool_iff in H; discriminate).
  assert (H2 : ~ (0 <= 2 <= 1 /\ 0 <= 0 <= 1))
    by (intros [[_ H] _]; apply Qle_bool_iff in H; discriminate).
  split; [exact H1|split; [exact H2|]].
  exact (evalDeriv_out_of_range (line 0 1 P0 Vx) unit_square 2 2 0 P0 P0 Vx Vx H1 H2).
Defined.

Lemma integrateEdge_fuel_witness :
  (21 - 0 <= 21)%nat /\ (21 - 0 <= 30)%nat /\
  integrateEdge 21 (line 0 1 P0 Vx) qsqrt 0 P0 1 (1 # 1000) 0 (mkIP 0 0) [] =
  integrateEdge 30 (line 0 1 P0 Vx) qsqrt 0 P0 1 (1 # 1000) 0 (mkIP 0 0) [].
Proof.
  split; [lia|split; [lia|]].
  exact (integrateEdge_fuel 21 30 (line 0 1 P0 Vx) qsqrt 0 P0 1 (1 # 1000) 0 (mkIP 0 0) []
           ltac:(lia) ltac:(lia)).
Defined.

Lemma TMRCurve_integrate_line_witness :
  (forall u, qsqrt (u * u * (px Vx * px Vx + py Vx * py Vx + pz Vx * pz Vx)) == Qabs u * 1) /\
  0 < 1 # 1000 /\ 0 <= 1 /\
  fst (fst (TMRCurve_integrate (line 0 1 P0 Vx) qsqrt 0 1 (1 # 1000))) == 1 # 128.
Proof.
  assert (Ht : 0 <= 1) by (apply Qle_bool_iff; reflexivity).
  split; [exact qsqrt_Vx|split; [reflexivity|split; [exact Ht|]]].
  rewrite (TMRCurve_integrate_line 0 1 (1 # 1000) 1 P0 Vx qsqrt qsqrt_Vx eq_refl 0 1 Ht).
  reflexivity.
Defined.

End GeomFacts.
