(* ===== verification/IndexWeight.v ===== *)
(** * [TMRIndexWeight::uniqueSort] and the subtraction comparators

    src/unnamed/part_001 (lines 117-160) declares [TMRIndexWeight], a
    node index with an interpolation weight, and [uniqueSort], which
    sorts an array of them with the C library's [qsort] under the
    comparator [compare_weights] ([A->index - B->index]) and then merges
    the runs of equal indices in place, adding their weights.
    src/unnamed/part_002 (lines 11-13) has the same subtraction
    comparator on plain integers, [compare_integers].

    [IW] models the record, the comparators on 32-bit [int] (the
    difference is wrapped into the range of [int], which is what the
    hardware does with the overflowing subtraction), [qsort] by its
    contract (a permutation that the comparator finds in order: the
    C library routine is outside src/), and the merge loop, literally as
    the [i]/[j] loop over the array: the first [j] entries of the result
    are the merged runs, the rest of the array keeps what [qsort] left
    there.

    [IWFacts] proves that [uniqueSort] refines the abstract operation it
    stands for (the sparse vector that maps every index to the total of
    its weights, listed once per index in increasing order) whenever the
    indices' differences fit in an [int], which holds for any array of
    non-negative indices; and that beyond that range the comparator is
    not transitive, so that an order [qsort] may return leaves an index
    twice in the merged array. *)

From Stdlib Require Import ZArith QArith Qring List Lia Sorted Permutation.
From S2P Require Import Prelude.
Import ListNotations.
Open Scope Z_scope.

Module IW.

(** [class TMRIndexWeight { int index; double weight; }] *)
Record TMRIndexWeight := mkIW { index : Z; weight : Q }.

(** The value of a C [int] expression whose exact value is [z]: the
    two's-complement wrap into [-2^31, 2^31). *)
Definition wrap32 (z : Z) : Z := (z + 2 ^ 31) mod 2 ^ 32 - 2 ^ 31.

(** [compare_weights(a, b)]: [A->index - B->index]. *)
Definition compare_weights (a b : TMRIndexWeight) : Z := wrap32 (index a - index b).

(** [compare_integers(a, b)] of src/unnamed/part_002: the difference of the two [int]s. *)
Definition compare_integers (a b : Z) : Z := wrap32 (a - b).

(** [qsort(array, size, sizeof(T), cmp)]: the array is permuted so that
    the comparator finds every pair of neighbours in order. *)
Definition qsort_spec {A} (cmp : A -> A -> Z) (l l' : list A) : Prop :=
  Permutation l l' /\ Sorted (fun a b => cmp a b <= 0) l'.

(** The body of the [i] loop from a current entry [cur] ([array[j]]):
    [while (array[i].index == array[i+1].index) array[j].weight +=
    array[i+1].weight], then the next [j]. *)
Fixpoint unique_pass (cur : TMRIndexWeight) (rest : list TMRIndexWeight)
  : list TMRIndexWeight :=
  match rest with
  | [] => [cur]
  | y :: rest' =>
      if Z.eqb (index cur) (index y)
      then unique_pass (mkIW (index cur) (weight cur + weight y)%Q) rest'
      else cur :: unique_pass y rest'
  end.

(** The merged runs [array[0..j)]. *)
Definition unique_merge (l : list TMRIndexWeight) : list TMRIndexWeight :=
  match l with
  | [] => []
  | x :: r => unique_pass x r
  end.

(** [uniqueSort(array, size)] once [qsort] has left [sorted] in the
    array: the array afterwards and the returned size [j]. *)
Definition uniqueSort (sorted : list TMRIndexWeight) : list TMRIndexWeight * Z :=
  let r := unique_merge sorted in
  (r ++ skipn (length r) sorted, Z.of_nat (length r)).

End IW.

Module IWFacts.
Import IW.

(** The total weight an array carries at index [n]: the abstract sparse
    vector that [uniqueSort] is meant to compute. *)
Definition weight_of (n : Z) (l : list TMRIndexWeight) : Q :=
  sumQ (map weight (filter (fun x => Z.eqb (index x) n) l)).

Lemma wrap32_id (z : Z) : -2 ^ 31 <= z < 2 ^ 31 -> wrap32 z = z.
Proof. intros H; unfold wrap32; rewrite Z.mod_small by lia; lia. Qed.

(** Within the range of [int] the comparator orders by index. *)
Lemma compare_weights_le (a b : TMRIndexWeight) :
  -2 ^ 31 <= index a - index b < 2 ^ 31 -> (compare_weights a b <= 0 <-> index a <= index b).
Proof. intros H; unfold compare_weights; rewrite wrap32_id by exact H; lia. Qed.

Lemma weight_of_cons (n : Z) (x : TMRIndexWeight) (l : list TMRIndexWeight) :
  (weight_of n (x :: l) == (if Z.eqb (index x) n then weight x else 0) + weight_of n l)%Q.
Proof.
  unfold weight_of; cbn [filter]; destruct (Z.eqb (index x) n); cbn [map]; unfold sumQ;
    cbn [fold_right]; ring.
Qed.

Lemma weight_of_perm (n : Z) (l1 l2 : list TMRIndexWeight) :
  Permutation l1 l2 -> (weight_of n l1 == weight_of n l2)%Q.
Proof.
  induction 1 as [|x l1 l2 _ IH|x y l|l1 l2 l3 _ IH1 _ IH2];
    rewrite ?weight_of_cons; [reflexivity|rewrite IH; reflexivity|ring|rewrite IH1; exact IH2].
Qed.

(** [Sorted] carries over to a weaker relation on the elements. *)
Lemma Sorted_weaken {A} (R R' : A -> A -> Prop) (l : list A) :
  (forall a b, In a l -> In b l -> R a b -> R' a b) -> Sorted R l -> Sorted R' l.
Proof.
  induction l as [|x l IH]; intros H S; [constructor|].
  apply Sorted_inv in S as [S Hd]; constructor.
  - apply IH; [intros a b Ha Hb; apply H; right; assumption|exact S].
  - destruct l as [|y l]; constructor; apply HdRel_inv in Hd.
    apply H; [left|right; left|]; auto.
Qed.

(** The merge of a run-sorted array: strictly increasing indices, every
    index at least the first, the same weight at every index and the same
    indices. *)
Lemma unique_pass_spec (cur : TMRIndexWeight) (rest : list TMRIndexWeight) :
  Sorted (fun a b => index a <= index b) (cur :: rest) ->
  let r := unique_pass cur rest in
  StronglySorted (fun a b => index a < index b) r /\
  Forall (fun x => index cur <= index x) r /\
  (forall n, weight_of n r == weight_of n (cur :: rest))%Q /\
  (forall n, (exists x, In x r /\ index x = n) <-> (exists x, In x (cur :: rest) /\ index x = n)) /\
  (length r <= S (length rest))%nat.
Proof.
  revert cur; induction rest as [|y rest IH]; intros cur S; cbn [unique_pass].
  { split; [repeat constructor|]; split; [repeat constructor; lia|].
    split; [reflexivity|]; split; [reflexivity|cbn; lia]. }
  apply Sorted_inv in S as [S Hd]; apply HdRel_inv in Hd.
  destruct (Z.eqb_spec (index cur) (index y)) as [E|E].
  - set (cur' := mkIW (index cur) (weight cur + weight y)%Q).
    assert (S' : Sorted (fun a b => index a <= index b) (cur' :: rest)).
    { apply Sorted_inv in S as [S2 Hd2]; constructor; [exact S2|].
      destruct rest as [|z rest]; constructor; apply HdRel_inv in Hd2; cbn; lia. }
    destruct (IH cur' S') as (SS & F & W & I & L); split; [exact SS|]; split; [exact F|].
    split; [|split; [|cbn in *; lia]].
    + intros n; rewrite W, !weight_of_cons; cbn [index weight cur'].
      rewrite <- E; destruct (Z.eqb (index cur) n); ring.
    + intros n; rewrite I; split.
      * intros (x & [<-|Hx] & Hn); [exists cur; split; [left|]; auto|].
        exists x; split; [right; right|]; auto.
      * intros (x & [<-|[<-|Hx]] & Hn).
        -- exists cur'; split; [left|]; auto.
        -- exists cur'; split; [left|cbn; lia]; auto.
        -- exists x; split; [right|]; auto.
  - destruct (IH y S) as (SS & F & W & I & L).
    split; [constructor; [exact SS|]|].
    { eapply Forall_impl; [|exact F]; intros x Hx; cbn in *; lia. }
    split; [constructor; [lia|]; eapply Forall_impl; [|exact F]; intros x Hx; cbn in *; lia|].
    split; [|split; [|cbn in *; lia]].
    + intros n; rewrite !weight_of_cons, W, weight_of_cons; reflexivity.
    + intros n; split.
      * intros (x & [<-|Hx] & Hn); [exists cur; split; [left|]; auto|].
        destruct (proj1 (I n) (ex_intro _ x (conj Hx Hn))) as (z & Hz & Hzn).
        exists z; split; [right|]; auto.
      * intros (x & [<-|Hx] & Hn); [exists cur; split; [left|]; auto|].
        destruct (proj2 (I n) (ex_intro _ x (conj Hx Hn))) as (z & Hz & Hzn).
        exists z; split; [right|]; auto.
Qed.

(** (C29) [uniqueSort] refines the sparse vector it stands for: when
    [qsort] has permuted the array under [compare_weights] and the
    differences of the indices fit in an [int] (as they do for node
    numbers, which are non-negative), the first [j] entries of the array
    that [uniqueSort] leaves, [j] the size it returns, have strictly
    increasing indices, carry at every index the total weight the input
    carried there, list exactly the indices of the input, and [j] does
    not exceed the input size. *)
Theorem uniqueSort_refines (l l' : list TMRIndexWeight) :
  qsort_spec compare_weights l l' ->
  (forall a b, In a l -> In b l -> -2 ^ 31 <= index a - index b < 2 ^ 31) ->
  let j := Z.to_nat (snd (uniqueSort l')) in
  let r := firstn j (fst (uniqueSort l')) in
  StronglySorted (fun a b => index a < index b) r /\
  (forall n, weight_of n r == weight_of n l)%Q /\
  (forall n, (exists x, In x r /\ index x = n) <-> (exists x, In x l /\ index x = n)) /\
  (j <= length l)%nat.
Proof.
  intros [P S] H j r.
  assert (Hr : r = unique_merge l').
  { unfold r, j, uniqueSort; cbn [fst snd]; rewrite Nat2Z.id, firstn_app, Nat.sub_diag.
    rewrite firstn_all, firstn_O, app_nil_r; reflexivity. }
  assert (Hj : j = length (unique_merge l')) by (unfold j, uniqueSort; cbn; lia).
  rewrite Hj, Hr, (Permutation_length P); clear Hr Hj r j.
  apply (Sorted_weaken _ (fun a b => index a <= index b)) in S;
    [|intros a b Ha Hb; apply compare_weights_le, H; apply (Permutation_in _ (Permutation_sym P));
      assumption].
  destruct l' as [|x rest]; cbn [unique_merge].
  - split; [constructor|]; split; [|split; [|cbn; lia]].
    + intros n; rewrite (weight_of_perm n _ _ P); reflexivity.
    + intros n; split; intros (x & Hx & _); [destruct Hx|].
      apply (Permutation_in _ P) in Hx; destruct Hx.
  - destruct (unique_pass_spec x rest S) as (SS & _ & W & I & L).
    split; [exact SS|]; split; [|split; [|cbn; lia]].
    + intros n; rewrite W, (weight_of_perm n _ _ P); reflexivity.
    + intros n; rewrite I; split; intros (z & Hz & Hzn); exists z; split; auto;
        [apply (Permutation_in _ (Permutation_sym P))|apply (Permutation_in _ P)]; exact Hz.
Qed.

(** The wrap of a difference of two [int]s, above and below the range. *)
Lemma wrap32_hi (z : Z) : 2 ^ 31 <= z < 2 ^ 32 -> wrap32 z = z - 2 ^ 32.
Proof.
  intros H; unfold wrap32.
  rewrite <- (Z.mod_unique (z + 2 ^ 31) (2 ^ 32) 1 (z + 2 ^ 31 - 2 ^ 32)); lia.
Qed.

Lemma wrap32_lo (z : Z) : - 2 ^ 32 < z < - 2 ^ 31 -> wrap32 z = z + 2 ^ 32.
Proof.
  intros H; unfold wrap32.
  rewrite <- (Z.mod_unique (z + 2 ^ 31) (2 ^ 32) (-1) (z + 2 ^ 31 + 2 ^ 32)); lia.
Qed.

(** The wrap keeps the sign of a difference of two 32-bit values
    exactly when the difference fits in an [int]. *)
Lemma wrap32_sign (d : Z) :
  - 2 ^ 32 < d < 2 ^ 32 ->
  (Z.compare (wrap32 d) 0 = Z.compare d 0 <-> -2 ^ 31 <= d < 2 ^ 31).
Proof.
  intros Hd; split.
  - intros E; destruct (Z.lt_ge_cases d (2 ^ 31)) as [H1|H1];
      [destruct (Z.lt_ge_cases d (- 2 ^ 31)) as [H2|H2]; [|lia]|].
    + rewrite wrap32_lo in E by lia; destruct (Z.compare_spec d 0);
        rewrite ?Z.compare_lt_iff, ?Z.compare_gt_iff, ?Z.compare_eq_iff in E; lia.
    + rewrite wrap32_hi in E by lia; destruct (Z.compare_spec d 0);
        rewrite ?Z.compare_lt_iff, ?Z.compare_gt_iff, ?Z.compare_eq_iff in E; lia.
  - intros H; rewrite wrap32_id by exact H; reflexivity.
Qed.

(** The sign of [compare_weights] on two [int] indices: it agrees with
    the order of the indices exactly when their difference fits in an
    [int]. *)
Lemma compare_weights_sign (a b : TMRIndexWeight) :
  -2 ^ 31 <= index a < 2 ^ 31 -> -2 ^ 31 <= index b < 2 ^ 31 ->
  (Z.compare (compare_weights a b) 0 = Z.compare (index a) (index b) <->
   -2 ^ 31 <= index a - index b < 2 ^ 31).
Proof.
  intros Ha Hb; unfold compare_weights; rewrite (Z.compare_sub (index a)); apply wrap32_sign; lia.
Qed.

(** (C30) Beyond the range of [int] the subtraction comparator breaks
    [uniqueSort]: for any three [int] indices [a < b < c] with [c - a]
    at least [2^31] and each step at most [2^31], [compare_weights]
    finds [a, b, c, a] in order ([c - a] wraps to a negative value), so
    this is an array [qsort] may return for any permutation of those
    entries; [uniqueSort] then keeps all four entries, the first [j] of
    them are not in increasing order of index, and index [a] appears
    twice. *)
Theorem uniqueSort_overflow_duplicate (l : list TMRIndexWeight) (a b c : TMRIndexWeight) :
  -2 ^ 31 <= index a -> index c < 2 ^ 31 -> index a < index b < index c ->
  index b - index a <= 2 ^ 31 -> index c - index b <= 2 ^ 31 -> 2 ^ 31 <= index c - index a ->
  Permutation l [a; b; c; a] ->
  qsort_spec compare_weights l [a; b; c; a] /\
  uniqueSort [a; b; c; a] = ([a; b; c; a], 4) /\
  ~ StronglySorted (fun x y => index x < index y) [a; b; c; a].
Proof.
  intros Ha Hc Habc Hab Hbc Hca P; split; [split; [exact P|]|split].
  - unfold compare_weights.
    assert (H1 : wrap32 (index a - index b) <= 0) by (rewrite wrap32_id by lia; lia).
    assert (H2 : wrap32 (index b - index c) <= 0) by (rewrite wrap32_id by lia; lia).
    assert (H3 : wrap32 (index c - index a) <= 0) by (rewrite wrap32_hi by lia; lia).
    repeat constructor; assumption.
  - unfold uniqueSort, unique_merge; cbn [unique_pass].
    rewrite (proj2 (Z.eqb_neq (index a) (index b))), (proj2 (Z.eqb_neq (index b) (index c))),
      (proj2 (Z.eqb_neq (index c) (index a))) by lia; reflexivity.
  - intros S; apply StronglySorted_inv in S as [_ S].
    apply Forall_forall with (x := a) in S; [lia|right; right; left; reflexivity].
Qed.

Lemma uniqueSort_refines_witness :
  let x3 := mkIW 3 (1 # 2) in
  let x1 := mkIW 1 1 in
  let y3 := mkIW 3 (1 # 4) in
  qsort_spec compare_weights [x3; x1; y3] [x1; x3; y3] /\
  (forall a b, In a [x3; x1; y3] -> In b [x3; x1; y3] -> -2 ^ 31 <= index a - index b < 2 ^ 31) /\
  (weight_of 3 (firstn (Z.to_nat (snd (uniqueSort [x1; x3; y3]))) (fst (uniqueSort [x1; x3; y3])))
   == weight_of 3 [x3; x1; y3])%Q.
Proof.
  intros x3 x1 y3.
  assert (Hq : qsort_spec compare_weights [x3; x1; y3] [x1; x3; y3]).
  { split; [apply Permutation_sym, perm_swap|repeat constructor; vm_compute; discriminate]. }
  assert (Hb : forall a b, In a [x3; x1; y3] -> In b [x3; x1; y3] ->
                 -2 ^ 31 <= index a - index b < 2 ^ 31)
    by (intros a b Ha Hb; destruct Ha as [<-|[<-|[<-|[]]]], Hb as [<-|[<-|[<-|[]]]]; cbn; lia).
  split; [exact Hq|]; split; [exact Hb|].
  exact (proj1 (proj2 (uniqueSort_refines _ _ Hq Hb)) 3).
Defined.

(** [INT_MIN], [0] and [INT_MAX]: the array [INT_MIN, INT_MIN, 0, INT_MAX]
    may come back from [qsort] as [INT_MIN, 0, INT_MAX, INT_MIN]. *)
Lemma uniqueSort_overflow_duplicate_witness :
  let a := mkIW (- 2 ^ 31) 1 in
  let b := mkIW 0 1 in
  let c := mkIW (2 ^ 31 - 1) 1 in
  qsort_spec compare_weights [a; a; b; c] [a; b; c; a] /\
  uniqueSort [a; b; c; a] = ([a; b; c; a], 4).
Proof.
  intros a b c.
  destruct (uniqueSort_overflow_duplicate [a; a; b; c] a b c ltac:(cbn; lia) ltac:(cbn; lia)
              ltac:(cbn; lia) ltac:(cbn; lia) ltac:(cbn; lia) ltac:(cbn; lia)
              (Permutation_cons_append [a; b; c] a)) as (H1 & H2 & _).
  split; [exact H1|exact H2].
Defined.

End IWFacts.
