(* ===== verification/TriQueue.v ===== *)
(** * The triangle queue of the triangulation (TriQueue)

    src/src/TMRTriangularize.c (lines 52-148) keeps groups of triangles
    in [TriQueue], a singly linked list of heap-allocated [TriQueueNode]
    records with a [start] and an [end] pointer and a [size] counter; it
    is used as a FIFO by [findEnclosing] (lines 1522-1551) through
    [append] and [pop], and offers [deleteNext], which unlinks the node
    after a given one.

    [TriQ] models the heap explicitly: the nodes live in a finite map
    from locations to records, [new] takes the next fresh location and
    [delete] removes it, and a pointer is an [option] location ([None] is
    [NULL]).  A read or write through a pointer whose node is not in the
    heap (freed, or never allocated) is undefined behaviour in C; the
    operations return [None] there.  Triangle pointers are kept as the
    opaque numbers of the triangles.

    [TriQFacts] gives the representation invariant, the list segment
    from [start] to [NULL] with [end] at its last node, and proves that
    [append] and [pop] implement a FIFO queue of triangles: every sequence
    of the two operations from the empty queue runs without fault and
    pops what the list model pops.  It also proves that [deleteNext]
    removes the entry after a node that is not the last but, applied to
    the node before the last, leaves [end] pointing to the freed node, so
    that the next [append] writes through a dangling pointer. *)

From stdpp Require Import base gmap list.
From Stdlib Require Import ZArith Lia.

Module TriQ.

(** [class TriQueueNode { TMRTriangle *tri; TriQueueNode *next; }] *)
Record TriQueueNode := mkQNode { qtri : nat; qnext : option nat }.

(** [class TriQueue { int size; TriQueueNode *start, *end; }] with the
    heap its nodes live in and the next fresh location. *)
Record TriQueue := mkTQ
  { qsize : Z; qstart : option nat; qend : option nat;
    qheap : gmap nat TriQueueNode; qfresh : nat }.

(** [TriQueue()]: [start = end = NULL; size = 0]. *)
Definition TriQueue_new : TriQueue := mkTQ 0 None None ∅ 0.

(** [pop()]: the first triangle, or [NULL] for an empty queue. *)
Definition pop (q : TriQueue) : option (TriQueue * option nat) :=
  match qstart q with
  | None => Some (q, None)
  | Some s =>
      match qheap q !! s with
      | None => None
      | Some n => Some (mkTQ (qsize q - 1) (qnext n) (qend q) (delete s (qheap q)) (qfresh q),
                        Some (qtri n))
      end
  end.

(** [append(t)]: a new node at the end; [size == 0] resets both
    pointers, otherwise the node is linked after [end]. *)
Definition append (q : TriQueue) (t : nat) : option TriQueue :=
  let l := qfresh q in
  if Z.eqb (qsize q) 0 then
    Some (mkTQ (qsize q + 1) (Some l) (Some l) (<[l := mkQNode t None]> (qheap q)) (S l))
  else
    match qend q with
    | None => None
    | Some e =>
        match qheap q !! e with
        | None => None
        | Some en =>
            Some (mkTQ (qsize q + 1) (qstart q) (Some l)
                       (<[l := mkQNode t None]> (<[e := mkQNode (qtri en) (Some l)]> (qheap q)))
                       (S l))
        end
    end.

(** [deleteNext(node)]: unlinks and frees [node->next]; returns 1, or 0
    when there is no such entry.  [end] is left as it is. *)
Definition deleteNext (q : TriQueue) (node : option nat) : option (TriQueue * Z) :=
  match node with
  | None => Some (q, 0%Z)
  | Some p =>
      match qheap q !! p with
      | None => None
      | Some pn =>
          match qnext pn with
          | None => Some (q, 0%Z)
          | Some nx =>
              match qheap q !! nx with
              | None => None
              | Some nn =>
                  Some (mkTQ (qsize q - 1) (qstart q) (qend q)
                             (delete nx (<[p := mkQNode (qtri pn) (qnext nn)]> (qheap q)))
                             (qfresh q), 1%Z)
              end
          end
      end
  end.

End TriQ.

Module TriQFacts.
Import TriQ.

(** The list segment from [p] to [NULL]: the locations it visits and the
    triangles their nodes hold. *)
Inductive qlist (h : gmap nat TriQueueNode) : option nat -> list nat -> list nat -> Prop :=
  | qlist_nil : qlist h None [] []
  | qlist_cons l n ls xs :
      h !! l = Some n -> qlist h (qnext n) ls xs -> qlist h (Some l) (l :: ls) (qtri n :: xs).

(** The representation invariant: the queue holds [xs] in the nodes [ls],
    which are the whole heap, each allocated once, below the fresh
    location; [size] counts them and [end] is the last one. *)
Definition queue_inv (q : TriQueue) (ls xs : list nat) : Prop :=
  qlist (qheap q) (qstart q) ls xs /\ NoDup ls /\
  (forall l, is_Some (qheap q !! l) <-> l ∈ ls) /\
  Forall (fun l => l < qfresh q) ls /\
  qsize q = Z.of_nat (length xs) /\
  (ls <> [] -> qend q = last ls).

Lemma qlist_length h p ls xs : qlist h p ls xs -> length ls = length xs.
Proof. induction 1; simpl; lia. Qed.

Lemma qlist_nil_inv h p xs : qlist h p [] xs -> p = None /\ xs = [].
Proof. inversion 1; auto. Qed.

(** Writes and frees outside the segment do not disturb it. *)
Lemma qlist_insert_frame h p ls xs l v :
  l ∉ ls -> qlist h p ls xs -> qlist (<[l := v]> h) p ls xs.
Proof.
  intros Hl H; induction H as [|l' n ls xs Hn _ IH]; constructor.
  - rewrite lookup_insert_ne; [exact Hn|set_solver].
  - apply IH; set_solver.
Qed.

Lemma qlist_delete_frame h p ls xs l :
  l ∉ ls -> qlist h p ls xs -> qlist (delete l h) p ls xs.
Proof.
  intros Hl H; induction H as [|l' n ls xs Hn _ IH]; constructor.
  - rewrite lookup_delete_ne; [exact Hn|set_solver].
  - apply IH; set_solver.
Qed.

(** The last node of a segment ends it. *)
Lemma qlist_last h p ls xs e :
  qlist h p ls xs -> last ls = Some e -> exists en, h !! e = Some en /\ qnext en = None.
Proof.
  induction 1 as [|l n ls xs Hn Hq IH]; [discriminate|].
  destruct ls as [|l2 ls].
  - intros He; cbn in He; injection He as <-; apply qlist_nil_inv in Hq as [Hq _].
    exists n; auto.
  - rewrite last_cons_cons; exact IH.
Qed.

Lemma last_elem {A} (l : list A) (x : A) : last l = Some x -> x ∈ l.
Proof. intros H; apply last_Some in H as [l' ->]; set_solver. Qed.

(** Linking a fresh node after the last one extends the segment. *)
Lemma qlist_snoc h p ls xs e en l t :
  qlist h p ls xs -> NoDup ls -> last ls = Some e -> h !! e = Some en -> l ∉ ls ->
  qlist (<[l := mkQNode t None]> (<[e := mkQNode (qtri en) (Some l)]> h)) p (ls ++ [l]) (xs ++ [t]).
Proof.
  induction 1 as [|l0 n ls xs Hn Hq IH]; [discriminate|].
  intros Hnd He Hen Hl; apply NoDup_cons in Hnd as [Hl0 Hnd].
  destruct ls as [|l2 ls].
  - cbn in He; injection He as <-; apply qlist_nil_inv in Hq as [Hq ->].
    rewrite Hen in Hn; injection Hn as <-; cbn.
    apply (qlist_cons _ l0 (mkQNode (qtri en) (Some l)) [l] [t]);
      [rewrite lookup_insert_ne by set_solver; apply lookup_insert_eq|cbn].
    apply (qlist_cons _ l (mkQNode t None) [] []); [apply lookup_insert_eq|constructor].
  - rewrite last_cons_cons in He; cbn [app]; constructor.
    + assert (Hne : l0 ≠ e) by (apply last_elem in He; set_solver).
      rewrite !lookup_insert_ne by set_solver; exact Hn.
    + apply IH; auto; set_solver.
Qed.

(** [pop] on a queue holding [x :: xs] returns [x] and leaves a queue
    holding [xs]; on the empty queue it returns [NULL]. *)
Lemma pop_spec q ls x xs :
  queue_inv q ls (x :: xs) ->
  exists q' ls', pop q = Some (q', Some x) /\ queue_inv q' ls' xs.
Proof.
  intros (Hq & Hnd & Hdom & Hf & Hs & He).
  inversion Hq as [|s n ls' xs' Hn Hq' Hstart Hls Hxs]; subst.
  apply NoDup_cons in Hnd as [Hs0 Hnd].
  exists (mkTQ (qsize q - 1) (qnext n) (qend q) (delete s (qheap q)) (qfresh q)), ls'.
  unfold pop; rewrite <- Hstart, Hn; split; [reflexivity|].
  split; [apply qlist_delete_frame; assumption|]; split; [exact Hnd|]; cbn [qheap qfresh qsize qend].
  split; [|split; [apply Forall_inv_tail in Hf; exact Hf|split; [rewrite Hs; cbn; lia|]]].
  - intros l; rewrite lookup_delete; case_decide; [subst; split; [intros []; discriminate|]|].
    + intros Hl; contradiction.
    + rewrite Hdom; set_solver.
  - intros Hne; rewrite He by discriminate; destruct ls' as [|l2 ls']; [contradiction|].
    apply last_cons_cons.
Qed.

Lemma pop_empty q ls : queue_inv q ls [] -> pop q = Some (q, None).
Proof.
  intros (Hq & _ & _ & _ & _ & _); inversion Hq; subst; unfold pop.
  match goal with H : None = qstart q |- _ => rewrite <- H end; reflexivity.
Qed.

(** [append t] links a fresh node holding [t] after the last one. *)
Lemma append_spec q ls xs t :
  queue_inv q ls xs -> exists q', append q t = Some q' /\ queue_inv q' (ls ++ [qfresh q]) (xs ++ [t]).
Proof.
  intros (Hq & Hnd & Hdom & Hf & Hs & He).
  assert (Hl : qfresh q ∉ ls)
    by (intros Hin; rewrite Forall_forall in Hf; specialize (Hf _ Hin); lia).
  assert (Hnd' : NoDup (ls ++ [qfresh q]))
    by (apply NoDup_app; split; [exact Hnd|]; split; [set_solver|apply NoDup_singleton]).
  assert (Hf' : Forall (fun l => l < S (qfresh q)) (ls ++ [qfresh q])).
  { apply Forall_app; split; [eapply Forall_impl; [exact Hf|]; intros y Hy; cbv beta in *; lia|
     constructor; [lia|constructor]]. }
  unfold append; destruct xs as [|x xs].
  - apply qlist_length in Hq as Hlen; destruct ls; [|discriminate].
    rewrite Hs; cbn [length Z.of_nat Z.eqb].
    eexists; split; [reflexivity|]; cbn [app qheap qstart qend qsize qfresh].
    split; [|split; [exact Hnd'|split; [|split; [exact Hf'|split; [reflexivity|]]]]].
    + inversion Hq; subst.
      apply (qlist_cons _ (qfresh q) (mkQNode t None) [] []); [apply lookup_insert_eq|constructor].
    + intros l; cbn [qheap]; rewrite lookup_insert; case_decide; [subst; set_solver|].
      rewrite Hdom; set_solver.
    + intros _; reflexivity.
  - apply qlist_length in Hq as Hlen.
    assert (Hne : ls <> []) by (intros ->; discriminate).
    destruct (last ls) as [e|] eqn:Hlast; [|apply last_None in Hlast; contradiction].
    destruct (qlist_last _ _ _ _ _ Hq Hlast) as (en & Hen & _).
    rewrite Hs, (He Hne), Hen; cbn [length].
    rewrite (proj2 (Z.eqb_neq (Z.of_nat (S (length xs))) 0)) by lia.
    eexists; split; [reflexivity|].
    split; [exact (qlist_snoc _ _ _ _ _ _ _ t Hq Hnd Hlast Hen Hl)|].
    split; [exact Hnd'|]; split; [|split; [exact Hf'|split]]; cbn [qheap qsize qend qfresh].
    + intros l; rewrite lookup_insert; case_decide; [subst; set_solver|].
      rewrite lookup_insert; case_decide; [subst; split; [intros _; apply last_elem in Hlast; set_solver|eauto]|].
      rewrite Hdom; set_solver.
    + rewrite length_app; cbn; lia.
    + intros _; rewrite last_snoc; reflexivity.
Qed.

(** ** The queue as a FIFO *)

(** The two operations [findEnclosing] uses. *)
Inductive qop := Append (t : nat) | Pop.

(** A run of the concrete queue: the queue afterwards and what each
    [pop] returned; [None] on a fault. *)
Fixpoint run_queue (q : TriQueue) (ops : list qop) : option (TriQueue * list (option nat)) :=
  match ops with
  | [] => Some (q, [])
  | Append t :: ops' =>
      match append q t with
      | Some q' => run_queue q' ops'
      | None => None
      end
  | Pop :: ops' =>
      match pop q with
      | Some (q', r) =>
          match run_queue q' ops' with
          | Some (q'', rs) => Some (q'', r :: rs)
          | None => None
          end
      | None => None
      end
  end.

(** The same run on a list used as a FIFO. *)
Fixpoint run_fifo (xs : list nat) (ops : list qop) : list nat * list (option nat) :=
  match ops with
  | [] => (xs, [])
  | Append t :: ops' => run_fifo (xs ++ [t]) ops'
  | Pop :: ops' =>
      match xs with
      | [] => let '(ys, rs) := run_fifo [] ops' in (ys, None :: rs)
      | x :: xs' => let '(ys, rs) := run_fifo xs' ops' in (ys, Some x :: rs)
      end
  end.

Lemma TriQueue_new_inv : queue_inv TriQueue_new [] [].
Proof.
  split; [constructor|]; split; [constructor|]; split; [|split; [constructor|split; [reflexivity|]]].
  - intros l; unfold TriQueue_new; cbn [qheap]; rewrite lookup_empty.
    split; [intros []; discriminate|set_solver].
  - intros []; reflexivity.
Qed.

Lemma run_queue_sim (ops : list qop) :
  forall q ls xs, queue_inv q ls xs ->
  exists q' ls', run_queue q ops = Some (q', snd (run_fifo xs ops)) /\
                 queue_inv q' ls' (fst (run_fifo xs ops)).
Proof.
  induction ops as [|[t|] ops IH]; intros q ls xs Hq; cbn [run_queue run_fifo].
  - exists q, ls; auto.
  - destruct (append_spec q ls xs t Hq) as (q' & -> & Hq'); exact (IH _ _ _ Hq').
  - destruct xs as [|x xs].
    + rewrite (pop_empty q ls Hq); destruct (IH q ls [] Hq) as (q' & ls' & -> & Hq').
      destruct (run_fifo [] ops); exists q', ls'; auto.
    + destruct (pop_spec q ls x xs Hq) as (q1 & ls1 & -> & Hq1).
      destruct (IH q1 ls1 xs Hq1) as (q' & ls' & -> & Hq').
      destruct (run_fifo xs ops); exists q', ls'; auto.
Qed.

(** (C31) [TriQueue] refines a FIFO queue of triangles: every sequence of
    [append] and [pop] calls from a new queue runs without touching freed
    or unallocated memory, each [pop] returns what a FIFO list returns
    ([NULL] when it is empty), and the queue afterwards holds what the
    list holds, in a well-formed linked list. *)
Theorem TriQueue_refines_fifo (ops : list qop) :
  exists q' ls', run_queue TriQueue_new ops = Some (q', snd (run_fifo [] ops)) /\
                 queue_inv q' ls' (fst (run_fifo [] ops)).
Proof. exact (run_queue_sim ops _ _ _ TriQueue_new_inv). Qed.

(** ** [deleteNext] and the end pointer *)

Lemma qlist_adjacent h s ls xs ls0 p e ls1 :
  qlist h s ls xs -> ls = ls0 ++ p :: e :: ls1 -> exists pn, h !! p = Some pn /\ qnext pn = Some e.
Proof.
  intros H; revert ls0; induction H as [|l n ls xs Hn Hq IH]; intros ls0 Hls;
    [destruct ls0; discriminate|].
  destruct ls0 as [|y ls0]; cbn in Hls; injection Hls as -> Hls.
  - subst ls; exists n; split; [exact Hn|]; inversion Hq; reflexivity.
  - exact (IH ls0 Hls).
Qed.

(** [deleteNext] on the node before the last unlinks and frees the
    last node but leaves [end] pointing to it: the queue's [end] is then a
    dangling pointer and the next [append] writes through it. *)
Theorem deleteNext_before_last_dangling q ls0 p e xs t :
  queue_inv q (ls0 ++ [p; e]) xs ->
  exists q', deleteNext q (Some p) = Some (q', 1%Z) /\ qend q' = Some e /\
             qheap q' !! e = None /\ append q' t = None.
Proof.
  intros (Hq & Hnd & Hdom & _ & Hs & He).
  destruct (qlist_adjacent _ _ _ _ ls0 p e [] Hq eq_refl) as (pn & Hp & Hpn).
  destruct (proj2 (Hdom e) ltac:(set_solver)) as [en Hen].
  assert (Hpe : p ≠ e) by (intros ->; apply NoDup_app in Hnd as (_ & _ & Hnd);
                           apply NoDup_cons in Hnd as [Hnd _]; set_solver).
  assert (Hlen : 2 <= length xs)
    by (apply qlist_length in Hq; rewrite length_app in Hq; cbn in Hq; lia).
  unfold deleteNext; rewrite Hp, Hpn, Hen.
  assert (Hend : qend q = Some e)
    by (rewrite He by (destruct ls0; discriminate); rewrite last_app_cons, last_cons_cons;
        reflexivity).
  eexists; split; [reflexivity|]; cbn [qend qheap qsize].
  split; [exact Hend|]; split; [apply lookup_delete_eq|].
  unfold append; cbn [qend qheap qsize]; rewrite Hend.
  rewrite (proj2 (Z.eqb_neq _ 0)) by lia; rewrite lookup_delete_eq; reflexivity.
Qed.

(** Two appends to a new queue: nodes 0 and 1 holding triangles 5 and 7. *)
Definition two_queue : TriQueue :=
  mkTQ 2 (Some 0) (Some 1) (<[1 := mkQNode 7 None]> (<[0 := mkQNode 5 (Some 1)]> ∅)) 2.

Lemma two_queue_inv : queue_inv two_queue [0; 1] [5; 7].
Proof.
  split; [|split; [repeat constructor; set_solver|split; [|split; [repeat constructor|split]]]].
  - apply (qlist_cons _ 0 (mkQNode 5 (Some 1))); [reflexivity|].
    apply (qlist_cons _ 1 (mkQNode 7 None)); [reflexivity|constructor].
  - intros l; unfold two_queue; cbn [qheap]; rewrite !lookup_insert, lookup_empty.
    repeat case_decide; subst; split; try (intros; set_solver); intros []; discriminate.
  - reflexivity.
  - intros _; reflexivity.
Qed.

Lemma deleteNext_before_last_dangling_witness :
  queue_inv two_queue ([] ++ [0; 1]) [5; 7] /\
  exists q', deleteNext two_queue (Some 0) = Some (q', 1%Z) /\ qend q' = Some 1 /\
             qheap q' !! 1 = None /\ append q' 9 = None.
Proof.
  split; [exact two_queue_inv|].
  exact (deleteNext_before_last_dangling two_queue [] 0 1 [5; 7] 9 two_queue_inv).
Defined.

End TriQFacts.
