(* ===== verification/EdgeHash.v ===== *)
(** * The edge hash table and the triangle list of the triangulation

    [TMRTriangularize] (src/src/TMRTriangularize.c) keeps its mesh in a
    doubly linked list of triangles and finds the triangle on the left of
    a directed edge [(u, v)] through a hash table of [EdgeHashNode]s,
    chained per bucket.  [addTriangle] (lines 972-1125) appends the
    triangle to the list, points its three vertices at it, grows the
    table (doubling the buckets) when it holds more than ten nodes per
    bucket, and enters the three directed edges, overwriting (and
    reporting failure for) an edge that is already there.
    [deleteTriangle] (lines 1132-1204) removes the three edges, marks the
    triangle of the first one it finds [DELETE_ME] and reports whether it
    found all three; [completeMe] (lines 1220-1239) looks an edge up, and
    [deleteTrianglesFromList] (lines 933-970) frees the marked triangles.

    [EH] models the state as a record: the triangle list as the list of
    its node numbers in order with a store from node numbers to
    triangles (a list node is allocated at the next fresh number), the
    vertex-to-triangle array as a finite map, and the hash table as the
    list of its buckets, each the list of its chain in order.  The pair
    hash [TMRIntegerPairHash] (TMRHashFunction.h, outside src/) is a
    parameter [hash] of every definition; [TMRTriangle] (TMRTriangularize.h,
    outside src/) is modelled from its uses in this file.  The doubly
    linked list's pointer surgery in [deleteTrianglesFromList] is modelled
    by its effect, the list without the marked nodes.

    [EHFacts] proves that the chained table refines a finite map from
    directed edges to triangles: lookups ([completeMe]) agree with the
    map, inserting and removing an edge and regrowing the table act on
    the map as [insert], [delete] and the identity, and [addTriangle] and
    [deleteTriangle] act on it as the abstract operations on the three
    edges, with their success flags.  It also shows what an overwritten
    edge does: deleting the first of two triangles that share a directed
    edge marks the second one, and [completeMe] then returns its freed
    node. *)

From stdpp Require Import base gmap list.
From Stdlib Require Import ZArith Lia.

Module EH.

(** The [status] values of a triangle. *)
Inductive tri_status := NO_STATUS | DELETE_ME | WAITING | ACTIVE | ACCEPTED.

(** [TMRTriangle]: the three vertices, a tag and the status. *)
Record TMRTriangle := mkTri { tu : Z; tv : Z; tw : Z; ttag : Z; tstatus : tri_status }.

(** [class EdgeHashNode { uint32_t u, v; TriListNode *tri_node;
    EdgeHashNode *next; }]: the chain is the bucket's list. *)
Record EdgeHashNode := mkE { eu : Z; ev : Z; tri_node : nat }.

(** The triangulation's mesh state. *)
Record mesh := mkMesh
  { tri_list : list nat;                 (* list_start ... list_end *)
    tri_store : gmap nat TMRTriangle;    (* the list nodes *)
    tri_fresh : nat;
    pts_to_tris : gmap Z nat;
    num_triangles : Z;
    buckets : list (list EdgeHashNode);  (* num_buckets = length buckets *)
    num_hash_nodes : Z }.

Section WithHash.
(** [TMRIntegerPairHash(x, y)], a [uint32_t]. *)
Variable hash : Z -> Z -> Z.

(** [getEdgeHash(u, v) % num_buckets] *)
Definition edge_bucket (nb : nat) (u v : Z) : nat := Z.to_nat (hash u v mod Z.of_nat nb).

(** The initial state set by [initialize]: 100 empty buckets, an empty
    list and no triangles. *)
Definition mesh_init : mesh := mkMesh [] ∅ 0 ∅ 0 (replicate 100 []) 0.

(** The scan of one chain in [addTriangle]: an existing [(u, v)] has its
    triangle overwritten (the flag is [false], "we'll call this a
    failure"); otherwise a node is appended at the end. *)
Fixpoint bucket_add (b : list EdgeHashNode) (u v : Z) (t : nat) : list EdgeHashNode * bool :=
  match b with
  | [] => ([mkE u v t], true)
  | n :: rest =>
      if Z.eqb (eu n) u && Z.eqb (ev n) v then (mkE u v t :: rest, false)
      else let '(rest', c) := bucket_add rest u v t in (n :: rest', c)
  end.

(** One edge of [addTriangle]: the buckets, the node count and the flag. *)
Definition hash_add (bs : list (list EdgeHashNode)) (cnt : Z) (u v : Z) (t : nat)
  : list (list EdgeHashNode) * Z * bool :=
  let i := edge_bucket (length bs) u v in
  let '(b', created) := bucket_add (bs !!! i) u v t in
  (<[i := b']> bs, if created then (cnt + 1)%Z else cnt, created).

(** The regrowth of [addTriangle]: twice as many buckets, the nodes moved
    old bucket by old bucket, each appended at the end of its new chain. *)
Definition rehash (bs : list (list EdgeHashNode)) : list (list EdgeHashNode) :=
  let nb := (2 * length bs)%nat in
  fold_left (fun acc n => let i := edge_bucket nb (eu n) (ev n) in <[i := acc !!! i ++ [n]]> acc)
            (concat bs) (replicate nb []).

(** The array [edge_pairs] of [addTriangle] and [deleteTriangle]: the
    three directed edges of the triangle. *)
Definition tri_edges (tri : TMRTriangle) : list (Z * Z) :=
  [(tu tri, tv tri); (tv tri, tw tri); (tw tri, tu tri)].

(** One pass of the edge loop of [addTriangle]: [success] is cleared
    when the edge was already there. *)
Definition add_edge (id : nat) (st : list (list EdgeHashNode) * Z * bool) (e : Z * Z)
  : list (list EdgeHashNode) * Z * bool :=
  let '(bs, cnt, success) := st in
  let '(u, v) := e in
  let '(bs', cnt', created) := hash_add bs cnt u v id in
  (bs', cnt', success && created).

(** [addTriangle(tri)]: the new state and [success]. *)
Definition addTriangle (m : mesh) (tri : TMRTriangle) : mesh * bool :=
  let id := tri_fresh m in
  let tri' := mkTri (tu tri) (tv tri) (tw tri) 0 NO_STATUS in
  let pts := <[tw tri := id]> (<[tv tri := id]> (<[tu tri := id]> (pts_to_tris m))) in
  let bs0 := if Z.ltb (10 * Z.of_nat (length (buckets m))) (num_hash_nodes m)
             then rehash (buckets m) else buckets m in
  let '(bs3, c3, success) := fold_left (add_edge id) (tri_edges tri) (bs0, num_hash_nodes m, true) in
  (mkMesh (tri_list m ++ [id]) (<[id := tri']> (tri_store m)) (S id) pts
          (num_triangles m + 1) bs3 c3, success).

(** The scan of one chain in [deleteTriangle]: the first node of [(u, v)]
    is unlinked; its triangle is returned. *)
Fixpoint bucket_remove (b : list EdgeHashNode) (u v : Z) : option (nat * list EdgeHashNode) :=
  match b with
  | [] => None
  | n :: rest =>
      if Z.eqb u (eu n) && Z.eqb v (ev n) then Some (tri_node n, rest)
      else match bucket_remove rest u v with
           | Some (t, rest') => Some (t, n :: rest')
           | None => None
           end
  end.

(** [node->tri_node->tri.status = DELETE_ME] *)
Definition mark_deleted (st : gmap nat TMRTriangle) (t : nat) : gmap nat TMRTriangle :=
  match st !! t with
  | Some tr => <[t := mkTri (tu tr) (tv tr) (tw tr) (ttag tr) DELETE_ME]> st
  | None => st
  end.

(** One edge of [deleteTriangle], with the [first] flag. *)
Definition delete_edge (st : mesh * bool * bool) (e : Z * Z) : mesh * bool * bool :=
  let '(m, first, success) := st in
  let '(u, v) := e in
  let i := edge_bucket (length (buckets m)) u v in
  match bucket_remove (buckets m !!! i) u v with
  | Some (t, b') =>
      let m1 := if first
                then mkMesh (tri_list m) (mark_deleted (tri_store m) t) (tri_fresh m)
                            (pts_to_tris m) (num_triangles m - 1) (buckets m) (num_hash_nodes m)
                else m in
      (mkMesh (tri_list m1) (tri_store m1) (tri_fresh m1) (pts_to_tris m1) (num_triangles m1)
              (<[i := b']> (buckets m1)) (num_hash_nodes m1 - 1), false, success)
  | None => (m, first, false)
  end.

(** [deleteTriangle(tri)]: the new state and [success]. *)
Definition deleteTriangle (m : mesh) (tri : TMRTriangle) : mesh * bool :=
  let '(m', _, success) :=
    fold_left delete_edge (tri_edges tri) (m, true, true) in
  (m', success).

(** [completeMe(u, v, &tri)]: the triangle node on the left of [(u, v)],
    or [NULL]. *)
Fixpoint bucket_find (b : list EdgeHashNode) (u v : Z) : option nat :=
  match b with
  | [] => None
  | n :: rest => if Z.eqb (eu n) u && Z.eqb (ev n) v then Some (tri_node n) else bucket_find rest u v
  end.

(** The pointer [&(node->tri_node->tri)]: the node number of the
    triangle's list node. *)
Definition completeMe (m : mesh) (u v : Z) : option nat :=
  bucket_find (buckets m !!! edge_bucket (length (buckets m)) u v) u v.

(** [deleteTrianglesFromList()]: the marked nodes are unlinked and freed. *)
Definition deleteTrianglesFromList (m : mesh) : mesh :=
  let dead t := match tri_store m !! t with
                | Some tr => if tstatus tr is DELETE_ME then true else false
                | None => false
                end in
  mkMesh (filter (fun t => dead t = false) (tri_list m))
         (filter (fun kv => dead kv.1 = false) (tri_store m)) (tri_fresh m) (pts_to_tris m)
         (num_triangles m) (buckets m) (num_hash_nodes m).

End WithHash.

End EH.

Module EHFacts.
Import EH.

Definition key (n : EdgeHashNode) : Z * Z := (eu n, ev n).

Lemma key_mkE u v t : key (mkE u v t) = (u, v).
Proof. reflexivity. Qed.

Lemma eqb_key (n : EdgeHashNode) (u v : Z) :
  (Z.eqb (eu n) u && Z.eqb (ev n) v)%bool = bool_decide (key n = (u, v)).
Proof.
  unfold key; destruct (Z.eqb_spec (eu n) u), (Z.eqb_spec (ev n) v); cbn; symmetry;
    [apply bool_decide_eq_true_2|apply bool_decide_eq_false_2..]; congruence.
Qed.

(** ** One chain *)

Lemma bucket_find_spec b u v t :
  NoDup (key <$> b) -> (bucket_find b u v = Some t <-> mkE u v t ∈ b).
Proof.
  induction b as [|n b IH]; intros Hnd; cbn [bucket_find].
  - split; [discriminate|intros H; inversion H].
  - apply NoDup_cons in Hnd as [Hn Hnd]; rewrite eqb_key, elem_of_cons.
    destruct n as [nu nv nt]; unfold key in *; cbn in *.
    case_bool_decide as E.
    + injection E as -> ->; split; [intros [= ->]; left; reflexivity|].
      intros [[= ->]|Hin]; [reflexivity|].
      exfalso; apply Hn; apply (list_elem_of_fmap_2' key b (mkE u v t)); auto.
    + rewrite IH by exact Hnd; split; [intros; right; assumption|].
      intros [[= -> -> ->]|Hin]; [contradiction|assumption].
Qed.

Lemma bucket_find_none b u v :
  (forall t, mkE u v t ∉ b) -> bucket_find b u v = None.
Proof.
  induction b as [|n b IH]; intros H; cbn [bucket_find]; [reflexivity|].
  rewrite eqb_key; case_bool_decide as E.
  - exfalso; destruct n as [nu nv nt]; unfold key in E; cbn in E; injection E as -> ->.
    apply (H nt); left.
  - apply IH; intros t Ht; apply (H t); right; exact Ht.
Qed.

Lemma bucket_add_spec b u v t :
  NoDup (key <$> b) ->
  NoDup (key <$> (bucket_add b u v t).1) /\
  (forall n, n ∈ (bucket_add b u v t).1 <-> n = mkE u v t \/ (n ∈ b /\ key n <> (u, v))) /\
  ((bucket_add b u v t).2 = true <-> (u, v) ∉ key <$> b).
Proof.
  induction b as [|n b IH]; intros Hnd; cbn [bucket_add].
  - cbn [fst snd]; split; [apply NoDup_singleton|]; split.
    + intros n; rewrite list_elem_of_singleton; set_solver.
    + split; [intros _ H; inversion H|reflexivity].
  - apply NoDup_cons in Hnd as [Hn Hnd]; rewrite eqb_key; case_bool_decide as E.
    + cbn [fst snd]; split; [constructor; [rewrite key_mkE, <- E; exact Hn|exact Hnd]|].
      split; [|split; [discriminate|intros H; exfalso; apply H; rewrite <- E; left]].
      intros m; rewrite !elem_of_cons; split.
      * intros [->|Hm]; [left; reflexivity|right; split; [right; exact Hm|]].
        intros Hk; apply Hn; rewrite E, <- Hk; apply list_elem_of_fmap_2, Hm.
      * intros [->|[[->|Hm] Hk]]; [left; reflexivity|contradiction|right; exact Hm].
    + destruct (IH Hnd) as (N & M & C).
      destruct (bucket_add b u v t) as [b' c]; cbn [fst snd] in *.
      split; [cbn; constructor; [|exact N]|]; [|split].
      * rewrite list_elem_of_fmap; intros (m & Hk & Hm); apply M in Hm as [->|[Hm _]].
        -- apply E; rewrite Hk; reflexivity.
        -- apply Hn; rewrite Hk; apply list_elem_of_fmap_2, Hm.
      * intros m; rewrite !elem_of_cons, M; split.
        -- intros [->|[->|[Hm Hk]]]; [right; split; [left; reflexivity|exact E]|left; reflexivity|].
           right; split; [right; exact Hm|exact Hk].
        -- intros [->|[[->|Hm] Hk]]; [right; left; reflexivity|left; reflexivity|].
           right; right; split; assumption.
      * rewrite C; cbn; rewrite elem_of_cons; split; [intros H [Hk|Hk]; [apply E|apply H]; auto|].
        intros H Hk; apply H; right; exact Hk.
Qed.

Lemma bucket_remove_spec b u v :
  NoDup (key <$> b) ->
  match bucket_remove b u v with
  | Some (t, b') => mkE u v t ∈ b /\ NoDup (key <$> b') /\
                    (forall n, n ∈ b' <-> n ∈ b /\ key n <> (u, v))
  | None => (u, v) ∉ key <$> b
  end.
Proof.
  induction b as [|n b IH]; intros Hnd; cbn [bucket_remove]; [intros H; inversion H|].
  apply NoDup_cons in Hnd as [Hn Hnd].
  rewrite (Z.eqb_sym u), (Z.eqb_sym v), eqb_key; case_bool_decide as E.
  - destruct n as [nu nv nt]; unfold key in E, Hn; cbn in E, Hn |- *; injection E as -> ->.
    split; [left|]; split; [exact Hnd|].
    intros m; rewrite elem_of_cons; split; [intros Hm; split; [right; exact Hm|]|].
    + intros Hk; apply Hn; rewrite <- Hk; exact (list_elem_of_fmap_2 key _ _ Hm).
    + intros [[->|Hm] Hk]; [exfalso; apply Hk; reflexivity|exact Hm].
  - specialize (IH Hnd); destruct (bucket_remove b u v) as [[t b']|].
    + destruct IH as (Hin & N & Mem); split; [right; exact Hin|]; split.
      * cbn; constructor; [|exact N]; intros Hk; apply Hn.
        apply list_elem_of_fmap in Hk as (m & Hk & Hm); rewrite Hk.
        exact (list_elem_of_fmap_2 key _ _ (proj1 (proj1 (Mem m) Hm))).
      * intros m; rewrite !elem_of_cons, Mem; split.
        -- intros [->|[Hm Hk]]; [split; [left|]; auto|split; [right|]; auto].
        -- intros [[->|Hm] Hk]; [left|right]; auto.
    + cbn; rewrite elem_of_cons; intros [Hk|Hk]; [apply E; rewrite Hk; reflexivity|exact (IH Hk)].
Qed.

Lemma bucket_add_absent b u v t :
  (u, v) ∉ key <$> b -> bucket_add b u v t = (b ++ [mkE u v t], true).
Proof.
  induction b as [|n b IH]; intros Hk; cbn [bucket_add]; [reflexivity|].
  rewrite eqb_key, bool_decide_eq_false_2; [|intros E; apply Hk; rewrite <- E; left].
  rewrite IH; [reflexivity|intros H; apply Hk; right; exact H].
Qed.

Lemma elem_of_concat_lookup (bs : list (list EdgeHashNode)) n :
  n ∈ concat bs <-> exists i b, bs !! i = Some b /\ n ∈ b.
Proof.
  induction bs as [|b bs IH]; cbn [concat].
  - split; [intros H; inversion H|intros (i & b & Hb & _); rewrite lookup_nil in Hb; discriminate].
  - rewrite elem_of_app, IH; split.
    + intros [Hn|(i & c & Hc & Hn)]; [exists 0, b|exists (S i), c]; auto.
    + intros ([|i] & c & Hc & Hn); cbn in Hc; [injection Hc as <-; left|right; eauto]; exact Hn.
Qed.

(** Chains that sit at the positions their keys select hold pairwise
    distinct keys once concatenated. *)
Lemma keys_concat_nodup (f : Z * Z -> nat) bs off :
  (forall i b n, bs !! i = Some b -> n ∈ b -> f (key n) = off + i) ->
  (forall i b, bs !! i = Some b -> NoDup (key <$> b)) ->
  NoDup (key <$> concat bs).
Proof.
  revert off; induction bs as [|b bs IH]; intros off Hf Hnd; cbn [concat]; [constructor|].
  rewrite fmap_app, NoDup_app; split; [exact (Hnd 0 b eq_refl)|split].
  - intros k Hk1 Hk2; apply list_elem_of_fmap in Hk1 as (n1 & -> & H1).
    apply list_elem_of_fmap in Hk2 as (n2 & Hk & H2).
    apply elem_of_concat_lookup in H2 as (i & c & Hc & H2).
    pose proof (Hf 0 b n1 eq_refl H1); pose proof (Hf (S i) c n2 Hc H2).
    rewrite Hk in *; lia.
  - apply (IH (S off)); [intros i c n Hc Hn; rewrite (Hf (S i) c n Hc Hn); lia|].
    intros i c Hc; exact (Hnd (S i) c Hc).
Qed.

(** The map of a list of nodes, entered one after the other. *)
Definition ins_all (l : list EdgeHashNode) (M : gmap (Z * Z) nat) : gmap (Z * Z) nat :=
  foldl (fun M n => <[key n := tri_node n]> M) M l.

Lemma ins_all_notin l M k : k ∉ key <$> l -> ins_all l M !! k = M !! k.
Proof.
  revert M; induction l as [|n l IH]; intros M Hk; [reflexivity|].
  change (ins_all (n :: l) M) with (ins_all l (<[key n := tri_node n]> M)); rewrite IH; [apply lookup_insert_ne; intros E; apply Hk; rewrite <- E; left|].
  intros H; apply Hk; right; exact H.
Qed.

Lemma ins_all_in l M n :
  NoDup (key <$> l) -> n ∈ l -> ins_all l M !! key n = Some (tri_node n).
Proof.
  revert M; induction l as [|m l IH]; intros M Hnd Hn; [inversion Hn|].
  cbn in Hnd; apply NoDup_cons in Hnd as [Hm Hnd]; apply elem_of_cons in Hn as [->|Hn].
  - change (ins_all (m :: l) M) with (ins_all l (<[key m := tri_node m]> M)).
    rewrite ins_all_notin by exact Hm; apply lookup_insert_eq.
  - apply IH; assumption.
Qed.

(** ** The table *)

Section Table.
Variable hash : Z -> Z -> Z.

(** The chained table [bs] represents the map [M] from directed edges to
    triangle nodes: every node sits in the bucket of its edge, no chain
    holds an edge twice, and the nodes are exactly the map's entries. *)
Definition table_rep (bs : list (list EdgeHashNode)) (M : gmap (Z * Z) nat) : Prop :=
  length bs <> 0 /\
  (forall i b n, bs !! i = Some b -> n ∈ b -> edge_bucket hash (length bs) (eu n) (ev n) = i) /\
  (forall i b, bs !! i = Some b -> NoDup (key <$> b)) /\
  (forall u v t, M !! (u, v) = Some t <-> exists i b, bs !! i = Some b /\ mkE u v t ∈ b).

Lemma edge_bucket_lt (nb : nat) (u v : Z) : nb <> 0 -> edge_bucket hash nb u v < nb.
Proof.
  unfold edge_bucket; intros H.
  pose proof (Z.mod_pos_bound (hash u v) (Z.of_nat nb) ltac:(lia)); lia.
Qed.

(** The bucket of an edge exists. *)
Lemma rep_bucket_of bs M u v :
  table_rep bs M -> exists b, bs !! edge_bucket hash (length bs) u v = Some b.
Proof.
  intros (Hne & _); apply lookup_lt_is_Some_2, edge_bucket_lt, Hne.
Qed.

(** Within its bucket, an edge is in the chain exactly when it is in the
    map. *)
Lemma rep_bucket bs M u v t b :
  table_rep bs M -> bs !! edge_bucket hash (length bs) u v = Some b ->
  (M !! (u, v) = Some t <-> mkE u v t ∈ b).
Proof.
  intros (Hne & Hb & Hnd & HM) Hbi; rewrite HM; split; [|intros Hin; eauto].
  intros (j & b' & Hbj & Hin); pose proof (Hb _ _ _ Hbj Hin) as Hj; cbn in Hj.
  rewrite Hj in Hbi; congruence.
Qed.

(** Replacing one chain by another that holds, for the edges of that
    bucket, the entries of a new map, which agrees with the old one
    elsewhere. *)
Lemma rep_update bs M i b b' M' :
  table_rep bs M -> bs !! i = Some b -> NoDup (key <$> b') ->
  (forall n, n ∈ b' -> edge_bucket hash (length bs) (eu n) (ev n) = i) ->
  (forall u v t, M' !! (u, v) = Some t <->
     if decide (edge_bucket hash (length bs) u v = i) then mkE u v t ∈ b'
     else M !! (u, v) = Some t) ->
  table_rep (<[i := b']> bs) M'.
Proof.
  intros (Hne & Hb & Hnd & HM) Hbi Hnd' Hb' HM'.
  assert (Hi : i < length bs) by (apply lookup_lt_Some in Hbi; exact Hbi).
  split; [rewrite length_insert; exact Hne|]; rewrite length_insert; split; [|split].
  - intros j c n Hc Hn; apply list_lookup_insert_Some in Hc as [(<- & <- & _)|(_ & Hc)];
      [apply Hb', Hn|exact (Hb _ _ _ Hc Hn)].
  - intros j c Hc; apply list_lookup_insert_Some in Hc as [(<- & <- & _)|(_ & Hc)];
      [exact Hnd'|exact (Hnd _ _ Hc)].
  - intros u v t; rewrite HM'; case_decide as E.
    + split; [intros Hin; exists i, b'; split; [apply list_lookup_insert_eq; exact Hi|exact Hin]|].
      intros (j & c & Hc & Hin); apply list_lookup_insert_Some in Hc as [(<- & <- & _)|(Hij & Hc)];
        [exact Hin|].
      exfalso; apply Hij; rewrite <- E; exact (Hb _ _ _ Hc Hin).
    + rewrite HM; split; intros (j & c & Hc & Hin).
      * exists j, c; split; [|exact Hin]; rewrite list_lookup_insert_ne; [exact Hc|].
        intros <-; apply E; exact (Hb _ _ _ Hc Hin).
      * apply list_lookup_insert_Some in Hc as [(<- & <- & _)|(_ & Hc)]; [|eauto].
        exfalso; apply E; exact (Hb' _ Hin).
Qed.

(** [completeMe] looks the edge up in the map. *)
Lemma table_find bs M u v :
  table_rep bs M -> bucket_find (bs !!! edge_bucket hash (length bs) u v) u v = M !! (u, v).
Proof.
  intros Hrep; destruct (rep_bucket_of _ _ u v Hrep) as [b Hbi].
  rewrite (list_lookup_total_correct _ _ _ Hbi).
  destruct (M !! (u, v)) as [t|] eqn:Ht.
  - apply bucket_find_spec; [exact (proj1 (proj2 (proj2 Hrep)) _ _ Hbi)|].
    exact (proj1 (rep_bucket _ _ _ _ t _ Hrep Hbi) Ht).
  - apply bucket_find_none; intros t Hin.
    apply (rep_bucket _ _ _ _ t _ Hrep Hbi) in Hin; congruence.
Qed.

(** Entering an edge: the table represents the map with the edge
    inserted, keeps its size, and reports a new node exactly when the
    edge was absent. *)
Lemma hash_add_spec bs M cnt u v t :
  table_rep bs M ->
  let r := hash_add hash bs cnt u v t in
  table_rep r.1.1 (<[(u, v) := t]> M) /\ length r.1.1 = length bs /\
  (r.2 = true <-> M !! (u, v) = None) /\ r.1.2 = (if r.2 then cnt + 1 else cnt)%Z.
Proof.
  intros Hrep; destruct (rep_bucket_of _ _ u v Hrep) as [b Hbi].
  pose proof (proj1 (proj2 (proj2 Hrep)) _ _ Hbi) as Hnd.
  unfold hash_add; cbv zeta; rewrite (list_lookup_total_correct _ _ _ Hbi).
  destruct (bucket_add_spec b u v t Hnd) as (N & Mem & C).
  destruct (bucket_add b u v t) as [b' c]; cbn [fst snd] in *.
  split; [|split; [apply length_insert|split; [|reflexivity]]].
  - apply (rep_update _ _ _ _ _ _ Hrep Hbi N).
    + intros n Hn; apply Mem in Hn as [->|[Hn _]]; [reflexivity|].
      exact (proj1 (proj2 Hrep) _ _ _ Hbi Hn).
    + intros u' v' t'; rewrite lookup_insert_Some; case_decide as E.
      * assert (Hbi' : bs !! edge_bucket hash (length bs) u' v' = Some b) by (rewrite E; exact Hbi).
        rewrite Mem, (rep_bucket _ _ _ _ t' _ Hrep Hbi'); split.
        -- intros [([= -> ->] & ->)|(Hne & Hm)]; [left; reflexivity|right].
           split; [exact Hm|unfold key; cbn; intros Hk; apply Hne; rewrite Hk; reflexivity].
        -- intros [[= -> -> ->]|(Hm & Hk)]; [left; auto|right; split; [|exact Hm]].
           intros Hk'; apply Hk; rewrite key_mkE, Hk'; reflexivity.
      * split.
        -- intros [([= -> ->] & ->)|(_ & Hm)]; [contradiction|exact Hm].
        -- intros Hm; right; split; [intros [= -> ->]; apply E; reflexivity|exact Hm].
  - rewrite C; split.
    + intros Hk; destruct (M !! (u, v)) as [t'|] eqn:Ht; [|reflexivity].
      exfalso; apply Hk; apply (rep_bucket _ _ _ _ t' _ Hrep Hbi) in Ht.
      exact (list_elem_of_fmap_2 key _ _ Ht).
    + intros Hnone Hk; apply list_elem_of_fmap in Hk as ([nu nv nt] & Hk & Hn).
      unfold key in Hk; cbn in Hk; injection Hk as -> ->.
      apply (rep_bucket _ _ _ _ nt _ Hrep Hbi) in Hn; congruence.
Qed.

(** The table is a function of the map it represents. *)
Lemma rep_unique bs M M' : table_rep bs M -> table_rep bs M' -> M = M'.
Proof.
  intros (_ & _ & _ & HM) (_ & _ & _ & HM'); apply map_eq; intros [u v].
  destruct (M !! (u, v)) as [t|] eqn:Ht, (M' !! (u, v)) as [t'|] eqn:Ht'; try reflexivity.
  - apply HM, HM' in Ht; congruence.
  - apply HM, HM' in Ht; congruence.
  - apply HM', HM in Ht'; congruence.
Qed.

(** [initialize]: empty buckets represent the empty map. *)
Lemma rep_empty nb : nb <> 0 -> table_rep (replicate nb []) ∅.
Proof.
  intros Hnb; split; [rewrite length_replicate; exact Hnb|]; split; [|split].
  - intros i b n Hb Hn; apply lookup_replicate in Hb as [-> _]; inversion Hn.
  - intros i b Hb; apply lookup_replicate in Hb as [-> _]; constructor.
  - intros u v t; rewrite lookup_empty; split; [discriminate|].
    intros (i & b & Hb & Hn); apply lookup_replicate in Hb as [-> _]; inversion Hn.
Qed.

Lemma rep_keys_nodup bs M : table_rep bs M -> NoDup (key <$> concat bs).
Proof.
  intros (_ & Hb & Hnd & _).
  apply (keys_concat_nodup (fun k => edge_bucket hash (length bs) k.1 k.2) bs 0); [|exact Hnd].
  intros i b n Hbi Hn; exact (Hb _ _ _ Hbi Hn).
Qed.

(** One move of [rehash]: appending a node whose edge is absent is
    entering it. *)
Lemma rehash_fold nb l acc M' :
  length acc = nb -> table_rep acc M' -> NoDup (key <$> l) ->
  (forall n, n ∈ l -> M' !! key n = None) ->
  let r := fold_left (fun acc n => let i := edge_bucket hash nb (eu n) (ev n) in
                                   <[i := acc !!! i ++ [n]]> acc) l acc in
  length r = nb /\ table_rep r (ins_all l M').
Proof.
  revert acc M'; induction l as [|n l IH]; intros acc M' Hlen Hrep Hnd Hfree; [split; assumption|].
  cbn in Hnd; apply NoDup_cons in Hnd as [Hn Hnd].
  destruct (rep_bucket_of _ _ (eu n) (ev n) Hrep) as [b Hbi].
  assert (Hab : (eu n, ev n) ∉ key <$> b).
  { intros Hk; apply list_elem_of_fmap in Hk as ([nu nv nt] & Hk & Hin).
    unfold key in Hk; cbn in Hk; injection Hk as Hu Hv; rewrite <- Hu, <- Hv in Hin.
    apply (rep_bucket _ _ _ _ nt _ Hrep Hbi) in Hin.
    pose proof (Hfree n ltac:(left)) as Hf; unfold key in Hf; congruence. }
  pose proof (hash_add_spec acc M' 0 (eu n) (ev n) (tri_node n) Hrep) as (Hr & Hl & _).
  unfold hash_add in Hr, Hl; cbv zeta in Hr, Hl.
  rewrite (list_lookup_total_correct _ _ _ Hbi), bucket_add_absent in Hr, Hl by exact Hab.
  cbn [fst] in Hr, Hl; rewrite <- (list_lookup_total_correct _ _ _ Hbi), Hlen in Hr, Hl.
  destruct n as [nu nv nt]; cbn [eu ev tri_node] in *.
  apply (IH _ _ Hl Hr Hnd).
  intros m Hm; rewrite lookup_insert_ne; [exact (Hfree m ltac:(right; exact Hm))|].
  intros E; apply Hn; change (key (mkE nu nv nt)) with (nu, nv); rewrite E; exact (list_elem_of_fmap_2 key _ _ Hm).
Qed.

(** The regrowth in [addTriangle] doubles the buckets and keeps every
    edge with its triangle. *)
Lemma rehash_spec bs M :
  table_rep bs M -> length (rehash hash bs) = (2 * length bs)%nat /\ table_rep (rehash hash bs) M.
Proof.
  intros Hrep; pose proof (rep_keys_nodup _ _ Hrep) as Hnd.
  assert (Hne : (2 * length bs)%nat <> 0) by (destruct Hrep; lia).
  destruct (rehash_fold (2 * length bs) (concat bs) _ ∅ (length_replicate _ _) (rep_empty _ Hne) Hnd
              (fun n _ => lookup_empty _)) as [Hl Hr].
  split; [exact Hl|]; replace M with (ins_all (concat bs) ∅); [exact Hr|].
  apply map_eq; intros [u v]; destruct (M !! (u, v)) as [t|] eqn:Ht.
  - destruct (proj2 (proj2 (proj2 Hrep)) u v t) as [Hin _]; destruct (Hin Ht) as (i & b & Hbi & Hn).
    apply (ins_all_in _ ∅ (mkE u v t) Hnd), elem_of_concat_lookup; eauto.
  - rewrite ins_all_notin; [apply lookup_empty|].
    intros Hk; apply list_elem_of_fmap in Hk as ([nu nv nt] & Hk & Hn).
    apply elem_of_concat_lookup in Hn as (i & b & Hbi & Hn); unfold key in Hk; cbn in Hk.
    injection Hk as -> ->; assert (M !! (nu, nv) = Some nt) by (apply (proj2 (proj2 (proj2 Hrep))); eauto); congruence.
Qed.

(** Unlinking an edge from its chain removes it from the map. *)
Lemma table_remove bs M u v b b' :
  table_rep bs M -> bs !! edge_bucket hash (length bs) u v = Some b ->
  NoDup (key <$> b') -> (forall n, n ∈ b' <-> n ∈ b /\ key n <> (u, v)) ->
  table_rep (<[edge_bucket hash (length bs) u v := b']> bs) (delete (u, v) M).
Proof.
  intros Hrep Hbi N Mem; apply (rep_update _ _ _ _ _ _ Hrep Hbi N).
  - intros n Hn; apply Mem in Hn as [Hn _]; exact (proj1 (proj2 Hrep) _ _ _ Hbi Hn).
  - intros u' v' t'; rewrite lookup_delete_Some; case_decide as E.
    + assert (Hbi' : bs !! edge_bucket hash (length bs) u' v' = Some b) by (rewrite E; exact Hbi).
      rewrite Mem, (rep_bucket _ _ _ _ t' _ Hrep Hbi'), key_mkE; split.
      * intros [Hne Hm]; split; [exact Hm|intros Hk; apply Hne; congruence].
      * intros [Hm Hne]; split; [intros Hk; apply Hne; congruence|exact Hm].
    + split; [intros [_ Hm]; exact Hm|].
      intros Hm; split; [intros [= -> ->]; apply E; reflexivity|exact Hm].
Qed.

End Table.

(** ** The mesh *)

Section Mesh.
Variable hash : Z -> Z -> Z.

(** The hash table of [m] represents the edge map [M], and
    [num_hash_nodes] counts its entries. *)
Definition mesh_inv (m : mesh) (M : gmap (Z * Z) nat) : Prop :=
  table_rep hash (buckets m) M /\ num_hash_nodes m = Z.of_nat (size M).

(** The abstract edge deletions of [deleteTriangle]: the triangle of the
    first edge present, and whether every edge was present when its turn
    came. *)
Fixpoint first_hit (M : gmap (Z * Z) nat) (es : list (Z * Z)) : option nat :=
  match es with
  | [] => None
  | e :: es => match M !! e with Some t => Some t | None => first_hit M es end
  end.

Fixpoint all_hit (M : gmap (Z * Z) nat) (es : list (Z * Z)) : bool :=
  match es with
  | [] => true
  | e :: es => bool_decide (is_Some (M !! e)) && all_hit (delete e M) es
  end.

(** The triangle store and count after marking the triangle [o] found,
    when [first] is still set. *)
Definition marked (m : mesh) (first : bool) (o : option nat) : gmap nat TMRTriangle * Z :=
  match o with
  | Some t => if first then (mark_deleted (tri_store m) t, (num_triangles m - 1)%Z)
              else (tri_store m, num_triangles m)
  | None => (tri_store m, num_triangles m)
  end.

(** The abstract edge insertions of [addTriangle]: the map with the
    edges entered, and whether each edge was new when its turn came. *)
Definition add_edges (M : gmap (Z * Z) nat) (es : list (Z * Z)) (t : nat) : gmap (Z * Z) nat :=
  foldl (fun M e => <[e := t]> M) M es.

Fixpoint all_new (M : gmap (Z * Z) nat) (es : list (Z * Z)) (t : nat) : bool :=
  match es with
  | [] => true
  | e :: es => bool_decide (M !! e = None) && all_new (<[e := t]> M) es t
  end.

Definition del_edges (M : gmap (Z * Z) nat) (es : list (Z * Z)) : gmap (Z * Z) nat :=
  foldl (fun M e => delete e M) M es.

Lemma hash_add_count bs M u v t bs' c s :
  table_rep hash bs M -> hash_add hash bs (Z.of_nat (size M)) u v t = (bs', c, s) ->
  table_rep hash bs' (<[(u, v) := t]> M) /\ length bs' = length bs /\
  c = Z.of_nat (size (<[(u, v) := t]> M)) /\ (s = true <-> M !! (u, v) = None).
Proof.
  intros Hrep E; pose proof (hash_add_spec hash bs M (Z.of_nat (size M)) u v t Hrep) as H.
  cbv zeta in H; rewrite E in H; cbn [fst snd] in H; destruct H as (Hr & Hl & Hs & Hc).
  do 2 (split; [assumption|]); split; [|exact Hs].
  rewrite Hc, map_size_insert; destruct s.
  - rewrite (proj1 Hs eq_refl); cbn; lia.
  - destruct (M !! (u, v)); [reflexivity|discriminate (proj2 Hs eq_refl)].
Qed.

(** One edge of [deleteTriangle] deletes the edge from the map, marks its
    triangle if it is the first found, and clears [success] if the edge
    is absent. *)
Lemma delete_edge_spec m M first success u v m' first' success' :
  mesh_inv m M -> delete_edge hash (m, first, success) (u, v) = (m', first', success') ->
  mesh_inv m' (delete (u, v) M) /\ tri_list m' = tri_list m /\
  (tri_store m', num_triangles m') = marked m first (M !! (u, v)) /\
  first' = (first && bool_decide (M !! (u, v) = None))%bool /\
  success' = (success && bool_decide (is_Some (M !! (u, v))))%bool.
Proof.
  intros [Hrep Hcnt] E; destruct (rep_bucket_of hash _ _ u v Hrep) as [b Hbi].
  pose proof (bucket_remove_spec b u v (proj1 (proj2 (proj2 Hrep)) _ _ Hbi)) as Hr.
  cbv beta iota zeta delta [delete_edge] in E; rewrite (list_lookup_total_correct _ _ _ Hbi) in E.
  destruct (bucket_remove b u v) as [[t b']|].
  - destruct Hr as (Hin & N & Mem).
    assert (Ht : M !! (u, v) = Some t) by exact (proj2 (rep_bucket _ _ _ _ _ _ _ Hrep Hbi) Hin).
    pose proof (table_remove _ _ _ _ _ _ _ Hrep Hbi N Mem) as Hdel.
    assert (Hsz : size M = S (size (delete (u, v) M))).
    { rewrite map_size_delete, Ht; pose proof (map_size_ne_0_lookup_2 M (u, v) ltac:(eauto)); lia. }
    rewrite Ht, (bool_decide_eq_false_2 (Some t = None)) by discriminate.
    rewrite (bool_decide_eq_true_2 (is_Some (Some t))) by (exists t; reflexivity).
    rewrite andb_false_r, andb_true_r.
    destruct first; injection E as <- <- <-; unfold mesh_inv; cbn [buckets tri_list tri_store num_triangles num_hash_nodes marked]; (split; [split; [exact Hdel|lia]|auto]).
  - destruct (M !! (u, v)) as [t|] eqn:Ht.
    + exfalso; apply Hr, (list_elem_of_fmap_2 key _ (mkE u v t)).
      exact (proj1 (rep_bucket _ _ _ _ _ _ _ Hrep Hbi) Ht).
    + injection E as <- <- <-; rewrite delete_id by exact Ht.
      rewrite (bool_decide_eq_true_2 (@None nat = None)) by reflexivity.
      rewrite (bool_decide_eq_false_2 (is_Some (@None nat))) by (intros [? ?]; discriminate).
      rewrite andb_true_r, andb_false_r; split; [split; assumption|]; cbn [marked]; repeat split.
Qed.

(** The flags, read on the map: every edge new (resp. present) and no
    edge twice. *)
Lemma all_new_spec M es t :
  all_new M es t = true <-> NoDup es /\ Forall (fun e => M !! e = None) es.
Proof.
  revert M; induction es as [|e es IH]; intros M; cbn [all_new].
  - split; [intros _; split; constructor|reflexivity].
  - rewrite andb_true_iff, bool_decide_eq_true, IH, NoDup_cons, Forall_cons, !Forall_forall.
    split.
    + intros (He & Hnd & Hall).
      assert (Hn : e ∉ es) by (intros Hin; specialize (Hall e Hin); rewrite lookup_insert_eq in Hall; discriminate).
      split; [split; assumption|split; [exact He|]].
      intros e' Hin; specialize (Hall e' Hin); rewrite lookup_insert_ne in Hall; [exact Hall|].
      intros ->; contradiction.
    + intros ((Hn & Hnd) & He & Hall); split; [exact He|split; [exact Hnd|]].
      intros e' Hin; rewrite lookup_insert_ne; [exact (Hall e' Hin)|intros ->; contradiction].
Qed.

Lemma all_hit_spec M es :
  all_hit M es = true <-> NoDup es /\ Forall (fun e => is_Some (M !! e)) es.
Proof.
  revert M; induction es as [|e es IH]; intros M; cbn [all_hit].
  - split; [intros _; split; constructor|reflexivity].
  - rewrite andb_true_iff, bool_decide_eq_true, IH, NoDup_cons, Forall_cons, !Forall_forall.
    split.
    + intros (He & Hnd & Hall).
      assert (Hn : e ∉ es)
        by (intros Hin; specialize (Hall e Hin); rewrite lookup_delete_eq in Hall; destruct Hall; discriminate).
      split; [split; assumption|split; [exact He|]].
      intros e' Hin; specialize (Hall e' Hin); rewrite lookup_delete_ne in Hall; [exact Hall|].
      intros ->; contradiction.
    + intros ((Hn & Hnd) & He & Hall); split; [exact He|split; [exact Hnd|]].
      intros e' Hin; rewrite lookup_delete_ne; [exact (Hall e' Hin)|intros ->; contradiction].
Qed.

Lemma first_hit_edges M a b c : first_hit M [a; b; c] = M !! a ∪ M !! b ∪ M !! c.
Proof. cbn; destruct (M !! a), (M !! b), (M !! c); reflexivity. Qed.

Lemma marked_false m o : marked m false o = (tri_store m, num_triangles m).
Proof. destruct o; reflexivity. Qed.

(** The edge loop of [addTriangle] enters the edges one after the
    other. *)
Lemma add_edges_fold id es bs M success bs' c' s' :
  table_rep hash bs M ->
  fold_left (add_edge hash id) es (bs, Z.of_nat (size M), success) = (bs', c', s') ->
  table_rep hash bs' (add_edges M es id) /\ c' = Z.of_nat (size (add_edges M es id)) /\
  s' = (success && all_new M es id)%bool.
Proof.
  revert bs M success; induction es as [|[u v] es IH]; intros bs M success Hrep E.
  - injection E as <- <- <-; rewrite andb_true_r; auto.
  - cbn [fold_left] in E; cbv beta iota zeta delta [add_edge] in E.
    destruct (hash_add hash bs (Z.of_nat (size M)) u v id) as [[bs1 c1] s1] eqn:E1.
    destruct (hash_add_count _ _ _ _ _ _ _ _ Hrep E1) as (Hr & _ & -> & Hs).
    destruct (IH _ _ _ Hr E) as (Hr' & Hc' & ->); split; [exact Hr'|split; [exact Hc'|]].
    assert (s1 = bool_decide (M !! (u, v) = None)) as ->.
    { destruct s1; symmetry; [apply bool_decide_eq_true_2, Hs; reflexivity|].
      apply bool_decide_eq_false_2; intros H; apply Hs in H; discriminate. }
    cbn [all_new]; rewrite andb_assoc; reflexivity.
Qed.

(** The edge loop of [deleteTriangle] deletes the edges one after the
    other and marks the triangle of the first edge found. *)
Lemma delete_edges_fold es m M first success m' first' success' :
  mesh_inv m M -> fold_left (delete_edge hash) es (m, first, success) = (m', first', success') ->
  mesh_inv m' (del_edges M es) /\ tri_list m' = tri_list m /\
  (tri_store m', num_triangles m') = marked m first (first_hit M es) /\
  success' = (success && all_hit M es)%bool.
Proof.
  revert m M first success; induction es as [|[u v] es IH]; intros m M first success Hinv E.
  - injection E as <- <- <-; rewrite andb_true_r; cbn [first_hit marked]; auto.
  - cbn [fold_left] in E.
    destruct (delete_edge hash (m, first, success) (u, v)) as [[m1 f1] s1] eqn:E1.
    destruct (delete_edge_spec _ _ _ _ _ _ _ _ _ Hinv E1) as (Hinv1 & Hl1 & Hst1 & -> & ->).
    destruct (IH _ _ _ _ Hinv1 E) as (Hinv' & Hl' & Hst' & ->).
    split; [exact Hinv'|split; [congruence|split]]; cbn [first_hit all_hit]; [|symmetry; apply andb_assoc].
    rewrite Hst'; destruct (M !! (u, v)) as [t|] eqn:Ht; cbn [andb].
    + rewrite andb_false_r, marked_false; exact Hst1.
    + rewrite delete_id by exact Ht; rewrite andb_true_r; cbn [marked] in Hst1.
      injection Hst1 as Hs1 Hn1; destruct first, (first_hit M es); cbn; congruence.
Qed.

(** [initialize] sets up an empty table. *)
Lemma mesh_init_inv : mesh_inv mesh_init ∅.
Proof. split; [apply rep_empty; discriminate|reflexivity]. Qed.

(** [addTriangle] on the model. *)
Lemma addTriangle_spec m M tri m' s :
  mesh_inv m M -> addTriangle hash m tri = (m', s) ->
  mesh_inv m' (add_edges M (tri_edges tri) (tri_fresh m)) /\
  tri_list m' = tri_list m ++ [tri_fresh m] /\
  tri_store m' = <[tri_fresh m := mkTri (tu tri) (tv tri) (tw tri) 0 NO_STATUS]> (tri_store m) /\
  tri_fresh m' = S (tri_fresh m) /\ num_triangles m' = (num_triangles m + 1)%Z /\
  s = all_new M (tri_edges tri) (tri_fresh m).
Proof.
  intros [Hrep Hcnt] E; unfold addTriangle in E; cbv zeta in E.
  assert (Hrep0 : table_rep hash (if Z.ltb (10 * Z.of_nat (length (buckets m))) (num_hash_nodes m)
                                  then rehash hash (buckets m) else buckets m) M)
    by (destruct (Z.ltb _ _); [apply rehash_spec|]; exact Hrep).
  rewrite Hcnt in E, Hrep0.
  destruct (fold_left _ _ _) as [[bs3 c3] s3] eqn:F.
  destruct (add_edges_fold _ _ _ _ _ _ _ _ Hrep0 F) as (Hr & Hc & ->).
  injection E as <- <-; unfold mesh_inv; cbn [buckets num_hash_nodes tri_list tri_store tri_fresh num_triangles].
  split; [split; assumption|repeat split].
Qed.

(** [deleteTriangle] on the model. *)
Lemma deleteTriangle_spec m M tri m' s :
  mesh_inv m M -> deleteTriangle hash m tri = (m', s) ->
  mesh_inv m' (del_edges M (tri_edges tri)) /\ tri_list m' = tri_list m /\
  (tri_store m', num_triangles m') = marked m true (first_hit M (tri_edges tri)) /\
  s = all_hit M (tri_edges tri).
Proof.
  intros Hinv E; unfold deleteTriangle in E.
  destruct (fold_left _ _ _) as [[m1 f1] s1] eqn:F; injection E as <- <-.
  exact (delete_edges_fold _ _ _ _ _ _ _ _ Hinv F).
Qed.

End Mesh.

Lemma tri_edges_NoDup tri : NoDup (tri_edges tri) <-> ~ (tu tri = tv tri /\ tv tri = tw tri).
Proof.
  unfold tri_edges; destruct tri as [u v w g st]; cbn [tu tv tw].
  rewrite !NoDup_cons, !elem_of_cons; split.
  - intros (H1 & _) [-> ->]; apply H1; left; reflexivity.
  - intros H; split; [|split; [|split; [intros Hc; inversion Hc|constructor]]].
    + intros [Hc|[Hc|Hc]]; [| |inversion Hc]; injection Hc; intros; apply H; split; congruence.
    + intros [Hc|Hc]; [|inversion Hc]; injection Hc; intros; apply H; split; congruence.
Qed.

(** Two triangles sharing the directed edge [(1, 2)]. *)
Definition scen_t1 : TMRTriangle := mkTri 1 2 3 0 NO_STATUS.
Definition scen_t2 : TMRTriangle := mkTri 1 2 5 0 NO_STATUS.

(** A hash function for the concrete runs, and the mesh holding
    [scen_t1]. *)
Definition wit_hash (u v : Z) : Z := (31 * u + v)%Z.
Definition wit_m1 : mesh := (addTriangle wit_hash mesh_init scen_t1).1.

Lemma wit_m1_inv : mesh_inv wit_hash wit_m1 (add_edges ∅ (tri_edges scen_t1) 0).
Proof.
  exact (proj1 (addTriangle_spec wit_hash mesh_init ∅ scen_t1 _ _ (mesh_init_inv _) (surjective_pairing _))).
Qed.

(** [completeMe] refines the lookup of the edge map: on a table that
    represents [M], [completeMe(u, v)] returns the triangle node [M]
    records for the directed edge [(u, v)], or [NULL]. *)
Theorem completeMe_refines hash m M u v :
  mesh_inv hash m M -> completeMe hash m u v = M !! (u, v).
Proof. intros [Hrep _]; exact (table_find hash _ _ u v Hrep). Qed.

Lemma completeMe_refines_witness : completeMe wit_hash wit_m1 1 2 = Some 0%nat.
Proof. rewrite (completeMe_refines _ _ _ 1 2 wit_m1_inv); reflexivity. Defined.

(** (C32) [addTriangle] refines the insertion of its three directed edges
    into the edge map, the rehash included, and keeps [num_hash_nodes]
    equal to the number of edges; it reports [success] exactly when the
    triangle is not degenerate to one point and none of its edges was
    present. *)
Theorem addTriangle_refines hash m M tri m' s :
  mesh_inv hash m M -> addTriangle hash m tri = (m', s) ->
  mesh_inv hash m' (add_edges M (tri_edges tri) (tri_fresh m)) /\
  (s = true <-> ~ (tu tri = tv tri /\ tv tri = tw tri) /\
                Forall (fun e => M !! e = None) (tri_edges tri)).
Proof.
  intros Hinv E; destruct (addTriangle_spec _ _ _ _ _ _ Hinv E) as (Hinv' & _ & _ & _ & _ & ->).
  split; [exact Hinv'|rewrite all_new_spec, tri_edges_NoDup; reflexivity].
Qed.

Lemma addTriangle_refines_witness : (addTriangle wit_hash wit_m1 scen_t2).2 = false.
Proof.
  destruct (addTriangle_refines _ _ _ scen_t2 _ _ wit_m1_inv (surjective_pairing _)) as [_ Hs].
  destruct (addTriangle wit_hash wit_m1 scen_t2).2; [|reflexivity].
  destruct (proj1 Hs eq_refl) as [_ Hall]; inversion Hall as [|e l Hn _]; discriminate Hn.
Defined.

(** (C33) [deleteTriangle] refines the deletion of the three directed
    edges from the edge map; the triangle it marks [DELETE_ME] (and
    counts off [num_triangles]) is the one recorded on the first of its
    edges that is present, and it reports [success] exactly when the
    triangle is not degenerate and all three edges were present. *)
Theorem deleteTriangle_refines hash m M tri m' s :
  mesh_inv hash m M -> deleteTriangle hash m tri = (m', s) ->
  mesh_inv hash m' (del_edges M (tri_edges tri)) /\
  (tri_store m', num_triangles m') =
    marked m true (M !! (tu tri, tv tri) ∪ M !! (tv tri, tw tri) ∪ M !! (tw tri, tu tri)) /\
  (s = true <-> ~ (tu tri = tv tri /\ tv tri = tw tri) /\
                Forall (fun e => is_Some (M !! e)) (tri_edges tri)).
Proof.
  intros Hinv E; destruct (deleteTriangle_spec _ _ _ _ _ _ Hinv E) as (Hinv' & _ & Hst & ->).
  split; [exact Hinv'|split; [rewrite Hst; apply f_equal, first_hit_edges|]].
  rewrite all_hit_spec, tri_edges_NoDup; reflexivity.
Qed.

Lemma deleteTriangle_refines_witness : (deleteTriangle wit_hash wit_m1 scen_t1).2 = true.
Proof.
  destruct (deleteTriangle_refines _ _ _ scen_t1 _ _ wit_m1_inv (surjective_pairing _)) as (_ & _ & Hs).
  apply Hs; split; [intros [H _]; discriminate|repeat constructor; eexists; reflexivity].
Defined.

(** (C34) An overwritten edge makes [deleteTriangle] delete the wrong
    triangle, whatever the hash function: after [addTriangle(1,2,3)] and
    [addTriangle(1,2,5)] (which reports failure, and overwrites the edge
    [(1, 2)]), [deleteTriangle(1,2,3)] reports success but marks the
    triangle [(1,2,5)]; after [deleteTrianglesFromList] the triangle
    [(1,2,3)] is still listed, and [completeMe(2, 5)] returns the node of
    [(1,2,5)], which has been freed. *)
Theorem deleteTriangle_overwritten_edge hash :
  let '(m1, _) := addTriangle hash mesh_init scen_t1 in
  let '(m2, s2) := addTriangle hash m1 scen_t2 in
  let '(m3, s3) := deleteTriangle hash m2 scen_t1 in
  let m4 := deleteTrianglesFromList m3 in
  s2 = false /\ s3 = true /\ tri_store m4 !! 0%nat = Some scen_t1 /\
  completeMe hash m4 2 5 = Some 1%nat /\ tri_store m4 !! 1%nat = None.
Proof.
  destruct (addTriangle hash mesh_init scen_t1) as [m1 s1] eqn:E1.
  destruct (addTriangle_spec _ _ _ _ _ _ (mesh_init_inv hash) E1) as (I1 & _ & S1 & F1 & _ & _).
  destruct (addTriangle hash m1 scen_t2) as [m2 s2] eqn:E2.
  destruct (addTriangle_spec _ _ _ _ _ _ I1 E2) as (I2 & _ & S2 & _ & _ & ->).
  destruct (deleteTriangle hash m2 scen_t1) as [m3 s3] eqn:E3.
  destruct (deleteTriangle_spec _ _ _ _ _ _ I2 E3) as (I3 & _ & S3 & ->).
  rewrite F1 in *; cbn [tri_fresh mesh_init] in *.
  assert (Hf : first_hit (add_edges (add_edges ∅ (tri_edges scen_t1) 0) (tri_edges scen_t2) 1)
                 (tri_edges scen_t1) = Some 1%nat) by reflexivity.
  rewrite Hf in S3; cbn [marked] in S3; injection S3 as S3 _.
  split; [reflexivity|split; [reflexivity|]].
  change (completeMe hash (deleteTrianglesFromList m3) 2 5) with (completeMe hash m3 2 5).
  destruct I3 as [R3 _]; unfold completeMe; rewrite (table_find hash _ _ 2 5 R3); cbn [deleteTrianglesFromList tri_store].
  rewrite S3, S2, S1; split; [reflexivity|split; reflexivity].
Qed.

End EHFacts.
