(* ===== verification/PSLG.v ===== *)
(** * The PSLG edge list of the triangulation: Morton comparator and search

    src/src/TMRTriangularize.c keeps the segments of the planar
    straight-line graph (PSLG) that the triangulation must respect as a
    sorted array of directed edges: [setUpPSLGEdges] (lines 1244-1263)
    writes both directions [(u, v)] and [(v, u)] of every segment, with
    [FIXED_POINT_OFFSET] added to the point numbers (a negative number
    gives [0]), and sorts the array with [qsort] under [compare_edges]
    (lines 23-47); [edgeInPSLG] (lines 1268-1276) looks an edge up with
    [bsearch] under the same comparator.  [compare_edges] compares two
    pairs of [uint32_t] in Morton (Z-order) order: it takes the
    coordinate whose exclusive or has the highest set bit and returns the
    difference of that coordinate converted to [int].

    [PSLG] models [compare_edges] on [Z] with the conversion of the
    unsigned difference to [int] written out ([IW.wrap32]), the
    construction of the array, [qsort] by its contract ([IW.qsort_spec])
    and [bsearch] as the binary search of the C library (outside src/,
    modelled as the usual halving loop, with fuel the array length plus
    one, which the loop never exhausts).  [FIXED_POINT_OFFSET], declared in
    a header outside src/, is a parameter [off].

    [PSLGFacts] defines the Morton key of a pair (the bits of the two
    coordinates interleaved, [x] above [y]) and proves that, for
    coordinates below [2^31], [compare_edges] has the sign of the
    comparison of the Morton keys: the bit tricks of the comparator
    compute the Morton order.  With this and the correctness of the binary
    search on an array sorted by a key, [edgeInPSLG] answers exactly
    whether the edge is one of the segments, in either direction.  Over
    all [uint32_t] coordinates, [compare_edges] has the sign of the Morton
    comparison exactly when the difference it converts to [int] lies in
    [[-2^31, 2^31)]: beyond that it orders edges the wrong way, and at a
    difference of [2^31] each edge compares below the other. *)

From Stdlib Require Import ZArith List Lia Sorted Permutation Bool.
From S2P Require Import Prelude IndexWeight.
Import ListNotations.
Open Scope Z_scope.

Module PSLG.
Import IW.

(** [compare_edges(a, b)]: the differences are [uint32_t] differences
    converted to [int], which [wrap32] computes in one step. *)
Definition compare_edges (a b : Z * Z) : Z :=
  let '(ax, ay) := a in
  let '(bx, by_) := b in
  let xxor := Z.lxor ax bx in
  let yxor := Z.lxor ay by_ in
  let sor := Z.lor xxor yxor in
  if Z.gtb xxor (Z.lxor sor xxor) then wrap32 (ax - bx) else wrap32 (ay - by_).

(** A point number of a segment: [segs[k] + FIXED_POINT_OFFSET] as a
    [uint32_t], or [0] when [segs[k] < 0]. *)
Definition seg_vertex (off s : Z) : Z := if 0 <=? s then (s + off) mod 2 ^ 32 else 0.

(** [setUpPSLGEdges(nsegs, segs)]: the array [pslg_edges] before the
    sort, [segs] given as its [nsegs] pairs. *)
Definition setUpPSLGEdges (off : Z) (segs : list (Z * Z)) : list (Z * Z) :=
  flat_map (fun s => let u := seg_vertex off (fst s) in
                     let v := seg_vertex off (snd s) in
                     [(u, v); (v, u)]) segs.

(** [bsearch(key, base, n, size, cmp)]: the halving loop on [[l, u)]. *)
Fixpoint bsearch_go {A} (fuel : nat) (cmp : A -> A -> Z) (key : A) (arr : list A) (l u : nat)
  : option A :=
  match fuel with
  | O => None
  | S fuel =>
      if Nat.ltb l u then
        let idx := ((l + u) / 2)%nat in
        let p := nth idx arr key in
        let c := cmp key p in
        if c <? 0 then bsearch_go fuel cmp key arr l idx
        else if 0 <? c then bsearch_go fuel cmp key arr (S idx) u
        else Some p
      else None
  end.

Definition bsearch {A} (cmp : A -> A -> Z) (key : A) (arr : list A) : option A :=
  bsearch_go (S (length arr)) cmp key arr 0 (length arr).

(** [edgeInPSLG(u, v)] on the sorted array. *)
Definition edgeInPSLG (pslg_edges : list (Z * Z)) (u v : Z) : bool :=
  match bsearch compare_edges (u, v) pslg_edges with
  | Some _ => true
  | None => false
  end.

End PSLG.

Module PSLGFacts.
Import IW IWFacts PSLG.

(** ** Bits *)

Lemma div2_lxor a b : Z.div2 (Z.lxor a b) = Z.lxor (Z.div2 a) (Z.div2 b).
Proof. rewrite !Z.div2_spec; apply Z.shiftr_lxor. Qed.

Lemma div2_lor a b : Z.div2 (Z.lor a b) = Z.lor (Z.div2 a) (Z.div2 b).
Proof. rewrite !Z.div2_spec; apply Z.shiftr_lor. Qed.

Lemma odd_lxor a b : Z.odd (Z.lxor a b) = xorb (Z.odd a) (Z.odd b).
Proof. rewrite <- !Z.bit0_odd; apply Z.lxor_spec. Qed.

Lemma odd_lor a b : Z.odd (Z.lor a b) = (Z.odd a || Z.odd b)%bool.
Proof. rewrite <- !Z.bit0_odd; apply Z.lor_spec. Qed.

Lemma b2z_bound (b : bool) : 0 <= Z.b2z b <= 1.
Proof. destruct b; cbn; lia. Qed.

(** The test of [compare_edges]: does [p] have its highest set bit at
    least as high as [q]'s (and is [p] not zero)? *)
Definition msb_ge (p q : Z) : bool := Z.gtb p (Z.lxor (Z.lor p q) p).

Lemma lxor_lor_fix p q : Z.lxor (Z.lor p q) p = p -> p = 0 /\ q = 0.
Proof.
  intros H.
  assert (Hb : forall i, Z.testbit p i = false /\ Z.testbit q i = false).
  { intros i; pose proof (f_equal (fun z => Z.testbit z i) H) as Hi; cbv beta in Hi.
    rewrite Z.lxor_spec, Z.lor_spec in Hi.
    destruct (Z.testbit p i), (Z.testbit q i); cbn in Hi; auto; discriminate. }
  split; apply Z.bits_inj_0; intros i; apply Hb.
Qed.

Lemma msb_ge_0_l q : 0 <= q -> msb_ge 0 q = false.
Proof.
  intros Hq; unfold msb_ge; rewrite Z.lor_0_l, Z.lxor_0_r, Z.gtb_ltb; apply Z.ltb_ge; lia.
Qed.

Lemma msb_ge_0_r p : 0 < p -> msb_ge p 0 = true.
Proof. intros Hp; unfold msb_ge; rewrite Z.lor_0_r, Z.lxor_nilpotent, Z.gtb_ltb; apply Z.ltb_lt; lia. Qed.

(** [msb_ge] one bit at a time: decided by the low bits when the high
    parts are both zero, by the high parts otherwise. *)
Lemma msb_ge_rec p q :
  0 <= p -> 0 <= q ->
  msb_ge p q = if (Z.div2 p =? 0) && (Z.div2 q =? 0) then Z.odd p
               else msb_ge (Z.div2 p) (Z.div2 q).
Proof.
  intros Hp Hq; unfold msb_ge.
  set (r := Z.lxor (Z.lor p q) p).
  pose proof (Z.div2_odd p) as Ep; pose proof (Z.div2_odd r) as Er.
  assert (Dr : Z.div2 r = Z.lxor (Z.lor (Z.div2 p) (Z.div2 q)) (Z.div2 p))
    by (unfold r; rewrite div2_lxor, div2_lor; reflexivity).
  assert (Or : Z.odd r = xorb (Z.odd p || Z.odd q) (Z.odd p))
    by (unfold r; rewrite odd_lxor, odd_lor; reflexivity).
  rewrite Dr, Or in Er; clearbody r.
  destruct ((Z.div2 p =? 0) && (Z.div2 q =? 0)) eqn:Hc.
  - apply andb_true_iff in Hc as [P0 Q0]; apply Z.eqb_eq in P0, Q0.
    rewrite P0, Q0 in Er; rewrite P0 in Ep; cbn in Er.
    destruct (Z.odd p), (Z.odd q); cbn in Ep, Er |- *; rewrite Ep, Er; reflexivity.
  - assert (Hne : Z.lxor (Z.lor (Z.div2 p) (Z.div2 q)) (Z.div2 p) <> Z.div2 p).
    { intros E; apply lxor_lor_fix in E as [E1 E2]; rewrite E1, E2 in Hc; discriminate. }
    pose proof (b2z_bound (Z.odd p)); pose proof (b2z_bound (xorb (Z.odd p || Z.odd q) (Z.odd p))).
    rewrite Ep at 1; rewrite Er, !Z.gtb_ltb.
    destruct (Z.ltb_spec (Z.lxor (Z.lor (Z.div2 p) (Z.div2 q)) (Z.div2 p)) (Z.div2 p)),
      (Z.ltb_spec (2 * Z.lxor (Z.lor (Z.div2 p) (Z.div2 q)) (Z.div2 p)
                   + Z.b2z (xorb (Z.odd p || Z.odd q) (Z.odd p)))
                  (2 * Z.div2 p + Z.b2z (Z.odd p))); lia.
Qed.

(** ** The Morton order *)

(** The Morton key of [(x, y)] on [n] bits: bit [i] of [x] at position
    [2i+1], bit [i] of [y] at position [2i]. *)
Fixpoint interleave (n : nat) (x y : Z) : Z :=
  match n with
  | O => 0
  | S n => 4 * interleave n (Z.div2 x) (Z.div2 y) + 2 * Z.b2z (Z.odd x) + Z.b2z (Z.odd y)
  end.

Definition morton (p : Z * Z) : Z := interleave 32 (fst p) (snd p).

Lemma morton_unfold p : morton p = interleave 32 (fst p) (snd p).
Proof. reflexivity. Qed.

(** Both sides of a comparison of comparisons, case by case. *)
Ltac cmp_cases :=
  repeat match goal with |- context [Z.compare ?a ?b] => destruct (Z.compare_spec a b) end;
  intros; try discriminate; try reflexivity; exfalso; lia.

Lemma div2_bound n a : 0 <= a < 2 ^ Z.of_nat (S n) -> 0 <= Z.div2 a < 2 ^ Z.of_nat n.
Proof.
  rewrite Nat2Z.inj_succ, Z.pow_succ_r by lia; intros H.
  pose proof (Z.div2_odd a); pose proof (b2z_bound (Z.odd a)); lia.
Qed.

Lemma lxor_nonneg a b : 0 <= a -> 0 <= b -> 0 <= Z.lxor a b.
Proof. intros; apply Z.lxor_nonneg; split; lia. Qed.

(** The difference [compare_edges] takes has the sign of the comparison
    of the [n]-bit Morton keys. *)
Lemma discrim_morton n ax ay bx by_ :
  0 <= ax < 2 ^ Z.of_nat n -> 0 <= ay < 2 ^ Z.of_nat n ->
  0 <= bx < 2 ^ Z.of_nat n -> 0 <= by_ < 2 ^ Z.of_nat n ->
  Z.compare (if msb_ge (Z.lxor ax bx) (Z.lxor ay by_) then ax - bx else ay - by_) 0 =
  Z.compare (interleave n ax ay) (interleave n bx by_).
Proof.
  revert ax ay bx by_; induction n as [|n IH]; intros ax ay bx by_ Hax Hay Hbx Hby.
  - cbn in *; assert (ax = 0) as -> by lia; assert (ay = 0) as -> by lia.
    assert (bx = 0) as -> by lia; assert (by_ = 0) as -> by lia; reflexivity.
  - specialize (IH _ _ _ _ (div2_bound _ _ Hax) (div2_bound _ _ Hay) (div2_bound _ _ Hbx)
                  (div2_bound _ _ Hby)).
    assert (Hb := div2_bound _ _ Hax); assert (Hb' := div2_bound _ _ Hbx).
    assert (Hc := div2_bound _ _ Hay); assert (Hc' := div2_bound _ _ Hby).
    cbn [interleave]; rewrite msb_ge_rec by (apply lxor_nonneg; lia).
    rewrite !div2_lxor, odd_lxor.
    pose proof (Z.div2_odd ax); pose proof (Z.div2_odd ay).
    pose proof (Z.div2_odd bx); pose proof (Z.div2_odd by_).
    revert IH; set (X := Z.div2 ax) in *; set (Y := Z.div2 ay) in *.
    set (X' := Z.div2 bx) in *; set (Y' := Z.div2 by_) in *.
    clearbody X Y X' Y'; intros IH.
    destruct ((Z.lxor X X' =? 0) && (Z.lxor Y Y' =? 0)) eqn:Hz.
    + apply andb_true_iff in Hz as [Z1 Z2]; rewrite Z.eqb_eq, Z.lxor_eq_0_iff in Z1, Z2; subst X' Y'.
      destruct (Z.odd ax), (Z.odd bx), (Z.odd ay), (Z.odd by_); cbn [xorb Z.b2z] in *; cbv iota; cmp_cases.
    + pose proof (b2z_bound (Z.odd ax)); pose proof (b2z_bound (Z.odd ay)).
      pose proof (b2z_bound (Z.odd bx)); pose proof (b2z_bound (Z.odd by_)).
      destruct (msb_ge (Z.lxor X X') (Z.lxor Y Y')) eqn:Hg.
      * assert (HX : X <> X').
        { intros <-; rewrite Z.lxor_nilpotent, msb_ge_0_l in Hg by (apply lxor_nonneg; lia).
          discriminate. }
        revert IH; cmp_cases.
      * assert (HY : Y <> Y').
        { intros <-; rewrite Z.lxor_nilpotent in Hg, Hz; rewrite msb_ge_0_r in Hg; [discriminate|].
          destruct (Z.eqb_spec (Z.lxor X X') 0) as [E|E]; [discriminate Hz|].
          pose proof (lxor_nonneg X X' ltac:(lia) ltac:(lia)); lia. }
        revert IH; cmp_cases.
Qed.

Lemma interleave_inj n x y x' y' :
  0 <= x < 2 ^ Z.of_nat n -> 0 <= y < 2 ^ Z.of_nat n ->
  0 <= x' < 2 ^ Z.of_nat n -> 0 <= y' < 2 ^ Z.of_nat n ->
  interleave n x y = interleave n x' y' -> x = x' /\ y = y'.
Proof.
  revert x y x' y'; induction n as [|n IH]; intros x y x' y' Hx Hy Hx' Hy' E.
  - cbn in *; lia.
  - cbn [interleave] in E.
    pose proof (Z.div2_odd x); pose proof (Z.div2_odd y).
    pose proof (Z.div2_odd x'); pose proof (Z.div2_odd y').
    pose proof (b2z_bound (Z.odd x)); pose proof (b2z_bound (Z.odd y)).
    pose proof (b2z_bound (Z.odd x')); pose proof (b2z_bound (Z.odd y')).
    assert (Ei : interleave n (Z.div2 x) (Z.div2 y) = interleave n (Z.div2 x') (Z.div2 y')) by lia.
    destruct (IH _ _ _ _ (div2_bound _ _ Hx) (div2_bound _ _ Hy) (div2_bound _ _ Hx')
                (div2_bound _ _ Hy') Ei).
    lia.
Qed.

(** [compare_edges] without the overflow: below [2^31] the [int]
    conversion keeps the difference. *)
Lemma compare_edges_discrim ax ay bx by_ :
  0 <= ax < 2 ^ 31 -> 0 <= ay < 2 ^ 31 -> 0 <= bx < 2 ^ 31 -> 0 <= by_ < 2 ^ 31 ->
  compare_edges (ax, ay) (bx, by_) =
  if msb_ge (Z.lxor ax bx) (Z.lxor ay by_) then ax - bx else ay - by_.
Proof.
  intros; unfold compare_edges, msb_ge; cbv beta iota zeta.
  destruct (Z.gtb _ _); apply wrap32_id; lia.
Qed.


(** ** Binary search on an array sorted by a key *)

Section BSearch.
Context {A : Type} (k : A -> Z) (cmp : A -> A -> Z) (D : A -> Prop).

(** On the domain [D] the comparator has the sign of the comparison of
    the keys. *)
Hypothesis Hcmp : forall a b, D a -> D b -> Z.compare (cmp a b) 0 = Z.compare (k a) (k b).

Lemma keys_sorted l :
  Forall D l -> Sorted (fun a b => cmp a b <= 0) l -> Sorted Z.le (map k l).
Proof.
  intros HD HS; induction HS as [|a l HS IH Hh]; cbn; constructor.
  - apply IH; inversion HD; assumption.
  - destruct Hh as [|b l' Hab]; cbn; constructor.
    inversion HD as [|? ? Ha Hl]; inversion Hl as [|? ? Hb _].
    change ((k a ?= k b) <> Gt); rewrite <- (Hcmp a b Ha Hb); exact Hab.
Qed.

Lemma sorted_nth_le (l : list Z) d i j :
  StronglySorted Z.le l -> (i <= j < length l)%nat -> nth i l d <= nth j l d.
Proof.
  revert i j; induction l as [|x l IH]; intros i j HS Hij; cbn in Hij; [lia|].
  apply StronglySorted_inv in HS as [HS Hx].
  destruct i, j; cbn; [lia| |lia|apply IH; auto; lia].
  rewrite Forall_forall in Hx; apply Hx, nth_In; lia.
Qed.

(** When every index below [l] holds a smaller key and every index from
    [u] on a larger one, and [u <= l], no entry has the key. *)
Lemma range_excludes arr key l u :
  (u <= l)%nat ->
  (forall i, (i < l)%nat -> k (nth i arr key) < k key) ->
  (forall i, (u <= i < length arr)%nat -> k key < k (nth i arr key)) ->
  forall p, In p arr -> k p <> k key.
Proof.
  intros Hul Hl Hr p Hp; apply In_nth with (d := key) in Hp as (i & Hi & <-).
  destruct (Nat.lt_ge_cases i l) as [H|H]; [specialize (Hl i H)|specialize (Hr i ltac:(lia))]; lia.
Qed.

(** The loop of [bsearch] keeps the keys below [l] smaller and those from
    [u] on larger than the key searched; it ends within [u - l + 1]
    rounds. *)
Lemma bsearch_go_spec arr key fuel l u :
  D key -> Forall D arr -> StronglySorted Z.le (map k arr) ->
  (u - l <= fuel)%nat -> (u <= length arr)%nat ->
  (forall i, (i < l)%nat -> k (nth i arr key) < k key) ->
  (forall i, (u <= i < length arr)%nat -> k key < k (nth i arr key)) ->
  match bsearch_go (S fuel) cmp key arr l u with
  | Some p => In p arr /\ k p = k key
  | None => forall p, In p arr -> k p <> k key
  end.
Proof.
  revert l u; induction fuel as [|fuel IH]; intros l u HDk HD HS Hf Hu Hl Hr; cbn [bsearch_go];
    destruct (Nat.ltb_spec l u) as [Hlu|Hlu]; try exact (range_excludes _ _ _ _ Hlu Hl Hr); [lia|].
  pose proof (Nat.div_mod_eq (l + u) 2); pose proof (Nat.mod_upper_bound (l + u) 2 ltac:(lia)).
  set (idx := ((l + u) / 2)%nat) in *.
  assert (Hin : In (nth idx arr key) arr) by (apply nth_In; lia).
  pose proof (Hcmp key _ HDk (proj1 (Forall_forall _ _) HD _ Hin)) as Hc.
  assert (Hmono : forall i j, (i <= j < length arr)%nat -> k (nth i arr key) <= k (nth j arr key)).
  { intros i j Hij; rewrite <- !(map_nth k arr key); apply sorted_nth_le; [exact HS|].
    rewrite length_map; exact Hij. }
  destruct (Z.ltb_spec (cmp key (nth idx arr key)) 0) as [Hlt|Hge].
  - assert (k key < k (nth idx arr key)) by (unfold Z.lt; rewrite <- Hc; exact Hlt).
    apply IH; auto; try lia.
    intros i Hi; specialize (Hmono idx i ltac:(lia)); lia.
  - destruct (Z.ltb_spec 0 (cmp key (nth idx arr key))) as [Hgt|Hle].
    + assert (k key > k (nth idx arr key))
        by (apply Z.lt_gt in Hgt; unfold Z.gt in Hgt |- *; rewrite <- Hc; exact Hgt).
      apply IH; auto; try lia.
      intros i Hi; destruct (Nat.eq_dec i idx) as [->|Hne]; [lia|].
      destruct (Nat.lt_ge_cases i l); [auto|specialize (Hmono i idx ltac:(lia)); lia].
    + split; [exact Hin|].
      assert (E : (cmp key (nth idx arr key) ?= 0) = Eq) by (apply Z.compare_eq_iff; lia).
      rewrite Hc in E; symmetry; apply Z.compare_eq, E.
Qed.

(** [bsearch] finds an entry exactly when one has the key searched. *)
Lemma bsearch_correct arr key :
  D key -> Forall D arr -> Sorted (fun a b => cmp a b <= 0) arr ->
  (bsearch cmp key arr <> None <-> exists p, In p arr /\ k p = k key).
Proof.
  intros HDk HD HS.
  pose proof (Sorted_StronglySorted Z.le_trans (keys_sorted _ HD HS)) as HSS.
  pose proof (bsearch_go_spec arr key (length arr) 0 (length arr) HDk HD HSS
                ltac:(lia) ltac:(lia) ltac:(intros; lia) ltac:(intros; lia)) as H.
  unfold bsearch; destruct (bsearch_go _ _ _ _ _ _) as [p|].
  - split; [intros _; exists p; exact H|discriminate].
  - split; [intros N; contradiction|intros (p & Hp & Hk); destruct (H p Hp Hk)].
Qed.

End BSearch.

(** ** The PSLG search *)

(** The domain where [compare_edges] does not overflow. *)
Definition small (p : Z * Z) : Prop := 0 <= fst p < 2 ^ 31 /\ 0 <= snd p < 2 ^ 31.

Lemma compare_edges_key a b :
  small a -> small b -> Z.compare (compare_edges a b) 0 = Z.compare (morton a) (morton b).
Proof.
  destruct a as [ax ay], b as [bx by_]; intros [? ?] [? ?]; cbn [fst snd] in *.
  rewrite compare_edges_discrim, !morton_unfold by assumption; apply discrim_morton; cbn; lia.
Qed.

Lemma morton_inj a b : small a -> small b -> morton a = morton b -> a = b.
Proof.
  destruct a as [ax ay], b as [bx by_]; intros [? ?] [? ?] E; rewrite !morton_unfold in E; cbn [fst snd] in *.
  destruct (interleave_inj 32 ax ay bx by_ ltac:(cbn; lia) ltac:(cbn; lia) ltac:(cbn; lia)
              ltac:(cbn; lia) E); congruence.
Qed.

(** [compare_edges] computes the Morton order: for coordinates
    below [2^31] (so that the [int] differences do not overflow) its
    result is negative, zero or positive as the Morton key of the first
    pair is below, equal to or above that of the second, and it is zero
    exactly on equal pairs. *)
Theorem compare_edges_morton (a b : Z * Z) :
  small a -> small b ->
  Z.compare (compare_edges a b) 0 = Z.compare (morton a) (morton b) /\
  (compare_edges a b = 0 <-> a = b).
Proof.
  intros Ha Hb; pose proof (compare_edges_key a b Ha Hb) as Hk; split; [exact Hk|split].
  - intros E; rewrite E in Hk; symmetry in Hk; apply Z.compare_eq in Hk; exact (morton_inj a b Ha Hb Hk).
  - intros ->; apply Z.compare_eq; rewrite compare_edges_key by assumption; apply Z.compare_refl.
Qed.

Lemma compare_edges_morton_witness :
  Z.compare (compare_edges (5, 3) (4, 7)) 0 = Z.compare (morton (5, 3)) (morton (4, 7)) /\
  compare_edges (5, 3) (4, 7) < 0.
Proof.
  split; [apply compare_edges_morton; split; cbn; lia|vm_compute; reflexivity].
Defined.

Lemma seg_vertex_small off s : 0 <= off -> s + off < 2 ^ 31 -> 0 <= seg_vertex off s < 2 ^ 31.
Proof.
  intros Ho Hs; unfold seg_vertex; destruct (Z.leb_spec 0 s); [|lia].
  rewrite Z.mod_small; lia.
Qed.

Lemma in_setUpPSLGEdges off segs e :
  In e (setUpPSLGEdges off segs) <->
  exists s, In s segs /\ (e = (seg_vertex off (fst s), seg_vertex off (snd s)) \/
                          e = (seg_vertex off (snd s), seg_vertex off (fst s))).
Proof.
  unfold setUpPSLGEdges; rewrite in_flat_map; split.
  - intros (s & Hs & He); exists s; split; [exact Hs|]; cbn in He; intuition congruence.
  - intros (s & Hs & He); exists s; split; [exact Hs|]; cbn; intuition congruence.
Qed.

(** (C35) [edgeInPSLG] after [setUpPSLGEdges] answers whether an edge is
    a segment of the PSLG, in either direction: whenever the point
    numbers plus [FIXED_POINT_OFFSET] and the edge's end points are below
    [2^31], and [qsort] has sorted the array under [compare_edges],
    [bsearch] finds [(u, v)] exactly when some segment joins [u] and
    [v]. *)
Theorem edgeInPSLG_refines off segs sorted u v :
  0 <= off -> (forall s, In s segs -> fst s + off < 2 ^ 31 /\ snd s + off < 2 ^ 31) ->
  qsort_spec compare_edges (setUpPSLGEdges off segs) sorted ->
  0 <= u < 2 ^ 31 -> 0 <= v < 2 ^ 31 ->
  (edgeInPSLG sorted u v = true <->
   exists s, In s segs /\ ((u, v) = (seg_vertex off (fst s), seg_vertex off (snd s)) \/
                           (u, v) = (seg_vertex off (snd s), seg_vertex off (fst s)))).
Proof.
  intros Ho Hsegs [Hperm Hsort] Hu Hv.
  assert (HD : Forall small sorted).
  { apply Forall_forall; intros e He; apply (Permutation_in _ (Permutation_sym Hperm)) in He.
    apply in_setUpPSLGEdges in He as (s & Hs & He); destruct (Hsegs s Hs).
    pose proof (seg_vertex_small off (fst s) Ho ltac:(lia)).
    pose proof (seg_vertex_small off (snd s) Ho ltac:(lia)).
    destruct He as [-> | ->]; split; cbn; lia. }
  rewrite <- in_setUpPSLGEdges; split.
  - intros E; assert (Hne : bsearch compare_edges (u, v) sorted <> None)
      by (unfold edgeInPSLG in E; destruct (bsearch _ _ _); congruence).
    apply (bsearch_correct morton compare_edges small compare_edges_key sorted (u, v)) in Hne
      as (p & Hp & Hk); [|split; cbn; lia|exact HD|exact Hsort].
    rewrite <- (morton_inj p (u, v) (proj1 (Forall_forall _ _) HD p Hp) ltac:(split; cbn; lia) Hk).
    exact (Permutation_in _ (Permutation_sym Hperm) Hp).
  - intros Hin; apply (Permutation_in _ Hperm) in Hin.
    pose proof (proj2 (bsearch_correct morton compare_edges small compare_edges_key sorted (u, v)
                         ltac:(split; cbn; lia) HD Hsort) (ex_intro _ (u, v) (conj Hin eq_refl))) as H.
    unfold edgeInPSLG; destruct (bsearch _ _ _); [reflexivity|contradiction].
Qed.

Definition wit_segs : list (Z * Z) := [(0, 1); (1, 2)].
Definition wit_sorted : list (Z * Z) := [(3, 4); (4, 3); (4, 5); (5, 4)].

Lemma edgeInPSLG_refines_witness : edgeInPSLG wit_sorted 5 4 = true.
Proof.
  apply (edgeInPSLG_refines 3 wit_segs); [lia| | |lia|lia|].
  - intros s Hs; repeat destruct Hs as [<-|Hs]; [cbn; lia|cbn; lia|destruct Hs].
  - split; [vm_compute; apply Permutation_refl|].
    repeat constructor; vm_compute; discriminate.
  - exists (1, 2); split; [right; left; reflexivity|right; reflexivity].
Defined.

(** The difference [compare_edges] converts to [int]: that of the
    coordinate whose exclusive or has the higher set bit. *)
Definition discrim (a b : Z * Z) : Z :=
  let '(ax, ay) := a in
  let '(bx, by_) := b in
  if msb_ge (Z.lxor ax bx) (Z.lxor ay by_) then ax - bx else ay - by_.

Lemma compare_edges_wrap a b : compare_edges a b = wrap32 (discrim a b).
Proof.
  destruct a as [ax ay], b as [bx by_]; unfold compare_edges, discrim, msb_ge; cbv zeta.
  destruct (Z.gtb _ _); reflexivity.
Qed.

(** A pair of [uint32_t] point numbers. *)
Definition uint32 (p : Z * Z) : Prop := 0 <= fst p < 2 ^ 32 /\ 0 <= snd p < 2 ^ 32.

(** (C36) Overflow of [compare_edges]: for any two edges of [uint32_t]
    point numbers, the sign of [compare_edges] is that of the comparison
    of their Morton keys exactly when the difference it converts to [int]
    (of the coordinate with the highest differing bit) lies in
    [[-2^31, 2^31)]; for edges whose deciding coordinates are [2^31] or
    more apart the comparator orders them the wrong way. *)
Theorem compare_edges_overflow (a b : Z * Z) :
  uint32 a -> uint32 b ->
  (Z.compare (compare_edges a b) 0 = Z.compare (morton a) (morton b) <->
   -2 ^ 31 <= discrim a b < 2 ^ 31).
Proof.
  destruct a as [ax ay], b as [bx by_]; intros [Hax Hay] [Hbx Hby]; cbn [fst snd] in *.
  rewrite compare_edges_wrap, !morton_unfold; cbn [fst snd].
  rewrite <- (discrim_morton 32 ax ay bx by_) by (cbn; lia).
  change (if msb_ge (Z.lxor ax bx) (Z.lxor ay by_) then ax - bx else ay - by_)
    with (discrim (ax, ay) (bx, by_)).
  apply wrap32_sign; unfold discrim; destruct (msb_ge _ _); lia.
Qed.

(** The edges [(2^31, 0)] and [(0, 0)]: [compare_edges] finds the first
    below the second, against their Morton order (and also the second
    below the first). *)
Lemma compare_edges_overflow_witness :
  uint32 (2 ^ 31, 0) /\ uint32 (0, 0) /\
  Z.compare (compare_edges (2 ^ 31, 0) (0, 0)) 0 <> Z.compare (morton (2 ^ 31, 0)) (morton (0, 0)).
Proof.
  assert (H0 : uint32 (0, 0)) by (split; cbn; lia).
  assert (H1 : uint32 (2 ^ 31, 0)) by (split; cbn; lia).
  split; [exact H1|]; split; [exact H0|].
  intros E; apply (compare_edges_overflow _ _ H1 H0) in E; destruct E as [_ E]; vm_compute in E; discriminate.
Defined.

End PSLGFacts.
