(* ===== verification/QuadTree.v ===== *)
(** * The point quadtree of the triangulation (TMRQuadNode)

    src/src/TMRTriangularize.c (lines 152-450) indexes the mesh points in
    a quadtree, [TMRQuadNode].  A node covers the square of side
    [2^(MAX_DEPTH-level)] at integer position [(u, v)] of the
    parameter domain; [initialize] computes the planes [x] and [y] that
    split it in four.  A leaf holds up to [NODES_PER_LEVEL] points with
    their numbers; [addNode] routes a point to the child of its quadrant
    ([pt[0] < x], [pt[1] < y]) and, when it reaches a full leaf, creates
    the four children and re-adds the leaf's points.  [deleteNode]
    removes a point by number from the leaf its coordinates reach, and
    [findClosest] returns the nearest point, searching the point's own
    quadrant first and a sibling only when its splitting line is within
    the best distance found so far.

    [QT] models a node as an inductive with the fields of the C class
    ([u], [v], [level], [x], [y], the points or the four children).
    [MAX_DEPTH] and [NODES_PER_LEVEL] are constants of a header outside
    src/ and the domain is the caller's: they are parameters.  The
    coordinates are rationals, [sqrt] is a parameter [sqrtf].  [addNode]
    recurses into the node it has just split, so it is written with fuel
    ([None] when the fuel runs out); the height of the tree plus three is
    enough.  The shift [1 << (MAX_DEPTH - level - 1)] is undefined in C
    when the level reaches [MAX_DEPTH]; the model's [2 ^ _] gives [0]
    there, and no theorem depends on the values of the splitting planes.

    [QTFacts] proves that [addNode] keeps the tree well formed and either
    adds the point to the leaf it reaches or, when that leaf is full,
    keeps exactly the points it had: the point that makes a leaf split is
    dropped.  [deleteNode] removes the first point of that number in the
    leaf its coordinates reach, and [findClosest] on a well-formed tree
    returns a point at the least distance, as the brute-force minimum
    over all points does, whenever [sqrtf] bounds each coordinate
    difference. *)

From Stdlib Require Import ZArith QArith Qabs List Lia Lqa Permutation Bool.
From S2P Require Import Prelude.
Import ListNotations.
Open Scope Q_scope.

Module QT.

(** [TMRQuadDomain]: the parameter box. *)
Record TMRQuadDomain := mkDomain { xlow : Q; xhigh : Q; ylow : Q; yhigh : Q }.

(** A node: a leaf with its points ([pt_nums] with [pts]) or an inner
    node with its four children. *)
Inductive TMRQuadNode :=
| QLeaf (u v level : Z) (x y : Q) (pts : list (Z * (Q * Q)))
| QInner (u v level : Z) (x y : Q) (low_left low_right up_left up_right : TMRQuadNode).

(** [a < b] on doubles. *)
Definition qltb (a b : Q) : bool := if Qlt_le_dec a b then true else false.

(** [MAX_QUAD_DISTANCE = 1e40]. *)
Definition MAX_QUAD_DISTANCE : Q := inject_Z (10 ^ 40).

Section WithConstants.
Variable MAX_DEPTH : Z.
Variable NODES_PER_LEVEL : nat.
Variable domain : TMRQuadDomain.

(** [TMRQuadNode::initialize(domain, u, v, level)]: an empty leaf with
    its splitting planes. *)
Definition initialize (u v level : Z) : TMRQuadNode :=
  let hmax := (2 ^ MAX_DEPTH)%Z in
  let h := (2 ^ (MAX_DEPTH - level - 1))%Z in
  let ax := inject_Z (u + h) / inject_Z hmax in
  let ay := inject_Z (v + h) / inject_Z hmax in
  QLeaf u v level ((1 - ax) * xlow domain + ax * xhigh domain)
        ((1 - ay) * ylow domain + ay * yhigh domain) [].

(** [TMRQuadNode::addNode(num, pt)]. *)
Fixpoint addNode (fuel : nat) (t : TMRQuadNode) (num : Z) (pt : Q * Q) : option TMRQuadNode :=
  match fuel with
  | O => None
  | S fuel =>
      match t with
      | QInner u v l x y ll lr ul ur =>
          if qltb (fst pt) x && qltb (snd pt) y then
            option_map (fun ll' => QInner u v l x y ll' lr ul ur) (addNode fuel ll num pt)
          else if qltb (fst pt) x then
            option_map (fun ul' => QInner u v l x y ll lr ul' ur) (addNode fuel ul num pt)
          else if qltb (snd pt) y then
            option_map (fun lr' => QInner u v l x y ll lr' ul ur) (addNode fuel lr num pt)
          else
            option_map (fun ur' => QInner u v l x y ll lr ul ur') (addNode fuel ur num pt)
      | QLeaf u v l x y pts =>
          if Nat.ltb (length pts) NODES_PER_LEVEL then
            Some (QLeaf u v l x y (pts ++ [(num, pt)]))
          else
            let h := (2 ^ (MAX_DEPTH - l - 1))%Z in
            let t' := QInner u v l x y (initialize u v (l + 1)) (initialize (u + h) v (l + 1))
                             (initialize u (v + h) (l + 1)) (initialize (u + h) (v + h) (l + 1)) in
            fold_left (fun acc kp => match acc with
                                     | Some t => addNode fuel t (fst kp) (snd kp)
                                     | None => None
                                     end) pts (Some t')
      end
  end.

End WithConstants.

(** The leaf scan of [deleteNode]: the points without the first of
    number [num], or [None] when there is none. *)
Fixpoint remove_num (num : Z) (pts : list (Z * (Q * Q))) : option (list (Z * (Q * Q))) :=
  match pts with
  | [] => None
  | (k, p) :: rest => if Z.eqb k num then Some rest
                      else option_map (cons (k, p)) (remove_num num rest)
  end.

(** [TMRQuadNode::deleteNode(num, pt)]: the new tree and the flag
    returned (1 as [true]). *)
Fixpoint deleteNode (t : TMRQuadNode) (num : Z) (pt : Q * Q) : TMRQuadNode * bool :=
  match t with
  | QInner u v l x y ll lr ul ur =>
      if qltb (fst pt) x && qltb (snd pt) y then
        let '(ll', r) := deleteNode ll num pt in (QInner u v l x y ll' lr ul ur, r)
      else if qltb (fst pt) x then
        let '(ul', r) := deleteNode ul num pt in (QInner u v l x y ll lr ul' ur, r)
      else if qltb (snd pt) y then
        let '(lr', r) := deleteNode lr num pt in (QInner u v l x y ll lr' ul ur, r)
      else
        let '(ur', r) := deleteNode ur num pt in (QInner u v l x y ll lr ul ur', r)
  | QLeaf u v l x y pts =>
      match remove_num num pts with
      | Some pts' => (QLeaf u v l x y pts', true)
      | None => (t, false)
      end
  end.

Section Closest.
Variable sqrtf : Q -> Q.

(** The leaf loop of [findClosest]: [(index, dist)] updated when a point
    is strictly closer. *)
Definition closest_in_leaf (pt : Q * Q) (pts : list (Z * (Q * Q))) (acc : Z * Q) : Z * Q :=
  fold_left (fun acc kp =>
               let dx := fst pt - fst (snd kp) in
               let dy := snd pt - snd (snd kp) in
               let d := sqrtf (dx * dx + dy * dy) in
               if qltb d (snd acc) then (fst kp, d) else acc) pts acc.

(** The recursive [findClosest(pt, &index, &dist)]. *)
Fixpoint findClosest_rec (t : TMRQuadNode) (pt : Q * Q) (acc : Z * Q) : Z * Q :=
  match t with
  | QLeaf _ _ _ _ _ pts => closest_in_leaf pt pts acc
  | QInner _ _ _ x y ll lr ul ur =>
      if qltb (fst pt) x && qltb (snd pt) y then
        let a1 := findClosest_rec ll pt acc in
        let a2 := if Qle_bool (x - fst pt) (snd a1) then findClosest_rec lr pt a1 else a1 in
        let a3 := if Qle_bool (y - snd pt) (snd a2) then findClosest_rec ul pt a2 else a2 in
        if Qle_bool (x - fst pt) (snd a3) || Qle_bool (y - snd pt) (snd a3)
        then findClosest_rec ur pt a3 else a3
      else if qltb (fst pt) x then
        let a1 := findClosest_rec ul pt acc in
        let a2 := if Qle_bool (x - fst pt) (snd a1) then findClosest_rec ur pt a1 else a1 in
        let a3 := if Qle_bool (snd pt - y) (snd a2) then findClosest_rec ll pt a2 else a2 in
        if Qle_bool (x - fst pt) (snd a3) || Qle_bool (snd pt - y) (snd a3)
        then findClosest_rec lr pt a3 else a3
      else if qltb (snd pt) y then
        let a1 := findClosest_rec lr pt acc in
        let a2 := if Qle_bool (fst pt - x) (snd a1) then findClosest_rec ll pt a1 else a1 in
        let a3 := if Qle_bool (y - snd pt) (snd a2) then findClosest_rec ur pt a2 else a2 in
        if Qle_bool (fst pt - x) (snd a3) || Qle_bool (y - snd pt) (snd a3)
        then findClosest_rec ul pt a3 else a3
      else
        let a1 := findClosest_rec ur pt acc in
        let a2 := if Qle_bool (fst pt - x) (snd a1) then findClosest_rec ul pt a1 else a1 in
        let a3 := if Qle_bool (snd pt - y) (snd a2) then findClosest_rec lr pt a2 else a2 in
        if Qle_bool (fst pt - x) (snd a3) || Qle_bool (snd pt - y) (snd a3)
        then findClosest_rec ll pt a3 else a3
  end.

(** [findClosest(pt, &dist)]: the index and the distance. *)
Definition findClosest (t : TMRQuadNode) (pt : Q * Q) : Z * Q :=
  findClosest_rec t pt (0%Z, MAX_QUAD_DISTANCE).

End Closest.

End QT.

Module QTFacts.
Import QT.

(** ** The contents and the shape of a tree *)

Fixpoint points (t : TMRQuadNode) : list (Z * (Q * Q)) :=
  match t with
  | QLeaf _ _ _ _ _ pts => pts
  | QInner _ _ _ _ _ ll lr ul ur => points ll ++ points lr ++ points ul ++ points ur
  end.

Fixpoint height (t : TMRQuadNode) : nat :=
  match t with
  | QLeaf _ _ _ _ _ _ => 0
  | QInner _ _ _ _ _ ll lr ul ur =>
      S (Nat.max (Nat.max (height ll) (height lr)) (Nat.max (height ul) (height ur)))
  end.

(** The routing of [addNode], [deleteNode] and [findClosest]: [0] low
    left, [1] low right, [2] up left, [3] up right. *)
Definition quadrant (x y : Q) (p : Q * Q) : nat :=
  (if qltb (fst p) x && qltb (snd p) y then 0
   else if qltb (fst p) x then 2
   else if qltb (snd p) y then 1
   else 3)%nat.

(** The points of the leaf a point is routed to. *)
Fixpoint reach (t : TMRQuadNode) (pt : Q * Q) : list (Z * (Q * Q)) :=
  match t with
  | QLeaf _ _ _ _ _ pts => pts
  | QInner _ _ _ x y ll lr ul ur =>
      match quadrant x y pt with
      | O => reach ll pt | S O => reach lr pt | S (S O) => reach ul pt | _ => reach ur pt
      end
  end.

(** Well formed: every point lies in the quadrant of its subtree, and no
    leaf holds more than [N] points. *)
Fixpoint quad_ok (N : nat) (t : TMRQuadNode) : Prop :=
  match t with
  | QLeaf _ _ _ _ _ pts => (length pts <= N)%nat
  | QInner _ _ _ x y ll lr ul ur =>
      quad_ok N ll /\ quad_ok N lr /\ quad_ok N ul /\ quad_ok N ur /\
      Forall (fun kp => quadrant x y (snd kp) = 0%nat) (points ll) /\
      Forall (fun kp => quadrant x y (snd kp) = 1%nat) (points lr) /\
      Forall (fun kp => quadrant x y (snd kp) = 2%nat) (points ul) /\
      Forall (fun kp => quadrant x y (snd kp) = 3%nat) (points ur)
  end.

Lemma reach_le_points t pt : (length (reach t pt) <= length (points t))%nat.
Proof.
  induction t as [|u v l x y ll IHll lr IHlr ul IHul ur IHur]; cbn; [lia|].
  rewrite !length_app; destruct (quadrant x y pt) as [|[|[|]]]; lia.
Qed.

Lemma Forall_perm_cons {A} (P : A -> Prop) a l l' :
  Permutation l' (a :: l) -> P a -> Forall P l -> Forall P l'.
Proof.
  intros Hp Ha Hl; apply Forall_forall; intros b Hb.
  apply (Permutation_in _ Hp) in Hb as [<-|Hb]; [exact Ha|exact (proj1 (Forall_forall _ _) Hl b Hb)].
Qed.

Lemma Forall_perm_cons' {A} (P : A -> Prop) l l' :
  Permutation l' l -> Forall P l -> Forall P l'.
Proof.
  intros Hp Hl; apply Forall_forall; intros b Hb.
  exact (proj1 (Forall_forall _ _) Hl b (Permutation_in _ Hp Hb)).
Qed.

(** Replacing a child's points by a permutation of one more point. *)
Lemma perm_child {A} (a : A) pre l l' post :
  Permutation l' (a :: l) -> Permutation (pre ++ l' ++ post) (a :: pre ++ l ++ post).
Proof. intros H; rewrite H; symmetry; apply Permutation_middle. Qed.

Lemma quadrant_cases x y p :
  (qltb (fst p) x = true -> qltb (snd p) y = true -> quadrant x y p = 0%nat) /\
  (qltb (fst p) x = false -> qltb (snd p) y = true -> quadrant x y p = 1%nat) /\
  (qltb (fst p) x = true -> qltb (snd p) y = false -> quadrant x y p = 2%nat) /\
  (qltb (fst p) x = false -> qltb (snd p) y = false -> quadrant x y p = 3%nat).
Proof. unfold quadrant; repeat split; intros -> ->; reflexivity. Qed.

Section Add.
Variables (MAX_DEPTH : Z) (N : nat) (dom : TMRQuadDomain).

(** Rebuilding an inner node around a child that gained a point of its
    quadrant. *)
Ltac child_case IH Hq f :=
  destruct (IH f ltac:(assumption) ltac:(assumption) ltac:(lia)) as (t' & -> & Ok' & Hh & Hrc & Hp);
  cbn [option_map]; eexists; split; [reflexivity|];
  assert (Fn : Forall (fun kp => quadrant _ _ (snd kp) = Hq) (points t'))
    by (eapply Forall_perm_cons; [exact Hp| |eassumption];
        cbn [snd]; apply quadrant_cases; assumption);
  cbn [quad_ok points height reach]; rewrite Hh; split; [tauto|split; [reflexivity|]];
  split; [unfold quadrant;
          match goal with E1 : qltb (fst _) _ = _, E2 : qltb (snd _) _ = _ |- _ => rewrite E1, E2 end;
          exact Hrc|].

(** A point routed to a leaf with room is appended to it. *)
Lemma addNode_room fuel t num pt :
  quad_ok N t -> (length (reach t pt) < N)%nat -> (height t < fuel)%nat ->
  exists t', addNode MAX_DEPTH N dom fuel t num pt = Some t' /\ quad_ok N t' /\
             height t' = height t /\ reach t' pt = reach t pt ++ [(num, pt)] /\
             Permutation (points t') ((num, pt) :: points t).
Proof.
  revert fuel; induction t as [u v l x y pts|u v l x y ll IHll lr IHlr ul IHul ur IHur];
    intros fuel Hok Hr Hf; (destruct fuel as [|fuel]; [cbn in Hf; lia|]).
  - cbn [addNode reach quad_ok points height] in *; rewrite (proj2 (Nat.ltb_lt _ _) Hr).
    eexists; split; [reflexivity|]; cbn [quad_ok points height]; rewrite length_app; cbn.
    split; [lia|split; [reflexivity|split; [reflexivity|apply Permutation_app_comm]]].
  - cbn [addNode reach quad_ok points height] in *.
    destruct Hok as (Oll & Olr & Oul & Our & Fll & Flr & Ful & Fur).
    unfold quadrant in Hr; destruct (qltb (fst pt) x) eqn:Ex, (qltb (snd pt) y) eqn:Ey;
      cbn [andb] in Hr |- *.
    + child_case IHll 0%nat fuel; apply (perm_child _ [] _ _ _ Hp).
    + child_case IHul 2%nat fuel.
      rewrite !(app_assoc (points ll) (points lr)); apply (perm_child _ _ _ _ _ Hp).
    + child_case IHlr 1%nat fuel; apply (perm_child _ (points ll) _ _ _ Hp).
    + child_case IHur 3%nat fuel.
      rewrite !app_assoc, <- (app_nil_r (points t')), <- (app_nil_r (points ur)).
      apply (perm_child _ _ _ _ _ Hp).
Qed.

(** The re-adding loop after a split: into an inner node of height one
    with fewer than [N] points in all, every point finds room. *)
Lemma readd fuel pts t :
  quad_ok N t -> height t = 1%nat -> (length (points t) + length pts <= N)%nat -> (2 <= fuel)%nat ->
  exists t', fold_left (fun acc kp => match acc with
                                     | Some t => addNode MAX_DEPTH N dom fuel t (fst kp) (snd kp)
                                     | None => None
                                     end) pts (Some t) = Some t' /\
             quad_ok N t' /\ height t' = 1%nat /\ Permutation (points t') (points t ++ pts).
Proof.
  revert t; induction pts as [|[k p] pts IH]; intros t Hok Hh Hn Hf.
  - exists t; rewrite app_nil_r; auto.
  - cbn [fold_left length fst snd] in *.
    destruct (addNode_room fuel t k p Hok ltac:(pose proof (reach_le_points t p); lia) ltac:(lia))
      as (t1 & -> & Ok1 & Hh1 & _ & Hp1).
    pose proof (Permutation_length Hp1) as Hl1; cbn in Hl1.
    destruct (IH t1 Ok1 ltac:(lia) ltac:(lia) Hf) as (t' & -> & Ok' & Hh' & Hp').
    exists t'; split; [reflexivity|split; [exact Ok'|split; [exact Hh'|]]].
    rewrite Hp', Hp1; apply Permutation_middle.
Qed.

(** The inner-node step of [addNode_full]: the child keeps a
    permutation of its points. *)
Ltac full_case IH O F f :=
  destruct (IH f O ltac:(assumption) ltac:(lia)) as (t' & -> & Ok' & Hh & Hp); cbn [option_map];
  eexists; split; [reflexivity|]; cbn [quad_ok points height];
  split; [|split; [lia|rewrite Hp; reflexivity]];
  repeat split; try assumption; exact (Forall_perm_cons' _ _ _ Hp F).

(** A point routed to a full leaf splits it; the leaf's points are kept
    and the new point is not added. *)
Lemma addNode_full fuel t num pt :
  quad_ok N t -> (N <= length (reach t pt))%nat -> (height t + 3 <= fuel)%nat ->
  exists t', addNode MAX_DEPTH N dom fuel t num pt = Some t' /\ quad_ok N t' /\
             (height t' <= S (height t))%nat /\ Permutation (points t') (points t).
Proof.
  revert fuel; induction t as [u v l x y pts|u v l x y ll IHll lr IHlr ul IHul ur IHur];
    intros fuel Hok Hr Hf; (destruct fuel as [|fuel]; [cbn in Hf; lia|]).
  - cbn [addNode reach quad_ok points height] in *.
    rewrite (proj2 (Nat.ltb_ge _ _) Hr); cbv zeta.
    destruct (readd fuel pts (QInner u v l x y (initialize MAX_DEPTH dom u v (l + 1))
               (initialize MAX_DEPTH dom (u + 2 ^ (MAX_DEPTH - l - 1)) v (l + 1))
               (initialize MAX_DEPTH dom u (v + 2 ^ (MAX_DEPTH - l - 1)) (l + 1))
               (initialize MAX_DEPTH dom (u + 2 ^ (MAX_DEPTH - l - 1)) (v + 2 ^ (MAX_DEPTH - l - 1)) (l + 1))))
      as (t' & E & Ok' & Hh' & Hp'); [cbn; repeat split; auto; lia|reflexivity|cbn; lia|lia|].
    exists t'; split; [exact E|split; [exact Ok'|split; [lia|exact Hp']]].
  - cbn [addNode reach quad_ok points height] in *.
    destruct Hok as (Oll & Olr & Oul & Our & Fll & Flr & Ful & Fur).
    unfold quadrant in Hr; destruct (qltb (fst pt) x) eqn:Ex, (qltb (snd pt) y) eqn:Ey;
      cbn [andb] in Hr |- *.
    + full_case IHll Oll Fll fuel.
    + full_case IHul Oul Ful fuel.
    + full_case IHlr Olr Flr fuel.
    + full_case IHur Our Fur fuel.
Qed.

End Add.

(** (C37) [addNode] keeps the quadtree well formed and, given enough fuel
    (the height of the tree plus three), returns a tree whose points are
    the old ones plus the new point when the leaf the point reaches has
    room, and exactly the old ones when that leaf is full: the point
    that makes a leaf split is dropped. *)
Theorem addNode_spec MAX_DEPTH N dom fuel t num pt :
  quad_ok N t -> (height t + 3 <= fuel)%nat ->
  exists t', addNode MAX_DEPTH N dom fuel t num pt = Some t' /\ quad_ok N t' /\
    Permutation (points t')
      (if Nat.ltb (length (reach t pt)) N then (num, pt) :: points t else points t).
Proof.
  intros Hok Hf; destruct (Nat.ltb_spec (length (reach t pt)) N) as [Hr|Hr].
  - destruct (addNode_room MAX_DEPTH N dom fuel t num pt Hok Hr ltac:(lia)) as (t' & E & Ok & _ & _ & Hp).
    exists t'; auto.
  - destruct (addNode_full MAX_DEPTH N dom fuel t num pt Hok Hr Hf) as (t' & E & Ok & _ & Hp).
    exists t'; auto.
Qed.

(** A unit domain, and a leaf holding one point. *)
Definition unit_domain : TMRQuadDomain := mkDomain 0 1 0 1.
Definition one_point_leaf : TMRQuadNode := QLeaf 0 0 0 (1 # 2) (1 # 2) [(1%Z, (1 # 4, 1 # 4))].

Lemma addNode_spec_witness :
  exists t', addNode 30 1 unit_domain 5 one_point_leaf 2 (3 # 4, 3 # 4) = Some t' /\
             Permutation (points t') [(1%Z, (1 # 4, 1 # 4))].
Proof.
  destruct (addNode_spec 30 1 unit_domain 5 one_point_leaf 2 (3 # 4, 3 # 4)
              ltac:(cbn; lia) ltac:(cbn; lia)) as (t' & E & _ & Hp).
  exists t'; split; [exact E|exact Hp].
Defined.

(** ** Deletion *)

Lemma remove_num_spec num pts :
  match remove_num num pts with
  | Some pts' => exists p, In (num, p) pts /\ Permutation pts ((num, p) :: pts')
  | None => forall p, ~ In (num, p) pts
  end.
Proof.
  induction pts as [|[k p] pts IH]; cbn [remove_num]; [intros p []|].
  destruct (Z.eqb_spec k num) as [->|Hk].
  - exists p; split; [left; reflexivity|reflexivity].
  - destruct (remove_num num pts) as [pts'|]; cbn [option_map].
    + destruct IH as (p' & Hin & Hp); exists p'; split; [right; exact Hin|].
      rewrite Hp; apply perm_swap.
    + intros p' [E|Hin]; [injection E; intros; contradiction|exact (IH p' Hin)].
Qed.

Lemma Forall_incl' {A} (P : A -> Prop) l l' :
  (forall a, In a l' -> In a l) -> Forall P l -> Forall P l'.
Proof. intros Hi Hl; apply Forall_forall; intros a Ha; exact (proj1 (Forall_forall _ _) Hl a (Hi a Ha)). Qed.

(** The result of a deletion as a relation on the child it changed. *)
Definition deleted (c c' : TMRQuadNode) (r : bool) (num : Z) (pt : Q * Q) : Prop :=
  if r then exists p, In (num, p) (reach c pt) /\ Permutation (points c) ((num, p) :: points c')
  else c' = c /\ forall p, ~ In (num, p) (reach c pt).

Lemma deleted_incl c c' r num pt : deleted c c' r num pt -> forall a, In a (points c') -> In a (points c).
Proof.
  destruct r; cbn; [intros (p & _ & Hp) a Ha; apply (Permutation_in _ (Permutation_sym Hp)); right; exact Ha|].
  intros [-> _] a; exact (fun H => H).
Qed.

Lemma deleted_child (K : TMRQuadNode -> TMRQuadNode) pre post c c' r num pt :
  (forall d, points (K d) = pre ++ points d ++ post) -> reach (K c) pt = reach c pt ->
  deleted c c' r num pt -> deleted (K c) (K c') r num pt.
Proof.
  intros Hp Hr; unfold deleted; rewrite Hr, !Hp; destruct r.
  - intros (p & Hin & H); exists p; split; [exact Hin|apply perm_child, H].
  - intros [-> H]; auto.
Qed.

(** [deleteNode] removes the first point of number [num] from the leaf
    [pt] reaches, and reports whether there was one. *)
Lemma deleteNode_spec N t num pt t' r :
  quad_ok N t -> deleteNode t num pt = (t', r) -> quad_ok N t' /\ deleted t t' r num pt.
Proof.
  revert t' r; induction t as [u v l x y pts|u v l x y ll IHll lr IHlr ul IHul ur IHur];
    intros t' r Hok E; cbn [deleteNode] in E.
  - pose proof (remove_num_spec num pts) as Hs.
    destruct (remove_num num pts) as [pts'|]; injection E as <- <-; cbn [quad_ok deleted reach points] in *.
    + destruct Hs as (p & Hin & Hp); pose proof (Permutation_length Hp); cbn in *.
      split; [lia|exists p; auto].
    + auto.
  - cbn [quad_ok] in Hok; destruct Hok as (Oll & Olr & Oul & Our & Fll & Flr & Ful & Fur).
    assert (Hq := quadrant_cases x y pt).
    destruct (qltb (fst pt) x) eqn:Ex, (qltb (snd pt) y) eqn:Ey; cbn [andb] in E.
    + destruct (deleteNode ll num pt) as [c r'] eqn:Ec; injection E as <- <-.
      destruct (IHll c r' Oll eq_refl) as [Oc Dc].
      split; [repeat split; auto; exact (Forall_incl' _ _ _ (deleted_incl _ _ _ _ _ Dc) Fll)|].
      refine (deleted_child (fun d => QInner u v l x y d lr ul ur) [] _ _ _ _ _ _ (fun d => eq_refl) _ Dc).
      cbn [reach]; rewrite (proj1 Hq eq_refl eq_refl); reflexivity.
    + destruct (deleteNode ul num pt) as [c r'] eqn:Ec; injection E as <- <-.
      destruct (IHul c r' Oul eq_refl) as [Oc Dc].
      split; [repeat split; auto; exact (Forall_incl' _ _ _ (deleted_incl _ _ _ _ _ Dc) Ful)|].
      refine (deleted_child (fun d => QInner u v l x y ll lr d ur) (points ll ++ points lr) _ _ _ _ _ _
                (fun d => app_assoc _ _ _) _ Dc).
      cbn [reach]; rewrite (proj1 (proj2 (proj2 Hq)) eq_refl eq_refl); reflexivity.
    + destruct (deleteNode lr num pt) as [c r'] eqn:Ec; injection E as <- <-.
      destruct (IHlr c r' Olr eq_refl) as [Oc Dc].
      split; [repeat split; auto; exact (Forall_incl' _ _ _ (deleted_incl _ _ _ _ _ Dc) Flr)|].
      refine (deleted_child (fun d => QInner u v l x y ll d ul ur) (points ll) _ _ _ _ _ _
                (fun d => eq_refl) _ Dc).
      cbn [reach]; rewrite (proj1 (proj2 Hq) eq_refl eq_refl); reflexivity.
    + destruct (deleteNode ur num pt) as [c r'] eqn:Ec; injection E as <- <-.
      destruct (IHur c r' Our eq_refl) as [Oc Dc].
      split; [repeat split; auto; exact (Forall_incl' _ _ _ (deleted_incl _ _ _ _ _ Dc) Fur)|].
      refine (deleted_child (fun d => QInner u v l x y ll lr ul d) (points ll ++ points lr ++ points ul) [] _ _ _ _ _
                (fun d => ltac:(cbn [points]; rewrite app_nil_r, <- !app_assoc; reflexivity)) _ Dc).
      cbn [reach]; rewrite (proj2 (proj2 (proj2 Hq)) eq_refl eq_refl); reflexivity.
Qed.

(** Adding a point to a leaf with room and deleting it again gives
    back the points of the tree: [deleteNode] finds the point [addNode]
    added (it reports 1) when its number was not already in that leaf. *)
Theorem addNode_deleteNode MAX_DEPTH N dom fuel t num pt :
  quad_ok N t -> (height t < fuel)%nat -> (length (reach t pt) < N)%nat ->
  (forall p, ~ In (num, p) (reach t pt)) ->
  exists t' t'', addNode MAX_DEPTH N dom fuel t num pt = Some t' /\
                 deleteNode t' num pt = (t'', true) /\ Permutation (points t'') (points t).
Proof.
  intros Hok Hf Hr Hn.
  destruct (addNode_room MAX_DEPTH N dom fuel t num pt Hok Hr Hf) as (t' & E & Ok' & _ & Hrc & Hp).
  destruct (deleteNode t' num pt) as [t'' r] eqn:D.
  destruct (deleteNode_spec N t' num pt t'' r Ok' D) as [_ Hd]; unfold deleted in Hd; rewrite Hrc in Hd.
  exists t', t''; split; [exact E|]; destruct r.
  - destruct Hd as (p & Hin & Hp'); apply in_app_or in Hin as [Hin|[Hin|[]]]; [destruct (Hn p Hin)|].
    injection Hin as <-; split; [exact D|].
    symmetry; apply (Permutation_cons_inv (a := (num, pt))); rewrite <- Hp, <- Hp'; reflexivity.
  - destruct Hd as [_ Hd]; destruct (Hd pt); apply in_or_app; right; left; reflexivity.
Qed.

Lemma addNode_deleteNode_witness :
  exists t' t'', addNode 30 2 unit_domain 1 one_point_leaf 2 (3 # 4, 3 # 4) = Some t' /\
                 deleteNode t' 2 (3 # 4, 3 # 4) = (t'', true) /\
                 Permutation (points t'') (points one_point_leaf).
Proof.
  apply addNode_deleteNode; [cbn; lia|cbn; lia|cbn; lia|].
  intros p [E|[]]; discriminate.
Defined.

(** ** The nearest point *)

Lemma qltb_spec a b : qltb a b = true <-> a < b.
Proof. unfold qltb; destruct (Qlt_le_dec a b); split; intros; auto; [discriminate|lra]. Qed.

Lemma quadrant_spec x y p :
  (quadrant x y p = 0%nat -> fst p < x /\ snd p < y) /\
  (quadrant x y p = 1%nat -> x <= fst p /\ snd p < y) /\
  (quadrant x y p = 2%nat -> fst p < x /\ y <= snd p) /\
  (quadrant x y p = 3%nat -> x <= fst p /\ y <= snd p).
Proof.
  unfold quadrant, qltb; destruct (Qlt_le_dec (fst p) x), (Qlt_le_dec (snd p) y); cbn;
    (split; [|split; [|split]]); intros Hq; try discriminate; split; assumption.
Qed.

Section ClosestFacts.
Variable sqrtf : Q -> Q.

(** What [findClosest] needs of [sqrt]: the distance is at least each
    coordinate difference. *)
Hypothesis sqrtf_bound :
  forall a b, Qabs a <= sqrtf (a * a + b * b) /\ Qabs b <= sqrtf (a * a + b * b).

Definition dist_to (pt : Q * Q) (kp : Z * (Q * Q)) : Q :=
  sqrtf ((fst pt - fst (snd kp)) * (fst pt - fst (snd kp)) +
         (snd pt - snd (snd kp)) * (snd pt - snd (snd kp))).

Lemma dist_to_x pt kp : Qabs (fst pt - fst (snd kp)) <= dist_to pt kp.
Proof. apply sqrtf_bound. Qed.

Lemma dist_to_y pt kp : Qabs (snd pt - snd (snd kp)) <= dist_to pt kp.
Proof. apply sqrtf_bound. Qed.

(** [r] is what a search of [S] from [a] must return: no farther than
    [a], no farther than any point of [S], and [a] itself or a point of
    [S] with its distance. *)
Definition Best (S : list (Z * (Q * Q))) (pt : Q * Q) (a r : Z * Q) : Prop :=
  snd r <= snd a /\ (forall kp, In kp S -> snd r <= dist_to pt kp) /\
  (r = a \/ exists kp, In kp S /\ r = (fst kp, dist_to pt kp)).

Lemma Best_app S1 S2 pt a b c : Best S1 pt a b -> Best S2 pt b c -> Best (S1 ++ S2) pt a c.
Proof.
  intros (Hb1 & Hb2 & Hb3) (Hc1 & Hc2 & Hc3); split; [lra|split].
  - intros kp Hkp; apply in_app_or in Hkp as [H|H]; [specialize (Hb2 kp H); lra|auto].
  - destruct Hc3 as [->|(kp & Hkp & ->)]; [destruct Hb3 as [->|(kp & Hkp & ->)]; [left; reflexivity|]|];
      right; exists kp; split; auto using in_or_app.
Qed.

Lemma Best_perm S S' pt a r : Permutation S S' -> Best S pt a r -> Best S' pt a r.
Proof.
  intros Hp (H1 & H2 & H3); split; [exact H1|split].
  - intros kp Hkp; apply H2, (Permutation_in _ (Permutation_sym Hp) Hkp).
  - destruct H3 as [->|(kp & Hkp & ->)]; [left; reflexivity|right; exists kp].
    split; [exact (Permutation_in _ Hp Hkp)|reflexivity].
Qed.

(** A search that is skipped: every point is strictly farther. *)
Lemma Best_step S pt (c : bool) (g : Z * Q -> Z * Q) (a : Z * Q) :
  (c = true -> Best S pt a (g a)) -> (c = false -> forall kp, In kp S -> snd a < dist_to pt kp) ->
  Best S pt a (if c then g a else a).
Proof.
  destruct c; intros Ht Hf; [exact (Ht eq_refl)|].
  split; [lra|split; [intros kp Hkp; specialize (Hf eq_refl kp Hkp); lra|left; reflexivity]].
Qed.

Lemma prune S pt d (a : Z * Q) :
  (forall kp, In kp S -> d <= dist_to pt kp) -> Qle_bool d (snd a) = false ->
  forall kp, In kp S -> snd a < dist_to pt kp.
Proof.
  intros Hd Hb kp Hkp; specialize (Hd kp Hkp).
  destruct (Qlt_le_dec (snd a) d) as [H|H]; [lra|].
  apply Qle_bool_iff in H; congruence.
Qed.

Lemma closest_in_leaf_best pt pts acc : Best pts pt acc (closest_in_leaf sqrtf pt pts acc).
Proof.
  unfold closest_in_leaf; revert acc; induction pts as [|kp pts IH]; intros acc; cbn [fold_left].
  - split; [lra|split; [intros _ []|left; reflexivity]].
  - eapply (Best_app [kp] pts pt acc); [|apply IH].
    destruct (qltb _ (snd acc)) eqn:E; [apply qltb_spec in E|].
    + split; [cbn; unfold dist_to; lra|split; [intros ? [<-|[]]; unfold dist_to; cbn; lra|]].
      right; exists kp; split; [left|]; reflexivity.
    + split; [lra|split; [|left; reflexivity]].
      intros ? [<-|[]]; destruct (Qlt_le_dec (dist_to pt kp) (snd acc)) as [H|H]; [|exact H].
      apply qltb_spec in H; unfold dist_to in H; congruence.
Qed.

(** One of the four blocks of [findClosest]: search [c1], then [c2] and
    [c3] when their splitting line is within the best distance, then
    [c4] when either is. *)
Lemma block_best (F : TMRQuadNode -> Z * Q -> Z * Q) pt c1 c2 c3 c4 d2 d3 acc :
  (forall c a, In c [c1; c2; c3; c4] -> Best (points c) pt a (F c a)) ->
  (forall kp, In kp (points c2) -> d2 <= dist_to pt kp) ->
  (forall kp, In kp (points c3) -> d3 <= dist_to pt kp) ->
  (forall kp, In kp (points c4) -> d2 <= dist_to pt kp) ->
  Best (points c1 ++ points c2 ++ points c3 ++ points c4) pt acc
    (let a1 := F c1 acc in
     let a2 := if Qle_bool d2 (snd a1) then F c2 a1 else a1 in
     let a3 := if Qle_bool d3 (snd a2) then F c3 a2 else a2 in
     if Qle_bool d2 (snd a3) || Qle_bool d3 (snd a3) then F c4 a3 else a3).
Proof.
  intros HF H2 H3 H4; cbv zeta.
  set (a1 := F c1 acc); set (a2 := if Qle_bool d2 (snd a1) then F c2 a1 else a1).
  set (a3 := if Qle_bool d3 (snd a2) then F c3 a2 else a2).
  apply (Best_app _ _ _ _ a1); [apply HF; left; reflexivity|].
  apply (Best_app _ _ _ _ a2).
  { apply Best_step; [intros _; apply HF; right; left; reflexivity|intros E; exact (prune _ _ _ _ H2 E)]. }
  apply (Best_app _ _ _ _ a3).
  { apply Best_step; [intros _; apply HF; do 2 right; left; reflexivity|intros E; exact (prune _ _ _ _ H3 E)]. }
  apply Best_step; [intros _; apply HF; do 3 right; left; reflexivity|].
  intros E; apply orb_false_iff in E as [E _]; exact (prune _ _ _ _ H4 E).
Qed.

Lemma dist_ge_x pt kp x : x <= fst (snd kp) -> x - fst pt <= dist_to pt kp.
Proof.
  intros H; pose proof (dist_to_x pt kp); rewrite <- Qabs_opp in H0.
  pose proof (Qle_Qabs (- (fst pt - fst (snd kp)))); lra.
Qed.

Lemma dist_lt_x pt kp x : fst (snd kp) < x -> fst pt - x <= dist_to pt kp.
Proof. intros H; pose proof (dist_to_x pt kp); pose proof (Qle_Qabs (fst pt - fst (snd kp))); lra. Qed.

Lemma dist_ge_y pt kp y : y <= snd (snd kp) -> y - snd pt <= dist_to pt kp.
Proof.
  intros H; pose proof (dist_to_y pt kp); rewrite <- Qabs_opp in H0.
  pose proof (Qle_Qabs (- (snd pt - snd (snd kp)))); lra.
Qed.

Lemma dist_lt_y pt kp y : snd (snd kp) < y -> snd pt - y <= dist_to pt kp.
Proof. intros H; pose proof (dist_to_y pt kp); pose proof (Qle_Qabs (snd pt - snd (snd kp))); lra. Qed.

Lemma perm_swap_pairs {A} (a b c d : list A) : Permutation (a ++ b ++ c ++ d) (c ++ d ++ a ++ b).
Proof. rewrite (app_assoc a b), (app_assoc c d); apply Permutation_app_comm. Qed.

Lemma perm_swap_each {A} (a b c d : list A) : Permutation (b ++ a ++ d ++ c) (a ++ b ++ c ++ d).
Proof.
  rewrite (app_assoc b a), (app_assoc a b).
  apply Permutation_app; apply Permutation_app_comm.
Qed.

(** The search of a well-formed tree meets [Best]. *)
Lemma findClosest_rec_best N t pt acc :
  quad_ok N t -> Best (points t) pt acc (findClosest_rec sqrtf t pt acc).
Proof.
  revert acc; induction t as [u v l x y pts|u v l x y ll IHll lr IHlr ul IHul ur IHur];
    intros acc Hok; [apply closest_in_leaf_best|].
  cbn [quad_ok] in Hok; destruct Hok as (Oll & Olr & Oul & Our & Fll & Flr & Ful & Fur).
  rewrite Forall_forall in Fll, Flr, Ful, Fur.
  assert (Cll : forall kp, In kp (points ll) -> fst (snd kp) < x /\ snd (snd kp) < y)
    by (intros kp H; apply quadrant_spec, Fll, H).
  assert (Clr : forall kp, In kp (points lr) -> x <= fst (snd kp) /\ snd (snd kp) < y)
    by (intros kp H; apply quadrant_spec, Flr, H).
  assert (Cul : forall kp, In kp (points ul) -> fst (snd kp) < x /\ y <= snd (snd kp))
    by (intros kp H; apply quadrant_spec, Ful, H).
  assert (Cur : forall kp, In kp (points ur) -> x <= fst (snd kp) /\ y <= snd (snd kp))
    by (intros kp H; apply quadrant_spec, Fur, H).
  assert (HF : forall c a, In c [ll; lr; ul; ur] ->
                 Best (points c) pt a ((fun c a => findClosest_rec sqrtf c pt a) c a))
    by (intros c a [<-|[<-|[<-|[<-|[]]]]]; auto).
  cbn [findClosest_rec points].
  destruct (qltb (fst pt) x), (qltb (snd pt) y); cbn [andb].
  - refine (block_best _ pt ll lr ul ur (x - fst pt) (y - snd pt) acc _ _ _ _);
      [intros c a Hc; apply HF; destruct Hc as [<-|[<-|[<-|[<-|[]]]]]; cbn; tauto|..];
      intros kp Hkp; [apply dist_ge_x, Clr|apply dist_ge_y, Cul|apply dist_ge_x, Cur]; exact Hkp.
  - apply (Best_perm (points ul ++ points ur ++ points ll ++ points lr)); [apply perm_swap_pairs|].
    refine (block_best _ pt ul ur ll lr (x - fst pt) (snd pt - y) acc _ _ _ _);
      [intros c a Hc; apply HF; destruct Hc as [<-|[<-|[<-|[<-|[]]]]]; cbn; tauto|..];
      intros kp Hkp; [apply dist_ge_x, Cur|apply dist_lt_y, Cll|apply dist_ge_x, Clr]; exact Hkp.
  - apply (Best_perm (points lr ++ points ll ++ points ur ++ points ul)); [apply perm_swap_each|].
    refine (block_best _ pt lr ll ur ul (fst pt - x) (y - snd pt) acc _ _ _ _);
      [intros c a Hc; apply HF; destruct Hc as [<-|[<-|[<-|[<-|[]]]]]; cbn; tauto|..];
      intros kp Hkp; [apply dist_lt_x, Cll|apply dist_ge_y, Cur|apply dist_lt_x, Cul]; exact Hkp.
  - apply (Best_perm (points ur ++ points ul ++ points lr ++ points ll)).
    { rewrite perm_swap_pairs; apply perm_swap_each. }
    refine (block_best _ pt ur ul lr ll (fst pt - x) (snd pt - y) acc _ _ _ _);
      [intros c a Hc; apply HF; destruct Hc as [<-|[<-|[<-|[<-|[]]]]]; cbn; tauto|..];
      intros kp Hkp; [apply dist_lt_x, Cul|apply dist_lt_y, Clr|apply dist_lt_x, Cll]; exact Hkp.
Qed.

(** (C38) [findClosest] returns a nearest point: on a well-formed
    quadtree holding a point closer than [MAX_QUAD_DISTANCE], the index
    and distance it returns are those of one of the tree's points, and no
    point of the tree is closer, although whole quadrants are skipped;
    this holds for any [sqrt] that bounds each coordinate difference. *)
Theorem findClosest_nearest N t pt :
  quad_ok N t -> (exists kp, In kp (points t) /\ dist_to pt kp < MAX_QUAD_DISTANCE) ->
  (exists kp, In kp (points t) /\ findClosest sqrtf t pt = (fst kp, dist_to pt kp)) /\
  (forall kp, In kp (points t) -> snd (findClosest sqrtf t pt) <= dist_to pt kp).
Proof.
  intros Hok (kp0 & Hin0 & Hd0).
  destruct (findClosest_rec_best N t pt (0%Z, MAX_QUAD_DISTANCE) Hok) as (_ & Hle & [E|Hex]);
    unfold findClosest; split; auto.
  exfalso; specialize (Hle kp0 Hin0); rewrite E in Hle; cbn in Hle; lra.
Qed.

End ClosestFacts.

(** A stand-in for [sqrt] in the concrete runs: [s + 1] bounds every
    coordinate difference. *)
Definition wit_sqrt (s : Q) : Q := s + 1.

Lemma wit_sqrt_bound a b : Qabs a <= wit_sqrt (a * a + b * b) /\ Qabs b <= wit_sqrt (a * a + b * b).
Proof. unfold wit_sqrt; split; apply Qabs_case; intros; nra. Qed.

Lemma findClosest_nearest_witness :
  snd (findClosest wit_sqrt one_point_leaf (0, 0)) <= dist_to wit_sqrt (0, 0) (1%Z, (1 # 4, 1 # 4)).
Proof.
  destruct (findClosest_nearest wit_sqrt wit_sqrt_bound 1 one_point_leaf (0, 0)) as [_ H];
    [cbn; lia| |apply H; left; reflexivity].
  exists (1%Z, (1 # 4, 1 # 4)); split; [left; reflexivity|unfold Qlt; vm_compute; reflexivity].
Defined.

End QTFacts.
