(* ===== verification/Curvature.v ===== *)
(** * The curvature constraint (TMRCurvatureConstraint)

    src/src/TMRGeometry.c (lines 4888-5620) turns a scalar design field
    into a curvature functional.  For each element, [estimateHessian]
    fits the 20-term polynomial [evalPoly] to the values and gradients at
    the eight corners, a 32 x 20 least-squares problem solved by
    [LAPACKdgelss], and reads the centroid gradient [g] and Hessian [H]
    off the fitted coefficients, pushing each gradient component away
    from zero by [1e-6].  [evalCurvature] forms the Gaussian and mean
    curvatures from [g] and [H], the two principal curvatures, a smooth
    maximum of them and the indicator factor [1 - 16 (val - 1/2)^4].
    [evalCurvDeriv] repeats that computation and returns, by a
    hand-written reverse sweep, the derivatives of the result with
    respect to [val], [g] and [H].  The element overloads of
    [evalCurvature] and [addCurvDeriv] build [g] and [H] from the
    shape-function derivatives and a Jacobian, and [evalConstraint]
    aggregates the element results into an induced-exponential mean.

    [Curv] models these routines over exact rationals.  [sqrt], [exp] and
    [log] are the parameters of a record [Transc].  The curvature
    routines are written once over the interface [CurvOps], which adds
    division, the three transcendental functions, [fabs] and the
    comparisons to [RingOps]: at [Q] they are the code; at the dual
    numbers they are its forward-mode derivative, the chain rule with the
    derivatives [sqrt' = 1 / (2 sqrt)], [exp' = exp], [log' = 1 / x] and
    [fabs' = sign].  The MPI reductions of [evalConstraint] are those of
    one process.

    [CurvFacts] proves that [evalPoly] returns exact derivatives, that the
    fit recovers the coefficients of a field in the span of the basis (and
    that the diagonal of the [H] it returns is half the field's second
    derivative), that the estimated gradient is never zero, what the
    principal curvatures the code computes are, and that the reverse
    sweep of [evalCurvDeriv] is the transpose of the forward derivative
    of [evalCurvature]. *)

From Stdlib Require Import PeanoNat QArith Qring Qabs Qminmax Morphisms List Lia Lqa.
From S2P Require Import Prelude LeastSquares Enrichment NodeVec NodeDeriv.
Import ListNotations.
Open Scope Q_scope.
Open Scope tmr_scope.

Module Curv.
Import Lapack Enrich BVec.

(** ** The fitting basis ([evalPoly]) *)

Section Basis.
Context {K : Type} `{RingOps K}.

(** The values [N] written by [evalPoly(x, N, Nx, Ny, Nz)]. *)
Definition evalPoly_N (pt : K * K * K) : list K :=
  let '(a, b, c) := pt in
  [1:; a; b; c;
   c *: b; a *: c; a *: b; a *: a; b *: b; c *: c;
   a *: b *: c;
   a *: a *: b; a *: a *: c; a *: a *: b *: c;
   b *: b *: a; b *: b *: c; b *: b *: a *: c;
   c *: c *: a; c *: c *: b; c *: c *: a *: b].

End Basis.

(** [evalPoly(x, N, Nx, Ny, Nz)]: the values and the three derivative
    arrays, as the code writes them. *)
Definition evalPoly (pt : Q * Q * Q) : enr3 :=
  let '(a, b, c) := pt in
  {| eN3 := evalPoly_N (a, b, c);
     eNa3 := [0; 1; 0; 0; 0; c; b; 2 * a; 0; 0;
              b * c; 2 * a * b; 2 * a * c; 2 * a * b * c;
              b * b; 0; b * b * c; c * c; 0; c * c * b];
     eNb3 := [0; 0; 1; 0; c; 0; a; 0; 2 * b; 0;
              a * c; a * a; 0; a * a * c;
              2 * b * a; 2 * b * c; 2 * b * a * c; 0; c * c; c * c * a];
     eNc3 := [0; 0; 0; 1; b; a; 0; 0; 0; 2 * c;
              a * b; 0; a * a; a * a * b;
              0; b * b; b * b * a; 2 * c * a; 2 * c * b; 2 * c * a * b] |}.

(** ** The centroid fit ([estimateHessian]) *)

(** The centroid [c] of the eight corners. *)
Definition centroid (elem_Xpts : list Q) : Q * Q * Q :=
  fold_left (fun c i => let '(c0, c1, c2) := c in
                        (c0 + (1 # 8) * nth (3 * i) elem_Xpts 0,
                         c1 + (1 # 8) * nth (3 * i + 1) elem_Xpts 0,
                         c2 + (1 # 8) * nth (3 * i + 2) elem_Xpts 0))
            (seq 0 8) (0, 0, 0).

(** Corner [i] relative to the centroid. *)
Definition hess_point (elem_Xpts : list Q) (i : nat) : Q * Q * Q :=
  let '(c0, c1, c2) := centroid elem_Xpts in
  (nth (3 * i) elem_Xpts 0 - c0, nth (3 * i + 1) elem_Xpts 0 - c1,
   nth (3 * i + 2) elem_Xpts 0 - c2).

(** The 32 x 20 column-major matrix: [A[4i + 32j] = N[j]],
    [A[4i+1 + 32j] = Nx[j]], [A[4i+2 + 32j] = Ny[j]], [A[4i+3 + 32j] = Nz[j]]. *)
Definition hess_A (elem_Xpts : list Q) : list Q :=
  flat_map (fun j =>
    flat_map (fun i => let e := evalPoly (hess_point elem_Xpts i) in
                       [nth j (eN3 e) 0; nth j (eNa3 e) 0; nth j (eNb3 e) 0; nth j (eNc3 e) 0])
             (seq 0 8)) (seq 0 20).

(** The right-hand side: the value and the three derivatives at each corner. *)
Definition hess_rhs (elem_vals elem_derivs : list Q) : list Q :=
  flat_map (fun i => [nth i elem_vals 0; nth (3 * i) elem_derivs 0;
                      nth (3 * i + 1) elem_derivs 0; nth (3 * i + 2) elem_derivs 0])
           (seq 0 8).

(** [if (g < 0.0) g = g - 1e-6; else g = g + 1e-6;] *)
Definition perturb (a : Q) : Q :=
  if Qlt_le_dec a 0 then a - (1 # 1000000) else a + (1 # 1000000).

(** The outputs read off the solution array: [val], the perturbed
    gradient and [H = (rhs[7], rhs[6], rhs[5], rhs[8], rhs[4], rhs[9])]. *)
Definition hess_out (rhs : list Q) : Q * (Q * Q * Q) * list Q :=
  (nth 0 rhs 0,
   (perturb (nth 1 rhs 0), perturb (nth 2 rhs 0), perturb (nth 3 rhs 0)),
   [nth 7 rhs 0; nth 6 rhs 0; nth 5 rhs 0; nth 8 rhs 0; nth 4 rhs 0; nth 9 rhs 0]).

(** [estimateHessian(elem_Xpts, elem_vals, elem_derivs, &val, g, H)]:
    the outputs the routine may return, for the arrays [LAPACKdgelss]
    may leave behind. *)
Definition estimateHessian (elem_Xpts elem_vals elem_derivs : list Q)
  (out : Q * (Q * Q * Q) * list Q) : Prop :=
  exists rhs', LAPACKdgelss 32 20 1 (hess_A elem_Xpts) (hess_rhs elem_vals elem_derivs) rhs' /\
               out = hess_out rhs'.

(** ** The curvature of a level set ([evalCurvature], [evalCurvDeriv]) *)

(** The three transcendental functions of [math.h] the routines call. *)
Record Transc := mkTransc { tsqrt : Q -> Q; texp : Q -> Q; tlog : Q -> Q }.

(** What the curvature routines use beyond the ring operations:
    division, [sqrt], [exp], [log], [fabs], [a > b] and [a != 0.0]. *)
Class CurvOps (K : Type) := {
  cdiv : K -> K -> K;
  csqrt : K -> K;
  cexp : K -> K;
  clog : K -> K;
  cfabs : K -> K;
  cgt : K -> K -> bool;
  cnz : K -> bool
}.

(** The code's scalars. *)
Definition Q_CurvOps (T : Transc) : CurvOps Q := {|
  cdiv := Qdiv; csqrt := tsqrt T; cexp := texp T; clog := tlog T; cfabs := Qabs;
  cgt := fun a b => if Qlt_le_dec b a then true else false;
  cnz := fun a => negb (Qeq_bool a 0) |}.

(** Forward-mode differentiation: the chain rule of each operation;
    comparisons and the sign of [fabs] read the value part. *)
Definition Dual_CurvOps (T : Transc) : CurvOps dual := {|
  cdiv := fun a b => mkDual (re a / re b) ((du a * re b - re a * du b) / (re b * re b));
  csqrt := fun a => mkDual (tsqrt T (re a)) (du a / (2 * tsqrt T (re a)));
  cexp := fun a => mkDual (texp T (re a)) (texp T (re a) * du a);
  clog := fun a => mkDual (tlog T (re a)) (du a / re a);
  cfabs := fun a => mkDual (Qabs (re a)) (if Qlt_le_dec 0 (re a) then du a else - du a);
  cgt := fun a b => if Qlt_le_dec (re b) (re a) then true else false;
  cnz := fun a => negb (Qeq_bool (re a) 0) |}.

Section Curvature.
Context {K : Type} `{RingOps K} {CO : CurvOps K}.

(** [Hf[0..5]]: the cofactor matrix of the symmetric [H] stored as
    [(H00, H01, H02, H11, H12, H22)]. *)
Definition cofactor (H : list K) : list K :=
  let h i := nth i H 0: in
  [h 3%nat *: h 5%nat -: h 4%nat *: h 4%nat; h 4%nat *: h 2%nat -: h 1%nat *: h 5%nat;
   h 1%nat *: h 4%nat -: h 3%nat *: h 2%nat; h 0%nat *: h 5%nat -: h 2%nat *: h 2%nat;
   h 1%nat *: h 2%nat -: h 0%nat *: h 4%nat; h 0%nat *: h 3%nat -: h 1%nat *: h 1%nat].

(** [g^T M g] for a symmetric [M] stored in six entries ([Hfact], [Hprod]). *)
Definition qform (M : list K) (g : K * K * K) : K :=
  let '(g0, g1, g2) := g in
  let m i := nth i M 0: in
  g0 *: (m 0%nat *: g0 +: m 1%nat *: g1 +: m 2%nat *: g2) +:
  g1 *: (m 1%nat *: g0 +: m 3%nat *: g1 +: m 4%nat *: g2) +:
  g2 *: (m 2%nat *: g0 +: m 4%nat *: g1 +: m 5%nat *: g2).

Definition gnorm2 (g : K * K * K) : K :=
  let '(g0, g1, g2) := g in g0 *: g0 +: g1 *: g1 +: g2 *: g2.

(** The Gaussian and the mean curvature [(KG, KM)], zero when [g = 0]. *)
Definition curvatures (g : K * K * K) (H : list K) : K * K :=
  let gn := gnorm2 g in
  let sqrtgn := csqrt gn in
  let Hfact := qform (cofactor H) g in
  let Hprod := qform H g in
  let KG := if cnz gn then cdiv Hfact (gn *: gn) else 0: in
  let KM := if cnz gn
            then cdiv (rconst (1 # 2) *: (Hprod -: gn *: (nth 0 H 0: +: nth 3 H 0: +: nth 5 H 0:)))
                      (gn *: sqrtgn)
            else 0: in
  (KG, KM).

(** The indicator factor [1 - 16 (val - 0.5)^4]. *)
Definition indicator (val : K) : K :=
  1: -: rconst 16 *: (val -: rconst (1 # 2)) *: (val -: rconst (1 # 2))
     *: (val -: rconst (1 # 2)) *: (val -: rconst (1 # 2)).

(** The principal curvatures, their smooth maximum and the factor. *)
Definition curv_result (aggregate_weight val KG KM : K) : K :=
  let sqrtk := csqrt (KM *: KM -: KG) in
  let k1 := cfabs (KM +: sqrtk) in
  let k2 := cfabs (KM -: sqrtk) in
  let '(kmax, kdiff) := if cgt k1 k2 then (k1, k2 -: k1) else (k2, k1 -: k2) in
  let factor := indicator val in
  factor *: (kmax +: cdiv (clog (1: +: cexp (aggregate_weight *: kdiff))) aggregate_weight).

(** [TMRCurvatureConstraint::evalCurvature(val, g, H)]. *)
Definition evalCurvature (aggregate_weight val : K) (g : K * K * K) (H : list K) : K :=
  let '(KG, KM) := curvatures g H in curv_result aggregate_weight val KG KM.

End Curvature.

(** The reverse sweep of [evalCurvDeriv] from the result back to
    [(dval, dKG, dKM)], with the result itself. *)
Definition curv_result_deriv (T : Transc) (aggregate_weight val KG KM : Q) : Q * Q * Q * Q :=
  let sqrtk := tsqrt T (KM * KM - KG) in
  let k1 := Qabs (KM + sqrtk) in
  let k2 := Qabs (KM - sqrtk) in
  let '(kmax, kdiff) := if Qlt_le_dec k2 k1 then (k1, k2 - k1) else (k2, k1 - k2) in
  let factor := 1 - 16 * (val - (1 # 2)) * (val - (1 # 2)) * (val - (1 # 2)) * (val - (1 # 2)) in
  let expdiff := texp T (aggregate_weight * kdiff) in
  let ksres := kmax + tlog T (1 + expdiff) / aggregate_weight in
  let result := factor * ksres in
  let dfactor := ksres in
  let dkmax := factor in
  let dkdiff := factor * expdiff / (1 + expdiff) in
  let '(dk1, dk2) := if Qlt_le_dec k2 k1 then (dkmax - dkdiff, dkdiff)
                     else (dkdiff, dkmax - dkdiff) in
  let '(dKM, dsqrtk) := if Qlt_le_dec 0 (KM + sqrtk) then (dk1, dk1) else (- dk1, - dk1) in
  let '(dKM, dsqrtk) := if Qlt_le_dec 0 (KM - sqrtk) then (dKM + dk2, dsqrtk - dk2)
                        else (dKM - dk2, dsqrtk + dk2) in
  let dKG := - (1 # 2) * dsqrtk / sqrtk in
  let dKM := dKM + dsqrtk * KM / sqrtk in
  let dval := - 64 * dfactor * (val - (1 # 2)) * (val - (1 # 2)) * (val - (1 # 2)) in
  (result, dval, dKG, dKM).

(** The rest of the sweep: from [(dKG, dKM)] to [dg] and [dH]. *)
Definition curv_adjoint (T : Transc) (g : Q * Q * Q) (H : list Q) (dKG dKM : Q)
  : (Q * Q * Q) * list Q :=
  let '(g0, g1, g2) := g in
  let h i := nth i H 0 in
  let gn := g0 * g0 + g1 * g1 + g2 * g2 in
  let sqrtgn := tsqrt T gn in
  let Hf := cofactor H in
  let hf i := nth i Hf 0 in
  let Hfact := qform Hf g in
  let Hprod := qform H g in
  let dHprod := (1 # 2) * dKM / (gn * sqrtgn) in
  let dHfact := dKG / (gn * gn) in
  let dgn := - (1 # 2) * dKM * (((3 # 2) * Hprod - (1 # 2) * gn * (h 0%nat + h 3%nat + h 5%nat))
                                 / (gn * gn * sqrtgn)) in
  let dgn := dgn - 2 * dKG * Hfact / (gn * gn * gn) in
  let dH0 := - (1 # 2) * dKM / sqrtgn + dHprod * g0 * g0 in
  let dH1 := 2 * dHprod * g0 * g1 in
  let dH2 := 2 * dHprod * g0 * g2 in
  let dH3 := - (1 # 2) * dKM / sqrtgn + dHprod * g1 * g1 in
  let dH4 := 2 * dHprod * g1 * g2 in
  let dH5 := - (1 # 2) * dKM / sqrtgn + dHprod * g2 * g2 in
  let dg0 := 2 * dgn * g0 + 2 * (dHprod * (h 0%nat * g0 + h 1%nat * g1 + h 2%nat * g2) +
                                 dHfact * (hf 0%nat * g0 + hf 1%nat * g1 + hf 2%nat * g2)) in
  let dg1 := 2 * dgn * g1 + 2 * (dHprod * (h 1%nat * g0 + h 3%nat * g1 + h 4%nat * g2) +
                                 dHfact * (hf 1%nat * g0 + hf 3%nat * g1 + hf 4%nat * g2)) in
  let dg2 := 2 * dgn * g2 + 2 * (dHprod * (h 2%nat * g0 + h 4%nat * g1 + h 5%nat * g2) +
                                 dHfact * (hf 2%nat * g0 + hf 4%nat * g1 + hf 5%nat * g2)) in
  let dHf0 := dHfact * g0 * g0 in
  let dHf1 := 2 * dHfact * g0 * g1 in
  let dHf2 := 2 * dHfact * g0 * g2 in
  let dHf3 := dHfact * g1 * g1 in
  let dHf4 := 2 * dHfact * g1 * g2 in
  let dHf5 := dHfact * g2 * g2 in
  let dH0 := dH0 + (h 5%nat * dHf3 - h 4%nat * dHf4 + h 3%nat * dHf5) in
  let dH1 := dH1 + (- h 5%nat * dHf1 + h 4%nat * dHf2 + h 2%nat * dHf4 - 2 * h 1%nat * dHf5) in
  let dH2 := dH2 + (h 4%nat * dHf1 - h 3%nat * dHf2 - 2 * h 2%nat * dHf3 + h 1%nat * dHf4) in
  let dH3 := dH3 + (h 5%nat * dHf0 - h 2%nat * dHf2 + h 0%nat * dHf5) in
  let dH4 := dH4 + (- 2 * h 4%nat * dHf0 + h 2%nat * dHf1 + h 1%nat * dHf2 - h 0%nat * dHf4) in
  let dH5 := dH5 + (h 3%nat * dHf0 - h 1%nat * dHf1 + h 0%nat * dHf3) in
  ((dg0, dg1, dg2), [dH0; dH1; dH2; dH3; dH4; dH5]).

(** [TMRCurvatureConstraint::evalCurvDeriv(val, g, H, &dval, dg, dH)]:
    [(result, dval, dg, dH)]. *)
Definition evalCurvDeriv (T : Transc) (aggregate_weight val : Q) (g : Q * Q * Q) (H : list Q)
  : Q * Q * (Q * Q * Q) * list Q :=
  let '(KG, KM) := curvatures (CO := Q_CurvOps T) g H in
  let '(result, dval, dKG, dKM) := curv_result_deriv T aggregate_weight val KG KM in
  let '(dg, dH) := curv_adjoint T g H dKG dKM in
  (result, dval, dg, dH).

(** ** The constraint over the mesh ([init], [computeNodeDeriv], [evalConstraint]) *)

(** The nodal weights [init] builds: a unit entry for every
    non-dependent slot of every element, as [computeLocalWeights] does. *)
Definition init_weights (deps : dep_table) (conn : list (list Z)) (weights : bvec) : bvec :=
  Weights.computeLocalWeights deps conn None weights.

(** [computeNodeDeriv()]: the projector of [computeNodeDeriv3D] with one
    value per node, over every element. *)
Definition computeNodeDeriv (deps : dep_table) (order : nat) (conn : list (list Z))
  (Xpts_of : list (list Q)) (xvec weights xderiv : bvec) : bvec :=
  NodeDeriv.computeNodeDeriv3D deps order 1 conn Xpts_of xvec weights xderiv None.

(** The members of the object [evalConstraint] writes. *)
Record CurvState := mkCurvState {
  xvec : bvec; xderiv : bvec;
  max_curvature : Q; aggregate_numer : Q; aggregate_denom : Q }.

(** The copy of the first component of each block into [xvec]. *)
Definition copy_first (x : bvec) : bvec := mkBVec 1 (fun n _ => val x n 0).

(** The nodes [conn[8*elem + j]], [j < 8], of the flat connectivity. *)
Definition corner_nodes (conn : list (list Z)) (elem : nat) : list Z :=
  map (fun j => nth (8 * elem + j) (concat conn) 0%Z) (seq 0 8).

(** [elem_Xpts]: the locations [X[getLocalNodeNumber(c)]] of the nodes. *)
Definition corner_Xpts (Xnode : Z -> Q * Q * Q) (nodes : list Z) : list Q :=
  flat_map (fun c => let '(x, y, z) := Xnode c in [x; y; z]) nodes.

(** [val = sum_j 0.125 * elem_vals[j]]. *)
Definition mean8 (elem_vals : list Q) : Q :=
  fold_left (fun v j => v + (1 # 8) * nth j elem_vals 0) (seq 0 8) 0.

(** The first loop: [if (result > max_curvature) max_curvature = result],
    from [0]. *)
Definition max_curv (results : list Q) : Q :=
  fold_left (fun m r => if Qlt_le_dec m r then r else m) results 0.

(** The second loop: [aggregate_numer += result * expres],
    [aggregate_denom += expres] with [expres = exp(k (result - max))]. *)
Definition aggregate (T : Transc) (k m : Q) (results : list Q) : Q * Q :=
  fold_left (fun nd r => let expres := texp T (k * (r - m)) in
                         (fst nd + r * expres, snd nd + expres)) results (0, 0).

Definition no_hess : Q * (Q * Q * Q) * list Q := (0, (0, 0, 0), []).

(** [evalConstraint(_xvec)]: the value returned and the members written.
    [estimateHessian] is called once per element in each loop; LAPACK is
    deterministic, so both loops see the same [hs]. *)
Definition evalConstraint (T : Transc) (aggregate_weight : Q) (deps : dep_table) (order : nat)
  (conn : list (list Z)) (Xpts_of : list (list Q)) (Xnode : Z -> Q * Q * Q)
  (weights : bvec) (st : CurvState) (x_in : bvec) (res : Q * CurvState) : Prop :=
  let xv := copy_first x_in in
  let xd := computeNodeDeriv deps order conn Xpts_of xv weights (xderiv st) in
  exists hs : list (Q * (Q * Q * Q) * list Q),
    (forall e, (e < length conn)%nat ->
       let nodes := corner_nodes conn e in
       estimateHessian (corner_Xpts Xnode nodes) (getValues deps xv nodes)
                       (getValues deps xd nodes) (nth e hs no_hess)) /\
    let results :=
      map (fun e => let '(_, g, H) := nth e hs no_hess in
                    evalCurvature (CO := Q_CurvOps T) aggregate_weight
                      (mean8 (getValues deps xv (corner_nodes conn e))) g H)
          (seq 0 (length conn)) in
    let m := max_curv results in
    let nd := aggregate T aggregate_weight m results in
    res = (fst nd / snd nd, mkCurvState xv xd m (fst nd) (snd nd)).

(** ** The element overloads ([evalCurvature(elem_size, ...)], [addCurvDeriv]) *)

(** The value, gradient and Hessian both overloads build: [val], [g] and
    [h] accumulated over the [elem_size] nodes, and the symmetrised
    [H = sym(J^T h)]. *)
Definition elem_val_grad_hess (elem_size : nat) (N Na Nb Nc J elem_vals elem_deriv : list Q)
  : Q * (Q * Q * Q) * list Q :=
  let s f := sumQ (map f (seq 0 elem_size)) in
  let d j c := nth (3 * j + c) elem_deriv 0 in
  let val := s (fun j => nth j elem_vals 0 * nth j N 0) in
  let g c := s (fun j => d j c * nth j N 0) in
  let h c M := s (fun j => d j c * nth j M 0) in
  let h0 := h 0%nat Na in let h1 := h 0%nat Nb in let h2 := h 0%nat Nc in
  let h3 := h 1%nat Na in let h4 := h 1%nat Nb in let h5 := h 1%nat Nc in
  let h6 := h 2%nat Na in let h7 := h 2%nat Nb in let h8 := h 2%nat Nc in
  let j k := nth k J 0 in
  (val, (g 0%nat, g 1%nat, g 2%nat),
   [j 0%nat * h0 + j 3%nat * h1 + j 6%nat * h2;
    (1 # 2) * ((j 1%nat * h0 + j 4%nat * h1 + j 7%nat * h2) + (j 0%nat * h3 + j 3%nat * h4 + j 6%nat * h5));
    (1 # 2) * ((j 2%nat * h0 + j 5%nat * h1 + j 8%nat * h2) + (j 0%nat * h6 + j 3%nat * h7 + j 6%nat * h8));
    j 1%nat * h3 + j 4%nat * h4 + j 7%nat * h5;
    (1 # 2) * ((j 2%nat * h3 + j 5%nat * h4 + j 8%nat * h5) + (j 1%nat * h6 + j 4%nat * h7 + j 7%nat * h8));
    j 2%nat * h6 + j 5%nat * h7 + j 8%nat * h8]).

(** [TMRCurvatureConstraint::evalCurvature(elem_size, N, Na, Nb, Nc, J,
    Xpts, elem_vals, elem_deriv)]. *)
Definition evalCurvature_elem (T : Transc) (aggregate_weight : Q) (elem_size : nat)
  (N Na Nb Nc J Xpts elem_vals elem_deriv : list Q) : Q :=
  let '(val, g, H) := elem_val_grad_hess elem_size N Na Nb Nc J elem_vals elem_deriv in
  evalCurvature (CO := Q_CurvOps T) aggregate_weight val g H.

(** [dh = (dH/dh)^T dH], the transpose of the map [h -> H]. *)
Definition hess_transpose (J dH : list Q) : list Q :=
  let j k := nth k J 0 in
  let e k := nth k dH 0 in
  [j 0%nat * e 0%nat + (1 # 2) * j 1%nat * e 1%nat + (1 # 2) * j 2%nat * e 2%nat;
   j 3%nat * e 0%nat + (1 # 2) * j 4%nat * e 1%nat + (1 # 2) * j 5%nat * e 2%nat;
   j 6%nat * e 0%nat + (1 # 2) * j 7%nat * e 1%nat + (1 # 2) * j 8%nat * e 2%nat;
   (1 # 2) * j 0%nat * e 1%nat + j 1%nat * e 3%nat + (1 # 2) * j 2%nat * e 4%nat;
   (1 # 2) * j 3%nat * e 1%nat + j 4%nat * e 3%nat + (1 # 2) * j 5%nat * e 4%nat;
   (1 # 2) * j 6%nat * e 1%nat + j 7%nat * e 3%nat + (1 # 2) * j 8%nat * e 4%nat;
   (1 # 2) * j 0%nat * e 2%nat + (1 # 2) * j 1%nat * e 4%nat + j 2%nat * e 5%nat;
   (1 # 2) * j 3%nat * e 2%nat + (1 # 2) * j 4%nat * e 4%nat + j 5%nat * e 5%nat;
   (1 # 2) * j 6%nat * e 2%nat + (1 # 2) * j 7%nat * e 4%nat + j 8%nat * e 5%nat].

(** [TMRCurvatureConstraint::addCurvDeriv(alpha, elem_size, N, Na, Nb, Nc,
    J, Xpts, elem_vals, elem_deriv, dvals, dderiv)]: the result and the
    arrays [dvals] and [dderiv] after the [+=] loop over the nodes
    (entries past [elem_size] are left as they are). *)
Definition addCurvDeriv (T : Transc) (aggregate_weight alpha : Q) (elem_size : nat)
  (N Na Nb Nc J Xpts elem_vals elem_deriv dvals dderiv : list Q) : Q * list Q * list Q :=
  let '(val, g, H) := elem_val_grad_hess elem_size N Na Nb Nc J elem_vals elem_deriv in
  let '(result, dval, (dg0, dg1, dg2), dH) := evalCurvDeriv T aggregate_weight val g H in
  let dh := hess_transpose J dH in
  let x k := nth k dh 0 in
  let upd j c := alpha * (nth j N 0 * nth c [dg0; dg1; dg2] 0 + nth j Na 0 * x (3 * c)%nat +
                          nth j Nb 0 * x (3 * c + 1)%nat + nth j Nc 0 * x (3 * c + 2)%nat) in
  (result,
   map (fun j => nth j dvals 0 + if Nat.ltb j elem_size then alpha * dval * nth j N 0 else 0)
       (seq 0 (length dvals)),
   map (fun i => nth i dderiv 0 +
                 if Nat.ltb (Nat.div i 3) elem_size then upd (Nat.div i 3) (Nat.modulo i 3) else 0)
       (seq 0 (length dderiv))).

End Curv.

Module CurvFacts.
Import Lapack LapackFacts Enrich EnrichFacts BVec Curv.

(** ** The fitting basis *)

(** The derivative arrays [evalPoly] writes are the exact partial
    derivatives of the 20 basis values it writes: along every direction
    [(dx, dy, dz)] the derivative of each value is
    [dx * Nx + dy * Ny + dz * Nz]. *)
Theorem evalPoly_deriv_exact (x y z : Q) :
  let e := evalPoly (x, y, z) in
  forall dx dy dz,
    jet3 evalPoly_N x y z dx dy dz ==l combo3 dx dy dz (eNa3 e) (eNb3 e) (eNc3 e).
Proof. intros; simpl; eqlist_ring. Qed.

(** ** The gradient the fit returns *)

Lemma perturb_bound (a : Q) : (1 # 1000000) <= Qabs (perturb a).
Proof.
  unfold perturb; destruct (Qlt_le_dec a 0).
  - rewrite Qabs_neg by lra; lra.
  - rewrite Qabs_pos by lra; lra.
Qed.

Lemma gnorm2_pos (a b c : Q) :
  (1 # 1000000) <= Qabs a -> 0 < a * a + b * b + c * c.
Proof.
  intros Ha; assert (0 < a * a).
  { destruct (Qlt_le_dec a 0); [rewrite Qabs_neg in Ha by lra|rewrite Qabs_pos in Ha by lra]; nra. }
  nra.
Qed.

(** Every gradient [estimateHessian] returns has each component at
    least [1e-6] away from zero, so its squared norm is positive and the
    [gn != 0.0] guards of [evalCurvature] always pass on it. *)
Theorem estimateHessian_grad_nonzero (elem_Xpts elem_vals elem_derivs : list Q)
  (val g0 g1 g2 : Q) (H : list Q) :
  estimateHessian elem_Xpts elem_vals elem_derivs (val, (g0, g1, g2), H) ->
  (1 # 1000000) <= Qabs g0 /\ (1 # 1000000) <= Qabs g1 /\ (1 # 1000000) <= Qabs g2 /\
  0 < gnorm2 (g0, g1, g2).
Proof.
  intros (rhs' & _ & E); unfold hess_out in E; injection E as _ -> -> -> _.
  split; [apply perturb_bound|split; [apply perturb_bound|split; [apply perturb_bound|]]].
  apply gnorm2_pos, perturb_bound.
Qed.

(** ** The centroid fit *)

Lemma perturb_Qeq (a b : Q) : a == b -> perturb a == perturb b.
Proof.
  intros E; unfold perturb.
  destruct (Qlt_le_dec a 0), (Qlt_le_dec b 0); rewrite E; [reflexivity|lra|lra|reflexivity].
Qed.

(** The x-derivative of the field [sum_j a_j N_j] at a point. *)
Definition field_dx (a : list Q) (p : Q * Q * Q) : Q :=
  sumQ (map (fun j => nth j a 0 * nth j (eNa3 (evalPoly p)) 0) (seq 0 20)).

(** Along the axes, [field_dx] changes at the rate [2 a_7] in [x] and
    [a_6] in [y]. *)
Lemma field_dx_axes (a : list Q) (t : Q) :
  field_dx a (t, 0, 0) - field_dx a (- t, 0, 0) == 2 * t * (2 * nth 7 a 0) /\
  field_dx a (0, t, 0) - field_dx a (0, - t, 0) == 2 * t * nth 6 a 0.
Proof. unfold field_dx; split; cbn; ring. Qed.

(** (C12) When the corner data come from a field [sum_j a_j N_j] of the
    fitting basis and the fit has full rank, [estimateHessian] recovers
    the coefficients: [val = a_0], the gradient is [(a_1, a_2, a_3)]
    pushed away from zero, and
    [H = (a_7, a_6, a_5, a_8, a_4, a_9)].  The off-diagonal entries are
    the field's mixed second derivatives, but each diagonal entry is half
    the field's second derivative: along [x] the x-derivative changes at
    the rate [2 H[0]], along [y] at the rate [H[1]]. *)
Theorem estimateHessian_fit (elem_Xpts elem_vals elem_derivs a : list Q)
  (val g0 g1 g2 : Q) (H : list Q) :
  full_column_rank 32 20 (hess_A elem_Xpts) ->
  (forall r, (r < 32)%nat -> nth r (hess_rhs elem_vals elem_derivs) 0 ==
                             matvec 32 20 (hess_A elem_Xpts) (fun i => nth i a 0) r) ->
  estimateHessian elem_Xpts elem_vals elem_derivs (val, (g0, g1, g2), H) ->
  val == nth 0 a 0 /\
  g0 == perturb (nth 1 a 0) /\ g1 == perturb (nth 2 a 0) /\ g2 == perturb (nth 3 a 0) /\
  H ==l [nth 7 a 0; nth 6 a 0; nth 5 a 0; nth 8 a 0; nth 4 a 0; nth 9 a 0] /\
  forall t, field_dx a (t, 0, 0) - field_dx a (- t, 0, 0) == 2 * t * (2 * nth 0 H 0) /\
            field_dx a (0, t, 0) - field_dx a (0, - t, 0) == 2 * t * nth 1 H 0.
Proof.
  intros Hr Hb (rhs' & Hls & E).
  assert (Ha : forall i, (i < 20)%nat -> nth i rhs' 0 == nth i a 0).
  { intros i Hi.
    exact (dgelss_exact 32 20 1 _ _ rhs' (fun _ i => nth i a 0) Hr
             (fun j r Hj Hr' => ltac:(replace j with 0%nat by lia; apply Hb; exact Hr'))
             Hls 0 i ltac:(lia) Hi). }
  unfold hess_out in E; injection E as -> -> -> -> ->.
  split; [apply Ha; lia|].
  split; [apply perturb_Qeq, Ha; lia|].
  split; [apply perturb_Qeq, Ha; lia|].
  split; [apply perturb_Qeq, Ha; lia|].
  split; [repeat constructor; apply Ha; lia|].
  intros t; cbn [nth]; rewrite !Ha by lia; apply field_dx_axes.
Qed.

(** The unit cube [[0,1]^3], and the field [x^2 + y^2 + z^2] about its
    centre (coefficients [a_7 = a_8 = a_9 = 1]) sampled at its corners. *)
Definition cube8 : list Q := [0; 0; 0; 1; 0; 0; 1; 1; 0; 0; 1; 0; 0; 0; 1; 1; 0; 1; 1; 1; 1; 0; 1; 1].
Definition sphere_coef : list Q := [0; 0; 0; 0; 0; 0; 0; 1; 1; 1] ++ repeat 0 10.
Definition field_at (a : list Q) (p : Q * Q * Q) : list Q :=
  let e := evalPoly p in
  map (fun l => sumQ (map (fun j => nth j a 0 * nth j l 0) (seq 0 20))) [eN3 e; eNa3 e; eNb3 e; eNc3 e].
Definition sphere_vals : list Q :=
  map (fun i => nth 0 (field_at sphere_coef (hess_point cube8 i)) 0) (seq 0 8).
Definition sphere_derivs : list Q :=
  flat_map (fun i => skipn 1 (field_at sphere_coef (hess_point cube8 i))) (seq 0 8).

Lemma estimateHessian_fit_witness :
  estimateHessian cube8 sphere_vals sphere_derivs (hess_out (sphere_coef ++ repeat 0 12)) /\
  nth 0 (snd (hess_out (sphere_coef ++ repeat 0 12))) 0 == 1 /\
  field_dx sphere_coef (1, 0, 0) - field_dx sphere_coef (-1, 0, 0) == 4.
Proof.
  assert (Hr : full_column_rank 32 20 (hess_A cube8))
    by (apply (left_inverse_rank _ _ _ (pinv 32 20 (hess_A cube8))); vm_compute; reflexivity).
  assert (Hb : forall r, (r < 32)%nat -> nth r (hess_rhs sphere_vals sphere_derivs) 0 ==
                 matvec 32 20 (hess_A cube8) (fun i => nth i sphere_coef 0) r).
  { intros r Hr'; apply Qeq_bool_eq; revert r Hr'; apply forallb_seq_spec; vm_compute; reflexivity. }
  assert (Hrel : estimateHessian cube8 sphere_vals sphere_derivs (hess_out (sphere_coef ++ repeat 0 12))).
  { exists (sphere_coef ++ repeat 0 12); split; [|reflexivity].
    apply (dgelss_exact_sol _ _ _ _ _ _ (fun _ i => nth i sphere_coef 0) Hr).
    - intros j r Hj Hr'; replace j with 0%nat by lia; apply Hb; exact Hr'.
    - intros j i Hj Hi; replace j with 0%nat by lia; rewrite app_nth1 by (cbn; lia); reflexivity. }
  split; [exact Hrel|].
  destruct (estimateHessian_fit cube8 sphere_vals sphere_derivs sphere_coef _ _ _ _ _ Hr Hb Hrel)
    as (_ & _ & _ & _ & HH & Hd).
  split; [vm_compute; reflexivity|].
  destruct (Hd 1) as [Hx _]; rewrite Hx; vm_compute; reflexivity.
Defined.

(** ** The principal curvatures [evalCurvature] computes *)

Lemma Qabs_cases (x : Q) : (0 <= x /\ Qabs x == x) \/ (x <= 0 /\ Qabs x == - x).
Proof.
  destruct (Qlt_le_dec x 0).
  - right; split; [lra|apply Qabs_neg; lra].
  - left; split; [lra|apply Qabs_pos; lra].
Qed.

(** [|m + s|] and [|m - s|] for [s >= 0]: the larger is [|m| + s], and
    the smaller minus the larger is [-2 min(|m|, s)]. *)
Lemma max_min_abs (m s : Q) : 0 <= s ->
  (Qabs (m - s) < Qabs (m + s) ->
     Qabs (m + s) == Qabs m + s /\ Qabs (m - s) - Qabs (m + s) == -2 * Qmin (Qabs m) s) /\
  (Qabs (m + s) <= Qabs (m - s) ->
     Qabs (m - s) == Qabs m + s /\ Qabs (m + s) - Qabs (m - s) == -2 * Qmin (Qabs m) s).
Proof.
  intros Hs.
  destruct (Qabs_cases m) as [[? E1]|[? E1]], (Qabs_cases (m + s)) as [[? E2]|[? E2]],
           (Qabs_cases (m - s)) as [[? E3]|[? E3]], (Q.min_spec (Qabs m) s) as [[? E4]|[? E4]];
    rewrite ?E4; split; intros; split; lra.
Qed.

Section Principal.
Variable T : Transc.
Hypothesis texp_Proper : Proper (Qeq ==> Qeq) (texp T).
Hypothesis tlog_Proper : Proper (Qeq ==> Qeq) (tlog T).

Lemma curv_result_spec (k val KG KM : Q) :
  0 <= tsqrt T (KM * KM - KG) ->
  curv_result (CO := Q_CurvOps T) k val KG KM ==
  indicator val * (Qabs KM + tsqrt T (KM * KM - KG) +
    tlog T (1 + texp T (k * (-2 * Qmin (Qabs KM) (tsqrt T (KM * KM - KG))))) / k).
Proof.
  intros Hs; unfold curv_result.
  cbv beta iota zeta delta [Q_CurvOps cdiv csqrt cexp clog cfabs cgt Q_RingOps radd rsub rmul r1].
  set (s := tsqrt T (KM * KM - KG)) in *; clearbody s.
  destruct (max_min_abs KM s Hs) as [H1 H2].
  destruct (Qlt_le_dec (Qabs (KM - s)) (Qabs (KM + s))) as [L|L]; cbv beta iota.
  - destruct (H1 L) as [-> ->]; reflexivity.
  - destruct (H2 L) as [-> ->]; reflexivity.
Qed.

End Principal.

(** (C13) [evalCurvature] takes as the larger principal curvature
    [|KM| + sqrt(KM^2 - KG)], and as the difference between the smaller
    and the larger [-2 min(|KM|, sqrt(KM^2 - KG))]: its result is
    [b(val) * (|KM| + s + log(1 + exp(-2 k min(|KM|, s))) / k)] with
    [s = sqrt(KM^2 - KG)].  Where [KG < 0] ([s > |KM|]) the difference is
    [-2 |KM|], not the [-2 s] of the specification's [k_min - k_max]. *)
Theorem evalCurvature_principal (T : Transc) (k val : Q) (g : Q * Q * Q) (H : list Q) :
  Proper (Qeq ==> Qeq) (texp T) -> Proper (Qeq ==> Qeq) (tlog T) ->
  let '(KG, KM) := curvatures (CO := Q_CurvOps T) g H in
  0 <= tsqrt T (KM * KM - KG) ->
  evalCurvature (CO := Q_CurvOps T) k val g H ==
  indicator val * (Qabs KM + tsqrt T (KM * KM - KG) +
    tlog T (1 + texp T (k * (-2 * Qmin (Qabs KM) (tsqrt T (KM * KM - KG))))) / k).
Proof.
  intros He Hl; unfold evalCurvature.
  destruct (curvatures g H) as [KG KM]; apply curv_result_spec; assumption.
Qed.

(** The identity as [sqrt], [exp] and [log]. *)
Definition id_transc : Transc := mkTransc (fun x => x) (fun x => x) (fun x => x).

Lemma id_Proper : Proper (Qeq ==> Qeq) (fun x : Q => x).
Proof. intros x y E; exact E. Qed.

(** A saddle: [g = (1, 0, 0)], [H = diag(1, 3, -5)], so [KG = -15 < 0]. *)
Lemma evalCurvature_principal_witness :
  exists KG KM, curvatures (CO := Q_CurvOps id_transc) (1, 0, 0) [1; 0; 0; 3; 0; -5] = (KG, KM) /\
    KG == -15 /\ KM == 1 /\ 0 <= tsqrt id_transc (KM * KM - KG) /\
    evalCurvature (CO := Q_CurvOps id_transc) 1 (1 # 2) (1, 0, 0) [1; 0; 0; 3; 0; -5] ==
    indicator (1 # 2) * (Qabs KM + tsqrt id_transc (KM * KM - KG) +
      tlog id_transc (1 + texp id_transc (1 * (-2 * Qmin (Qabs KM) (tsqrt id_transc (KM * KM - KG))))) / 1).
Proof.
  eexists _, _; split; [reflexivity|].
  split; [vm_compute; reflexivity|]; split; [vm_compute; reflexivity|].
  split; [vm_compute; discriminate|].
  exact (evalCurvature_principal id_transc 1 (1 # 2) (1, 0, 0) [1; 0; 0; 3; 0; -5]
           id_Proper id_Proper ltac:(vm_compute; discriminate)).
Defined.

(** (C17) The sphere of the specification: for the design field
    [x = (1 - r) / 2] at the point [(r, 0, 0)], whose gradient is
    [(-1/2, 0, 0)] and whose Hessian is [diag(0, -1/(2r), -1/(2r))],
    [evalCurvature] finds [KG = 1/r^2] and [KM = 1/r], both principal
    curvatures equal to [1/r], and returns
    [b(val) * (1/r + log(1 + exp 0) / k)]. *)
Theorem evalCurvature_sphere (T : Transc) (k val r : Q) :
  Proper (Qeq ==> Qeq) (tsqrt T) -> Proper (Qeq ==> Qeq) (texp T) ->
  Proper (Qeq ==> Qeq) (tlog T) ->
  0 < r -> tsqrt T (1 # 4) == 1 # 2 -> tsqrt T 0 == 0 ->
  fst (curvatures (CO := Q_CurvOps T) (- (1 # 2), 0, 0) [0; 0; 0; - (1 # 2) / r; 0; - (1 # 2) / r])
    == 1 / (r * r) /\
  snd (curvatures (CO := Q_CurvOps T) (- (1 # 2), 0, 0) [0; 0; 0; - (1 # 2) / r; 0; - (1 # 2) / r])
    == 1 / r /\
  evalCurvature (CO := Q_CurvOps T) k val (- (1 # 2), 0, 0) [0; 0; 0; - (1 # 2) / r; 0; - (1 # 2) / r]
    == indicator val * (1 / r + tlog T (1 + texp T 0) / k).
Proof.
  intros Hq He Hl Hr Hs4 Hs0.
  assert (Hg : tsqrt T (@gnorm2 Q Q_RingOps (- (1 # 2), 0, 0)) == 1 # 2)
    by (transitivity (tsqrt T (1 # 4)); [apply Hq; vm_compute; reflexivity|exact Hs4]).
  assert (EC : fst (curvatures (CO := Q_CurvOps T) (- (1 # 2), 0, 0) [0; 0; 0; - (1 # 2) / r; 0; - (1 # 2) / r])
                 == 1 / (r * r) /\
               snd (curvatures (CO := Q_CurvOps T) (- (1 # 2), 0, 0) [0; 0; 0; - (1 # 2) / r; 0; - (1 # 2) / r])
                 == 1 / r).
  { unfold curvatures; cbv beta iota zeta delta [Q_CurvOps cnz csqrt cdiv].
    match goal with |- context [Qeq_bool ?x 0] => replace (Qeq_bool x 0) with false by (vm_compute; reflexivity) end.
    cbv beta iota zeta delta [negb fst snd qform cofactor nth Q_RingOps radd rsub rmul rconst r0].
    rewrite Hg; cbv beta iota zeta delta [gnorm2 Q_RingOps radd rmul].
    split; field; lra. }
  split; [exact (proj1 EC)|split; [exact (proj2 EC)|]].
  unfold evalCurvature; destruct (curvatures _ _) as [KG KM]; cbn [fst snd] in EC; destruct EC as [EG EM].
  assert (Hs : tsqrt T (KM * KM - KG) == 0)
    by (transitivity (tsqrt T 0); [apply Hq; rewrite EG, EM; field; lra|exact Hs0]).
  rewrite (curv_result_spec T He Hl k val KG KM ltac:(rewrite Hs; lra)), Hs, EM.
  rewrite (Qabs_pos (1 / r)) by (apply Qle_shift_div_l; lra).
  rewrite (Q.min_r (1 / r) 0) by (apply Qle_shift_div_l; lra).
  setoid_replace (k * (-2 * 0)) with 0 by ring; ring.
Qed.

(** [sqrt] replaced by [x -> 2 x], which agrees with it at [0] and [1/4]. *)
Definition sphere_transc : Transc := mkTransc (fun x => 2 * x) (fun x => x) (fun x => x).

Lemma sphere_sqrt_Proper : Proper (Qeq ==> Qeq) (tsqrt sphere_transc).
Proof. intros x y E; cbn; rewrite E; reflexivity. Qed.

Lemma evalCurvature_sphere_witness :
  0 < 1 /\ tsqrt sphere_transc (1 # 4) == 1 # 2 /\ tsqrt sphere_transc 0 == 0 /\
  evalCurvature (CO := Q_CurvOps sphere_transc) 1 (1 # 2) (- (1 # 2), 0, 0)
    [0; 0; 0; - (1 # 2) / 1; 0; - (1 # 2) / 1]
    == indicator (1 # 2) * (1 / 1 + tlog sphere_transc (1 + texp sphere_transc 0) / 1).
Proof.
  split; [reflexivity|split; [reflexivity|split; [reflexivity|]]].
  exact (proj2 (proj2 (evalCurvature_sphere sphere_transc 1 (1 # 2) 1 sphere_sqrt_Proper
           id_Proper id_Proper ltac:(reflexivity) ltac:(reflexivity) ltac:(reflexivity)))).
Defined.

(** ** The reverse sweep of [evalCurvDeriv] *)

Lemma curv_result_adjoint (T : Transc) (k : Q) (v KG KM : dual) :
  ~ k == 0 -> (forall x, 0 <= texp T x) ->
  ~ tsqrt T (re KM * re KM - re KG) == 0 ->
  let '(result, dval, dKG, dKM) := curv_result_deriv T k (re v) (re KG) (re KM) in
  let r := curv_result (CO := Dual_CurvOps T) (mkDual k 0) v KG KM in
  re r == result /\ du r == dval * du v + dKG * du KG + dKM * du KM.
Proof.
  intros Hk He Hs.
  destruct v as [v dv], KG as [G dG], KM as [M dM]; cbn [re du] in *.
  cbv beta iota zeta delta [curv_result_deriv curv_result indicator Dual_CurvOps Dual_RingOps
    cdiv csqrt cexp clog cfabs cgt cnz radd rsub rmul r0 r1 rconst re du].
  set (s := tsqrt T (M * M - G)) in *.
  destruct (Qlt_le_dec (Qabs (M - s)) (Qabs (M + s)));
  destruct (Qlt_le_dec 0 (M + s)); destruct (Qlt_le_dec 0 (M - s)); cbv beta iota zeta;
  (match goal with |- context [texp T ?x] => pose proof (He x); set (e := texp T x) in * end;
   assert (He' : ~ 1 + e == 0) by lra);
  split; try reflexivity; field; auto.
Qed.

Lemma quotient_adjoint (T : Transc) (F P G tr : dual) (aG aM : Q) :
  ~ re G == 0 -> tsqrt T (re G) * tsqrt T (re G) == re G ->
  aG * du (cdiv (CurvOps := Dual_CurvOps T) F (G *: G)) +
  aM * du (cdiv (CurvOps := Dual_CurvOps T) (rconst (1 # 2) *: (P -: G *: tr))
                (G *: csqrt (CurvOps := Dual_CurvOps T) G))
  == aG / (re G * re G) * du F + (1 # 2) * aM / (re G * tsqrt T (re G)) * du P
     + (- (1 # 2) * aM * (((3 # 2) * re P - (1 # 2) * re G * re tr) / (re G * re G * tsqrt T (re G)))
        - 2 * aG * re F / (re G * re G * re G)) * du G
     + - (1 # 2) * aM / tsqrt T (re G) * du tr.
Proof.
  destruct F as [F dF], P as [P dP], G as [G dG], tr as [t dt]; cbn [re du]; intros HG Hs.
  cbv beta iota zeta delta [Dual_CurvOps Dual_RingOps cdiv csqrt radd rsub rmul rconst re du].
  set (s := tsqrt T G) in *; clearbody s.
  assert (Hs0 : ~ s == 0) by (intros E; apply HG; rewrite <- Hs, E; ring).
  rewrite <- Hs; field; auto.
Qed.

Lemma cnz_dual (T : Transc) (a : dual) : ~ re a == 0 -> cnz (CurvOps := Dual_CurvOps T) a = true.
Proof.
  intros Ha; cbn [cnz Dual_CurvOps].
  destruct (Qeq_bool (re a) 0) eqn:E; [apply Qeq_bool_eq in E; contradiction|reflexivity].
Qed.

Lemma curvatures_adjoint (T : Transc) (g0 g1 g2 dg0 dg1 dg2 h0 h1 h2 h3 h4 h5
                                       d0 d1 d2 d3 d4 d5 aG aM : Q) :
  ~ g0 * g0 + g1 * g1 + g2 * g2 == 0 ->
  tsqrt T (g0 * g0 + g1 * g1 + g2 * g2) * tsqrt T (g0 * g0 + g1 * g1 + g2 * g2)
    == g0 * g0 + g1 * g1 + g2 * g2 ->
  let '((e0, e1, e2), dH) := curv_adjoint T (g0, g1, g2) [h0; h1; h2; h3; h4; h5] aG aM in
  let '(KG, KM) := curvatures (CO := Dual_CurvOps T)
                     (mkDual g0 dg0, mkDual g1 dg1, mkDual g2 dg2)
                     [mkDual h0 d0; mkDual h1 d1; mkDual h2 d2; mkDual h3 d3; mkDual h4 d4; mkDual h5 d5] in
  aG * du KG + aM * du KM == e0 * dg0 + e1 * dg1 + e2 * dg2 + dotQ dH [d0; d1; d2; d3; d4; d5].
Proof.
  intros Hg Hs.
  cbv beta iota zeta delta [curvatures curv_adjoint].
  change (~ re (gnorm2 (mkDual g0 dg0, mkDual g1 dg1, mkDual g2 dg2)) == 0) in Hg.
  change (tsqrt T (re (gnorm2 (mkDual g0 dg0, mkDual g1 dg1, mkDual g2 dg2))) *
          tsqrt T (re (gnorm2 (mkDual g0 dg0, mkDual g1 dg1, mkDual g2 dg2)))
          == re (gnorm2 (mkDual g0 dg0, mkDual g1 dg1, mkDual g2 dg2))) in Hs.
  rewrite (cnz_dual T _ Hg); cbv beta iota.
  rewrite (quotient_adjoint T _ _ _ _ aG aM Hg Hs).
  cbv beta iota zeta delta [curv_adjoint qform cofactor gnorm2 nth Dual_RingOps Q_RingOps
    radd rsub rmul rconst r0 r1 re du dotQ sumQ combine map fold_right fst snd].
  set (c1 := aG / _); set (c2 := (1 # 2) * aM / _); set (c3 := - (1 # 2) * aM * _ - _);
  set (c4 := - (1 # 2) * aM / _).
  ring.
Qed.

Lemma cnz_Q (T : Transc) (a : Q) : ~ a == 0 -> cnz (CurvOps := Q_CurvOps T) a = true.
Proof.
  intros Ha; cbn [cnz Q_CurvOps].
  destruct (Qeq_bool a 0) eqn:E; [apply Qeq_bool_eq in E; contradiction|reflexivity].
Qed.

(** The value parts of the dual curvatures are the code's curvatures. *)
Lemma curvatures_re (T : Transc) (g0 g1 g2 dg0 dg1 dg2 h0 h1 h2 h3 h4 h5 d0 d1 d2 d3 d4 d5 : Q) :
  ~ g0 * g0 + g1 * g1 + g2 * g2 == 0 ->
  let C := curvatures (CO := Dual_CurvOps T) (mkDual g0 dg0, mkDual g1 dg1, mkDual g2 dg2)
             [mkDual h0 d0; mkDual h1 d1; mkDual h2 d2; mkDual h3 d3; mkDual h4 d4; mkDual h5 d5] in
  curvatures (CO := Q_CurvOps T) (g0, g1, g2) [h0; h1; h2; h3; h4; h5] = (re (fst C), re (snd C)).
Proof.
  intros Hg; cbv zeta delta [curvatures]; cbv beta zeta.
  rewrite (cnz_Q T (@gnorm2 Q Q_RingOps (g0, g1, g2)) Hg).
  rewrite (cnz_dual T (@gnorm2 dual Dual_RingOps (mkDual g0 dg0, mkDual g1 dg1, mkDual g2 dg2)) Hg).
  reflexivity.
Qed.

(** (C11) The reverse sweep of [evalCurvDeriv] is the transpose of the
    forward derivative of [evalCurvature]: wherever the gradient is not
    zero, [sqrt] is exact at its squared norm and the two principal
    curvatures differ, the value [evalCurvDeriv] returns is that of
    [evalCurvature], and for every direction [(dv, dg, dH)] the forward
    derivative of [evalCurvature] along it is
    [dval * dv + dg . dg' + dH . dH'], the directions weighted by the
    derivatives [evalCurvDeriv] returns. *)
Theorem evalCurvDeriv_adjoint (T : Transc) (k val dv g0 g1 g2 dg0 dg1 dg2
                               h0 h1 h2 h3 h4 h5 d0 d1 d2 d3 d4 d5 : Q) :
  (forall x, 0 <= texp T x) -> ~ k == 0 ->
  ~ g0 * g0 + g1 * g1 + g2 * g2 == 0 ->
  tsqrt T (g0 * g0 + g1 * g1 + g2 * g2) * tsqrt T (g0 * g0 + g1 * g1 + g2 * g2)
    == g0 * g0 + g1 * g1 + g2 * g2 ->
  (let '(KG, KM) := curvatures (CO := Q_CurvOps T) (g0, g1, g2) [h0; h1; h2; h3; h4; h5] in
   ~ tsqrt T (KM * KM - KG) == 0) ->
  let '(result, dval, (e0, e1, e2), dH) :=
    evalCurvDeriv T k val (g0, g1, g2) [h0; h1; h2; h3; h4; h5] in
  let r := evalCurvature (CO := Dual_CurvOps T) (mkDual k 0) (mkDual val dv)
             (mkDual g0 dg0, mkDual g1 dg1, mkDual g2 dg2)
             [mkDual h0 d0; mkDual h1 d1; mkDual h2 d2; mkDual h3 d3; mkDual h4 d4; mkDual h5 d5] in
  re r == result /\
  du r == dval * dv + (e0 * dg0 + e1 * dg1 + e2 * dg2) + dotQ dH [d0; d1; d2; d3; d4; d5].
Proof.
  intros He Hk Hg Hs Hsk.
  pose proof (curvatures_re T g0 g1 g2 dg0 dg1 dg2 h0 h1 h2 h3 h4 h5 d0 d1 d2 d3 d4 d5 Hg) as EQ.
  pose proof (curvatures_adjoint T g0 g1 g2 dg0 dg1 dg2 h0 h1 h2 h3 h4 h5 d0 d1 d2 d3 d4 d5) as HA.
  unfold evalCurvDeriv, evalCurvature; cbv zeta in EQ |- *.
  destruct (curvatures (CO := Dual_CurvOps T) _ _) as [KGd KMd]; cbn [fst snd] in EQ.
  rewrite EQ in Hsk |- *.
  pose proof (curv_result_adjoint T k (mkDual val dv) KGd KMd Hk He Hsk) as HR.
  cbn [re du] in HR.
  destruct (curv_result_deriv T k val (re KGd) (re KMd)) as [[[result dval] dKG] dKM].
  specialize (HA dKG dKM Hg Hs).
  destruct (curv_adjoint T (g0, g1, g2) [h0; h1; h2; h3; h4; h5] dKG dKM) as [[[e0 e1] e2] dH].
  destruct HR as [HR1 HR2]; split; [exact HR1|].
  cbv beta iota in HA; rewrite HR2.
  setoid_replace (dval * dv + (e0 * dg0 + e1 * dg1 + e2 * dg2) + dotQ dH [d0; d1; d2; d3; d4; d5])
    with (dval * dv + (e0 * dg0 + e1 * dg1 + e2 * dg2 + dotQ dH [d0; d1; d2; d3; d4; d5])) by ring.
  rewrite <- HA; ring.
Qed.

(** [sqrt] and [log] replaced by the identity and [exp] by [x -> x^2]:
    at [g = (1, 0, 0)] [sqrt] is exact at the squared norm [1]. *)
Definition adj_transc : Transc := mkTransc (fun x => x) (fun x => x * x) (fun x => x).

Lemma adj_exp_nonneg (x : Q) : 0 <= texp adj_transc x.
Proof. cbn; nra. Qed.

Lemma evalCurvDeriv_adjoint_witness :
  ~ 1 * 1 + 0 * 0 + 0 * 0 == 0 /\
  (let '(result, dval, (e0, e1, e2), dH) :=
     evalCurvDeriv adj_transc 1 (1 # 4) (1, 0, 0) [1; 0; 0; 3; 0; 5] in
   let r := evalCurvature (CO := Dual_CurvOps adj_transc) (mkDual 1 0) (mkDual (1 # 4) 1)
              (mkDual 1 1, mkDual 0 2, mkDual 0 3)
              [mkDual 1 1; mkDual 0 2; mkDual 0 3; mkDual 3 4; mkDual 0 5; mkDual 5 6] in
   re r == result /\
   du r == dval * 1 + (e0 * 1 + e1 * 2 + e2 * 3) + dotQ dH [1; 2; 3; 4; 5; 6]).
Proof.
  split; [vm_compute; discriminate|].
  exact (evalCurvDeriv_adjoint adj_transc 1 (1 # 4) 1 1 0 0 1 2 3 1 0 0 3 0 5 1 2 3 4 5 6
           adj_exp_nonneg ltac:(vm_compute; discriminate) ltac:(vm_compute; discriminate)
           ltac:(vm_compute; reflexivity) ltac:(vm_compute; discriminate)).
Defined.

(** ** The aggregate of [evalConstraint] *)

Lemma max_curv_fold (results : list Q) (m0 : Q) :
  let m := fold_left (fun m r => if Qlt_le_dec m r then r else m) results m0 in
  m0 <= m /\ Forall (fun r => r <= m) results.
Proof.
  revert m0; induction results as [|r rs IH]; intros m0; cbn [fold_left].
  - split; [lra|constructor].
  - destruct (Qlt_le_dec m0 r) as [L|L];
      destruct (IH (if Qlt_le_dec m0 r then r else m0)) as [H1 H2];
      destruct (Qlt_le_dec m0 r); try lra;
      (split; [lra|constructor; [lra|exact H2]]).
Qed.

(** [numer <= m * denom] and [denom > 0] once an element is aggregated,
    when every result is at most [m] and [exp] is positive. *)
Lemma aggregate_fold (T : Transc) (k m : Q) (results : list Q) (n0 d0 : Q) :
  (forall x, 0 < texp T x) -> Forall (fun r => r <= m) results ->
  n0 <= m * d0 -> 0 <= d0 ->
  let nd := fold_left (fun nd r => let expres := texp T (k * (r - m)) in
                                   (fst nd + r * expres, snd nd + expres)) results (n0, d0) in
  fst nd <= m * snd nd /\ d0 <= snd nd /\ (results <> [] -> 0 < snd nd).
Proof.
  intros He; cbv zeta; revert n0 d0;
    induction results as [|r rs IH]; intros n0 d0 Hr Hn Hd; cbn [fold_left].
  - cbn [fst snd]; split; [exact Hn|split; [lra|intros []; reflexivity]].
  - inversion Hr as [|? ? Hr1 Hrs]; subst; cbn [fst snd].
    pose proof (He (k * (r - m))) as Hx.
    destruct (IH (n0 + r * texp T (k * (r - m))) (d0 + texp T (k * (r - m))) Hrs) as (A & B & _);
      [nra|lra|].
    split; [exact A|split; [lra|intros _; lra]].
Qed.

(** (C15) The induced-exponential aggregate [evalConstraint] returns never
    exceeds the maximum element curvature it stores, and that maximum is
    at least zero, for every mesh with at least one element and every
    outcome of the element fits, as long as [exp] is positive. *)
Theorem evalConstraint_bounded (T : Transc) (k : Q) deps order conn Xpts_of Xnode weights st x_in
  (fv : Q) (st' : CurvState) :
  (0 < length conn)%nat -> (forall x, 0 < texp T x) ->
  evalConstraint T k deps order conn Xpts_of Xnode weights st x_in (fv, st') ->
  fv <= max_curvature st' /\ 0 <= max_curvature st'.
Proof.
  intros Hn He (hs & _ & Hres).
  set (results := map _ (seq 0 (length conn))) in Hres.
  destruct (max_curv_fold results 0) as [Hm0 Hall].
  destruct (aggregate_fold T k (max_curv results) results 0 0 He Hall ltac:(lra) ltac:(lra))
    as (Hnd & _ & Hpos).
  unfold aggregate in Hres.
  cbv zeta in Hres.
  destruct (fold_left _ results (0, 0)) as [numer denom] eqn:E; cbn [fst snd] in Hnd, Hpos, Hres.
  injection Hres as -> ->; cbn [max_curvature].
  assert (Hne : results <> []) by (unfold results; destruct conn; cbn in *; [lia|discriminate]).
  split; [apply Qle_shift_div_r; [exact (Hpos Hne)|lra]|exact Hm0].
Qed.

(** Entry [k] of the flattened connectivity of elements with [s] nodes
    each: node [k mod s] of element [k / s]. *)
Lemma nth_concat_uniform (conn : list (list Z)) (s k : nat) :
  Forall (fun l => length l = s) conn -> (k < s * length conn)%nat ->
  nth k (concat conn) 0%Z = nth (k mod s) (nth (k / s) conn []) 0%Z.
Proof.
  intros Hs Hk; replace (concat conn) with (flat_map (fun l => l) conn)
    by (rewrite flat_map_concat_map, map_id; reflexivity).
  rewrite <- (nth_flat_map_block_gen (fun l => l) conn s (k / s) (k mod s) [] 0%Z).
  - f_equal; apply Nat.div_mod_eq.
  - intros l Hl; exact (proj1 (Forall_forall _ _) Hs l Hl).
  - apply Nat.Div0.div_lt_upper_bound; lia.
  - apply Nat.mod_upper_bound; lia.
Qed.

(** (C14) The stride of [evalConstraint]: for a mesh of order [order]
    (elements of [order^3] nodes in the connectivity), the eight nodes
    [conn[8*elem + j]] it reads for element [e] are node [(8e + j) mod
    order^3] of element [(8e + j) / order^3]; for order 2 these are the
    element's own nodes, and for every order of at least 3 and every
    element [e >= 1] the first of them belongs to an element before [e]. *)
Theorem corner_nodes_stride (conn : list (list Z)) (order e : nat) :
  (2 <= order)%nat ->
  Forall (fun l => length l = (order * order * order)%nat) conn ->
  (8 * e + 8 <= order * order * order * length conn)%nat ->
  corner_nodes conn e =
    map (fun j => nth ((8 * e + j) mod (order * order * order))
                      (nth ((8 * e + j) / (order * order * order)) conn []) 0%Z) (seq 0 8) /\
  (order = 2%nat -> corner_nodes conn e = nth e conn []) /\
  ((3 <= order)%nat -> (1 <= e)%nat -> (8 * e / (order * order * order) < e)%nat).
Proof.
  intros Ho Hs He; split; [|split].
  - unfold corner_nodes; apply map_ext_in; intros j Hj; apply in_seq in Hj.
    apply nth_concat_uniform; [exact Hs|lia].
  - intros ->; unfold corner_nodes.
    assert (He' : (e < length conn)%nat) by lia.
    transitivity (map (fun j => nth j (nth e conn []) 0%Z) (seq 0 (length (nth e conn []))));
      [|rewrite (map_nth_seq_full (fun x => x) (nth e conn []) 0%Z); apply map_id].
    rewrite (proj1 (Forall_forall _ _) Hs _ (nth_In _ _ He')).
    apply map_ext_in; intros j Hj; apply in_seq in Hj.
    rewrite (nth_concat_uniform conn (2 * 2 * 2)) by (auto; lia).
    replace ((8 * e + j) / (2 * 2 * 2))%nat with e by (apply Nat.div_unique with j; lia).
    replace ((8 * e + j) mod (2 * 2 * 2))%nat with j by (apply Nat.mod_unique with e; lia).
    reflexivity.
  - intros H3 H1; assert (H27 : (27 <= order * order * order)%nat) by (repeat apply Nat.mul_le_mono; lia).
    apply Nat.Div0.div_lt_upper_bound, (Nat.lt_le_trans _ (27 * e)); [lia|apply Nat.mul_le_mono_r, H27].
Qed.

Lemma corner_nodes_stride_witness :
  (2 <= 3)%nat /\
  Forall (fun l => length l = (3 * 3 * 3)%nat) [map Z.of_nat (seq 0 27); map Z.of_nat (seq 27 27)] /\
  (8 * 1 + 8 <= 3 * 3 * 3 * length [map Z.of_nat (seq 0 27); map Z.of_nat (seq 27 27)])%nat /\
  (8 * 1 / (3 * 3 * 3) < 1)%nat.
Proof.
  assert (Hs : Forall (fun l => length l = (3 * 3 * 3)%nat)
                 [map Z.of_nat (seq 0 27); map Z.of_nat (seq 27 27)]) by (repeat constructor).
  split; [lia|]; split; [exact Hs|]; split; [cbn; lia|].
  exact (proj2 (proj2 (corner_nodes_stride _ 3 1 ltac:(lia) Hs ltac:(cbn; lia))) ltac:(lia) ltac:(lia)).
Defined.

(** Two order-3 elements (27 nodes each): the nodes read for element 1
    are nodes [8..15] of element 0. *)
Remark corner_nodes_order3 :
  corner_nodes [map Z.of_nat (seq 0 27); map Z.of_nat (seq 27 27)] 1 =
  map Z.of_nat (seq 8 8).
Proof. reflexivity. Qed.

(** One order-2 unit-cube element whose node [n] sits at
    [(n mod 2, (n / 2) mod 2, n / 4)], carrying the design field
    [x = 1 + 2X + 3Y + 5Z]; [exp] is the constant [1]. *)
Definition lin_Xpts : list Q :=
  [0;0;0; 1;0;0; 0;1;0; 1;1;0; 0;0;1; 1;0;1; 0;1;1; 1;1;1].
Definition lin_Xnode (c : Z) : Q * Q * Q :=
  let n := Z.to_nat c in (nth (3 * n) lin_Xpts 0, nth (3 * n + 1) lin_Xpts 0, nth (3 * n + 2) lin_Xpts 0).
Definition lin_x : bvec :=
  mkBVec 1 (fun n _ => 1 + 2 * inject_Z (Z.of_nat (Nat.modulo n 2))
                      + 3 * inject_Z (Z.of_nat (Nat.modulo (Nat.div n 2) 2))
                      + 5 * inject_Z (Z.of_nat (Nat.div n 4))).
Definition lin_conn : list (list Z) := [[0; 1; 2; 3; 4; 5; 6; 7]%Z].
Definition lin_state : CurvState :=
  mkCurvState (mkBVec 1 (fun _ _ => 0)) (mkBVec 3 (fun _ _ => 0)) 0 0 0.
Definition lin_weights : bvec := init_weights [] lin_conn (mkBVec 1 (fun _ _ => 0)).
Definition agg_transc : Transc := mkTransc (fun x => x) (fun _ => 1) (fun x => x).
(** The fit of the linear field about the centre [(1/2, 1/2, 1/2)]. *)
Definition lin_coef : list Q := [6; 2; 3; 5] ++ repeat 0 16.

Lemma lin_fit :
  estimateHessian
    (corner_Xpts lin_Xnode (corner_nodes lin_conn 0))
    (getValues [] (copy_first lin_x) (corner_nodes lin_conn 0))
    (getValues [] (computeNodeDeriv [] 2 lin_conn [lin_Xpts] (copy_first lin_x) lin_weights
                     (xderiv lin_state)) (corner_nodes lin_conn 0))
    (hess_out (lin_coef ++ repeat 0 12)).
Proof.
  set (A := hess_A (corner_Xpts lin_Xnode (corner_nodes lin_conn 0))).
  assert (Hr : full_column_rank 32 20 A)
    by (apply (left_inverse_rank _ _ _ (pinv 32 20 A)); vm_compute; reflexivity).
  exists (lin_coef ++ repeat 0 12); split; [|reflexivity].
  apply (dgelss_exact_sol _ _ _ _ _ _ (fun _ i => nth i lin_coef 0) Hr).
  - intros j r Hj Hr'; replace j with 0%nat by lia; rewrite Nat.mul_0_r, Nat.add_0_l.
    apply Qeq_bool_eq; revert r Hr'; apply forallb_seq_spec; vm_compute; reflexivity.
  - intros j i Hj Hi; replace j with 0%nat by lia; rewrite app_nth1 by (cbn; lia); reflexivity.
Qed.

Lemma evalConstraint_bounded_witness :
  exists fv st', (0 < length lin_conn)%nat /\ (forall x, 0 < texp agg_transc x) /\
    evalConstraint agg_transc 1 [] 2 lin_conn [lin_Xpts] lin_Xnode lin_weights lin_state lin_x
      (fv, st') /\
    fv <= max_curvature st' /\ 0 <= max_curvature st'.
Proof.
  assert (Hrel : exists res, evalConstraint agg_transc 1 [] 2 lin_conn [lin_Xpts] lin_Xnode
                               lin_weights lin_state lin_x res).
  { eexists; exists [hess_out (lin_coef ++ repeat 0 12)]; split.
    - intros e He; cbn in He; replace e with 0%nat by lia; exact lin_fit.
    - reflexivity. }
  destruct Hrel as [[fv st'] Hrel].
  assert (He : forall x, 0 < texp agg_transc x) by (intros; reflexivity).
  exists fv, st'; split; [cbn; lia|split; [exact He|split; [exact Hrel|]]].
  exact (evalConstraint_bounded agg_transc 1 [] 2 lin_conn [lin_Xpts] lin_Xnode lin_weights
           lin_state lin_x fv st' ltac:(cbn; lia) He Hrel).
Defined.

(** ** The element sweep of [addCurvDeriv] *)

Lemma dotQ6 (e0 e1 e2 e3 e4 e5 h0 h1 h2 h3 h4 h5 : Q) :
  dotQ [e0; e1; e2; e3; e4; e5] [h0; h1; h2; h3; h4; h5] ==
  e0 * h0 + e1 * h1 + e2 * h2 + e3 * h3 + e4 * h4 + e5 * h5.
Proof. unfold dotQ, sumQ; cbn [combine map fold_right fst snd]; ring. Qed.

(** The transpose of the linear map [(vals, derivs) -> (val, g, H)],
    node by node. *)
Lemma elem_transpose (n : nat) (N Na Nb Nc J dv dd : list Q) (alpha a0 b0 b1 b2 e0 e1 e2 e3 e4 e5 : Q) :
  let x k := nth k (hess_transpose J [e0; e1; e2; e3; e4; e5]) 0 in
  let upd j c := alpha * (nth j N 0 * nth c [b0; b1; b2] 0 + nth j Na 0 * x (3 * c)%nat +
                          nth j Nb 0 * x (3 * c + 1)%nat + nth j Nc 0 * x (3 * c + 2)%nat) in
  let '(v, (g0, g1, g2), H) := elem_val_grad_hess n N Na Nb Nc J dv dd in
  sumQ (map (fun j => alpha * a0 * nth j N 0 * nth j dv 0 +
                      (upd j 0%nat * nth (3 * j + 0) dd 0 + upd j 1%nat * nth (3 * j + 1) dd 0 +
                       upd j 2%nat * nth (3 * j + 2) dd 0)) (seq 0 n))
  == alpha * (a0 * v + (b0 * g0 + b1 * g1 + b2 * g2) + dotQ [e0; e1; e2; e3; e4; e5] H).
Proof.
  cbv beta iota zeta delta [elem_val_grad_hess]; rewrite dotQ6.
  change (3 * 0 + 1)%nat with 1%nat; change (3 * 0 + 2)%nat with 2%nat;
  change (3 * 1 + 1)%nat with 4%nat; change (3 * 1 + 2)%nat with 5%nat;
  change (3 * 2 + 1)%nat with 7%nat; change (3 * 2 + 2)%nat with 8%nat;
  change (3 * 0)%nat with 0%nat; change (3 * 1)%nat with 3%nat; change (3 * 2)%nat with 6%nat.
  induction n as [|n IH].
  - cbn [seq map]; unfold sumQ; cbn [fold_right]; ring.
  - rewrite !sumQ_seq_S, IH; cbn [nth hess_transpose]; ring.
Qed.

Lemma evalCurvDeriv_dH_length T k val g H :
  let '(_, _, _, dH) := evalCurvDeriv T k val g H in length dH = 6%nat.
Proof.
  unfold evalCurvDeriv; destruct (curvatures _ _) as [KG KM].
  destruct (curv_result_deriv _ _ _ _ _) as [[[? ?] ?] ?]; destruct g as [[? ?] ?]; reflexivity.
Qed.

Lemma list6 (l : list Q) : length l = 6%nat ->
  l = [nth 0 l 0; nth 1 l 0; nth 2 l 0; nth 3 l 0; nth 4 l 0; nth 5 l 0].
Proof. do 6 (destruct l as [|? l]; try discriminate); destruct l; [reflexivity|discriminate]. Qed.

(** (C16) [addCurvDeriv] is the transpose of the element map: it returns
    the result of [evalCurvDeriv], and what it adds to [dvals] and
    [dderiv], paired with any directions [(dv, dd)] of the nodal values
    and derivatives, is [alpha] times the derivatives [(dval, dg, dH)]
    of [evalCurvDeriv] paired with the value, gradient and Hessian that
    [(dv, dd)] induce through the same shape functions and Jacobian. *)
Theorem addCurvDeriv_transpose (T : Transc) (k alpha : Q) (n : nat)
  (N Na Nb Nc J Xpts vals derivs dvals dderiv dv dd : list Q) :
  length dvals = n -> length dderiv = (3 * n)%nat ->
  let '(val, g, H) := elem_val_grad_hess n N Na Nb Nc J vals derivs in
  let '(result, dval, (dg0, dg1, dg2), dH) := evalCurvDeriv T k val g H in
  let '(v, (q0, q1, q2), Hd) := elem_val_grad_hess n N Na Nb Nc J dv dd in
  let '(res, dvals', dderiv') := addCurvDeriv T k alpha n N Na Nb Nc J Xpts vals derivs dvals dderiv in
  res = result /\
  sumQ (map (fun j => (nth j dvals' 0 - nth j dvals 0) * nth j dv 0) (seq 0 n)) +
  sumQ (map (fun i => (nth i dderiv' 0 - nth i dderiv 0) * nth i dd 0) (seq 0 (3 * n)))
  == alpha * (dval * v + (dg0 * q0 + dg1 * q1 + dg2 * q2) + dotQ dH Hd).
Proof.
  intros Hl1 Hl2; unfold addCurvDeriv.
  destruct (elem_val_grad_hess n N Na Nb Nc J vals derivs) as [[val g] H].
  pose proof (evalCurvDeriv_dH_length T k val g H) as HL.
  destruct (evalCurvDeriv T k val g H) as [[[result dval] [[dg0 dg1] dg2]] dH].
  rewrite (list6 dH HL).
  pose proof (elem_transpose n N Na Nb Nc J dv dd alpha dval dg0 dg1 dg2
                (nth 0 dH 0) (nth 1 dH 0) (nth 2 dH 0) (nth 3 dH 0) (nth 4 dH 0) (nth 5 dH 0)) as ET.
  destruct (elem_val_grad_hess n N Na Nb Nc J dv dd) as [[v [[q0 q1] q2]] Hd].
  split; [reflexivity|].
  rewrite <- ET, Hl1, Hl2, sumQ_seq_3, <- sumQ_map_add.
  apply sumQ_map_ext; intros j Hj; apply in_seq in Hj.
  rewrite !nth_map_seq0 by lia.
  replace (Nat.div (3 * j) 3) with j by (apply Nat.div_unique with 0%nat; lia).
  replace (Nat.div (3 * j + 1) 3) with j by (apply Nat.div_unique with 1%nat; lia).
  replace (Nat.div (3 * j + 2) 3) with j by (apply Nat.div_unique with 2%nat; lia).
  replace (Nat.modulo (3 * j) 3) with 0%nat by (apply Nat.mod_unique with j; lia).
  replace (Nat.modulo (3 * j + 1) 3) with 1%nat by (apply Nat.mod_unique with j; lia).
  replace (Nat.modulo (3 * j + 2) 3) with 2%nat by (apply Nat.mod_unique with j; lia).
  rewrite (proj2 (Nat.ltb_lt j n) ltac:(lia)), Nat.add_0_r.
  change (3 * 0)%nat with 0%nat; change (3 * 1)%nat with 3%nat; change (3 * 2)%nat with 6%nat.
  ring.
Qed.

Lemma addCurvDeriv_transpose_witness :
  (length [0] = 1%nat /\ length [0; 0; 0] = (3 * 1)%nat) /\
  (let '(val, g, H) := elem_val_grad_hess 1 [1] [1] [2] [3] [1; 0; 0; 0; 1; 0; 0; 0; 1] [1 # 2] [1; 0; 0] in
   let '(result, dval, (dg0, dg1, dg2), dH) := evalCurvDeriv adj_transc 1 val g H in
   let '(v, (q0, q1, q2), Hd) := elem_val_grad_hess 1 [1] [1] [2] [3] [1; 0; 0; 0; 1; 0; 0; 0; 1] [1] [1; 2; 3] in
   let '(res, dvals', dderiv') := addCurvDeriv adj_transc 1 2 1 [1] [1] [2] [3] [1; 0; 0; 0; 1; 0; 0; 0; 1]
                                    lin_Xpts [1 # 2] [1; 0; 0] [0] [0; 0; 0] in
   res = result /\
   sumQ (map (fun j => (nth j dvals' 0 - nth j [0] 0) * nth j [1] 0) (seq 0 1)) +
   sumQ (map (fun i => (nth i dderiv' 0 - nth i [0; 0; 0] 0) * nth i [1; 2; 3] 0) (seq 0 (3 * 1)))
   == 2 * (dval * v + (dg0 * q0 + dg1 * q1 + dg2 * q2) + dotQ dH Hd)).
Proof.
  split; [split; reflexivity|].
  exact (addCurvDeriv_transpose adj_transc 1 2 1 [1] [1] [2] [3] [1; 0; 0; 0; 1; 0; 0; 0; 1]
           lin_Xpts [1 # 2] [1; 0; 0] [0] [0; 0; 0] [1] [1; 2; 3] eq_refl eq_refl).
Defined.

End CurvFacts.
