(* ===== verification/Delaunay.v ===== *)
(** * Delaunay insertion: points, predicates and cavity digging

    [TMRTriangularize] (src/src/TMRTriangularize.c) inserts a point
    into its constrained Delaunay triangulation by the Bowyer-Watson
    method: [addPoint] (lines 1347-1391) stores the point, doubling its
    arrays when they are full; [addPointToMesh] (lines 1396-1436)
    deletes the triangle that encloses the point and calls [digCavity]
    (lines 1444-1488) on its three edges.  [digCavity(u, v, w)] adds
    [(u, v, w)] when [(w, v)] is a PSLG edge or when the triangle across
    [(w, v)] does not have [u] strictly inside its circumcircle
    ([inCircle], lines 1298-1342, in the metric of the surface);
    otherwise it deletes that triangle and recurses on its two other
    edges.

    [BW] models these functions over the edge-hash model [EH] (the mesh
    record, [addTriangle], [deleteTriangle], [completeMe]), the sorted
    PSLG array of [PSLG] ([edgeInPSLG]) and the point quadtree of [QT]
    ([addNode]).  The exact predicates [orient2d] and [incircle] come
    from predicates.c, outside src/: they are the determinants whose
    sign Shewchuk's routines compute exactly.  The surface [face] is a
    pair of section variables, its [evalPoint] and [evalDeriv], and the
    square root of [inCircle] is a variable [sqrt].  [digCavity] takes a
    fuel argument and answers [None] when it runs out, or when
    [completeMe] returns a triangle node that is no longer stored.

    [BWFacts] proves that the cavity digging terminates: each deletion
    removes a live triangle that does not have the new point as a
    vertex, and the additions only add triangles that do, so the number
    of such edges in the edge map bounds the depth of the recursion;
    that it keeps the edge map consistent with the triangle store; that
    it never loses a PSLG edge; that [addPoint] keeps its arrays as
    large as [max_num_points] says and stores the point at its index;
    that [findEnclosing] terminates and returns an enclosing triangle;
    and that the renumbering loop of [removeDegenerateEdges] merges
    exactly the longest prefix of the sorted degenerate edges whose larger
    numbers increase strictly, while [compare_degen_edges] sorts them by
    their smaller numbers. *)

From stdpp Require Import base gmap list.
From Stdlib Require Import ZArith QArith Lia Sorted Permutation.
From S2P Require Import IndexWeight TriQueue EdgeHash PSLG QuadTree Geometry.
Local Open Scope Z_scope.

Module BW.
Import EH.

(** [orient2d(pa, pb, pc)] of predicates.c: the orientation determinant,
    positive when [pa], [pb], [pc] turn counter-clockwise. *)
Definition orient2d (pa pb pc : Q * Q) : Q :=
  ((fst pa - fst pc) * (snd pb - snd pc) - (snd pa - snd pc) * (fst pb - fst pc))%Q.

(** [incircle(pa, pb, pc, pd)] of predicates.c: positive when [pd] lies
    inside the circle through the counter-clockwise [pa], [pb], [pc]. *)
Definition incircle (pa pb pc pd : Q * Q) : Q :=
  let adx := (fst pa - fst pd)%Q in let ady := (snd pa - snd pd)%Q in
  let bdx := (fst pb - fst pd)%Q in let bdy := (snd pb - snd pd)%Q in
  let cdx := (fst pc - fst pd)%Q in let cdy := (snd pc - snd pd)%Q in
  let abdet := (adx * bdy - bdx * ady)%Q in
  let bcdet := (bdx * cdy - cdx * bdy)%Q in
  let cadet := (cdx * ady - adx * cdy)%Q in
  let alift := (adx * adx + ady * ady)%Q in
  let blift := (bdx * bdx + bdy * bdy)%Q in
  let clift := (cdx * cdx + cdy * cdy)%Q in
  (alift * bcdet + blift * cadet + clift * abdet)%Q.

(** [&pts[2*u]]: the parametric location of point [u]. *)
Definition pt_at (pts : list Q) (u : Z) : Q * Q :=
  (nth (Z.to_nat (2 * u)) pts 0%Q, nth (Z.to_nat (2 * u + 1)) pts 0%Q).

(** [enclosed(p, u, v, w)] *)
Definition enclosed (pts : list Q) (p : Q * Q) (u v w : Z) : bool :=
  Qle_bool 0 (orient2d (pt_at pts u) (pt_at pts v) p) &&
  Qle_bool 0 (orient2d (pt_at pts v) (pt_at pts w) p) &&
  Qle_bool 0 (orient2d (pt_at pts w) (pt_at pts u) p).

(** [TMRPoint::dot] *)
Definition pdot (a b : Geom.TMRPoint) : Q :=
  (Geom.px a * Geom.px b + Geom.py a * Geom.py b + Geom.pz a * Geom.pz b)%Q.

(** The vertex of [tri] opposite its directed edge [(w, v)], as the
    three tests of [digCavity] find it ([0] when none holds). *)
Definition third (tri : TMRTriangle) (w v : Z) : Z :=
  if (tu tri =? w) && (tv tri =? v) then tw tri
  else if (tv tri =? w) && (tw tri =? v) then tu tri
  else if (tw tri =? w) && (tu tri =? v) then tv tri
  else 0.

(** The state of [TMRTriangularize] that insertion reads and writes:
    the mesh (triangle list, hash table, [pts_to_tris]), the parametric
    points [pts] ([2*max_num_points] entries), the surface points [X]
    ([max_num_points] entries), the counters, the quadtree [root] over
    [domain], the sorted PSLG array and the search tag. *)
Record TMRTriangularize := mkTZ
  { tz_mesh : mesh;
    pts : list Q;
    X : list Geom.TMRPoint;
    num_points : Z;
    max_num_points : Z;
    root : QT.TMRQuadNode;
    domain : QT.TMRQuadDomain;
    pslg_edges : list (Z * Z);
    search_tag : Z }.

(** [new T[n]] followed by [memcpy] of the first [keep] entries: the
    entries past [keep] are not initialised by the code, and are [z] here. *)
Definition grow {A} (l : list A) (keep n : nat) (z : A) : list A :=
  take keep l ++ replicate (n - keep) z.

Section Insert.
Variable hash : Z -> Z -> Z.
(** [face->evalPoint] and [face->evalDeriv] of the surface. *)
Variable face_evalPoint : Q -> Q -> Geom.TMRPoint.
Variable face_evalDeriv : Q -> Q -> Geom.TMRPoint * Geom.TMRPoint.
Variable sqrt : Q -> Q.

(** [inCircle(u, v, w, x)]: the incircle test after mapping the four
    points by [L^T], [G = L L^T] the Cholesky factor of the surface
    metric at the parametric centroid of [(u, v, w)]. *)
Definition inCircle (pts : list Q) (u v w x : Z) : Q :=
  let frac := (1 # 3)%Q in
  let mpt0 := (frac * (fst (pt_at pts u) + fst (pt_at pts v) + fst (pt_at pts w)))%Q in
  let mpt1 := (frac * (snd (pt_at pts u) + snd (pt_at pts v) + snd (pt_at pts w)))%Q in
  let '(Xu, Xv) := face_evalDeriv mpt0 mpt1 in
  let g11 := pdot Xu Xu in
  let g12 := pdot Xu Xv in
  let g22 := pdot Xv Xv in
  let l11 := sqrt g11 in
  let inv11 := (1 / l11)%Q in
  let l21 := (inv11 * g12)%Q in
  let l22 := sqrt (g22 - l21 * l21)%Q in
  let tr (p : Q * Q) := ((l11 * fst p + l21 * snd p)%Q, (l22 * snd p)%Q) in
  incircle (tr (pt_at pts u)) (tr (pt_at pts v)) (tr (pt_at pts w)) (tr (pt_at pts x)).

(** [addTriangle(TMRTriangle(u, v, w))], its flag dropped. *)
Definition add_tri (m : mesh) (u v w : Z) : mesh :=
  (addTriangle hash m (mkTri u v w 0 NO_STATUS)).1.

(** [digCavity(u, v, w)] on the sorted PSLG array and the points. *)
Fixpoint digCavity (pslg : list (Z * Z)) (pts : list Q) (fuel : nat) (m : mesh) (u v w : Z)
  : option mesh :=
  match fuel with
  | O => None
  | S f =>
      if PSLG.edgeInPSLG pslg w v then Some (add_tri m u v w)
      else match completeMe hash m w v with
           | Some t =>
               match tri_store m !! t with
               | Some tri =>
                   let x := third tri w v in
                   if negb (Qle_bool (inCircle pts u v w x) 0) then
                     match digCavity pslg pts f (deleteTriangle hash m tri).1 u v x with
                     | Some m2 => digCavity pslg pts f m2 u x w
                     | None => None
                     end
                   else Some (add_tri m u v w)
               | None => None
               end
           | None => Some (add_tri m u v w)
           end
  end.

(** [tri->tag = tag] on the triangle of list node [t]. *)
Definition set_tag (m : mesh) (t : nat) (tag : Z) : mesh :=
  match tri_store m !! t with
  | Some tr =>
      mkMesh (tri_list m) (<[t := mkTri (tu tr) (tv tr) (tw tr) tag (tstatus tr)]> (tri_store m))
             (tri_fresh m) (pts_to_tris m) (num_triangles m) (buckets m) (num_hash_nodes m)
  | None => m
  end.

(** [setTriangleTags(tag)]: every triangle of the list. *)
Definition setTriangleTags (m : mesh) (tag : Z) : mesh :=
  fold_left (fun m t => set_tag m t tag) (tri_list m) m.

(** [UINT_MAX] *)
Definition UINT_MAX : Z := 2 ^ 32 - 1.

(** One pass [k] of the edge loop of [findEnclosing]: the triangle
    across the edge, when it is there and not yet tagged, is returned if
    it encloses the point, and otherwise tagged and appended to the
    queue.  [inl] carries on with the mesh and the queue, [inr] is the
    early return with the triangle found. *)
Definition enc_step (ps : list Q) (pt : Q * Q) (tag : Z)
  (acc : option ((mesh * TriQ.TriQueue) + (mesh * nat))) (e : Z * Z)
  : option ((mesh * TriQ.TriQueue) + (mesh * nat)) :=
  match acc with
  | Some (inl (m, q)) =>
      match completeMe hash m e.2 e.1 with
      | None => Some (inl (m, q))
      | Some t2 =>
          match tri_store m !! t2 with
          | None => None
          | Some tri2 =>
              if ttag tri2 =? tag then Some (inl (m, q))
              else if enclosed ps pt (tu tri2) (tv tri2) (tw tri2) then Some (inr (m, t2))
              else match TriQ.append q t2 with
                   | None => None
                   | Some q' => Some (inl (set_tag m t2 tag, q'))
                   end
          end
      end
  | _ => acc
  end.

(** The [while (queue.size > 0)] loop of [findEnclosing]: the mesh (with
    its tags) and the triangle found, or [NULL] when the queue empties. *)
Fixpoint enc_loop (ps : list Q) (pt : Q * Q) (tag : Z) (fuel : nat) (m : mesh) (q : TriQ.TriQueue)
  : option (mesh * option nat) :=
  match fuel with
  | O => None
  | S f =>
      if 0 <? TriQ.qsize q then
        match TriQ.pop q with
        | Some (q1, Some t) =>
            match tri_store m !! t with
            | Some tri =>
                match fold_left (enc_step ps pt tag) (tri_edges tri) (Some (inl (m, q1))) with
                | Some (inl (m2, q2)) => enc_loop ps pt tag f m2 q2
                | Some (inr (m2, t2)) => Some (m2, Some t2)
                | None => None
                end
            | None => None
            end
        | _ => None
        end
      else Some (m, None)
  end.

(** [findEnclosing(pt, &tri)]: the tags are reset when [search_tag]
    reached [UINT_MAX]; the walk starts from the triangle of the point
    of the quadtree closest to [pt]. *)
Definition findEnclosing (fuel : nat) (s : TMRTriangularize) (pt : Q * Q)
  : option (TMRTriangularize * option nat) :=
  let '(m0, tag0) :=
    if search_tag s =? UINT_MAX then (setTriangleTags (tz_mesh s) 0, 0)
    else (tz_mesh s, search_tag s) in
  let tag := tag0 + 1 in
  let u := fst (QT.findClosest sqrt (root s) pt) in
  let upd m := mkTZ m (pts s) (X s) (num_points s) (max_num_points s) (root s) (domain s)
                    (pslg_edges s) tag in
  match pts_to_tris m0 !! u with
  | None => None
  | Some t =>
      match tri_store m0 !! t with
      | None => None
      | Some tri =>
          if enclosed (pts s) pt (tu tri) (tv tri) (tw tri) then Some (upd m0, Some t)
          else
            match TriQ.append TriQ.TriQueue_new t with
            | None => None
            | Some q =>
                match enc_loop (pts s) pt tag fuel (set_tag m0 t tag) q with
                | None => None
                | Some (m2, r) => Some (upd m2, r)
                end
            end
      end
  end.

(** ** Degenerate edges *)

(** [compare_degen_edges(a, b)]: the differences are [uint32_t]
    differences converted to [int]. *)
Definition compare_degen_edges (a b : Z * Z) : Z :=
  let '(ax, ay) := a in
  let '(bx, by_) := b in
  if ax =? bx then IW.wrap32 (ax - bx) else IW.wrap32 (ay - by_).

(** An entry of [sorted_degen] before the sort: both numbers shifted by
    [FIXED_POINT_OFFSET] as [uint32_t], the larger first. *)
Definition degen_entry (off : Z) (e : Z * Z) : Z * Z :=
  let a := (e.1 + off) mod 2 ^ 32 in
  let b := (e.2 + off) mod 2 ^ 32 in
  if a <? b then (b, a) else (a, b).

(** [completeMe(u, v, &t); if (t) deleteTriangle( *t)]. *)
Definition delete_across (m : mesh) (u v : Z) : option mesh :=
  match completeMe hash m u v with
  | None => Some m
  | Some t =>
      match tri_store m !! t with
      | None => None
      | Some tr => Some (deleteTriangle hash m tr).1
      end
  end.

(** The state of the renumbering loop: [old_to_new], [j], [count] and
    the two point arrays. *)
Record renum := mkRN
  { old_to_new : list Z; rj : nat; rcount : Z; rpts : list Q; rX : list Geom.TMRPoint }.

(** One pass [i] of the renumbering loop: the next sorted degenerate
    edge, when its larger number is [i], maps [i] to the number of its
    other end; otherwise [i] gets the next number and its point moves
    down to it. *)
Definition renum_step (sorted : list (Z * Z)) (st : renum) (i : nat) : renum :=
  let j := rj st in
  if Nat.ltb j (length sorted) && (fst (nth j sorted (0, 0)) =? Z.of_nat i) then
    mkRN (<[i := nth (Z.to_nat (snd (nth j sorted (0, 0)))) (old_to_new st) 0]> (old_to_new st))
         (S j) (rcount st) (rpts st) (rX st)
  else
    let c := rcount st in
    let '(ps, xs) :=
      if negb (c =? Z.of_nat i) then
        (<[Z.to_nat (2 * c + 1) := nth (2 * i + 1) (rpts st) 0%Q]>
           (<[Z.to_nat (2 * c) := nth (2 * i) (rpts st) 0%Q]> (rpts st)),
         <[Z.to_nat c := nth i (rX st) (Geom.mkPoint 0 0 0)]> (rX st))
      else (rpts st, rX st) in
    mkRN (<[i := c]> (old_to_new st)) j (c + 1) ps xs.

(** [node->tri.u = old_to_new[node->tri.u]] and the same for [v], [w]. *)
Definition relabel (o2n : list Z) (m : mesh) (t : nat) : mesh :=
  match tri_store m !! t with
  | Some tr =>
      let f z := nth (Z.to_nat z) o2n 0 in
      mkMesh (tri_list m)
             (<[t := mkTri (f (tu tr)) (f (tv tr)) (f (tw tr)) (ttag tr) (tstatus tr)]> (tri_store m))
             (tri_fresh m) (pts_to_tris m) (num_triangles m) (buckets m) (num_hash_nodes m)
  | None => m
  end.

(** [removeDegenerateEdges(num_degen, degen)], [sorted] being the array
    [qsort] leaves in [sorted_degen]; [None] when a triangle found is
    not stored. *)
Definition removeDegenerateEdges (s : TMRTriangularize) (degen sorted : list (Z * Z))
  : option TMRTriangularize :=
  if Nat.ltb 0 (length degen) then
    match fold_left (fun om e => match om with
                                 | Some m => match delete_across m e.1 e.2 with
                                             | Some m1 => delete_across m1 e.2 e.1
                                             | None => None
                                             end
                                 | None => None
                                 end) sorted (Some (tz_mesh s)) with
    | None => None
    | Some m1 =>
        let m2 := deleteTrianglesFromList m1 in
        let np := Z.to_nat (num_points s) in
        let st := fold_left (renum_step sorted) (seq 0 np)
                            (mkRN (repeat 0 np) 0 0 (pts s) (X s)) in
        let m3 := fold_left (relabel (old_to_new st)) (tri_list m2) m2 in
        Some (mkTZ m3 (rpts st) (rX st) (rcount st) (max_num_points s) (root s) (domain s)
                   (pslg_edges s) (search_tag s))
    end
  else Some s.

(** [TMRQuadNode::MAX_DEPTH] and [NODES_PER_LEVEL]. *)
Variables (MAX_DEPTH : Z) (NODES_PER_LEVEL : nat).

(** [addPoint(pt)]: the new state and the point's index; [None] when the
    quadtree insertion runs out of fuel. *)
Definition addPoint (qfuel : nat) (s : TMRTriangularize) (pt : Q * Q)
  : option (TMRTriangularize * Z) :=
  let np := num_points s in
  let '(mx, ps, xs) :=
    if (max_num_points s <=? np)%Z then
      let mx := (2 * max_num_points s)%Z in
      (mx, grow (pts s) (Z.to_nat (2 * np)) (Z.to_nat (2 * mx)) 0%Q,
       grow (X s) (Z.to_nat np) (Z.to_nat mx) (Geom.mkPoint 0 0 0))
    else (max_num_points s, pts s, X s) in
  match QT.addNode MAX_DEPTH NODES_PER_LEVEL (domain s) qfuel (root s) np pt with
  | None => None
  | Some r =>
      let ps' := <[Z.to_nat (2 * np + 1) := snd pt]> (<[Z.to_nat (2 * np) := fst pt]> ps) in
      let m := tz_mesh s in
      let m' := mkMesh (tri_list m) (tri_store m) (tri_fresh m) (delete np (pts_to_tris m))
                       (num_triangles m) (buckets m) (num_hash_nodes m) in
      let xs' := <[Z.to_nat np := face_evalPoint (fst pt) (snd pt)]> xs in
      Some (mkTZ m' ps' xs' (np + 1) mx r (domain s) (pslg_edges s) (search_tag s), np)
  end.

(** The body of [addPointToMesh] once the enclosing triangle is known
    (the overload [addPointToMesh(pt, tri)]): the point is added; the
    triangle (a node of the list, or [NULL]) is deleted and the cavity
    dug from its three edges. *)
Definition addPointToMesh_tri (fuel qfuel : nat) (s : TMRTriangularize) (pt : Q * Q)
  (tri : option nat) : option TMRTriangularize :=
  match addPoint qfuel s pt with
  | None => None
  | Some (s1, u) =>
      match tri with
      | None => Some s1
      | Some t =>
          match tri_store (tz_mesh s1) !! t with
          | None => None
          | Some tr =>
              let v := tu tr in
              let w := tv tr in
              let x := tw tr in
              let dig := digCavity (pslg_edges s1) (pts s1) fuel in
              match dig (deleteTriangle hash (tz_mesh s1) tr).1 u v w with
              | None => None
              | Some m2 =>
                  match dig m2 u w x with
                  | None => None
                  | Some m3 =>
                      match dig m3 u x v with
                      | None => None
                      | Some m4 =>
                          Some (mkTZ m4 (pts s1) (X s1) (num_points s1) (max_num_points s1)
                                     (root s1) (domain s1) (pslg_edges s1) (search_tag s1))
                      end
                  end
              end
          end
      end
  end.

(** [addPointToMesh(pt)]: the enclosing triangle is searched for, then
    the point inserted. *)
Definition addPointToMesh (fuel qfuel efuel : nat) (s : TMRTriangularize) (pt : Q * Q)
  : option TMRTriangularize :=
  match findEnclosing efuel s pt with
  | None => None
  | Some (s1, tri) => addPointToMesh_tri fuel qfuel s1 pt tri
  end.

End Insert.

End BW.

Module BWFacts.
Import EH EHFacts BW.

(** ** The edge map under insertion and deletion *)

Lemma add_edges_lookup M es t e :
  add_edges M es t !! e = if bool_decide (e ∈ es) then Some t else M !! e.
Proof.
  revert M; induction es as [|a es IH]; intros M; [reflexivity|].
  unfold add_edges in *; cbn [foldl]; rewrite IH.
  case_bool_decide as H1; case_bool_decide as H2; try reflexivity.
  - exfalso; apply H2; apply elem_of_cons; right; exact H1.
  - apply elem_of_cons in H2 as [->|H2]; [apply lookup_insert_eq|contradiction].
  - rewrite lookup_insert_ne; [reflexivity|intros ->; apply H2; left].
Qed.

Lemma del_edges_lookup M es e :
  del_edges M es !! e = if bool_decide (e ∈ es) then None else M !! e.
Proof.
  revert M; induction es as [|a es IH]; intros M; [reflexivity|].
  unfold del_edges in *; cbn [foldl]; rewrite IH.
  case_bool_decide as H1; case_bool_decide as H2; try reflexivity.
  - exfalso; apply H2; apply elem_of_cons; right; exact H1.
  - apply elem_of_cons in H2 as [->|H2]; [apply lookup_delete_eq|contradiction].
  - rewrite lookup_delete_ne; [reflexivity|intros ->; apply H2; left].
Qed.

(** The vertices of the stored triangles. *)
Definition tri_verts (tr : TMRTriangle) : Z * Z * Z := (tu tr, tv tr, tw tr).

Lemma tri_edges_verts tr tr' : tri_verts tr = tri_verts tr' -> tri_edges tr = tri_edges tr'.
Proof. unfold tri_verts, tri_edges; intros E; injection E as -> -> ->; reflexivity. Qed.

Lemma mark_deleted_verts st t : tri_verts <$> mark_deleted st t = tri_verts <$> st.
Proof.
  unfold mark_deleted; destruct (st !! t) as [tr|] eqn:E; [|reflexivity].
  rewrite fmap_insert; apply insert_id; rewrite lookup_fmap, E; reflexivity.
Qed.

Lemma mark_deleted_lookup st t t' tr :
  st !! t' = Some tr -> exists tr', mark_deleted st t !! t' = Some tr' /\ tri_verts tr' = tri_verts tr.
Proof.
  intros E; pose proof (f_equal (lookup t') (mark_deleted_verts st t)) as F.
  rewrite !lookup_fmap, E in F; destruct (mark_deleted st t !! t') as [tr'|]; [|discriminate].
  exists tr'; split; [reflexivity|simpl in F; congruence].
Qed.

(** ** The opposite vertex *)

Definition has_vertex (z : Z) (tr : TMRTriangle) : bool :=
  (tu tr =? z) || (tv tr =? z) || (tw tr =? z).

Lemma third_spec tr w v :
  (w, v) ∈ tri_edges tr ->
  (forall e, e ∈ tri_edges tr <-> e ∈ [(w, v); (v, third tr w v); (third tr w v, w)]) /\
  (forall z, has_vertex z tr = true <-> z = w \/ z = v \/ z = third tr w v).
Proof.
  destruct tr as [a b c g st]; unfold tri_edges, third, has_vertex; cbn [tu tv tw].
  rewrite !elem_of_cons, elem_of_nil; intros H.
  repeat match goal with |- context [Z.eqb ?x ?y] => destruct (Z.eqb_spec x y) end;
    cbn [andb]; subst;
    (split; [intros e; rewrite !elem_of_cons, !elem_of_nil
            |intros z; rewrite !orb_true_iff, !Z.eqb_eq]); intuition congruence.
Qed.

(** Two stores with the same vertices hold triangles at the same nodes. *)
Lemma verts_eq_lookup (st st' : gmap nat TMRTriangle) t tr :
  tri_verts <$> st' = tri_verts <$> st -> st !! t = Some tr ->
  exists tr', st' !! t = Some tr' /\ tri_verts tr' = tri_verts tr.
Proof.
  intros Hv E; pose proof (f_equal (lookup t) Hv) as F; rewrite !lookup_fmap, E in F.
  destruct (st' !! t) as [tr'|]; [|discriminate].
  exists tr'; split; [reflexivity|simpl in F; congruence].
Qed.

(** ** The measure of the digging

    The edges of the map whose triangle is stored and does not have [u]
    as a vertex. *)
Definition live_other (u : Z) (st : gmap nat TMRTriangle) (t : nat) : bool :=
  match (tri_verts <$> st) !! t with
  | Some (a, b, c) => negb ((a =? u) || (b =? u) || (c =? u))
  | None => false
  end.

Definition phi (u : Z) (m : mesh) (M : gmap (Z * Z) nat) : nat :=
  size (filter (fun kv : (Z * Z) * nat => live_other u (tri_store m) kv.2 = true) M).

Lemma live_other_has (u : Z) (st : gmap nat TMRTriangle) t tr :
  st !! t = Some tr -> live_other u st t = negb (has_vertex u tr).
Proof. intros E; unfold live_other; rewrite lookup_fmap, E; reflexivity. Qed.

Lemma phi_le (u : Z) (st st' : gmap nat TMRTriangle) (M M' : gmap (Z * Z) nat) :
  (forall e t, live_other u st' t = true -> M' !! e = Some t ->
               live_other u st t = true /\ M !! e = Some t) ->
  (size (filter (fun kv : (Z * Z) * nat => live_other u st' kv.2 = true) M') <=
   size (filter (fun kv : (Z * Z) * nat => live_other u st kv.2 = true) M))%nat.
Proof.
  intros H; apply map_subseteq_size, map_filter_strong_subseteq_ext.
  intros e t [H1 H2]; exact (H e t H1 H2).
Qed.

Lemma phi_lt (u : Z) (st st' : gmap nat TMRTriangle) (M M' : gmap (Z * Z) nat) e0 t0 :
  (forall e t, live_other u st' t = true -> M' !! e = Some t ->
               live_other u st t = true /\ M !! e = Some t) ->
  M !! e0 = Some t0 -> live_other u st t0 = true -> M' !! e0 = None ->
  (size (filter (fun kv : (Z * Z) * nat => live_other u st' kv.2 = true) M') <
   size (filter (fun kv : (Z * Z) * nat => live_other u st kv.2 = true) M))%nat.
Proof.
  intros H H0 L0 N0; apply map_subset_size; split.
  - apply map_filter_strong_subseteq_ext; intros e t [H1 H2]; exact (H e t H1 H2).
  - rewrite map_subseteq_spec; intros Hs.
    specialize (Hs e0 t0 (map_lookup_filter_Some_2 _ _ _ _ H0 L0)).
    apply map_lookup_filter_Some in Hs as [Hs _]; congruence.
Qed.

Section Dig.
Variable hash : Z -> Z -> Z.

(** The edge map names stored triangles that have the edge, and every
    stored node is below the next fresh node. *)
Definition edges_stored (m : mesh) (M : gmap (Z * Z) nat) : Prop :=
  forall e t, M !! e = Some t -> exists tr, tri_store m !! t = Some tr /\ e ∈ tri_edges tr.

Definition store_fresh (m : mesh) : Prop :=
  forall t, is_Some (tri_store m !! t) -> (t < tri_fresh m)%nat.

Definition dig_inv (m : mesh) (M : gmap (Z * Z) nat) : Prop :=
  mesh_inv hash m M /\ edges_stored m M /\ store_fresh m.

Lemma completeMe_map m M a b : dig_inv m M -> completeMe hash m a b = M !! (a, b).
Proof. intros [[Hrep _] _]; exact (table_find hash _ _ a b Hrep). Qed.

Lemma stored_below m M e t : dig_inv m M -> M !! e = Some t -> (t < tri_fresh m)%nat.
Proof.
  intros (_ & Hst & Hfr) Ht; destruct (Hst e t Ht) as (tr & Htr & _).
  apply Hfr; eexists; exact Htr.
Qed.

Lemma add_tri_spec m M a b c :
  dig_inv m M ->
  dig_inv (add_tri hash m a b c) (add_edges M [(a, b); (b, c); (c, a)] (tri_fresh m)) /\
  tri_store (add_tri hash m a b c) = <[tri_fresh m := mkTri a b c 0 NO_STATUS]> (tri_store m) /\
  tri_fresh (add_tri hash m a b c) = S (tri_fresh m).
Proof.
  intros Hi; pose proof Hi as (Hinv & Hst & Hfr); unfold add_tri.
  destruct (addTriangle hash m (mkTri a b c 0 NO_STATUS)) as [m' s] eqn:E; cbn [fst].
  destruct (addTriangle_spec hash _ _ _ _ _ Hinv E) as (Hinv' & _ & Hs & Hf & _ & _).
  cbn [tu tv tw] in Hs; split; [|split; [exact Hs|exact Hf]].
  split; [exact Hinv'|]; unfold edges_stored, store_fresh; rewrite Hs, Hf; split.
  - intros e t Ht; rewrite add_edges_lookup in Ht; case_bool_decide as Hin.
    + injection Ht as <-; exists (mkTri a b c 0 NO_STATUS); rewrite lookup_insert_eq.
      split; [reflexivity|exact Hin].
    + destruct (Hst e t Ht) as (tr & Htr & He); exists tr; split; [|exact He].
      pose proof (stored_below _ _ _ _ Hi Ht); rewrite lookup_insert_ne; [exact Htr|lia].
  - intros t [tr Htr]; apply lookup_insert_Some in Htr as [[<- _]|[_ Htr]]; [lia|].
    pose proof (Hfr t ltac:(eexists; exact Htr)); lia.
Qed.

Lemma deleteTriangle_fresh m tri : tri_fresh (deleteTriangle hash m tri).1 = tri_fresh m.
Proof.
  assert (H : forall es m0 f s, tri_fresh (fold_left (delete_edge hash) es (m0, f, s)).1.1 = tri_fresh m0).
  { induction es as [|[a b] es IH]; intros m0 f s; [reflexivity|]; cbn [fold_left].
    destruct (delete_edge hash (m0, f, s) (a, b)) as [[m1 f1] s1] eqn:E; rewrite IH.
    cbv beta iota zeta delta [delete_edge] in E.
    destruct (bucket_remove _ _ _) as [[t b']|]; [destruct f|]; injection E as <- _ _; reflexivity. }
  unfold deleteTriangle; pose proof (H (tri_edges tri) m true true) as H'.
  destruct (fold_left _ _ _) as [[m' f'] s']; exact H'.
Qed.

Lemma del_tri_spec m M tr :
  dig_inv m M ->
  dig_inv (deleteTriangle hash m tr).1 (del_edges M (tri_edges tr)) /\
  tri_verts <$> tri_store (deleteTriangle hash m tr).1 = tri_verts <$> tri_store m /\
  tri_fresh (deleteTriangle hash m tr).1 = tri_fresh m.
Proof.
  intros (Hinv & Hst & Hfr); pose proof (deleteTriangle_fresh m tr) as Hf.
  destruct (deleteTriangle hash m tr) as [m' s] eqn:E; cbn [fst] in *.
  destruct (deleteTriangle_spec hash _ _ _ _ _ Hinv E) as (Hinv' & _ & Hsn & _).
  assert (Hv : tri_verts <$> tri_store m' = tri_verts <$> tri_store m).
  { destruct (first_hit M (tri_edges tr)); cbn [marked] in Hsn; injection Hsn as -> _;
      [apply mark_deleted_verts|reflexivity]. }
  split; [|split; [exact Hv|exact Hf]]; split; [exact Hinv'|split].
  - intros e t Ht; rewrite del_edges_lookup in Ht; case_bool_decide; [discriminate|].
    destruct (Hst e t Ht) as (tr0 & H0 & He).
    destruct (verts_eq_lookup _ _ _ _ Hv H0) as (tr' & E' & F).
    exists tr'; split; [exact E'|rewrite (tri_edges_verts _ _ F); exact He].
  - intros t [tr' Ht]; rewrite Hf; apply Hfr.
    destruct (verts_eq_lookup _ _ _ _ (eq_sym Hv) Ht) as (tr0 & H0 & _); eexists; exact H0.
Qed.

(** Adding a triangle that has [u] as a vertex does not raise the
    measure. *)
Lemma phi_add m M u b c :
  dig_inv m M ->
  (phi u (add_tri hash m u b c) (add_edges M [(u, b); (b, c); (c, u)] (tri_fresh m)) <= phi u m M)%nat.
Proof.
  intros Hi; destruct (add_tri_spec m M u b c Hi) as (_ & Hs & _).
  unfold phi; rewrite Hs; apply phi_le; intros e t Hl Ht.
  rewrite add_edges_lookup in Ht; case_bool_decide as Hin.
  - injection Ht as <-; unfold live_other in Hl.
    rewrite fmap_insert, lookup_insert_eq in Hl; cbn [tri_verts tu tv tw] in Hl.
    rewrite Z.eqb_refl in Hl; discriminate.
  - pose proof (stored_below _ _ _ _ Hi Ht).
    unfold live_other in Hl |- *; rewrite fmap_insert, lookup_insert_ne in Hl by lia; auto.
Qed.

(** Deleting a stored triangle that does not have [u] as a vertex, and
    one of whose edges the map names, lowers it. *)
Lemma phi_del m M u e0 t0 tr :
  dig_inv m M -> M !! e0 = Some t0 -> e0 ∈ tri_edges tr ->
  live_other u (tri_store m) t0 = true ->
  (phi u (deleteTriangle hash m tr).1 (del_edges M (tri_edges tr)) < phi u m M)%nat.
Proof.
  intros Hi H0 Hin L0; destruct (del_tri_spec m M tr Hi) as (_ & Hv & _).
  unfold phi; apply (phi_lt _ _ _ _ _ e0 t0); [|exact H0|exact L0|].
  - intros e t Hl Ht; unfold live_other in Hl; rewrite Hv in Hl; split; [exact Hl|].
    rewrite del_edges_lookup in Ht; case_bool_decide; [discriminate|exact Ht].
  - rewrite del_edges_lookup, bool_decide_eq_true_2 by exact Hin; reflexivity.
Qed.

End Dig.

Section Cavity.
Variable hash : Z -> Z -> Z.
Variable face_evalDeriv : Q -> Q -> Geom.TMRPoint * Geom.TMRPoint.
Variable sqrt : Q -> Q.
Variables (pslg : list (Z * Z)) (pts : list Q) (u : Z).

(** A vertex of the triangle is on its own circumcircle: the incircle
    determinant vanishes when the fourth point is the first, whatever
    the metric. *)
Lemma inCircle_self v w : Qle_bool (inCircle face_evalDeriv sqrt pts u v w u) 0 = true.
Proof.
  apply Qle_bool_iff; unfold inCircle; destruct (face_evalDeriv _ _) as [Xu Xv].
  unfold incircle; cbv beta zeta; cbn [fst snd].
  apply Qle_lteq; right; ring.
Qed.

Ltac add_case Hi :=
  eexists _, _; split; [reflexivity|split; [exact (proj1 (add_tri_spec hash _ _ _ _ _ Hi))
                                           |apply phi_add; exact Hi]].

(** The recursion of [digCavity], with the measure. *)
Lemma digCavity_measure fuel : forall m M v w,
  dig_inv hash m M -> v <> u -> w <> u -> (phi u m M < fuel)%nat ->
  exists m' M', digCavity hash face_evalDeriv sqrt pslg pts fuel m u v w = Some m' /\
                dig_inv hash m' M' /\ (phi u m' M' <= phi u m M)%nat.
Proof.
  induction fuel as [|f IH]; intros m M v w Hi Hv Hw Hf; [lia|]; cbn [digCavity].
  destruct (PSLG.edgeInPSLG pslg w v); [add_case Hi|].
  rewrite (completeMe_map hash m M w v Hi).
  destruct (M !! (w, v)) as [t|] eqn:Ht; [|add_case Hi].
  destruct (proj1 (proj2 Hi) _ _ Ht) as (tr & Htr & Hin); rewrite Htr.
  destruct (third_spec tr w v Hin) as (_ & Hverts).
  set (x := third tr w v) in *.
  destruct (Qle_bool (inCircle face_evalDeriv sqrt pts u v w x) 0) eqn:Hq; cbn [negb]; [add_case Hi|].
  assert (Hx : x <> u) by (intros Hxu; rewrite Hxu, inCircle_self in Hq; discriminate).
  assert (Hl : live_other u (tri_store m) t = true).
  { rewrite (live_other_has _ _ _ _ Htr); apply negb_true_iff.
    destruct (has_vertex u tr) eqn:Hh; [|reflexivity]; exfalso.
    apply Hverts in Hh; intuition congruence. }
  destruct (del_tri_spec hash m M tr Hi) as (Hi1 & _ & _).
  pose proof (phi_del hash m M u _ _ tr Hi Ht Hin Hl) as Hlt.
  destruct (IH _ _ v x Hi1 Hv Hx ltac:(lia)) as (m2 & M2 & E2 & Hi2 & Hp2).
  rewrite E2.
  destruct (IH _ _ x w Hi2 Hx Hw ltac:(lia)) as (m3 & M3 & E3 & Hi3 & Hp3).
  exists m3, M3; split; [exact E3|split; [exact Hi3|lia]].
Qed.

End Cavity.

(** ** The point arrays *)

Lemma nth_insert_same {A} (l : list A) i x d : (i < length l)%nat -> nth i (<[i := x]> l) d = x.
Proof. intros H; rewrite nth_lookup, list_lookup_insert_eq by exact H; reflexivity. Qed.

Lemma nth_insert_other {A} (l : list A) i j x d : i <> j -> nth j (<[i := x]> l) d = nth j l d.
Proof. intros H; rewrite !nth_lookup, list_lookup_insert_ne by exact H; reflexivity. Qed.

Lemma grow_length {A} (l : list A) keep n z :
  (keep <= length l)%nat -> (keep <= n)%nat -> length (grow l keep n z) = n.
Proof. intros H1 H2; unfold grow; rewrite length_app, length_take, length_replicate; lia. Qed.

Lemma nth_grow {A} (l : list A) keep n z j d :
  (j < keep)%nat -> (keep <= length l)%nat -> nth j (grow l keep n z) d = nth j l d.
Proof.
  intros H1 H2; unfold grow; rewrite app_nth1 by (rewrite length_take; lia).
  rewrite !nth_lookup, lookup_take_lt by exact H1; reflexivity.
Qed.

(** [pts] holds two coordinates for each of [max_num_points] points, [X]
    one point each, and the points in use fit. *)
Definition arrays_ok (s : TMRTriangularize) : Prop :=
  length (pts s) = (2 * Z.to_nat (max_num_points s))%nat /\
  length (X s) = Z.to_nat (max_num_points s) /\
  (0 <= num_points s <= max_num_points s)%Z /\ (0 < max_num_points s)%Z.

Section AddPoint.
Variable face_evalPoint : Q -> Q -> Geom.TMRPoint.
Variables (MAX_DEPTH : Z) (N : nat).

(** [addPoint] returns the index [num_points], counts the point, and
    leaves the triangles and the edge table alone. *)
Lemma addPoint_mesh hash qfuel s pt s' i :
  addPoint face_evalPoint MAX_DEPTH N qfuel s pt = Some (s', i) ->
  i = num_points s /\ num_points s' = (num_points s + 1)%Z /\ pslg_edges s' = pslg_edges s /\
  tri_store (tz_mesh s') = tri_store (tz_mesh s) /\
  (forall M, dig_inv hash (tz_mesh s) M -> dig_inv hash (tz_mesh s') M).
Proof.
  unfold addPoint; destruct (max_num_points s <=? num_points s)%Z;
    destruct (QT.addNode _ _ _ _ _ _ _); intros E; inversion E; subst; cbn.
  all: split; [reflexivity|split; [reflexivity|split; [reflexivity|split; [reflexivity|]]]].
  all: intros M (Hinv & Hst & Hfr); split; [exact Hinv|split; [exact Hst|exact Hfr]].
Qed.

(** A well-formed quadtree and fuel above its height make [addPoint]
    succeed. *)
Lemma addPoint_some qfuel s pt :
  QTFacts.quad_ok N (root s) -> (QTFacts.height (root s) + 3 <= qfuel)%nat ->
  exists s', addPoint face_evalPoint MAX_DEPTH N qfuel s pt = Some (s', num_points s).
Proof.
  intros Hok Hf; unfold addPoint.
  assert (exists r, QT.addNode MAX_DEPTH N (domain s) qfuel (root s) (num_points s) pt = Some r)
    as [r ->].
  { destruct (Nat.lt_ge_cases (length (QTFacts.reach (root s) pt)) N) as [Hr|Hr].
    - destruct (QTFacts.addNode_room MAX_DEPTH N (domain s) qfuel (root s) (num_points s) pt Hok Hr
                  ltac:(lia)) as (r & E & _); exists r; exact E.
    - destruct (QTFacts.addNode_full MAX_DEPTH N (domain s) qfuel (root s) (num_points s) pt Hok Hr Hf)
        as (r & E & _); exists r; exact E. }
  destruct (max_num_points s <=? num_points s)%Z; eexists; reflexivity.
Qed.

End AddPoint.

Lemma phi_size u m M : (phi u m M <= size M)%nat.
Proof. apply map_subseteq_size, map_filter_subseteq. Qed.

Lemma del_edges_size (M : gmap (Z * Z) nat) es : (size (del_edges M es) <= size M)%nat.
Proof.
  apply map_subseteq_size, map_subseteq_spec; intros e t.
  rewrite del_edges_lookup; case_bool_decide; [discriminate|auto].
Qed.

Lemma store_point (ps : list Q) (np mx : Z) (p : Q * Q) :
  length ps = (2 * Z.to_nat mx)%nat -> (0 <= np < mx)%Z ->
  let ps' := <[Z.to_nat (2 * np + 1) := snd p]> (<[Z.to_nat (2 * np) := fst p]> ps) in
  length ps' = length ps /\ pt_at ps' np = p /\
  (forall j, (0 <= j < np)%Z -> pt_at ps' j = pt_at ps j).
Proof.
  intros Hl Hn ps'; unfold ps', pt_at; rewrite !length_insert; split; [reflexivity|split].
  - rewrite nth_insert_other by lia; rewrite !nth_insert_same by (rewrite ?length_insert; lia).
    destruct p; reflexivity.
  - intros j Hj; rewrite !nth_insert_other by lia; reflexivity.
Qed.

(** Adding [(u, v, w)] keeps every edge of the map and enters [(v, w)]. *)
Lemma add_tri_keeps hash m M u v w :
  dig_inv hash m M ->
  dig_inv hash (add_tri hash m u v w) (add_edges M [(u, v); (v, w); (w, u)] (tri_fresh m)) /\
  (forall e, is_Some (M !! e) -> is_Some (add_edges M [(u, v); (v, w); (w, u)] (tri_fresh m) !! e)) /\
  is_Some (add_edges M [(u, v); (v, w); (w, u)] (tri_fresh m) !! (v, w)).
Proof.
  intros Hi; split; [exact (proj1 (add_tri_spec hash m M u v w Hi))|split].
  - intros e He; rewrite add_edges_lookup; case_bool_decide; [eexists; reflexivity|exact He].
  - rewrite add_edges_lookup, bool_decide_eq_true_2; [eexists; reflexivity|].
    apply elem_of_cons; right; apply elem_of_cons; left; reflexivity.
Qed.

(** ** The search for the enclosing triangle *)

(** Changing tags only: the vertices of the stored triangles, the table,
    the counters and [pts_to_tris] are kept. *)
Definition retag (m m' : mesh) : Prop :=
  tri_verts <$> tri_store m' = tri_verts <$> tri_store m /\ buckets m' = buckets m /\
  num_hash_nodes m' = num_hash_nodes m /\ tri_fresh m' = tri_fresh m /\
  pts_to_tris m' = pts_to_tris m.

Lemma retag_refl m : retag m m.
Proof. repeat split. Qed.

Lemma retag_trans m1 m2 m3 : retag m1 m2 -> retag m2 m3 -> retag m1 m3.
Proof. intros (A1 & B1 & C1 & D1 & E1) (A2 & B2 & C2 & D2 & E2); repeat split; congruence. Qed.

Lemma set_tag_retag m t tag : retag m (set_tag m t tag).
Proof.
  unfold set_tag; destruct (tri_store m !! t) as [tr|] eqn:E; [|apply retag_refl].
  repeat split; cbn [tri_store]; rewrite fmap_insert; apply insert_id.
  rewrite lookup_fmap, E; reflexivity.
Qed.

Lemma setTriangleTags_retag m tag : retag m (setTriangleTags m tag).
Proof.
  unfold setTriangleTags; generalize (tri_list m) as l; intros l.
  assert (H : forall m0, retag m m0 -> retag m (fold_left (fun m t => set_tag m t tag) l m0)).
  { induction l as [|t l IH]; intros m0 H; [exact H|apply IH, (retag_trans _ _ _ H), set_tag_retag]. }
  apply H, retag_refl.
Qed.

Lemma retag_inv hash m m' M : retag m m' -> dig_inv hash m M -> dig_inv hash m' M.
Proof.
  intros (Hv & Hb & Hn & Hf & _) ((Hrep & Hc) & Hst & Hfr); split; [split; congruence|split].
  - intros e t Ht; destruct (Hst e t Ht) as (tr & Htr & He).
    destruct (verts_eq_lookup _ _ _ _ Hv Htr) as (tr' & E' & F).
    exists tr'; split; [exact E'|rewrite (tri_edges_verts _ _ F); exact He].
  - intros t [tr Ht]; rewrite Hf; apply Hfr.
    destruct (verts_eq_lookup _ _ _ _ (eq_sym Hv) Ht) as (tr0 & H0 & _); eexists; exact H0.
Qed.

(** A node returned by the search: a stored triangle enclosing [pt]. *)
Definition found_ok (ps : list Q) (pt : Q * Q) (m : mesh) (t : nat) : Prop :=
  exists tr, tri_store m !! t = Some tr /\ enclosed ps pt (tu tr) (tv tr) (tw tr) = true.

Lemma enc_fold_sound hash ps pt tag es : forall acc m' t2,
  (forall m0 t0, acc = Some (inr (m0, t0)) -> found_ok ps pt m0 t0) ->
  fold_left (enc_step hash ps pt tag) es acc = Some (inr (m', t2)) -> found_ok ps pt m' t2.
Proof.
  induction es as [|e es IH]; intros acc m' t2 Hacc E; [exact (Hacc _ _ E)|].
  cbn [fold_left] in E; refine (IH _ _ _ _ E); intros m0 t0 Hs.
  destruct acc as [[[m q]|[m t]]|]; cbn [enc_step] in Hs; [|exact (Hacc _ _ Hs)|discriminate].
  destruct (completeMe hash m e.2 e.1) as [t'|]; [|discriminate].
  destruct (tri_store m !! t') as [tri2|] eqn:Et; [|discriminate].
  destruct (ttag tri2 =? tag); [discriminate|].
  destruct (enclosed ps pt _ _ _) eqn:Hen; [injection Hs as <- <-; exists tri2; auto|].
  destruct (TriQ.append q t'); discriminate.
Qed.

Lemma enc_loop_sound hash ps pt tag fuel : forall m q m' t,
  enc_loop hash ps pt tag fuel m q = Some (m', Some t) -> found_ok ps pt m' t.
Proof.
  induction fuel as [|f IH]; intros m q m' t E; [discriminate|]; cbn [enc_loop] in E.
  destruct (0 <? TriQ.qsize q); [|discriminate].
  destruct (TriQ.pop q) as [[q1 [t1|]]|]; [|discriminate|discriminate].
  destruct (tri_store m !! t1) as [tri|]; [|discriminate].
  destruct (fold_left _ _ _) as [[[m2 q2]|[m2 t2]]|] eqn:F; [exact (IH _ _ _ _ E)| |discriminate].
  inversion E; subst; eapply enc_fold_sound; [|exact F]; intros ? ? Hc; discriminate Hc.
Qed.

Lemma retag_stored m m' x : retag m m' -> is_Some (tri_store m !! x) -> is_Some (tri_store m' !! x).
Proof.
  intros (Hv & _) [tr Ht]; destruct (verts_eq_lookup _ _ _ _ Hv Ht) as (tr' & E & _).
  eexists; exact E.
Qed.

Lemma retag_size m m' : retag m m' -> size (tri_store m') = size (tri_store m).
Proof. intros (Hv & _); rewrite <- (map_size_fmap tri_verts), Hv; apply map_size_fmap. Qed.

(** The stored triangles whose tag is not [tag]. *)
Definition untagged (tag : Z) (m : mesh) : nat :=
  size (filter (fun kv : nat * TMRTriangle => ttag kv.2 <> tag) (tri_store m)).

Lemma untagged_size tag m : (untagged tag m <= size (tri_store m))%nat.
Proof. apply map_subseteq_size, map_filter_subseteq. Qed.

Lemma set_tag_untagged m t tr tag :
  tri_store m !! t = Some tr -> ttag tr <> tag -> S (untagged tag (set_tag m t tag)) = untagged tag m.
Proof.
  intros E Hn; unfold untagged, set_tag; rewrite E; cbn [tri_store].
  rewrite map_filter_insert_False by (cbn; tauto); rewrite map_filter_delete, map_size_delete.
  assert (Hf : filter (fun kv : nat * TMRTriangle => ttag kv.2 <> tag) (tri_store m) !! t = Some tr)
    by (apply map_lookup_filter_Some_2; [exact E|exact Hn]).
  rewrite Hf; pose proof (map_size_ne_0_lookup_2 _ t ltac:(eexists; exact Hf)); lia.
Qed.

Lemma enc_fold_inr hash ps pt tag es r :
  fold_left (enc_step hash ps pt tag) es (Some (inr r)) = Some (inr r).
Proof. induction es as [|e es IH]; [reflexivity|exact IH]. Qed.

Definition stored (m : mesh) (xs : list nat) : Prop :=
  Forall (fun x => is_Some (tri_store m !! x)) xs.

(** The edge loop of the search never faults on a consistent mesh, and
    each triangle it appends has been tagged. *)
Lemma enc_fold_total hash M ps pt tag es : forall m q ls xs,
  dig_inv hash m M -> TriQFacts.queue_inv q ls xs -> stored m xs ->
  exists r, fold_left (enc_step hash ps pt tag) es (Some (inl (m, q))) = Some r /\
    match r with
    | inl (m', q') => exists ls' xs', dig_inv hash m' M /\ TriQFacts.queue_inv q' ls' xs' /\
                        stored m' xs' /\
                        (2 * untagged tag m' + length xs' <= 2 * untagged tag m + length xs)%nat
    | inr (m', _) => dig_inv hash m' M
    end.
Proof.
  induction es as [|e es IH]; intros m q ls xs Hi Hq Hs.
  { eexists; split; [reflexivity|exists ls, xs; auto]. }
  cbn [fold_left enc_step]; rewrite (completeMe_map hash m M _ _ Hi).
  destruct (M !! (e.2, e.1)) as [t2|] eqn:Ht; [|exact (IH m q ls xs Hi Hq Hs)].
  destruct (proj1 (proj2 Hi) _ _ Ht) as (tri2 & Htr & _); rewrite Htr.
  destruct (Z.eqb_spec (ttag tri2) tag) as [_|Hn]; [exact (IH m q ls xs Hi Hq Hs)|].
  destruct (enclosed ps pt _ _ _); [rewrite enc_fold_inr; eexists; split; [reflexivity|exact Hi]|].
  destruct (TriQFacts.append_spec q ls xs t2 Hq) as (q' & -> & Hq').
  pose proof (set_tag_retag m t2 tag) as Hr.
  destruct (IH (set_tag m t2 tag) q' _ _ (retag_inv _ _ _ _ Hr Hi) Hq') as (r & E & Hr').
  { apply Forall_app; split; [|constructor; [|constructor]].
    - eapply Forall_impl; [exact Hs|intros x; apply retag_stored, Hr].
    - apply (retag_stored _ _ _ Hr); eexists; exact Htr. }
  exists r; split; [exact E|]; destruct r as [[m' q'']|[m' t']]; [|exact Hr'].
  destruct Hr' as (ls' & xs' & H1 & H2 & H3 & H4); exists ls', xs'; split; [exact H1|split; [exact H2|split; [exact H3|]]].
  pose proof (set_tag_untagged m t2 tri2 tag Htr Hn); rewrite length_app in H4; cbn in H4; lia.
Qed.

(** The search loop terminates when the fuel exceeds twice the untagged
    triangles plus the queue: a pass pops one entry and appends one for
    each triangle it tags. *)
Lemma enc_loop_total hash M ps pt tag fuel : forall m q ls xs,
  dig_inv hash m M -> TriQFacts.queue_inv q ls xs -> stored m xs ->
  (2 * untagged tag m + length xs < fuel)%nat ->
  exists m' r, enc_loop hash ps pt tag fuel m q = Some (m', r) /\ dig_inv hash m' M.
Proof.
  induction fuel as [|f IH]; intros m q ls xs Hi Hq Hs Hf; [lia|]; cbn [enc_loop].
  pose proof Hq as (_ & _ & _ & _ & Hsz & _); rewrite Hsz.
  destruct xs as [|x xs]; [eexists _, _; split; [reflexivity|exact Hi]|].
  rewrite (proj2 (Z.ltb_lt _ _)) by (cbn [length]; lia).
  destruct (TriQFacts.pop_spec q ls x xs Hq) as (q1 & ls1 & -> & Hq1).
  apply Forall_cons in Hs as [[tri Htr] Hs]; rewrite Htr.
  destruct (enc_fold_total hash M ps pt tag (tri_edges tri) m q1 ls1 xs Hi Hq1 Hs)
    as ([[m2 q2]|[m2 t2]] & -> & Hr).
  - destruct Hr as (ls2 & xs2 & H1 & H2 & H3 & H4).
    apply (IH _ _ _ _ H1 H2 H3); cbn [length] in Hf; lia.
  - eexists _, _; split; [reflexivity|exact Hr].
Qed.

(** ** Concrete runs

    The two triangles [initialize] starts from, [(0,1,2)] and [(2,1,3)]
    over the corners of the unit square, and a fifth point [(1/4, 1/4)]
    inside the first; the surface is the plane, whose metric is the
    identity. *)
Definition wit_hash (u v : Z) : Z := (31 * u + v)%Z.
Definition wit_pts : list Q := [0; 0; 1; 0; 0; 1; 1; 1; 1 # 4; 1 # 4]%Q.
Definition wit_deriv (a b : Q) : Geom.TMRPoint * Geom.TMRPoint :=
  (Geom.mkPoint 1 0 0, Geom.mkPoint 0 1 0).
Definition wit_sqrt (q : Q) : Q := q.
Definition wit_m0 : mesh := add_tri wit_hash (add_tri wit_hash mesh_init 0 1 2) 2 1 3.
Definition wit_M0 : gmap (Z * Z) nat :=
  add_edges (add_edges ∅ [(0, 1); (1, 2); (2, 0)] 0) [(2, 1); (1, 3); (3, 2)] 1.
(** The segment [(1, 3)] as the sorted PSLG array. *)
Definition wit_pslg : list (Z * Z) := [(1, 3); (3, 1)].

Lemma dig_inv_init hash : dig_inv hash mesh_init ∅.
Proof.
  split; [apply mesh_init_inv|split].
  - intros e t Ht; rewrite lookup_empty in Ht; discriminate.
  - intros t [tr Ht]; change (tri_store mesh_init) with (∅ : gmap nat TMRTriangle) in Ht.
    rewrite lookup_empty in Ht; discriminate.
Qed.

Lemma wit_m0_inv : dig_inv wit_hash wit_m0 wit_M0.
Proof.
  destruct (add_tri_spec wit_hash _ _ 0 1 2 (dig_inv_init wit_hash)) as (I1 & _ & F1).
  destruct (add_tri_spec wit_hash _ _ 2 1 3 I1) as (I2 & _ & _).
  rewrite F1 in I2; exact I2.
Qed.

(** (C18) [digCavity] terminates: on a mesh whose hash table represents
    the edge map [M], whose map names only stored triangles that have
    the edge, and whose stored nodes are below the next fresh node,
    digging the cavity of a new point [u] from an edge [(v, w)] that
    does not have [u] as an end point returns a mesh within [size M + 1]
    levels of recursion, and the result keeps the three properties.
    Every deletion removes a triangle without [u] as a vertex (a vertex
    is on its own circumcircle, so [inCircle] is not positive there),
    and every addition adds one with [u], whatever the metric, the
    square root and the PSLG. *)
Theorem digCavity_terminates hash evalDeriv sqrt pslg pts m M u v w :
  dig_inv hash m M -> v <> u -> w <> u ->
  exists m' M', digCavity hash evalDeriv sqrt pslg pts (S (size M)) m u v w = Some m' /\
                dig_inv hash m' M'.
Proof.
  intros Hi Hv Hw; pose proof (phi_size u m M).
  destruct (digCavity_measure hash evalDeriv sqrt pslg pts u (S (size M)) m M v w Hi Hv Hw
              ltac:(lia)) as (m' & M' & E & Hi' & _).
  exists m', M'; split; assumption.
Qed.

Lemma digCavity_terminates_witness :
  exists m' M', digCavity wit_hash wit_deriv wit_sqrt wit_pslg wit_pts (S (size wit_M0)) wit_m0 4 1 2
                = Some m' /\ dig_inv wit_hash m' M'.
Proof. apply digCavity_terminates; [exact wit_m0_inv|lia|lia]. Defined.

Ltac pslg_add Hi E u v w :=
  injection E as <-; destruct (add_tri_keeps _ _ _ u v w Hi) as (H1 & H2 & H3);
  eexists; split; [exact H1|split; [intros ? ? _ _; apply H2|intros _; exact H3]].

(** (C22) [digCavity] never loses a constrained edge: when it returns,
    every directed edge of the map both of whose directions are in the
    PSLG array is still in the map.  A triangle is only deleted across
    an edge that is not in the PSLG, and when one of its two other
    edges is, the recursive call on that edge finds it in the PSLG at
    once and adds the new triangle that has it.  When [(w, v)] itself is
    a PSLG edge, [(v, w)] is in the map afterwards. *)
Theorem digCavity_keeps_pslg hash evalDeriv sqrt pslg pts fuel : forall m M u v w m',
  dig_inv hash m M -> digCavity hash evalDeriv sqrt pslg pts fuel m u v w = Some m' ->
  exists M', dig_inv hash m' M' /\
    (forall a b, PSLG.edgeInPSLG pslg a b = true -> PSLG.edgeInPSLG pslg b a = true ->
                 is_Some (M !! (a, b)) -> is_Some (M' !! (a, b))) /\
    (PSLG.edgeInPSLG pslg w v = true -> is_Some (M' !! (v, w))).
Proof.
  induction fuel as [|f IH]; intros m M u v w m' Hi E; [discriminate|]; cbn [digCavity] in E.
  destruct (PSLG.edgeInPSLG pslg w v) eqn:Hp; [pslg_add Hi E u v w|].
  rewrite (completeMe_map hash m M w v Hi) in E.
  destruct (M !! (w, v)) as [t|] eqn:Ht; [|pslg_add Hi E u v w].
  destruct (proj1 (proj2 Hi) _ _ Ht) as (tr & Htr & Hin); rewrite Htr in E.
  destruct (third_spec tr w v Hin) as (Hedges & _); set (x := third tr w v) in *.
  destruct (negb _); [|pslg_add Hi E u v w].
  destruct (digCavity _ _ _ _ _ _ _ _ _ _) as [m2|] eqn:E2 in E; [|discriminate].
  destruct (IH _ _ _ _ _ _ (proj1 (del_tri_spec hash m M tr Hi)) E2) as (M2 & Hi2 & K2 & R2).
  destruct (IH _ _ _ _ _ _ Hi2 E) as (M3 & Hi3 & K3 & R3).
  exists M3; split; [exact Hi3|split; [|intros; congruence]].
  intros a b Hab Hba Hs; destruct (decide ((a, b) ∈ tri_edges tr)) as [Hab'|Hab'].
  - apply Hedges in Hab'; rewrite !elem_of_cons, elem_of_nil in Hab'.
    destruct Hab' as [Eq|[Eq|[Eq|[]]]]; injection Eq as -> ->; [congruence| |].
    + apply K3; [exact Hab|exact Hba|apply R2; exact Hba].
    + apply R3; exact Hba.
  - apply K3; [exact Hab|exact Hba|apply K2; [exact Hab|exact Hba|]].
    rewrite del_edges_lookup, bool_decide_eq_false_2 by exact Hab'; exact Hs.
Qed.

(** Inserting [(1/4, 1/4)] deletes the triangle [(2,1,3)], whose edge
    [(1, 3)] is a PSLG segment: the edge is in the map afterwards. *)
Lemma digCavity_keeps_pslg_witness :
  match digCavity wit_hash wit_deriv wit_sqrt wit_pslg wit_pts 10 wit_m0 4 1 2 with
  | Some m' => exists M', dig_inv wit_hash m' M' /\ is_Some (M' !! (1, 3))
  | None => False
  end.
Proof.
  destruct (digCavity wit_hash wit_deriv wit_sqrt wit_pslg wit_pts 10 wit_m0 4 1 2) as [m'|] eqn:E;
    [|vm_compute in E; discriminate].
  destruct (digCavity_keeps_pslg _ _ _ _ _ _ _ _ _ _ _ _ wit_m0_inv E) as (M' & Hi & K & _).
  exists M'; split; [exact Hi|apply K; vm_compute; [reflexivity|reflexivity|eexists; reflexivity]].
Defined.

(** (C23) [addPoint] keeps the point arrays in shape: [pts] holds
    [2*max_num_points] coordinates and [X] [max_num_points] points, with
    [num_points <= max_num_points]; when the arrays are full
    [max_num_points] doubles and the points in use are copied.  The
    point gets the index [num_points], its two coordinates are stored at
    [2*num_points] and [2*num_points+1] (inside the array, so that the
    writes land), its surface point at [X[num_points]], and the earlier
    points keep their coordinates. *)
Theorem addPoint_arrays evalPoint MAX_DEPTH N qfuel s pt s' i :
  arrays_ok s -> addPoint evalPoint MAX_DEPTH N qfuel s pt = Some (s', i) ->
  arrays_ok s' /\ i = num_points s /\ num_points s' = (num_points s + 1)%Z /\
  max_num_points s' = (if max_num_points s <=? num_points s then 2 * max_num_points s
                       else max_num_points s) /\
  pt_at (pts s') i = pt /\
  (forall j, 0 <= j < num_points s -> pt_at (pts s') j = pt_at (pts s) j) /\
  nth (Z.to_nat i) (X s') (Geom.mkPoint 0 0 0) = evalPoint (fst pt) (snd pt).
Proof.
  intros (Hl & Hx & Hn & Hm) E; unfold addPoint in E.
  destruct (Z.leb_spec (max_num_points s) (num_points s)) as [Hle|Hlt];
    destruct (QT.addNode _ _ _ _ _ _ _); inversion E; subst; clear E; unfold arrays_ok;
    cbn [pts X num_points max_num_points].
  - assert (Hg : length (grow (pts s) (Z.to_nat (2 * num_points s))
                          (Z.to_nat (2 * (2 * max_num_points s))) 0%Q)
                 = (2 * Z.to_nat (2 * max_num_points s))%nat) by (rewrite grow_length; lia).
    destruct (store_point _ (num_points s) (2 * max_num_points s) pt Hg ltac:(lia)) as (L & P & O).
    split; [split; [rewrite L, Hg; reflexivity|split; [rewrite length_insert, grow_length; lia|lia]]|].
    split; [reflexivity|split; [reflexivity|split; [reflexivity|split; [exact P|split]]]].
    + intros j Hj; rewrite O by exact Hj; unfold pt_at; rewrite !nth_grow by lia; reflexivity.
    + apply nth_insert_same; rewrite grow_length; lia.
  - destruct (store_point _ (num_points s) (max_num_points s) pt Hl ltac:(lia)) as (L & P & O).
    split; [split; [rewrite L; exact Hl|split; [rewrite length_insert; exact Hx|lia]]|].
    split; [reflexivity|split; [reflexivity|split; [reflexivity|split; [exact P|split]]]].
    + exact O.
    + apply nth_insert_same; lia.
Qed.

(** A full set of five points: [addPoint] doubles the arrays. *)
Definition wit_state : TMRTriangularize :=
  mkTZ wit_m0 wit_pts (repeat (Geom.mkPoint 0 0 0) 5) 5 5
       (QT.QLeaf 0 0 0 (1 # 2) (1 # 2) []) (QT.mkDomain 0 1 0 1) wit_pslg 0.
Definition wit_eval (a b : Q) : Geom.TMRPoint := Geom.mkPoint a b 0.

Lemma addPoint_arrays_witness :
  match addPoint wit_eval 30 4 3 wit_state (1 # 2, 1 # 4) with
  | Some (s', i) => arrays_ok s' /\ max_num_points s' = 10 /\ pt_at (pts s') i = (1 # 2, 1 # 4)
  | None => False
  end.
Proof.
  destruct (addPoint wit_eval 30 4 3 wit_state (1 # 2, 1 # 4)) as [[s' i]|] eqn:E;
    [|vm_compute in E; discriminate].
  assert (H : arrays_ok wit_state) by (vm_compute; repeat split; discriminate).
  destruct (addPoint_arrays _ _ _ _ _ _ _ _ H E) as (A & _ & _ & Mx & P & _).
  split; [exact A|split; [rewrite Mx; reflexivity|exact P]].
Defined.

(** (C19) [addPointToMesh(pt, tri)] terminates: on a state whose mesh
    satisfies the invariant of the digging for the edge map [M], with
    [tri] a stored triangle whose vertices are points already in the
    mesh, a well-formed quadtree and fuel above its height, and fuel
    above the number of edges for the digging, the insertion returns a
    state whose mesh satisfies the invariant again, with one point
    more.  The three cavity digs run one after the other on the
    measure the first deletion leaves. *)
Theorem addPointToMesh_terminates hash evalPoint evalDeriv sqrt MAX_DEPTH N fuel qfuel s pt t tr M :
  dig_inv hash (tz_mesh s) M -> tri_store (tz_mesh s) !! t = Some tr ->
  tu tr < num_points s -> tv tr < num_points s -> tw tr < num_points s ->
  QTFacts.quad_ok N (root s) -> (QTFacts.height (root s) + 3 <= qfuel)%nat -> (size M < fuel)%nat ->
  exists s' M',
    addPointToMesh_tri hash evalPoint evalDeriv sqrt MAX_DEPTH N fuel qfuel s pt (Some t) = Some s' /\
    dig_inv hash (tz_mesh s') M' /\ num_points s' = num_points s + 1.
Proof.
  intros Hi Htr Hu Hv Hw Hok Hq Hf.
  destruct (addPoint_some evalPoint MAX_DEPTH N qfuel s pt Hok Hq) as [s1 E1].
  destruct (addPoint_mesh evalPoint MAX_DEPTH N hash qfuel s pt s1 _ E1) as (_ & Hn & _ & Hst & Hd).
  unfold addPointToMesh_tri; rewrite E1, Hst, Htr; cbv zeta.
  destruct (del_tri_spec hash _ M tr (Hd M Hi)) as (Hi1 & _ & _).
  pose proof (phi_size (num_points s) (deleteTriangle hash (tz_mesh s1) tr).1 (del_edges M (tri_edges tr))).
  pose proof (del_edges_size M (tri_edges tr)).
  destruct (digCavity_measure hash evalDeriv sqrt (pslg_edges s1) (pts s1) (num_points s) fuel _ _
              (tu tr) (tv tr) Hi1 ltac:(lia) ltac:(lia) ltac:(lia)) as (m2 & M2 & E2 & Hi2 & P2).
  rewrite E2.
  destruct (digCavity_measure hash evalDeriv sqrt (pslg_edges s1) (pts s1) (num_points s) fuel _ _
              (tv tr) (tw tr) Hi2 ltac:(lia) ltac:(lia) ltac:(lia)) as (m3 & M3 & E3 & Hi3 & P3).
  rewrite E3.
  destruct (digCavity_measure hash evalDeriv sqrt (pslg_edges s1) (pts s1) (num_points s) fuel _ _
              (tw tr) (tu tr) Hi3 ltac:(lia) ltac:(lia) ltac:(lia)) as (m4 & M4 & E4 & Hi4 & _).
  rewrite E4; eexists _, M4; split; [reflexivity|split; [exact Hi4|exact Hn]].
Qed.

(** The point [(1/4, 1/4)] inserted into the triangle [(0,1,2)] of the
    square. *)
Lemma addPointToMesh_terminates_witness :
  exists s' M',
    addPointToMesh_tri wit_hash wit_eval wit_deriv wit_sqrt 30 4 (S (size wit_M0)) 3 wit_state
                       (1 # 4, 1 # 4) (Some 0%nat) = Some s' /\
    dig_inv wit_hash (tz_mesh s') M' /\ num_points s' = num_points wit_state + 1.
Proof.
  apply (addPointToMesh_terminates _ _ _ _ _ _ _ _ _ _ _ (mkTri 0 1 2 0 NO_STATUS) wit_M0);
    [exact wit_m0_inv|reflexivity|vm_compute; reflexivity ..|cbn; lia|cbn; lia|lia].
Defined.

(** (C21) The triangle [findEnclosing] returns encloses the point: every
    way out of the search that sets [*ptr] first tests [enclosed] on the
    triangle, so whatever the fuel, a node it returns is a stored
    triangle whose three edges have the point on their left or on them
    (the orientations of [orient2d] are non-negative). *)
Theorem findEnclosing_sound hash sqrt fuel s pt s' t :
  findEnclosing hash sqrt fuel s pt = Some (s', Some t) ->
  exists tr, tri_store (tz_mesh s') !! t = Some tr /\
             enclosed (pts s') pt (tu tr) (tv tr) (tw tr) = true.
Proof.
  unfold findEnclosing.
  match goal with |- context [match ?p with pair _ _ => _ end] => destruct p as [m0 tag0] end.
  destruct (pts_to_tris m0 !! _) as [t0|]; [|discriminate].
  destruct (tri_store m0 !! t0) as [tri|] eqn:Et; [|discriminate].
  destruct (enclosed _ _ _ _ _) eqn:Hen; [intros E; inversion E; subst; exists tri; auto|].
  destruct (TriQ.append _ _); [|discriminate].
  destruct (enc_loop _ _ _ _ _ _ _) as [[m2 r]|] eqn:E2; [|discriminate].
  intros E; inversion E; subst; exact (enc_loop_sound _ _ _ _ _ _ _ _ _ E2).
Qed.

(** The point [(3/4, 3/4)] of the triangle [(2,1,3)]: the walk starts
    from the triangle of point [0] and crosses the edge [(1, 2)]. *)
Lemma findEnclosing_sound_witness :
  match findEnclosing wit_hash wit_sqrt 10 wit_state (3 # 4, 3 # 4) with
  | Some (s', Some t) => t = 1%nat /\ exists tr, tri_store (tz_mesh s') !! t = Some tr /\
                           enclosed (pts s') (3 # 4, 3 # 4) (tu tr) (tv tr) (tw tr) = true
  | _ => False
  end.
Proof.
  destruct (findEnclosing wit_hash wit_sqrt 10 wit_state (3 # 4, 3 # 4)) as [[s' [t|]]|] eqn:E;
    [|vm_compute in E; discriminate ..].
  split; [vm_compute in E; congruence|exact (findEnclosing_sound _ _ _ _ _ _ _ E)].
Defined.

(** (C20) [findEnclosing] terminates: on a mesh consistent with its edge
    map, when [pts_to_tris] points at stored triangles and the point
    that the quadtree finds closest has one, the search returns (a
    triangle or [NULL]) within twice the number of stored triangles plus
    two passes of its loop, and leaves a mesh that differs only in the
    tags.  Each pass pops one triangle and appends one for each triangle
    it tags, and a triangle is tagged once. *)
Theorem findEnclosing_terminates hash sqrt fuel s pt M :
  dig_inv hash (tz_mesh s) M ->
  map_Forall (fun (_ : Z) (t : nat) => is_Some (tri_store (tz_mesh s) !! t)) (pts_to_tris (tz_mesh s)) ->
  is_Some (pts_to_tris (tz_mesh s) !! fst (QT.findClosest sqrt (root s) pt)) ->
  (2 * size (tri_store (tz_mesh s)) + 1 < fuel)%nat ->
  exists s' r, findEnclosing hash sqrt fuel s pt = Some (s', r) /\ dig_inv hash (tz_mesh s') M.
Proof.
  intros Hi Hp [t Ht] Hf; unfold findEnclosing.
  assert (exists m0 tag0, (if search_tag s =? UINT_MAX then (setTriangleTags (tz_mesh s) 0, 0)
                           else (tz_mesh s, search_tag s)) = (m0, tag0) /\ retag (tz_mesh s) m0)
    as (m0 & tag0 & -> & Hr).
  { destruct (search_tag s =? UINT_MAX); eexists _, _; (split; [reflexivity|]);
      [apply setTriangleTags_retag|apply retag_refl]. }
  pose proof Hr as (_ & _ & _ & _ & Hpt); rewrite Hpt, Ht.
  destruct (retag_stored _ _ t Hr (Hp _ _ Ht)) as [tri Htr]; rewrite Htr.
  pose proof (retag_inv _ _ _ _ Hr Hi) as Hi0.
  destruct (enclosed _ _ _ _ _); [eexists _, _; split; [reflexivity|exact Hi0]|].
  destruct (TriQFacts.append_spec _ _ _ t TriQFacts.TriQueue_new_inv) as (q & -> & Hq).
  pose proof (set_tag_retag m0 t (tag0 + 1)) as Hr1.
  pose proof (untagged_size (tag0 + 1) (set_tag m0 t (tag0 + 1))) as Hu.
  rewrite (retag_size _ _ Hr1), (retag_size _ _ Hr) in Hu.
  destruct (enc_loop_total hash M (pts s) pt (tag0 + 1) fuel _ _ _ _ (retag_inv _ _ _ _ Hr1 Hi0) Hq)
    as (m2 & r & -> & Hi2).
  - constructor; [|constructor]; apply (retag_stored _ _ _ Hr1); eexists; exact Htr.
  - cbn [length app]; lia.
  - eexists _, _; split; [reflexivity|exact Hi2].
Qed.

Lemma findEnclosing_terminates_witness :
  exists s' r, findEnclosing wit_hash wit_sqrt 10 wit_state (3 # 4, 3 # 4) = Some (s', r) /\
               dig_inv wit_hash (tz_mesh s') wit_M0.
Proof.
  apply findEnclosing_terminates; [exact wit_m0_inv| | |vm_compute; lia].
  - apply (@bool_decide_unpack _ (map_Forall_dec _ _)); vm_compute; reflexivity.
  - vm_compute; eexists; reflexivity.
Defined.

(** ** The order of the degenerate edges *)

(** Eight points, four fixed and four input points, and no triangle. *)
Definition degen_state : TMRTriangularize :=
  mkTZ mesh_init (repeat 0%Q 16) (repeat (Geom.mkPoint 0 0 0) 8) 8 8
       (QT.QLeaf 0 0 0 (1 # 2) (1 # 2) []) (QT.mkDomain 0 1 0 1) [] 0.

(** The longest prefix of [sorted] whose first numbers increase strictly
    from above [last] and stay below [n]. *)
Fixpoint cons_upto (n last : Z) (l : list (Z * Z)) : nat :=
  match l with
  | [] => O
  | e :: l' => if (last <? e.1) && (e.1 <? n) then S (cons_upto n e.1 l') else O
  end.

(** The longest prefix whose first numbers increase strictly from above
    [last]. *)
Fixpoint inc_prefix (last : Z) (l : list (Z * Z)) : nat :=
  match l with
  | [] => O
  | e :: l' => if last <? e.1 then S (inc_prefix e.1 l') else O
  end.

Lemma inc_prefix_le last l : (inc_prefix last l <= length l)%nat.
Proof.
  revert last; induction l as [|e l IH]; intros last; cbn; [lia|].
  destruct (last <? e.1); [specialize (IH e.1)|]; lia.
Qed.

Lemma cons_upto_all n last l :
  (forall e, In e l -> e.1 < n) -> cons_upto n last l = inc_prefix last l.
Proof.
  revert last; induction l as [|e l IH]; intros last H; [reflexivity|]; cbn [cons_upto inc_prefix].
  rewrite (proj2 (Z.ltb_lt e.1 n) (H e (or_introl eq_refl))), andb_true_r.
  destruct (last <? e.1); [rewrite IH by (intros; apply H; right; assumption)|]; reflexivity.
Qed.

(** Raising the bound from [n] to [n + 1] takes one more entry exactly
    when the next one has first number [n]. *)
Lemma cons_upto_succ n last l :
  last < n ->
  cons_upto (n + 1) last l =
  Nat.add (cons_upto n last l)
    (if Nat.ltb (cons_upto n last l) (length l) && Z.eqb (nth (cons_upto n last l) l (0, 0)).1 n
     then 1%nat else 0%nat).
Proof.
  revert last; induction l as [|e l IH]; intros last Hl; [reflexivity|]; cbn [cons_upto].
  destruct (Z.ltb_spec last e.1); cbn [andb].
  - destruct (Z.ltb_spec e.1 n), (Z.ltb_spec e.1 (n + 1)); cbn [andb length nth]; try lia.
    + rewrite IH by exact H0; reflexivity.
    + assert (E : e.1 = n) by lia; rewrite E, Z.eqb_refl; cbn.
      destruct l as [|e' l]; cbn [cons_upto]; [reflexivity|].
      destruct (Z.ltb_spec n e'.1), (Z.ltb_spec e'.1 (n + 1)); cbn; lia.
    + destruct (Z.eqb_spec e.1 n); [lia|]; rewrite andb_false_r; reflexivity.
  - cbn [length nth]; destruct (Z.eqb_spec e.1 n); [lia|]; rewrite andb_false_r; reflexivity.
Qed.

Lemma renum_step_rj sorted st i :
  rj (renum_step sorted st i) =
  if Nat.ltb (rj st) (length sorted) && ((nth (rj st) sorted (0, 0)).1 =? Z.of_nat i)
  then S (rj st) else rj st.
Proof.
  unfold renum_step; destruct (_ && _); [reflexivity|].
  destruct (negb _); reflexivity.
Qed.

Lemma renum_step_rcount sorted st i :
  rcount (renum_step sorted st i) =
  if Nat.ltb (rj st) (length sorted) && ((nth (rj st) sorted (0, 0)).1 =? Z.of_nat i)
  then rcount st else rcount st + 1.
Proof.
  unfold renum_step; destruct (_ && _); [reflexivity|].
  destruct (negb _); reflexivity.
Qed.

(** The renumbering loop over the points [0 .. n-1] has consumed the
    entries of [cons_upto n]; every other point got a new number. *)
Lemma renum_fold sorted n st0 :
  rj st0 = O -> rcount st0 = 0 ->
  rj (fold_left (renum_step sorted) (seq 0 n) st0) = cons_upto (Z.of_nat n) (-1) sorted /\
  rcount (fold_left (renum_step sorted) (seq 0 n) st0) =
    Z.of_nat n - Z.of_nat (cons_upto (Z.of_nat n) (-1) sorted).
Proof.
  intros Hj Hc; induction n as [|n [IHj IHc]].
  - cbn; rewrite Hj, Hc; destruct sorted as [|e l]; cbn; [split; reflexivity|].
    destruct (_ && _) eqn:E; [apply andb_true_iff in E as [E1 E2]; apply Z.ltb_lt in E1, E2; lia|split; reflexivity].
  - rewrite seq_S, fold_left_app; cbn [fold_left Nat.add].
    rewrite renum_step_rj, renum_step_rcount, IHj, IHc, Nat2Z.inj_succ, <- Z.add_1_r.
    rewrite cons_upto_succ by lia.
    destruct (_ && _); split; lia.
Qed.

(** The prefix is the whole array exactly when its first numbers
    increase strictly from above [last]. *)
Lemma inc_prefix_full last l :
  inc_prefix last l = length l <->
  Forall (fun e => last < e.1) l /\ StronglySorted (fun a b => a.1 < b.1) l.
Proof.
  revert last; induction l as [|e l IH]; intros last; cbn [inc_prefix length].
  - split; [intros _; split; constructor|reflexivity].
  - destruct (Z.ltb_spec last e.1).
    + rewrite Nat.succ_inj_wd, IH; split.
      * intros [Hf Hs]; split; [constructor; [exact H|]|constructor; [exact Hs|exact Hf]].
        eapply Forall_impl; [exact Hf|]; cbv beta; intros; lia.
      * intros [_ Hs]; inversion Hs; subst; split; assumption.
    + split; [discriminate|intros [Hf _]; inversion Hf; lia].
Qed.

(** [compare_degen_edges] on entries below [2^31]: an entry may precede
    another when their first numbers are equal or its second number is
    not larger; the first numbers are not compared. *)
Lemma compare_degen_edges_order (a b : Z * Z) :
  0 <= a.1 < 2 ^ 31 -> 0 <= a.2 < 2 ^ 31 -> 0 <= b.1 < 2 ^ 31 -> 0 <= b.2 < 2 ^ 31 ->
  (compare_degen_edges a b <= 0 <-> a.1 = b.1 \/ a.2 <= b.2).
Proof.
  destruct a as [ax ay], b as [bx by_]; cbn [fst snd]; intros; unfold compare_degen_edges.
  destruct (Z.eqb_spec ax bx); rewrite IWFacts.wrap32_id by lia; lia.
Qed.

(** (C24) The renumbering of [removeDegenerateEdges] merges only the
    longest prefix of the sorted array whose larger numbers increase:
    for every array [qsort] may leave whose entries are points of the
    mesh, the number of points afterwards is [num_points] minus the length
    of that prefix, so every degenerate edge is merged exactly when the
    larger numbers of the array increase strictly.  [compare_degen_edges]
    does not sort by them (see [compare_degen_edges_order]). *)
Theorem removeDegenerateEdges_count hash s degen sorted s' :
  0 <= num_points s ->
  (forall e, In e sorted -> 0 <= e.1 < num_points s) ->
  removeDegenerateEdges hash s degen sorted = Some s' ->
  (0 < length degen)%nat ->
  num_points s' = num_points s - Z.of_nat (inc_prefix (-1) sorted) /\
  (num_points s' = num_points s - Z.of_nat (length sorted) <->
   StronglySorted (fun a b => a.1 < b.1) sorted).
Proof.
  intros Hn He Hr Hd; unfold removeDegenerateEdges in Hr.
  rewrite (proj2 (Nat.ltb_lt 0 (length degen)) Hd) in Hr.
  destruct (fold_left _ sorted _) as [m1|]; [|discriminate].
  injection Hr as <-; cbn [num_points].
  destruct (renum_fold sorted (Z.to_nat (num_points s))
              (mkRN (repeat 0 (Z.to_nat (num_points s))) 0 0 (pts s) (X s)) eq_refl eq_refl)
    as [_ Hc].
  rewrite Hc; rewrite Znat.Z2Nat.id by exact Hn.
  rewrite (cons_upto_all _ _ sorted) by (intros e Hi; apply He, Hi).
  split; [reflexivity|].
  transitivity (inc_prefix (-1) sorted = length sorted).
  - split; intros E; [|rewrite E; reflexivity].
    pose proof (inc_prefix_le (-1) sorted); lia.
  - rewrite inc_prefix_full; split; [intros [_ H]; exact H|intros H; split; [|exact H]].
    apply List.Forall_forall; intros e Hi; specialize (He e Hi); lia.
Qed.

(** The degenerate edges [(3, 0)] and [(1, 2)] with
    [FIXED_POINT_OFFSET = 4] are the entries [(7, 4)] and [(6, 5)];
    [compare_degen_edges] puts [(7, 4)] first, and of the eight points
    seven remain where six should. *)
Lemma removeDegenerateEdges_count_witness :
  IW.qsort_spec compare_degen_edges (map (degen_entry 4) [(3, 0); (1, 2)]) [(7, 4); (6, 5)] /\
  exists s', removeDegenerateEdges wit_hash degen_state [(3, 0); (1, 2)] [(7, 4); (6, 5)] = Some s' /\
             num_points s' = 8 - Z.of_nat (inc_prefix (-1) [(7, 4); (6, 5)]) /\ num_points s' = 7.
Proof.
  split; [split; [vm_compute; apply Permutation_refl|repeat constructor; vm_compute; discriminate]|].
  destruct (removeDegenerateEdges wit_hash degen_state [(3, 0); (1, 2)] [(7, 4); (6, 5)])
    as [s'|] eqn:Hr; [|vm_compute in Hr; discriminate].
  assert (He : forall e, In e [(7, 4); (6, 5)] -> 0 <= e.1 < num_points degen_state)
    by (intros e [<-|[<-|[]]]; cbn; lia).
  destruct (removeDegenerateEdges_count wit_hash degen_state [(3, 0); (1, 2)] [(7, 4); (6, 5)] s'
              ltac:(cbn; lia) He Hr ltac:(cbn; lia)) as [Hc _].
  exists s'; split; [reflexivity|]; split; [exact Hc|rewrite Hc; reflexivity].
Defined.

End BWFacts.
