(* ===== verification/Strain.v ===== *)
(** * The strain kernel of the stress constraint

    [TMRStressConstraint] (src/src/TMRGeometry.c) evaluates the strain of
    the reconstructed displacement at a quadrature point with
    [evalStrain] (lines 4221-4345): the displacement gradient [Ud] in
    reference coordinates from the nodal values and the basis of the
    mesh ([forest->evalInterp]), the derivative [Xd] of the positions from
    the nodes of the order-elevated mesh ([interp_forest]), its inverse
    [J] and determinant ([FElibrary::jacobian3d]), the contribution of
    the enrichment coefficients [ubar], the physical gradient
    [Ux = Ud J] and the six engineering strains.  [addStrainDeriv]
    (lines 4350-4411) adds [alpha] times the derivative of a function of
    the strain, given its gradient [dfde], to the arrays [dfdu] (the
    nodal values) and [dfdubar] (the enrichment coefficients).

    [Strain] models both: [Ud] and [Xd] are accumulated by the same
    step [grad_step] the three loops share, the basis of the mesh of
    order [order] and of the elevated mesh of order [order + 1] (the
    constructor sets [interp_forest] to [order + 1], line 3557) are the
    forest model of [Interp], [jacobian3d] is the inverse of [Interp],
    and the enrichment derivatives are those of [Enrichment] for the
    orders 2 and 3.  For any other order the code fills no enrichment
    array but [getNum3dEnrich] still returns 15, so the loops read 15
    uninitialised entries of [Nar], [Nbr], [Ncr]; the model reads them
    as 0 (the [nth] default), which is one of the values the code may
    see.  [addStrainDeriv] writes its contribution into
    every entry [3 i + c] of the arrays below [3 * len], as the pointer
    walk of the code does.

    [StrainFacts] proves that [addStrainDeriv] is the adjoint of the
    strain map: with the [J] that [evalStrain] computes, the increments it
    adds to [dfdu] and [dfdubar], paired with any displacement and
    enrichment perturbation, give [alpha] times [dfde] paired with the
    strain of that perturbation; and that a rigid translation (the same
    displacement at every node and no enrichment) has zero strain,
    whatever the element's positions. *)

From Stdlib Require Import PeanoNat ZArith QArith Qring List Lia Lqa.
From S2P Require Import Prelude Enrichment Interp.
Import ListNotations.
Open Scope Q_scope.

Module Strain.
Import Forest Jac Enrich.

(** [eval2ndEnrichmentFuncs3D] or [eval3rdEnrichmentFuncs3D] at [pt],
    as [evalStrain] and [addStrainDeriv] choose them by the order. *)
Definition enrich_deriv (order : nat) (pt : Q * Q * Q) : enr3 :=
  match order with
  | 2%nat => eval2ndEnrichmentFuncs3D_deriv pt
  | 3%nat => eval3rdEnrichmentFuncs3D_deriv pt
  | _ => {| eN3 := []; eNa3 := []; eNb3 := []; eNc3 := [] |}
  end.

(** One pass of the loops that build [Ud] and [Xd]: node [i] adds
    [Na[i] * u[3i+r]], [Nb[i] * u[3i+r]], [Nc[i] * u[3i+r]] to row [r]. *)
Definition grad_step (Na Nb Nc u : list Q) (D : m9) (i : nat) : m9 :=
  let u0 := nth (3 * i) u 0 in
  let u1 := nth (3 * i + 1) u 0 in
  let u2 := nth (3 * i + 2) u 0 in
  let na := nth i Na 0 in
  let nb := nth i Nb 0 in
  let nc := nth i Nc 0 in
  mk9 (e0 D + na * u0) (e1 D + nb * u0) (e2 D + nc * u0)
      (e3 D + na * u1) (e4 D + nb * u1) (e5 D + nc * u1)
      (e6 D + na * u2) (e7 D + nb * u2) (e8 D + nc * u2).

(** The six strains [e] from the physical gradient [Ux]. *)
Definition strain_of (Ux : m9) : list Q :=
  [e0 Ux; e4 Ux; e8 Ux; e5 Ux + e7 Ux; e2 Ux + e6 Ux; e1 Ux + e3 Ux].

(** [evalStrain(pt, Xpts, vars, ubar, J, e)]: the inverse Jacobian
    [J], the strains [e] and the determinant it returns. *)
Definition evalStrain (order : nat) (pt : Q * Q * Q) (Xpts vars ubar : list Q) : m9 * list Q * Q :=
  let b := evalInterp3D_deriv (getInterpKnots order) pt in
  let Ud0 := fold_left (grad_step (iNa b) (iNb b) (iNc b) vars)
                       (seq 0 (order * order * order)) m9_zero in
  let bx := evalInterp3D_deriv (getInterpKnots (S order)) pt in
  let Xd := fold_left (grad_step (iNa bx) (iNb bx) (iNc bx) Xpts)
                      (seq 0 (S order * S order * S order)) m9_zero in
  let '(J, detJ) := jacobian3d Xd in
  let er := enrich_deriv order pt in
  let Ud := fold_left (grad_step (eNa3 er) (eNb3 er) (eNc3 er) ubar)
                      (seq 0 (getNum3dEnrich order)) Ud0 in
  (J, strain_of (m9_mul Ud J), detJ).

(** The contribution of one basis function to component [c] of the
    adjoint: [dfde] against the strains of [N e_c]. *)
Definition strain_adj (J : m9) (dfde : list Q) (na nb nc : Q) (c : nat) : Q :=
  let Dx := na * e0 J + nb * e3 J + nc * e6 J in
  let Dy := na * e1 J + nb * e4 J + nc * e7 J in
  let Dz := na * e2 J + nb * e5 J + nc * e8 J in
  let d k := nth k dfde 0 in
  match c with
  | 0%nat => d 0%nat * Dx + d 4%nat * Dz + d 5%nat * Dy
  | 1%nat => d 1%nat * Dy + d 3%nat * Dz + d 5%nat * Dx
  | _ => d 2%nat * Dz + d 3%nat * Dy + d 4%nat * Dx
  end.

(** One of the two loops of [addStrainDeriv]: [len] basis functions,
    three entries each. *)
Definition add_adj (J : m9) (alpha : Q) (dfde Na Nb Nc : list Q) (len : nat) (arr : list Q) : list Q :=
  map (fun k => nth k arr 0 +
                if Nat.ltb (Nat.div k 3) len
                then alpha * strain_adj J dfde (nth (Nat.div k 3) Na 0) (nth (Nat.div k 3) Nb 0)
                                        (nth (Nat.div k 3) Nc 0) (Nat.modulo k 3)
                else 0)
      (seq 0 (length arr)).

(** [addStrainDeriv(pt, J, alpha, dfde, dfdu, dfdubar)]: the two arrays
    afterwards. *)
Definition addStrainDeriv (order : nat) (pt : Q * Q * Q) (J : m9) (alpha : Q)
  (dfde dfdu dfdubar : list Q) : list Q * list Q :=
  let b := evalInterp3D_deriv (getInterpKnots order) pt in
  let er := enrich_deriv order pt in
  (add_adj J alpha dfde (iNa b) (iNb b) (iNc b) (order * order * order) dfdu,
   add_adj J alpha dfde (eNa3 er) (eNb3 er) (eNc3 er) (getNum3dEnrich order) dfdubar).

End Strain.

Module StrainFacts.
Import Forest Jac Enrich Strain.

(** ** Linearity of the strain in the gradient *)

(** [dfde] paired with the strains of the gradient [D]. *)
Definition lin (J : m9) (dfde : list Q) (D : m9) : Q :=
  sumQ (map (fun k => nth k dfde 0 * nth k (strain_of (m9_mul D J)) 0) (seq 0 6)).

Lemma lin_zero J dfde : lin J dfde m9_zero == 0.
Proof. unfold lin; cbn; ring. Qed.

Lemma lin_step J dfde Na Nb Nc u D i :
  lin J dfde (grad_step Na Nb Nc u D i) ==
  lin J dfde D + lin J dfde (grad_step Na Nb Nc u m9_zero i).
Proof. unfold lin, grad_step; cbn; ring. Qed.

(** The accumulation loops add one increment per node, and the paired
    strain adds up. *)
Lemma lin_fold J dfde Na Nb Nc u l : forall D,
  lin J dfde (fold_left (grad_step Na Nb Nc u) l D) ==
  lin J dfde D + sumQ (map (fun i => lin J dfde (grad_step Na Nb Nc u m9_zero i)) l).
Proof.
  induction l as [|i l IH]; intros D; cbn [fold_left map]; [unfold sumQ; cbn; ring|].
  rewrite IH, lin_step; unfold sumQ; cbn [fold_right]; ring.
Qed.

(** The increment of node [i] paired with [dfde] is what
    [addStrainDeriv] adds at the node's three entries. *)
Lemma lin_node J dfde Na Nb Nc u i :
  lin J dfde (grad_step Na Nb Nc u m9_zero i) ==
  strain_adj J dfde (nth i Na 0) (nth i Nb 0) (nth i Nc 0) 0 * nth (3 * i) u 0 +
  strain_adj J dfde (nth i Na 0) (nth i Nb 0) (nth i Nc 0) 1 * nth (3 * i + 1) u 0 +
  strain_adj J dfde (nth i Na 0) (nth i Nb 0) (nth i Nc 0) 2 * nth (3 * i + 2) u 0.
Proof. unfold lin, grad_step, strain_adj; cbn; ring. Qed.

(** The increments [add_adj] makes, paired with [du]. *)
Lemma add_adj_pair J alpha dfde Na Nb Nc n arr du :
  length arr = (3 * n)%nat ->
  sumQ (map (fun k => (nth k (add_adj J alpha dfde Na Nb Nc n arr) 0 - nth k arr 0) * nth k du 0)
            (seq 0 (3 * n))) ==
  alpha * sumQ (map (fun i => lin J dfde (grad_step Na Nb Nc du m9_zero i)) (seq 0 n)).
Proof.
  intros Hl; unfold add_adj; rewrite Hl, sumQ_seq_3, <- sumQ_map_scale.
  apply sumQ_map_ext; intros j Hj; apply in_seq in Hj.
  rewrite !nth_map_seq0 by lia; rewrite lin_node.
  replace (Nat.div (3 * j) 3) with j by (apply Nat.div_unique with 0%nat; lia).
  replace (Nat.div (3 * j + 1) 3) with j by (apply Nat.div_unique with 1%nat; lia).
  replace (Nat.div (3 * j + 2) 3) with j by (apply Nat.div_unique with 2%nat; lia).
  replace (Nat.modulo (3 * j) 3) with 0%nat by (apply Nat.mod_unique with j; lia).
  replace (Nat.modulo (3 * j + 1) 3) with 1%nat by (apply Nat.mod_unique with j; lia).
  replace (Nat.modulo (3 * j + 2) 3) with 2%nat by (apply Nat.mod_unique with j; lia).
  rewrite (proj2 (Nat.ltb_lt j n) ltac:(lia)); ring.
Qed.

(** The accumulation loops in closed form: row [r] of the result holds
    the sums of [Na], [Nb], [Nc] against the [r]-th components. *)
Definition gsum (N u : list Q) (r : nat) (l : list nat) : Q :=
  sumQ (map (fun i => nth i N 0 * nth (3 * i + r) u 0) l).

Lemma grad_fold Na Nb Nc u l : forall D,
  Jac.m9_eq (fold_left (grad_step Na Nb Nc u) l D)
    (mk9 (e0 D + gsum Na u 0 l) (e1 D + gsum Nb u 0 l) (e2 D + gsum Nc u 0 l)
         (e3 D + gsum Na u 1 l) (e4 D + gsum Nb u 1 l) (e5 D + gsum Nc u 1 l)
         (e6 D + gsum Na u 2 l) (e7 D + gsum Nb u 2 l) (e8 D + gsum Nc u 2 l)).
Proof.
  unfold gsum; induction l as [|i l IH]; intros D; cbn [fold_left map].
  - unfold m9_eq, sumQ; cbn; repeat split; ring.
  - destruct (IH (grad_step Na Nb Nc u D i)) as (H0 & H1 & H2 & H3 & H4 & H5 & H6 & H7 & H8).
    unfold m9_eq, sumQ in *; cbn in *.
    rewrite H0, H1, H2, H3, H4, H5, H6, H7, H8, !Nat.add_0_r; repeat split; ring.
Qed.

(** A sum of basis derivatives against a constant component vanishes. *)
Lemma gsum_const N u r n c :
  sumQ (map (fun i => nth i N 0) (seq 0 n)) == 0 ->
  (forall i, (i < n)%nat -> nth (3 * i + r) u 0 == c) -> gsum N u r (seq 0 n) == 0.
Proof.
  intros Hs Hu; unfold gsum.
  rewrite (sumQ_map_ext _ (fun i => nth i N 0 * c)) by (intros i Hi; apply in_seq in Hi; rewrite Hu by lia; reflexivity).
  rewrite sumQ_map_scale_r, Hs; ring.
Qed.

Lemma gsum_zero N u r l : (forall k, nth k u 0 == 0) -> gsum N u r l == 0.
Proof. intros Hu; apply sumQ_map_zero; intros i _; rewrite Hu; ring. Qed.

(** (C25) [addStrainDeriv] is the adjoint of the strain map of
    [evalStrain]: called with the Jacobian [J] that [evalStrain] returns
    for the element's positions, the amounts it adds to [dfdu] and
    [dfdubar], paired with any perturbation [du] of the nodal values and
    [dub] of the enrichment coefficients, are [alpha] times [dfde]
    paired with the strains [evalStrain] computes for that perturbation.
    This is what makes the sensitivities of [evalConDeriv] the transpose
    of the strains of [evalConstraint]. *)
Theorem addStrainDeriv_adjoint order pt Xpts vars ubar alpha dfde dfdu dfdubar du dub :
  length dfdu = (3 * (order * order * order))%nat ->
  length dfdubar = (3 * getNum3dEnrich order)%nat ->
  let '(J, _, _) := evalStrain order pt Xpts vars ubar in
  let '(_, e, _) := evalStrain order pt Xpts du dub in
  let '(dfdu', dfdubar') := addStrainDeriv order pt J alpha dfde dfdu dfdubar in
  sumQ (map (fun k => (nth k dfdu' 0 - nth k dfdu 0) * nth k du 0) (seq 0 (length dfdu))) +
  sumQ (map (fun k => (nth k dfdubar' 0 - nth k dfdubar 0) * nth k dub 0) (seq 0 (length dfdubar)))
  == alpha * sumQ (map (fun k => nth k dfde 0 * nth k e 0) (seq 0 6)).
Proof.
  intros H1 H2; unfold evalStrain, addStrainDeriv.
  destruct (jacobian3d _) as [J detJ]; cbv beta iota zeta.
  rewrite H1, H2, !add_adj_pair by assumption.
  match goal with |- _ == alpha * sumQ (map (fun k => _ * nth k (strain_of (m9_mul ?U J)) 0) _) =>
    transitivity (alpha * lin J dfde U); [|reflexivity] end.
  rewrite !lin_fold, lin_zero; ring.
Qed.

Lemma addStrainDeriv_adjoint_witness :
  (length (repeat 0 24) = (3 * (2 * 2 * 2))%nat /\ length (repeat 0 27) = (3 * getNum3dEnrich 2)%nat) /\
  (let '(J, _, _) := evalStrain 2 (0, 0, 0) (repeat 1 81) (repeat 0 24) (repeat 0 27) in
   let '(_, e, _) := evalStrain 2 (0, 0, 0) (repeat 1 81) (repeat 1 24) (repeat 2 27) in
   let '(dfdu', dfdubar') := addStrainDeriv 2 (0, 0, 0) J 3 [1; 1; 1; 1; 1; 1] (repeat 0 24) (repeat 0 27) in
   sumQ (map (fun k => (nth k dfdu' 0 - nth k (repeat 0 24) 0) * nth k (repeat 1 24) 0)
             (seq 0 (length (repeat 0 24)))) +
   sumQ (map (fun k => (nth k dfdubar' 0 - nth k (repeat 0 27) 0) * nth k (repeat 2 27) 0)
             (seq 0 (length (repeat 0 27))))
   == 3 * sumQ (map (fun k => nth k [1; 1; 1; 1; 1; 1] 0 * nth k e 0) (seq 0 6))).
Proof.
  split; [split; reflexivity|].
  apply addStrainDeriv_adjoint; reflexivity.
Defined.

(** (C26) A rigid translation has no strain: when the nodal values of
    the element are the same displacement [(c0, c1, c2)] at each of its
    [order^3] nodes and the enrichment coefficients are zero,
    [evalStrain] returns six zero strains, at every point and for every
    position of the element's nodes; the basis derivatives of the mesh
    sum to zero over the nodes the code's loop visits. *)
Theorem evalStrain_translation order pt Xpts vars ubar c0 c1 c2 :
  (2 <= order <= 6)%nat ->
  (forall i, (i < order * order * order)%nat ->
     nth (3 * i) vars 0 == c0 /\ nth (3 * i + 1) vars 0 == c1 /\ nth (3 * i + 2) vars 0 == c2) ->
  (forall k, nth k ubar 0 == 0) ->
  let '(_, e, _) := evalStrain order pt Xpts vars ubar in
  Forall (fun q => q == 0) e.
Proof.
  intros Ho Hv Hu; unfold evalStrain.
  destruct (jacobian3d _) as [J detJ]; cbv beta iota zeta.
  destruct (InterpFacts.evalInterp3D_deriv_sums order pt Ho) as (Sa & Sb & Sc).
  set (b := evalInterp3D_deriv (getInterpKnots order) pt) in *.
  set (er := enrich_deriv order pt).
  set (Ud0 := fold_left _ (seq 0 (order * order * order)) m9_zero).
  destruct (grad_fold (eNa3 er) (eNb3 er) (eNc3 er) ubar (seq 0 (getNum3dEnrich order)) Ud0)
    as (H0 & H1 & H2 & H3 & H4 & H5 & H6 & H7 & H8).
  destruct (grad_fold (iNa b) (iNb b) (iNc b) vars (seq 0 (order * order * order)) m9_zero)
    as (G0 & G1 & G2 & G3 & G4 & G5 & G6 & G7 & G8).
  fold Ud0 in G0, G1, G2, G3, G4, G5, G6, G7, G8; cbn [e0 e1 e2 e3 e4 e5 e6 e7 e8 m9_zero] in *.
  assert (Hc0 : forall i, (i < order * order * order)%nat -> nth (3 * i + 0) vars 0 == c0)
    by (intros i Hi; rewrite Nat.add_0_r; apply Hv, Hi).
  assert (Hc1 : forall i, (i < order * order * order)%nat -> nth (3 * i + 1) vars 0 == c1)
    by (intros i Hi; apply Hv, Hi).
  assert (Hc2 : forall i, (i < order * order * order)%nat -> nth (3 * i + 2) vars 0 == c2)
    by (intros i Hi; apply Hv, Hi).
  assert (Z : forall N r, gsum N ubar r (seq 0 (getNum3dEnrich order)) == 0)
    by (intros; apply gsum_zero, Hu).
  unfold strain_of, m9_mul; cbn [e0 e1 e2 e3 e4 e5 e6 e7 e8].
  repeat constructor;
    rewrite ?H0, ?H1, ?H2, ?H3, ?H4, ?H5, ?H6, ?H7, ?H8;
    rewrite ?G0, ?G1, ?G2, ?G3, ?G4, ?G5, ?G6, ?G7, ?G8, ?Z;
    rewrite ?(gsum_const _ _ _ _ _ Sa Hc0), ?(gsum_const _ _ _ _ _ Sa Hc1), ?(gsum_const _ _ _ _ _ Sa Hc2),
      ?(gsum_const _ _ _ _ _ Sb Hc0), ?(gsum_const _ _ _ _ _ Sb Hc1), ?(gsum_const _ _ _ _ _ Sb Hc2),
      ?(gsum_const _ _ _ _ _ Sc Hc0), ?(gsum_const _ _ _ _ _ Sc Hc1), ?(gsum_const _ _ _ _ _ Sc Hc2);
    ring.
Qed.

Lemma evalStrain_translation_witness :
  ((2 <= 2 <= 6)%nat /\
   (forall i, (i < 2 * 2 * 2)%nat ->
      nth (3 * i) (repeat 1 24) 0 == 1 /\ nth (3 * i + 1) (repeat 1 24) 0 == 1 /\
      nth (3 * i + 2) (repeat 1 24) 0 == 1) /\
   (forall k, nth k (repeat 0 27) 0 == 0)) /\
  (let '(_, e, _) := evalStrain 2 (1 # 2, 0, 0) (repeat 1 81) (repeat 1 24) (repeat 0 27) in
   Forall (fun q => q == 0) e).
Proof.
  assert (Hv : forall i, (i < 2 * 2 * 2)%nat ->
      nth (3 * i) (repeat 1 24) 0 == 1 /\ nth (3 * i + 1) (repeat 1 24) 0 == 1 /\
      nth (3 * i + 2) (repeat 1 24) 0 == 1)
    by (intros i Hi; rewrite !nth_repeat_lt by lia; repeat split; reflexivity).
  assert (Hu : forall k, nth k (repeat 0 27) 0 == 0)
    by (intros k; destruct (Nat.lt_ge_cases k 27); [rewrite nth_repeat_lt by lia|rewrite nth_overflow by (rewrite repeat_length; lia)]; reflexivity).
  split; [split; [lia|split; assumption]|].
  apply (evalStrain_translation 2 _ _ _ _ 1 1 1); [lia|exact Hv|exact Hu].
Defined.

End StrainFacts.
